(** * lua-avro: the legacy Lua binding [src/avro/legacy/avro.c]

    A shallow embedding of the Lua/C binding of Avro values, schemas,
    iterators and resolved writers, together with a model of the parts of
    the Avro C library (avro-c) the binding calls.

    The file has two halves: the definitions (the embedding), then the
    theorems about them.  avro-c itself is not part of the binding's
    sources; every definition that stands for an avro-c function says so
    in its doc comment ([Modelled from the spec: ...]) and follows the
    specification of the value interface, the binary codec and the
    resolver. *)

From Stdlib Require Import ZArith List String Ascii Bool Lia PeanoNat.
From Stdlib Require Import DecimalString.
Import ListNotations.
Local Open Scope string_scope.
Local Open Scope list_scope.
Local Open Scope Z_scope.

Set Implicit Arguments.
#[local] Set Warnings "-register-all".

(** ** C integers

    The binding is compiled for an LP64 target: [int] is 32 bits,
    [size_t], [ptrdiff_t] (Lua 5.1's [lua_Integer]) and [int64_t] are 64
    bits.  A C integer is a [Z]; conversions write the wrap-around out. *)

Module CInt.

Definition wrap_unsigned (w : Z) (z : Z) : Z := z mod 2 ^ w.

Definition wrap_signed (w : Z) (z : Z) : Z :=
  (z + 2 ^ (w - 1)) mod 2 ^ w - 2 ^ (w - 1).

Definition to_int (z : Z) : Z := wrap_signed 32 z.
Definition to_int64 (z : Z) : Z := wrap_signed 64 z.
Definition to_size_t (z : Z) : Z := wrap_unsigned 64 z.

Definition INT32_MIN : Z := - 2 ^ 31.
Definition INT32_MAX : Z := 2 ^ 31 - 1.
Definition INT64_MIN : Z := - 2 ^ 63.
Definition INT64_MAX : Z := 2 ^ 63 - 1.

Definition in_int32 (z : Z) : bool := (INT32_MIN <=? z) && (z <=? INT32_MAX).
Definition in_int64 (z : Z) : bool := (INT64_MIN <=? z) && (z <=? INT64_MAX).

End CInt.

(** ** Bytes

    A byte is an [ascii] (eight bits); a C buffer is a list of them and a
    Lua string is a [string], which may hold any byte, NUL included. *)

Definition bytes := list ascii.

Definition byte_of_Z (z : Z) : ascii := ascii_of_N (Z.to_N (z mod 256)).
Definition Z_of_byte (a : ascii) : Z := Z.of_N (N_of_ascii a).

Definition NUL : ascii := byte_of_Z 0.

(** A region of C memory, by the byte at each offset. *)
Definition memory : Type := nat -> ascii.

Definition write_memory (out : bytes) (m : memory) : memory :=
  fun i => nth i out (m i).

Definition read_memory (m : memory) (n : nat) : bytes := map m (seq 0 n).

Definition bytes_of_string (s : string) : bytes := list_ascii_of_string s.
Definition string_of_bytes (b : bytes) : string := string_of_list_ascii b.

(** The C string a [const char *] to the bytes of a Lua string denotes:
    the bytes before the first NUL. *)
Fixpoint c_str (s : string) : string :=
  match s with
  | EmptyString => EmptyString
  | String a rest => if Ascii.eqb a NUL then EmptyString else String a (c_str rest)
  end.

(** ** IEEE-754 binary formats

    [float] and [double] payloads are kept as their bit patterns.  The
    conversions C performs between integers, [float] and [double] are
    written on the unpacked form (sign, significand, exponent) with
    round-to-nearest-even. *)

Module IEEE.

Inductive unpacked : Type :=
| FZero (s : bool)
| FInf (s : bool)
| FNaN
| FFinite (s : bool) (m : Z) (e : Z).   (* (-1)^s * m * 2^e, 0 < m *)

Section Format.
Variables (mbits ebits : Z).           (* 23, 8 and 52, 11 *)

Definition bias : Z := 2 ^ (ebits - 1) - 1.
Definition emin_lsb : Z := 1 - bias - mbits.

Definition unpack (bits : Z) : unpacked :=
  let s := Z.testbit bits (mbits + ebits) in
  let ef := Z.land (Z.shiftr bits mbits) (2 ^ ebits - 1) in
  let mf := Z.land bits (2 ^ mbits - 1) in
  if ef =? 2 ^ ebits - 1 then (if mf =? 0 then FInf s else FNaN)
  else if ef =? 0 then (if mf =? 0 then FZero s else FFinite s mf emin_lsb)
  else FFinite s (mf + 2 ^ mbits) (ef - bias - mbits).

(** [m / 2^k] rounded to nearest, ties to even ([0 < k]). *)
Definition rne_shift (m k : Z) : Z :=
  let q := Z.shiftr m k in
  let r := m - Z.shiftl q k in
  let half := 2 ^ (k - 1) in
  if (r >? half) || ((r =? half) && Z.odd q) then q + 1 else q.

Definition sign_bit (s : bool) : Z := if s then 2 ^ (mbits + ebits) else 0.

Definition pack (c : unpacked) : Z :=
  match c with
  | FZero s => sign_bit s
  | FInf s => sign_bit s + Z.shiftl (2 ^ ebits - 1) mbits
  | FNaN => Z.shiftl (2 ^ ebits - 1) mbits + 2 ^ (mbits - 1)
  | FFinite s m e =>
      let len := Z.log2 m + 1 in
      let e_lsb := Z.max (e + len - (mbits + 1)) emin_lsb in
      let sig := if e_lsb <=? e then Z.shiftl m (e - e_lsb)
                 else rne_shift m (e_lsb - e) in
      let e_lsb' := if sig =? 2 ^ (mbits + 1) then e_lsb + 1 else e_lsb in
      let sig' := if sig =? 2 ^ (mbits + 1) then 2 ^ mbits else sig in
      if sig' <? 2 ^ mbits then sign_bit s + sig'
      else
        let ef := e_lsb' + bias + mbits in
        if ef >=? 2 ^ ebits - 1
        then sign_bit s + Z.shiftl (2 ^ ebits - 1) mbits
        else sign_bit s + Z.shiftl ef mbits + (sig' - 2 ^ mbits)
  end.
End Format.

Definition unpack32 := unpack 23 8.
Definition pack32 := pack 23 8.
Definition unpack64 := unpack 52 11.
Definition pack64 := pack 52 11.

Definition of_Z (z : Z) : unpacked :=
  if z =? 0 then FZero false else FFinite (z <? 0) (Z.abs z) 0.

(** [(float) z], [(double) z], [(double) f] and [(float) d]. *)
Definition float_of_Z (z : Z) : Z := pack32 (of_Z z).
Definition double_of_Z (z : Z) : Z := pack64 (of_Z z).
Definition double_of_float (f : Z) : Z := pack64 (unpack32 f).
Definition float_of_double (d : Z) : Z := pack32 (unpack64 d).

(** The integer a finite value denotes, when it denotes one. *)
Definition integral (c : unpacked) : option Z :=
  match c with
  | FZero false => Some 0
  | FFinite s m e =>
      if e >=? 0 then Some ((if s then -1 else 1) * Z.shiftl m e)
      else if Z.land m (2 ^ (- e) - 1) =? 0
           then Some ((if s then -1 else 1) * Z.shiftr m (- e))
           else None
  | _ => None
  end.

(** [(ptrdiff_t) d]: truncation toward zero; what the conversion of a
    NaN, an infinity or a value out of range yields is the x86-64
    "integer indefinite" value. *)
Definition trunc (c : unpacked) : Z :=
  match c with
  | FZero _ => 0
  | FFinite s m e =>
      let a := if e >=? 0 then Z.shiftl m e else Z.shiftr m (- e) in
      let z := if s then - a else a in
      if CInt.in_int64 z then z else CInt.INT64_MIN
  | _ => CInt.INT64_MIN
  end.

End IEEE.

(** ** The Avro data model

    Modelled from the spec: the schema tree and the generic value of
    avro-c (sections 3 and 4.1).  A schema is a tree; a link names the
    record it refers to and is resolved in the table of named schemas.  A
    generic value is the state of a value: the tree of its contents. *)

Inductive avro_type_t : Type :=
| AVRO_STRING | AVRO_BYTES | AVRO_INT32 | AVRO_INT64 | AVRO_FLOAT
| AVRO_DOUBLE | AVRO_BOOLEAN | AVRO_NULL | AVRO_RECORD | AVRO_ENUM
| AVRO_FIXED | AVRO_MAP | AVRO_ARRAY | AVRO_UNION | AVRO_LINK.

Inductive value : Type :=
| VNull
| VBoolean (b : bool)
| VInt (i : Z)
| VLong (l : Z)
| VFloat (bits : Z)
| VDouble (bits : Z)
| VBytes (buf : string)
| VString (str : string)      (* the text; in memory a NUL follows it *)
| VFixed (buf : string)
| VEnum (symbol : nat)
| VArray (elements : list value)
| VMap (entries : list (string * value))
| VRecord (fields : list value)
| VUnset                      (* a union with no branch selected *)
| VUnion (discriminant : nat) (branch : value).

Inductive schema : Type :=
| SNull | SBoolean | SInt | SLong | SFloat | SDouble | SBytes | SString
| SFixed (name : string) (size : nat)
| SEnum (name : string) (symbols : list string)
| SArray (items : schema)
| SMap (values : schema)
| SRecord (name : string) (fields : list (string * schema * option value))
| SUnion (branches : list schema)
| SLink (target : string).

Definition field : Type := (string * schema * option value)%type.
Definition fname (f : field) : string := fst (fst f).
Definition ftype (f : field) : schema := snd (fst f).
Definition fdefault (f : field) : option value := snd f.

(** The named schemas a link can refer to. *)
Definition schema_env : Type := list (string * schema).

Fixpoint lookup {A : Type} (k : string) (l : list (string * A)) : option A :=
  match l with
  | [] => None
  | (k', a) :: rest => if String.eqb k k' then Some a else lookup k rest
  end.

Fixpoint index_of (k : string) (l : list string) : option nat :=
  match l with
  | [] => None
  | k' :: rest =>
      if String.eqb k k' then Some O else option_map S (index_of k rest)
  end.

Fixpoint follow_links (n : nat) (env : schema_env) (s : schema) : schema :=
  match n, s with
  | S k, SLink t =>
      match lookup t env with
      | Some s' => follow_links k env s'
      | None => s
      end
  | _, _ => s
  end.

(** [avro_schema_link_target], iterated: the schema a link stands for. *)
Definition resolve (env : schema_env) (s : schema) : schema :=
  follow_links (List.length env) env s.

Definition avro_typeof (s : schema) : avro_type_t :=
  match s with
  | SNull => AVRO_NULL | SBoolean => AVRO_BOOLEAN
  | SInt => AVRO_INT32 | SLong => AVRO_INT64
  | SFloat => AVRO_FLOAT | SDouble => AVRO_DOUBLE
  | SBytes => AVRO_BYTES | SString => AVRO_STRING
  | SFixed _ _ => AVRO_FIXED | SEnum _ _ => AVRO_ENUM
  | SArray _ => AVRO_ARRAY | SMap _ => AVRO_MAP
  | SRecord _ _ => AVRO_RECORD | SUnion _ => AVRO_UNION
  | SLink _ => AVRO_LINK
  end.

(** [avro_schema_type_name]: the name a union branch is selected by, a
    [const char *]. *)
Definition avro_schema_type_name (s : schema) : string :=
  match s with
  | SNull => "null" | SBoolean => "boolean"
  | SInt => "int" | SLong => "long"
  | SFloat => "float" | SDouble => "double"
  | SBytes => "bytes" | SString => "string"
  | SFixed n _ => c_str n | SEnum n _ => c_str n | SRecord n _ => c_str n
  | SArray _ => "array" | SMap _ => "map" | SUnion _ => "union"
  | SLink n => c_str n
  end.

(** Error kinds (section 7 of the spec, with the interface errors of
    section 4.1) and the text [avro_strerror] reports for each. *)
Inductive avro_error : Type :=
| TypeMismatch | OutOfRange | NotScalar | NotSized | NotUnion
| IndexOutOfBounds | NoSuchField | NoSuchBranch
| SchemaMismatch | SchemaIncompatible
| BufferTooSmall | Truncated | InvalidEncoding | OutOfMemory
| TooDeep.     (* not an error of avro-c: the recursion ran out of C stack *)

Definition avro_strerror (e : avro_error) : string :=
  match e with
  | TypeMismatch => "TypeMismatch" | OutOfRange => "OutOfRange"
  | NotScalar => "NotScalar" | NotSized => "NotSized"
  | NotUnion => "NotUnion" | IndexOutOfBounds => "IndexOutOfBounds"
  | NoSuchField => "NoSuchField" | NoSuchBranch => "NoSuchBranch"
  | SchemaMismatch => "SchemaMismatch"
  | SchemaIncompatible => "SchemaIncompatible"
  | BufferTooSmall => "BufferTooSmall" | Truncated => "Truncated"
  | InvalidEncoding => "InvalidEncoding" | OutOfMemory => "OutOfMemory"
  | TooDeep => "TooDeep"
  end.

(** An avro-c call returns 0 and its results, or an error code. *)
Inductive result (A : Type) : Type :=
| Ok (a : A)
| Err (e : avro_error).
Arguments Ok {A} a.
Arguments Err {A} e.

Definition rbind {A B : Type} (c : result A) (k : A -> result B) : result B :=
  match c with
  | Ok a => k a
  | Err e => Err e
  end.

Declare Scope result_scope.
Delimit Scope result_scope with result.
Notation "x <- c ;; k" := (rbind c (fun x => k))
  (at level 61, c at next level, right associativity) : result_scope.
Notation "' p <- c ;; k" := (rbind c (fun x => let p := x in k))
  (at level 61, p pattern, c at next level, right associativity) : result_scope.
Local Open Scope result_scope.

Fixpoint rmap {A B : Type} (f : A -> result B) (l : list A) : result (list B) :=
  match l with
  | [] => Ok []
  | a :: rest =>
      b <- f a ;;
      bs <- rmap f rest ;;
      Ok (b :: bs)
  end.

Fixpoint forall2b {A B : Type} (p : A -> B -> bool) (l : list A) (m : list B)
  : bool :=
  match l, m with
  | [], [] => true
  | a :: l', b :: m' => p a b && forall2b p l' m'
  | _, _ => false
  end.

(** ** The binary wire format (section 6 of the spec) *)

Module Wire.

Definition zigzag (z : Z) : Z := if z <? 0 then - 2 * z - 1 else 2 * z.
Definition unzigzag (n : Z) : Z :=
  if Z.even n then n / 2 else - ((n + 1) / 2).

(** Seven payload bits per byte, low to high; the high bit is set on all
    but the final byte.  Ten bytes hold 64 bits. *)
Fixpoint varint (fuel : nat) (n : Z) : bytes :=
  match fuel with
  | O => []
  | S k =>
      if n <? 128 then [byte_of_Z n]
      else byte_of_Z (n mod 128 + 128) :: varint k (n / 128)
  end.

Fixpoint unvarint (fuel : nat) (bs : bytes) : result (Z * bytes) :=
  match fuel with
  | O => Err InvalidEncoding
  | S k =>
      match bs with
      | [] => Err Truncated
      | b :: rest =>
          let v := Z_of_byte b in
          if v <? 128 then Ok (v, rest)
          else
            '(hi, rest') <- unvarint k rest ;;
            Ok (v - 128 + 128 * hi, rest')
      end
  end.

Definition write_long (z : Z) : bytes := varint 10 (zigzag z).

Definition read_long (bs : bytes) : result (Z * bytes) :=
  '(n, rest) <- unvarint 10 bs ;;
  if n <? 2 ^ 64 then Ok (unzigzag n, rest) else Err InvalidEncoding.

Definition read_int (bs : bytes) : result (Z * bytes) :=
  '(z, rest) <- read_long bs ;;
  if CInt.in_int32 z then Ok (z, rest) else Err InvalidEncoding.

(** A count or an index: a [long] that must not be negative. *)
Definition read_count (bs : bytes) : result (nat * bytes) :=
  '(z, rest) <- read_long bs ;;
  if z <? 0 then Err InvalidEncoding else Ok (Z.to_nat z, rest).

(** Little-endian fixed-width words, for [float] and [double]. *)
Fixpoint write_le (k : nat) (z : Z) : bytes :=
  match k with
  | O => []
  | S k' => byte_of_Z z :: write_le k' (z / 256)
  end.

Fixpoint read_le (k : nat) (bs : bytes) : result (Z * bytes) :=
  match k with
  | O => Ok (0, bs)
  | S k' =>
      match bs with
      | [] => Err Truncated
      | b :: rest =>
          '(hi, rest') <- read_le k' rest ;;
          Ok (Z_of_byte b + 256 * hi, rest')
      end
  end.

Definition read_raw (n : nat) (bs : bytes) : result (string * bytes) :=
  if (List.length bs <? n)%nat then Err Truncated
  else Ok (string_of_bytes (firstn n bs), skipn n bs).

Definition write_bytes (s : string) : bytes :=
  write_long (Z.of_nat (String.length s)) ++ bytes_of_string s.

Definition read_bytes (bs : bytes) : result (string * bytes) :=
  '(n, rest) <- read_count bs ;;
  read_raw n rest.

Definition write_boolean (b : bool) : bytes :=
  [byte_of_Z (if b then 1 else 0)].

Definition read_boolean (bs : bytes) : result (bool * bytes) :=
  match bs with
  | [] => Err Truncated
  | b :: rest =>
      if Z_of_byte b =? 0 then Ok (false, rest)
      else if Z_of_byte b =? 1 then Ok (true, rest)
      else Err InvalidEncoding
  end.

(** Arrays and maps: blocks of a count and that many items, ended by a
    zero count; an empty container is the zero count alone. *)
Definition write_blocks (items : list bytes) : bytes :=
  match items with
  | [] => write_long 0
  | _ => write_long (Z.of_nat (List.length items)) ++ List.concat items ++ write_long 0
  end.

Section Items.
Variable A : Type.
Variable item : bytes -> result (A * bytes).

Fixpoint read_items (n : nat) (bs : bytes) : result (list A * bytes) :=
  match n with
  | O => Ok ([], bs)
  | S k =>
      '(x, rest) <- item bs ;;
      '(xs, rest') <- read_items k rest ;;
      Ok (x :: xs, rest')
  end.

(** Every block takes at least the byte of its count, so the length
    of the input bounds the number of blocks. *)
Fixpoint read_blocks_loop (fuel : nat) (bs : bytes) : result (list A * bytes) :=
  match fuel with
  | O => Err Truncated
  | S k =>
      '(c, rest) <- read_count bs ;;
      match c with
      | O => Ok ([], rest)
      | _ =>
          '(xs, rest1) <- read_items c rest ;;
          '(ys, rest2) <- read_blocks_loop k rest1 ;;
          Ok (xs ++ ys, rest2)
      end
  end.

Definition read_blocks (bs : bytes) : result (list A * bytes) :=
  read_blocks_loop (S (List.length bs)) bs.
End Items.

End Wire.

(** ** Generic values *)

(** [add] on a map: a new entry goes last, a duplicate key replaces. *)
Fixpoint map_add (k : string) (v : value) (m : list (string * value))
  : list (string * value) :=
  match m with
  | [] => [(k, v)]
  | (k', v') :: rest =>
      if String.eqb k k' then (k, v) :: rest else (k', v') :: map_add k v rest
  end.

Fixpoint map_index (k : string) (m : list (string * value)) : option nat :=
  match m with
  | [] => None
  | (k', _) :: rest =>
      if String.eqb k k' then Some O else option_map S (map_index k rest)
  end.

Fixpoint find_field (k : string) (fs : list field) : option (nat * field) :=
  match fs with
  | [] => None
  | f :: rest =>
      if String.eqb k (fname f) then Some (O, f)
      else option_map (fun '(i, g) => (S i, g)) (find_field k rest)
  end.

(** [reset]: the empty state of the value's type: zero scalars, empty
    arrays and maps, every field of a record reset, an unset union. *)
Fixpoint reset_value (v : value) : value :=
  match v with
  | VNull => VNull
  | VBoolean _ => VBoolean false
  | VInt _ => VInt 0
  | VLong _ => VLong 0
  | VFloat _ => VFloat 0
  | VDouble _ => VDouble 0
  | VBytes _ => VBytes ""
  | VString _ => VString ""
  | VFixed b => VFixed (string_of_bytes (repeat NUL (String.length b)))
  | VEnum _ => VEnum 0
  | VArray _ => VArray []
  | VMap _ => VMap []
  | VRecord fs => VRecord (map reset_value fs)
  | VUnset => VUnset
  | VUnion _ _ => VUnset
  end.

(** [avro_generic_value_new]: the state of a fresh value of a schema. *)
Fixpoint new_value (fuel : nat) (env : schema_env) (s : schema) : result value :=
  match fuel with
  | O => Err TooDeep
  | S f =>
      match resolve env s with
      | SNull => Ok VNull
      | SBoolean => Ok (VBoolean false)
      | SInt => Ok (VInt 0)
      | SLong => Ok (VLong 0)
      | SFloat => Ok (VFloat 0)
      | SDouble => Ok (VDouble 0)
      | SBytes => Ok (VBytes "")
      | SString => Ok (VString "")
      | SFixed _ n => Ok (VFixed (string_of_bytes (repeat NUL n)))
      | SEnum _ _ => Ok (VEnum 0)
      | SArray _ => Ok (VArray [])
      | SMap _ => Ok (VMap [])
      | SRecord _ fs =>
          vs <- rmap (fun fd => new_value f env (ftype fd)) fs ;;
          Ok (VRecord vs)
      | SUnion _ => Ok VUnset
      | SLink _ => Err SchemaIncompatible
      end
  end.

Fixpoint schema_size (s : schema) : nat :=
  match s with
  | SArray i => S (schema_size i)
  | SMap v => S (schema_size v)
  | SRecord _ fs =>
      S (fold_right (fun f n => (schema_size (ftype f) + n)%nat) O fs)
  | SUnion bs =>
      S (fold_right (fun b n => (schema_size b + n)%nat) O bs)
  | _ => 1%nat
  end.

Definition env_size (env : schema_env) : nat :=
  fold_right (fun e n => (schema_size (snd e) + n)%nat) O env.

(** A fresh value nests no deeper than the schema and the named schemas
    are large: a record that is met again below itself has no finite
    fresh state. *)
Definition avro_generic_value_new (env : schema_env) (s : schema) : result value :=
  new_value (S (schema_size s + env_size env)) env s.

(** Whether a state is a complete value of a schema: what the codec can
    write and what it yields when it reads.  Lengths, counts and indices
    are those C can hold. *)
Fixpoint nodup_keys (l : list string) : bool :=
  match l with
  | [] => true
  | k :: rest => negb (existsb (String.eqb k) rest) && nodup_keys rest
  end.

Definition fits (n : nat) : bool := Z.of_nat n <=? CInt.INT64_MAX.

Fixpoint has_type (env : schema_env) (v : value) (s : schema) {struct v} : bool :=
  match v, resolve env s with
  | VNull, SNull => true
  | VBoolean _, SBoolean => true
  | VInt i, SInt => CInt.in_int32 i
  | VLong l, SLong => CInt.in_int64 l
  | VFloat f, SFloat => (0 <=? f) && (f <? 2 ^ 32)
  | VDouble d, SDouble => (0 <=? d) && (d <? 2 ^ 64)
  | VBytes b, SBytes => fits (String.length b)
  | VString b, SString => fits (String.length b)
  | VFixed b, SFixed _ n => (String.length b =? n)%nat
  | VEnum i, SEnum _ syms => (i <? List.length syms)%nat && fits i
  | VArray es, SArray it =>
      fits (List.length es) && forallb (fun e => has_type env e it) es
  | VMap kvs, SMap vs =>
      fits (List.length kvs) &&
      nodup_keys (map fst kvs) &&
      forallb (fun kv => fits (String.length (fst kv)) && has_type env (snd kv) vs) kvs
  | VRecord vs, SRecord _ fs =>
      forall2b (fun e f => has_type env e (ftype f)) vs fs
  | VUnion d b, SUnion bs =>
      fits d &&
      match nth_error bs d with
      | Some s' => has_type env b s'
      | None => false
      end
  | _, _ => false
  end.

(** ** The binary codec and the resolver

    Modelled from the spec: [avro_value_sizeof], [avro_value_write],
    [avro_value_read] and the resolved writer of avro-c, which are not
    part of the binding's sources (sections 4.4, 4.5 and 6). *)

Module Codec.
Import Wire.

(** The encoding of a value, by structural recursion. *)
Fixpoint encode (v : value) : bytes :=
  match v with
  | VNull => []
  | VBoolean b => write_boolean b
  | VInt i => write_long i
  | VLong l => write_long l
  | VFloat f => write_le 4 f
  | VDouble d => write_le 8 d
  | VBytes b => write_bytes b
  | VString s => write_bytes s
  | VFixed b => bytes_of_string b
  | VEnum i => write_long (Z.of_nat i)
  | VArray es => write_blocks (map encode es)
  | VMap kvs =>
      write_blocks (map (fun kv => write_bytes (fst kv) ++ encode (snd kv)) kvs)
  | VRecord fs => List.concat (map encode fs)
  | VUnset => []
  | VUnion d b => write_long (Z.of_nat d) ++ encode b
  end.

(** A value with an unset union somewhere has no encoding. *)
Fixpoint complete (v : value) : bool :=
  match v with
  | VUnset => false
  | VArray es => forallb complete es
  | VMap kvs => forallb (fun kv => complete (snd kv)) kvs
  | VRecord fs => forallb complete fs
  | VUnion _ b => complete b
  | _ => true
  end.

(** The encoded size, by structural recursion: the length of a
    variable-length integer depends on its magnitude. *)
Fixpoint size_varint (fuel : nat) (n : Z) : Z :=
  match fuel with
  | O => 0
  | S k => if n <? 128 then 1 else 1 + size_varint k (n / 128)
  end.

Definition size_long (z : Z) : Z := size_varint 10 (zigzag z).

Definition size_bytes (s : string) : Z :=
  size_long (Z.of_nat (String.length s)) + Z.of_nat (String.length s).

Definition size_blocks (items : list Z) : Z :=
  match items with
  | [] => size_long 0
  | _ => size_long (Z.of_nat (List.length items))
         + fold_right Z.add 0 items + size_long 0
  end.

Fixpoint sizeof (v : value) : Z :=
  match v with
  | VNull => 0
  | VBoolean _ => 1
  | VInt i => size_long i
  | VLong l => size_long l
  | VFloat _ => 4
  | VDouble _ => 8
  | VBytes b => size_bytes b
  | VString s => size_bytes s
  | VFixed b => Z.of_nat (String.length b)
  | VEnum i => size_long (Z.of_nat i)
  | VArray es => size_blocks (map sizeof es)
  | VMap kvs =>
      size_blocks (map (fun kv => size_bytes (fst kv) + sizeof (snd kv)) kvs)
  | VRecord fs => fold_right Z.add 0 (map sizeof fs)
  | VUnset => 0
  | VUnion d b => size_long (Z.of_nat d) + sizeof b
  end.

Definition avro_value_sizeof (v : value) : result Z :=
  if complete v then Ok (sizeof v) else Err NoSuchBranch.

(** [avro_writer_memory (buf, len)] followed by [avro_value_write]: the
    encoding is written at the start of the buffer, which must hold it;
    the bytes behind it are left as they were. *)
Definition avro_value_write (buf : memory) (len : Z) (v : value) : result memory :=
  if complete v then
    let out := encode v in
    if Z.of_nat (List.length out) <=? len
    then Ok (write_memory out buf)
    else Err BufferTooSmall
  else Err NoSuchBranch.

Section Fields.
(** The fields of a record, read in declared order. *)
Variable dec : schema -> bytes -> result (value * bytes).

Fixpoint read_fields (fs : list field) (bs : bytes)
  : result (list value * bytes) :=
  match fs with
  | [] => Ok ([], bs)
  | fd :: more =>
      '(v, r1) <- dec (ftype fd) bs ;;
      '(vs, r2) <- read_fields more r1 ;;
      Ok (v :: vs, r2)
  end.

(** The fields of a writer record read for a reader record: a field
    the reader has, by name, is read for it; any other is read and
    discarded. *)
Variable rdec : schema -> schema -> bytes -> result (value * bytes).
Variable rfs : list field.

Fixpoint read_resolved_fields (wfs : list field) (bs : bytes)
  : result (list (string * value) * bytes) :=
  match wfs with
  | [] => Ok ([], bs)
  | wf :: more =>
      match find_field (fname wf) rfs with
      | Some (_, rf) =>
          '(v, r1) <- rdec (ftype wf) (ftype rf) bs ;;
          '(g, r2) <- read_resolved_fields more r1 ;;
          Ok ((fname wf, v) :: g, r2)
      | None =>
          '(_, r1) <- dec (ftype wf) bs ;;
          read_resolved_fields more r1
      end
  end.
End Fields.

Definition map_of_entries (kvs : list (string * value)) : list (string * value) :=
  fold_left (fun m kv => map_add (fst kv) (snd kv) m) kvs [].

(** Decoding under one schema: the structural inverse of [encode]. *)
Fixpoint decode (fuel : nat) (env : schema_env) (s : schema) (bs : bytes)
  {struct fuel} : result (value * bytes) :=
  match fuel with
  | O => Err TooDeep
  | S f =>
      match resolve env s with
      | SNull => Ok (VNull, bs)
      | SBoolean => '(b, r) <- read_boolean bs ;; Ok (VBoolean b, r)
      | SInt => '(i, r) <- read_int bs ;; Ok (VInt i, r)
      | SLong => '(l, r) <- read_long bs ;; Ok (VLong l, r)
      | SFloat => '(x, r) <- read_le 4 bs ;; Ok (VFloat x, r)
      | SDouble => '(x, r) <- read_le 8 bs ;; Ok (VDouble x, r)
      | SBytes => '(b, r) <- read_bytes bs ;; Ok (VBytes b, r)
      | SString => '(b, r) <- read_bytes bs ;; Ok (VString b, r)
      | SFixed _ n => '(b, r) <- read_raw n bs ;; Ok (VFixed b, r)
      | SEnum _ syms =>
          '(i, r) <- read_count bs ;;
          if (i <? List.length syms)%nat then Ok (VEnum i, r)
          else Err InvalidEncoding
      | SArray it =>
          '(es, r) <- read_blocks (decode f env it) bs ;;
          Ok (VArray es, r)
      | SMap vs =>
          '(kvs, r) <- read_blocks
                         (fun b => '(k, r1) <- read_bytes b ;;
                                   '(v, r2) <- decode f env vs r1 ;;
                                   Ok ((k, v), r2)) bs ;;
          Ok (VMap (map_of_entries kvs), r)
      | SRecord _ fs =>
          '(vs, r) <- read_fields (decode f env) fs bs ;;
          Ok (VRecord vs, r)
      | SUnion brs =>
          '(d, r) <- read_count bs ;;
          match nth_error brs d with
          | Some b => '(v, r') <- decode f env b r ;; Ok (VUnion d v, r')
          | None => Err InvalidEncoding
          end
      | SLink _ => Err SchemaIncompatible
      end
  end.

(** *** Resolution of a writer schema against a reader schema *)

(** Whether a resolution plan exists.  A pair of schemas that is met
    again below itself (recursive types) is taken as resolved, which
    the exhausted depth stands for. *)
Fixpoint resolves (fuel : nat) (env : schema_env) (w r : schema)
  {struct fuel} : bool :=
  match fuel with
  | O => true
  | S f =>
      match resolve env w, resolve env r with
      | SLink _, _ => false
      | _, SLink _ => false
      | SUnion _, _ => true
      | w', SUnion rbs => existsb (resolves f env w') rbs
      | SNull, SNull => true
      | SBoolean, SBoolean => true
      | SInt, (SInt | SLong | SFloat | SDouble) => true
      | SLong, (SLong | SFloat | SDouble) => true
      | SFloat, (SFloat | SDouble) => true
      | SDouble, SDouble => true
      | SBytes, (SBytes | SString) => true
      | SString, (SString | SBytes) => true
      | SFixed wn ws, SFixed rn rs => String.eqb wn rn && (ws =? rs)%nat
      | SEnum _ _, SEnum _ _ => true
      | SArray wi, SArray ri => resolves f env wi ri
      | SMap wv, SMap rv => resolves f env wv rv
      | SRecord _ wfs, SRecord _ rfs =>
          forallb (fun wf =>
                     match find_field (fname wf) rfs with
                     | Some (_, rf) => resolves f env (ftype wf) (ftype rf)
                     | None => true
                     end) wfs
          && forallb (fun rf =>
                        match find_field (fname rf) wfs with
                        | Some _ => true
                        | None => match fdefault rf with
                                  | Some _ => true
                                  | None => false
                                  end
                        end) rfs
      | _, _ => false
      end
  end.

Definition resolution_depth (env : schema_env) (w r : schema) : nat :=
  S ((schema_size w + env_size env) * (schema_size r + env_size env)).

Definition resolvable (env : schema_env) (w r : schema) : bool :=
  resolves (resolution_depth env w r) env w r.

(** The first reader branch a writer schema resolves against. *)
Fixpoint first_branch (p : schema -> bool) (i : nat) (brs : list schema)
  : option (nat * schema) :=
  match brs with
  | [] => None
  | b :: rest => if p b then Some (i, b) else first_branch p (S i) rest
  end.

Definition reader_branch (env : schema_env) (w : schema) (rbs : list schema)
  : option (nat * schema) :=
  first_branch (resolvable env w) O rbs.

(** A reader record is filled from the fields read by name; a field
    the writer did not have takes its declared default. *)
Fixpoint fill_fields (got : list (string * value)) (rfs : list field)
  : result (list value) :=
  match rfs with
  | [] => Ok []
  | rf :: rest =>
      v <- match lookup (fname rf) got with
           | Some v => Ok v
           | None => match fdefault rf with
                     | Some d => Ok d
                     | None => Err SchemaIncompatible
                     end
           end ;;
      vs <- fill_fields got rest ;;
      Ok (v :: vs)
  end.

(** Decoding bytes written under [w] into the shape of [r]. *)
Fixpoint rdecode (fuel : nat) (env : schema_env) (w r : schema) (bs : bytes)
  {struct fuel} : result (value * bytes) :=
  match fuel with
  | O => Err TooDeep
  | S f =>
      match resolve env w, resolve env r with
      | SLink _, _ => Err SchemaIncompatible
      | _, SLink _ => Err SchemaIncompatible
      | SUnion wbs, _ =>
          '(d, rest) <- read_count bs ;;
          match nth_error wbs d with
          | Some wb => rdecode f env wb r rest
          | None => Err InvalidEncoding
          end
      | w', SUnion rbs =>
          match reader_branch env w' rbs with
          | Some (j, rb) =>
              '(v, rest) <- rdecode f env w' rb bs ;;
              Ok (VUnion j v, rest)
          | None => Err SchemaIncompatible
          end
      | SNull, SNull => Ok (VNull, bs)
      | SBoolean, SBoolean => '(b, r) <- read_boolean bs ;; Ok (VBoolean b, r)
      | SInt, SInt => '(i, r) <- read_int bs ;; Ok (VInt i, r)
      | SInt, SLong => '(i, r) <- read_int bs ;; Ok (VLong i, r)
      | SInt, SFloat =>
          '(i, r) <- read_int bs ;; Ok (VFloat (IEEE.float_of_Z i), r)
      | SInt, SDouble =>
          '(i, r) <- read_int bs ;; Ok (VDouble (IEEE.double_of_Z i), r)
      | SLong, SLong => '(l, r) <- read_long bs ;; Ok (VLong l, r)
      | SLong, SFloat =>
          '(l, r) <- read_long bs ;; Ok (VFloat (IEEE.float_of_Z l), r)
      | SLong, SDouble =>
          '(l, r) <- read_long bs ;; Ok (VDouble (IEEE.double_of_Z l), r)
      | SFloat, SFloat => '(x, r) <- read_le 4 bs ;; Ok (VFloat x, r)
      | SFloat, SDouble =>
          '(x, r) <- read_le 4 bs ;; Ok (VDouble (IEEE.double_of_float x), r)
      | SDouble, SDouble => '(x, r) <- read_le 8 bs ;; Ok (VDouble x, r)
      | SBytes, SBytes => '(b, r) <- read_bytes bs ;; Ok (VBytes b, r)
      | SBytes, SString => '(b, r) <- read_bytes bs ;; Ok (VString b, r)
      | SString, SString => '(b, r) <- read_bytes bs ;; Ok (VString b, r)
      | SString, SBytes => '(b, r) <- read_bytes bs ;; Ok (VBytes b, r)
      | SFixed wn ws, SFixed rn rs =>
          if String.eqb wn rn && (ws =? rs)%nat
          then '(b, r) <- read_raw ws bs ;; Ok (VFixed b, r)
          else Err SchemaIncompatible
      | SEnum _ wsyms, SEnum _ rsyms =>
          '(i, rest) <- read_count bs ;;
          match nth_error wsyms i with
          | Some sym =>
              match index_of sym rsyms with
              | Some j => Ok (VEnum j, rest)
              | None => Err SchemaIncompatible
              end
          | None => Err InvalidEncoding
          end
      | SArray wi, SArray ri =>
          '(es, rest) <- read_blocks (rdecode f env wi ri) bs ;;
          Ok (VArray es, rest)
      | SMap wv, SMap rv =>
          '(kvs, rest) <- read_blocks
                            (fun b => '(k, r1) <- read_bytes b ;;
                                      '(v, r2) <- rdecode f env wv rv r1 ;;
                                      Ok ((k, v), r2)) bs ;;
          Ok (VMap (map_of_entries kvs), rest)
      | SRecord _ wfs, SRecord _ rfs =>
          '(got, rest) <- read_resolved_fields (decode f env) (rdecode f env)
                            rfs wfs bs ;;
          vs <- fill_fields got rfs ;;
          Ok (VRecord vs, rest)
      | _, _ => Err SchemaIncompatible
      end
  end.

(** The depth of decoding a value needs: one level for each value, and
    one more where a union is re-matched. *)
Fixpoint depth (v : value) : nat :=
  match v with
  | VArray es => S (fold_right (fun e n => Nat.max (depth e) n) O es)
  | VMap kvs => S (fold_right (fun kv n => Nat.max (depth (snd kv)) n) O kvs)
  | VRecord fs => S (fold_right (fun e n => Nat.max (depth e) n) O fs)
  | VUnion _ b => S (S (depth b))
  | _ => 1%nat
  end.

(** A schema in which resolution against itself is the identity:
    record fields and enum symbols are told apart by name, and every
    branch of a union is the first branch it resolves against. *)
Definition is_union (s : schema) : bool :=
  match s with
  | SUnion _ => true
  | _ => false
  end.

Fixpoint own_branches (env : schema_env) (all : list schema) (i : nat)
  (brs : list schema) : bool :=
  match brs with
  | [] => true
  | b :: rest =>
      negb (is_union (resolve env b))
      && match reader_branch env (resolve env b) all with
         | Some (j, _) => (j =? i)%nat
         | None => false
         end
      && own_branches env all (S i) rest
  end.

Fixpoint unambiguous (env : schema_env) (s : schema) : bool :=
  match s with
  | SEnum _ syms => nodup_keys syms
  | SArray it => unambiguous env it
  | SMap vs => unambiguous env vs
  | SRecord _ fs =>
      nodup_keys (map fname fs)
      && forallb (fun f => unambiguous env (ftype f)) fs
  | SUnion brs =>
      own_branches env brs O brs && forallb (unambiguous env) brs
  | _ => true
  end.

Definition is_link (s : schema) : bool :=
  match s with
  | SLink _ => true
  | _ => false
  end.

Definition well_formed (env : schema_env) (s : schema) : bool :=
  unambiguous env s && forallb (fun e => unambiguous env (snd e)) env.

End Codec.

(** ** Lua

    What the binding sees of Lua 5.1 through the C API.  A C function
    receives its arguments as the stack slots 1..n and returns the values
    it leaves on top of the stack; it may instead raise a Lua error, which
    unwinds to the nearest protected call. *)

Inductive lua_CFunction : Type :=
| iterate_array_fn
| iterate_map_fn.

(** A number is a double, kept as its bit pattern.  A table is its array
    part (the values at 1..n) and its hash part, in the order [lua_next]
    traverses them; it holds no nil and no key twice. *)
Inductive lua_value : Type :=
| LNil
| LBool (b : bool)
| LNum (n : Z)
| LStr (s : string)
| LTable (arr : list lua_value) (hash : list (lua_value * lua_value))
| LUserdata (id : nat)
| LCFunction (f : lua_CFunction).

Module LuaNumber.

(** [(lua_Number) z] and [lua_number2integer]. *)
Definition of_integer (z : Z) : Z := IEEE.double_of_Z z.
Definition to_integer (n : Z) : Z := IEEE.trunc (IEEE.unpack64 n).

Definition is_digit (a : ascii) : bool :=
  let n := Z_of_byte a in (48 <=? n) && (n <=? 57).

Definition is_space (a : ascii) : bool :=
  let n := Z_of_byte a in (n =? 32) || ((9 <=? n) && (n <=? 13)).

Fixpoint skip_spaces (s : string) : string :=
  match s with
  | String a rest => if is_space a then skip_spaces rest else s
  | EmptyString => s
  end.

Definition lower (a : ascii) : ascii :=
  let n := Z_of_byte a in
  if (65 <=? n) && (n <=? 90) then byte_of_Z (n + 32) else a.

Fixpoint starts_with_ci (p s : string) : bool :=
  match p, s with
  | EmptyString, _ => true
  | String a p', String b s' => Ascii.eqb a (lower b) && starts_with_ci p' s'
  | _, _ => false
  end.

(** [luaO_str2d] ([strtod]) converts no prefix of such a string. *)
Definition not_numeral (s : string) : bool :=
  match skip_spaces s with
  | EmptyString => true
  | String a rest =>
      negb (is_digit a || Ascii.eqb a "+" || Ascii.eqb a "-" || Ascii.eqb a "."
            || starts_with_ci "inf" (String a rest)
            || starts_with_ci "nan" (String a rest))
  end.

Fixpoint lower_string (s : string) : string :=
  match s with
  | EmptyString => EmptyString
  | String a rest => String (lower a) (lower_string rest)
  end.

(** The words [strtod] reads as an infinity and as a NaN, in any case
    of their letters. *)
Definition of_word (s : string) : option Z :=
  let w := lower_string s in
  if String.eqb w "inf" || String.eqb w "infinity"
  then Some (IEEE.pack64 (IEEE.FInf false))
  else if String.eqb w "nan" then Some (IEEE.pack64 IEEE.FNaN)
  else None.

(** The coercion of a string to a number.  [Some (Some n)]: the number;
    [Some None]: the string is no numeral.  Decimal integers and the
    words [inf], [infinity] and [nan] are the numerals the embedding
    describes; [None] stands for the others. *)
Definition of_string (s : string) : option (option Z) :=
  match NilZero.int_of_string s with
  | Some d =>
      let z := Z.of_int d in
      if (z =? 0) && starts_with_ci "-" s then None
      else Some (Some (of_integer z))
  | None =>
      match of_word s with
      | Some n => Some (Some n)
      | None => if not_numeral s then Some None else None
      end
  end.

(** [lua_Number2str] (["%.14g"]): an integer below 10^14 is printed in
    full; [None] stands for the other numbers. *)
Definition to_string (n : Z) : option string :=
  match IEEE.integral (IEEE.unpack64 n) with
  | Some z =>
      if Z.abs z <? 10 ^ 14 then Some (NilZero.string_of_int (Z.to_int z))
      else None
  | None => None
  end.

End LuaNumber.

(** ** The state: Lua userdata and the C heap *)

(** A pointer to a generic value or to a part of one: the heap cell and
    the path of child indices below its root. *)
Definition ptr : Type := (nat * list nat)%type.

Record avro_value_t : Type := { iface : option schema; self : option ptr }.

Record LuaAvroValue : Type :=
  { l_value : avro_value_t;        (* the field [value] *)
    should_decref : bool }.

Record Iterator : Type :=
  { no_scalar : bool;
    it_value : option nat;         (* the field [value]: a wrapper's [value] *)
    next_index : Z }.

Record LuaAvroResolvedWriter : Type :=
  { resolver : option (schema * schema);   (* writer and reader schema *)
    rw_value : option avro_value_t }.      (* the field [value], by the
                                              destination bound to it *)

Inductive userdata : Type :=
| UdValue (v : LuaAvroValue)
| UdIterator (i : Iterator)
| UdResolvedWriter (r : LuaAvroResolvedWriter).

Record cell : Type := { refcount : nat; content : value }.

Record lua_State : Type :=
  { heap : list cell;              (* generic values; count 0: freed *)
    udata : list userdata;
    named : schema_env;            (* the schemas links refer to *)
    static_buf : memory;           (* [static_buf] of [l_value_encode] *)
    malloc_limit : Z;              (* the largest block [malloc] grants *)
    c_stack : nat;                 (* the depth of recursion C can take *)
    call_site : string }.          (* what [luaL_where (L, 1)] pushes: the
                                      chunk and line of the Lua code that
                                      called the running C function, as
                                      [chunk:line: ], or nothing when the
                                      caller is C or keeps no lines *)

Definition STATIC_BUF_SIZE : Z := 65536.

Definition with_heap (L : lua_State) (h : list cell) : lua_State :=
  {| heap := h; udata := udata L; named := named L;
     static_buf := static_buf L; malloc_limit := malloc_limit L;
     c_stack := c_stack L; call_site := call_site L |}.

Definition with_udata (L : lua_State) (us : list userdata) : lua_State :=
  {| heap := heap L; udata := us; named := named L;
     static_buf := static_buf L; malloc_limit := malloc_limit L;
     c_stack := c_stack L; call_site := call_site L |}.

Definition with_static_buf (L : lua_State) (buf : memory) : lua_State :=
  {| heap := heap L; udata := udata L; named := named L;
     static_buf := buf; malloc_limit := malloc_limit L;
     c_stack := c_stack L; call_site := call_site L |}.

Definition with_call_site (L : lua_State) (w : string) : lua_State :=
  {| heap := heap L; udata := udata L; named := named L;
     static_buf := static_buf L; malloc_limit := malloc_limit L;
     c_stack := c_stack L; call_site := w |}.

Inductive outcome (A : Type) : Type :=
| Returns (a : A) (L : lua_State)
| Raises (msg : lua_value) (L : lua_State)   (* [lua_error] *)
| Crashes                                    (* undefined behaviour in C *)
| Unmodelled.                                (* not described here *)
Arguments Returns {A} a L.
Arguments Raises {A} msg L.
Arguments Crashes {A}.
Arguments Unmodelled {A}.

Definition lua (A : Type) : Type := lua_State -> outcome A.

Definition ret {A : Type} (a : A) : lua A := fun L => Returns a L.

Definition bind {A B : Type} (c : lua A) (k : A -> lua B) : lua B :=
  fun L =>
    match c L with
    | Returns a L' => k a L'
    | Raises msg L' => Raises msg L'
    | Crashes => Crashes
    | Unmodelled => Unmodelled
    end.

Definition lua_error {A : Type} (msg : lua_value) : lua A := fun L => Raises msg L.
Definition crash {A : Type} : lua A := fun _ => Crashes.
Definition unmodelled {A : Type} : lua A := fun _ => Unmodelled.
Definition get_state : lua lua_State := fun L => Returns L L.
Definition put_state (L : lua_State) : lua unit := fun _ => Returns tt L.

Declare Scope lua_scope.
Delimit Scope lua_scope with lua.
Notation "x <- c ;; k" := (bind c (fun x => k))
  (at level 61, c at next level, right associativity) : lua_scope.
Notation "' p <- c ;; k" := (bind c (fun x => let p := x in k))
  (at level 61, p pattern, c at next level, right associativity) : lua_scope.
Notation "c ;;; k" := (bind c (fun _ => k))
  (at level 61, right associativity) : lua_scope.

Section Lists.
Variable A : Type.

Fixpoint update_nth (i : nat) (f : A -> option A) (l : list A) : option (list A) :=
  match l, i with
  | [], _ => None
  | a :: rest, O => option_map (fun a' => a' :: rest) (f a)
  | a :: rest, S j => option_map (cons a) (update_nth j f rest)
  end.
End Lists.

(** The part of a value at a path, and the value with that part replaced.
    Below a union the index is the discriminant, which must be the active
    one. *)
Fixpoint get_at (x : value) (p : list nat) : option value :=
  match p with
  | [] => Some x
  | i :: q =>
      match x with
      | VArray es =>
          match nth_error es i with
          | Some e => get_at e q
          | None => None
          end
      | VMap kvs =>
          match nth_error kvs i with
          | Some kv => get_at (snd kv) q
          | None => None
          end
      | VRecord fs =>
          match nth_error fs i with
          | Some e => get_at e q
          | None => None
          end
      | VUnion d b => if (i =? d)%nat then get_at b q else None
      | _ => None
      end
  end.

Fixpoint set_at (x : value) (p : list nat) (y : value) : option value :=
  match p with
  | [] => Some y
  | i :: q =>
      match x with
      | VArray es =>
          option_map VArray (update_nth i (fun e => set_at e q y) es)
      | VMap kvs =>
          option_map VMap
            (update_nth i (fun kv => option_map (pair (fst kv)) (set_at (snd kv) q y)) kvs)
      | VRecord fs =>
          option_map VRecord (update_nth i (fun e => set_at e q y) fs)
      | VUnion d b =>
          if (i =? d)%nat then option_map (VUnion d) (set_at b q y) else None
      | _ => None
      end
  end.

Local Open Scope lua_scope.

(** Reading through a value handle: the handle must not be NULL and must
    point into a live cell. *)
Definition load (v : avro_value_t) : lua (schema * ptr * value) :=
  fun L =>
    match iface v, self v with
    | Some s, Some (c, p) =>
        match nth_error (heap L) c with
        | Some cl =>
            if (refcount cl =? 0)%nat then Crashes
            else match get_at (content cl) p with
                 | Some x => Returns (s, (c, p), x) L
                 | None => Crashes
                 end
        | None => Crashes
        end
    | _, _ => Crashes
    end.

Definition store (p : ptr) (y : value) : lua unit :=
  fun L =>
    match update_nth (fst p)
            (fun cl => option_map (fun x => {| refcount := refcount cl; content := x |})
                         (set_at (content cl) (snd p) y))
            (heap L) with
    | Some h => Returns tt (with_heap L h)
    | None => Crashes
    end.

Definition lua_newuserdata (u : userdata) : lua nat :=
  fun L =>
    Returns (List.length (udata L)) (with_udata L (udata L ++ [u])).

Definition set_udata (id : nat) (u : userdata) : lua unit :=
  fun L =>
    match update_nth id (fun _ => Some u) (udata L) with
    | Some us => Returns tt (with_udata L us)
    | None => Crashes
    end.

(** *** The stack of a C function *)

(** The value at a positive index; past the top there is none, which
    reads as nil. *)
Definition lua_arg (args : list lua_value) (i : nat) : lua_value :=
  nth (i - 1) args LNil.

Definition lua_gettop (args : list lua_value) : Z := Z.of_nat (List.length args).

Definition lua_isnil (v : lua_value) : bool :=
  match v with
  | LNil => true
  | _ => false
  end.

Definition lua_toboolean (v : lua_value) : bool :=
  match v with
  | LNil => false
  | LBool b => b
  | _ => true
  end.

(** [lua_tonumber], with whether the value is a number or a string
    convertible to one ([lua_isnumber]). *)
Definition lua_tonumber (v : lua_value) : lua (option Z) :=
  match v with
  | LNum n => ret (Some n)
  | LStr s =>
      match LuaNumber.of_string s with
      | Some r => ret r
      | None => unmodelled
      end
  | _ => ret None
  end.

Definition lua_isnumber (v : lua_value) : lua bool :=
  n <- lua_tonumber v ;;
  ret (match n with Some _ => true | None => false end).

Definition lua_tointeger (v : lua_value) : lua Z :=
  n <- lua_tonumber v ;;
  ret (match n with Some d => LuaNumber.to_integer d | None => 0 end).

Definition lua_isstring (v : lua_value) : bool :=
  match v with
  | LStr _ | LNum _ => true
  | _ => false
  end.

(** [lua_tolstring]: NULL for what is neither a string nor a number. *)
Definition lua_tostring (v : lua_value) : lua (option string) :=
  match v with
  | LStr s => ret (Some s)
  | LNum n =>
      match LuaNumber.to_string n with
      | Some s => ret (Some s)
      | None => unmodelled
      end
  | _ => ret None
  end.

(** [luaL_error]: the message after the position [luaL_where (L, 1)]
    gives. *)
Definition luaL_error {A : Type} (msg : string) : lua A :=
  L <- get_state ;;
  lua_error (LStr (call_site L ++ msg)).

(** [lua_call] of a C function by a C function: the callee finds a C
    function as its caller, for which [luaL_where] has no position. *)
Definition lua_call {A : Type} (f : lua A) : lua A :=
  fun L =>
    match f (with_call_site L "") with
    | Returns a L' => Returns a (with_call_site L' (call_site L))
    | Raises msg L' => Raises msg (with_call_site L' (call_site L))
    | Crashes => Crashes
    | Unmodelled => Unmodelled
    end.

(** The message of [luaL_argerror] is not spelled out. *)
Definition luaL_argerror {A : Type} : lua A := lua_error (LStr "bad argument").

Definition luaL_checklstring (args : list lua_value) (i : nat) : lua string :=
  s <- lua_tostring (lua_arg args i) ;;
  match s with
  | Some s => ret s
  | None => luaL_argerror
  end.

(** [luaL_checkstring]: the string as a [const char *]. *)
Definition luaL_checkstring (args : list lua_value) (i : nat) : lua string :=
  s <- luaL_checklstring args i ;;
  ret (c_str s).

Definition luaL_checknumber (args : list lua_value) (i : nat) : lua Z :=
  n <- lua_tonumber (lua_arg args i) ;;
  match n with
  | Some d => ret d
  | None => luaL_argerror
  end.

Definition luaL_checkinteger (args : list lua_value) (i : nat) : lua Z :=
  n <- lua_tonumber (lua_arg args i) ;;
  match n with
  | Some d => ret (LuaNumber.to_integer d)
  | None => luaL_argerror
  end.

Definition lua_pushinteger (z : Z) : lua_value := LNum (LuaNumber.of_integer z).

(** [lua_objlen] of a table whose array part is its sequence. *)
Definition lua_objlen (v : lua_value) : Z :=
  match v with
  | LStr s => Z.of_nat (String.length s)
  | LTable arr _ => Z.of_nat (List.length arr)
  | _ => 0
  end.

(** The entries of a table in the order of [lua_next]. *)
Definition table_entries (arr : list lua_value) (hash : list (lua_value * lua_value))
  : list (lua_value * lua_value) :=
  combine (map (fun i => lua_pushinteger (Z.of_nat i)) (seq 1 (List.length arr))) arr
    ++ hash.

(** ** The value interface of avro-c

    Modelled from the spec: the operations of the value interface
    (section 4.1), which avro-c implements and the binding calls.  Each
    takes the schema and the state of the value it is applied to, and
    returns an error code or its results; an operation that changes the
    value returns the new state.  A child is returned as its schema and
    its index below the parent. *)

Module Generic.
Local Open Scope result_scope.

Definition child : Type := (schema * nat)%type.

Definition get_size (x : value) : result Z :=
  match x with
  | VArray es => Ok (Z.of_nat (List.length es))
  | VMap kvs => Ok (Z.of_nat (List.length kvs))
  | _ => Err NotSized
  end.

(** The element at an index that is a [size_t]. *)
Definition nth_Z {A : Type} (l : list A) (i : Z) : option A :=
  if (0 <=? i) && (i <? Z.of_nat (List.length l))
  then nth_error l (Z.to_nat i)
  else None.

Definition get_by_index (env : schema_env) (s : schema) (x : value) (i : Z)
  : result (child * option string) :=
  match resolve env s, x with
  | SArray it, VArray es =>
      match nth_Z es i with
      | Some _ => Ok ((it, Z.to_nat i), None)
      | None => Err IndexOutOfBounds
      end
  | SMap vs, VMap kvs =>
      match nth_Z kvs i with
      | Some kv => Ok ((vs, Z.to_nat i), Some (fst kv))
      | None => Err IndexOutOfBounds
      end
  | SRecord _ fs, VRecord _ =>
      match nth_Z fs i with
      | Some f => Ok ((ftype f, Z.to_nat i), None)
      | None => Err IndexOutOfBounds
      end
  | _, _ => Err TypeMismatch
  end.

Definition get_by_name (env : schema_env) (s : schema) (x : value) (name : string)
  : result (child * nat) :=
  match resolve env s, x with
  | SMap vs, VMap kvs =>
      match map_index name kvs with
      | Some n => Ok ((vs, n), n)
      | None => Err NoSuchField
      end
  | SRecord _ fs, VRecord _ =>
      match find_field name fs with
      | Some (n, f) => Ok ((ftype f, n), n)
      | None => Err NoSuchField
      end
  | _, _ => Err TypeMismatch
  end.

(** [append]: one trailing element, in its fresh state. *)
Definition append (env : schema_env) (s : schema) (x : value)
  : result (value * child) :=
  match resolve env s, x with
  | SArray it, VArray es =>
      e <- avro_generic_value_new env it ;;
      Ok (VArray (es ++ [e]), (it, List.length es))
  | _, _ => Err TypeMismatch
  end.

(** [add]: a new entry in its fresh state; a duplicate key replaces. *)
Definition add (env : schema_env) (s : schema) (x : value) (key : string)
  : result (value * child) :=
  match resolve env s, x with
  | SMap vs, VMap kvs =>
      e <- avro_generic_value_new env vs ;;
      let kvs' := map_add key e kvs in
      match map_index key kvs' with
      | Some n => Ok (VMap kvs', (vs, n))
      | None => Err NoSuchField
      end
  | _, _ => Err TypeMismatch
  end.

Definition get_discriminant (x : value) : result Z :=
  match x with
  | VUnion d _ => Ok (Z.of_nat d)
  | VUnset => Err NoSuchBranch
  | _ => Err NotUnion
  end.

Definition get_current_branch (env : schema_env) (s : schema) (x : value)
  : result child :=
  match resolve env s, x with
  | SUnion brs, VUnion d _ =>
      match nth_error brs d with
      | Some b => Ok (b, d)
      | None => Err NoSuchBranch
      end
  | SUnion _, VUnset => Err NoSuchBranch
  | _, _ => Err NotUnion
  end.

(** Selecting a branch resets the value to that branch's fresh state. *)
Definition set_branch (env : schema_env) (s : schema) (x : value) (discriminant : Z)
  : result (value * child) :=
  match resolve env s with
  | SUnion brs =>
      if discriminant <? 0 then Err NoSuchBranch
      else
        let d := Z.to_nat discriminant in
        match nth_error brs d with
        | Some b =>
            e <- avro_generic_value_new env b ;;
            Ok (VUnion d e, (b, d))
        | None => Err NoSuchBranch
        end
  | _ => Err NotUnion
  end.

Definition reset (x : value) : result value := Ok (reset_value x).

(** Scalars. *)
Definition get_boolean (x : value) : result bool :=
  match x with VBoolean b => Ok b | _ => Err TypeMismatch end.
Definition get_int (x : value) : result Z :=
  match x with VInt i => Ok i | _ => Err TypeMismatch end.
Definition get_long (x : value) : result Z :=
  match x with VLong l => Ok l | _ => Err TypeMismatch end.
Definition get_float (x : value) : result Z :=
  match x with VFloat f => Ok f | _ => Err TypeMismatch end.
Definition get_double (x : value) : result Z :=
  match x with VDouble d => Ok d | _ => Err TypeMismatch end.
Definition get_null (x : value) : result unit :=
  match x with VNull => Ok tt | _ => Err TypeMismatch end.
Definition get_enum (x : value) : result Z :=
  match x with VEnum i => Ok (Z.of_nat i) | _ => Err TypeMismatch end.

(** A string is handed out as its buffer, which ends with a NUL, and
    the size of that buffer. *)
Definition get_string (x : value) : result (bytes * Z) :=
  match x with
  | VString s => Ok (bytes_of_string s ++ [NUL], Z.of_nat (String.length s) + 1)
  | _ => Err TypeMismatch
  end.
Definition get_bytes (x : value) : result (bytes * Z) :=
  match x with
  | VBytes b => Ok (bytes_of_string b, Z.of_nat (String.length b))
  | _ => Err TypeMismatch
  end.
Definition get_fixed (x : value) : result (bytes * Z) :=
  match x with
  | VFixed b => Ok (bytes_of_string b, Z.of_nat (String.length b))
  | _ => Err TypeMismatch
  end.

Definition set_boolean (x : value) (b : bool) : result value :=
  match x with VBoolean _ => Ok (VBoolean b) | _ => Err TypeMismatch end.
Definition set_int (x : value) (i : Z) : result value :=
  match x with VInt _ => Ok (VInt i) | _ => Err TypeMismatch end.
Definition set_long (x : value) (l : Z) : result value :=
  match x with VLong _ => Ok (VLong l) | _ => Err TypeMismatch end.
Definition set_float (x : value) (f : Z) : result value :=
  match x with VFloat _ => Ok (VFloat f) | _ => Err TypeMismatch end.
Definition set_double (x : value) (d : Z) : result value :=
  match x with VDouble _ => Ok (VDouble d) | _ => Err TypeMismatch end.
Definition set_null (x : value) : result value :=
  match x with VNull => Ok VNull | _ => Err TypeMismatch end.

(** [set_string_len (str, size)]: [size] counts the NUL terminator. *)
Definition set_string_len (x : value) (str : bytes) (size : Z) : result value :=
  match x with
  | VString _ =>
      if size <? 1 then Err OutOfRange
      else Ok (VString (string_of_bytes (firstn (Z.to_nat (size - 1)) str)))
  | _ => Err TypeMismatch
  end.
Definition set_bytes (x : value) (buf : bytes) (size : Z) : result value :=
  match x with
  | VBytes _ => Ok (VBytes (string_of_bytes (firstn (Z.to_nat size) buf)))
  | _ => Err TypeMismatch
  end.
Definition set_fixed (env : schema_env) (s : schema) (x : value)
  (buf : bytes) (size : Z) : result value :=
  match resolve env s, x with
  | SFixed _ n, VFixed _ =>
      if size =? Z.of_nat n
      then Ok (VFixed (string_of_bytes (firstn n buf)))
      else Err OutOfRange
  | _, _ => Err TypeMismatch
  end.
Definition set_enum (env : schema_env) (s : schema) (x : value) (i : Z)
  : result value :=
  match resolve env s, x with
  | SEnum _ syms, VEnum _ =>
      if (0 <=? i) && (i <? Z.of_nat (List.length syms))
      then Ok (VEnum (Z.to_nat i))
      else Err OutOfRange
  | _, _ => Err TypeMismatch
  end.

(** Whether two schemas agree structurally. *)
Fixpoint schema_equal (a b : schema) {struct a} : bool :=
  match a, b with
  | SNull, SNull | SBoolean, SBoolean | SInt, SInt | SLong, SLong
  | SFloat, SFloat | SDouble, SDouble | SBytes, SBytes
  | SString, SString => true
  | SFixed n k, SFixed n' k' => String.eqb n n' && (k =? k')%nat
  | SEnum n syms, SEnum n' syms' =>
      String.eqb n n' && forall2b String.eqb syms syms'
  | SArray i, SArray i' => schema_equal i i'
  | SMap v, SMap v' => schema_equal v v'
  | SRecord n fs, SRecord n' fs' =>
      String.eqb n n'
      && forall2b (fun f f' =>
                     String.eqb (fname f) (fname f')
                     && schema_equal (ftype f) (ftype f')) fs fs'
  | SUnion bs, SUnion bs' => forall2b schema_equal bs bs'
  | SLink t, SLink t' => String.eqb t t'
  | _, _ => false
  end.

(** [copy]: the contents of the source, when the schemas agree. *)
Definition copy (sd ss : schema) (src : value) : result value :=
  if schema_equal sd ss then Ok src else Err SchemaMismatch.

(** [avro_schema_union_branch_by_name]. *)
Fixpoint branch_by_name (name : string) (i : nat) (brs : list schema)
  : option (nat * schema) :=
  match brs with
  | [] => None
  | b :: rest =>
      if String.eqb name (avro_schema_type_name b) then Some (i, b)
      else branch_by_name name (S i) rest
  end.

End Generic.

(** ** The binding: [src/avro/legacy/avro.c]

    Each C function of the binding is embedded as a function from its
    arguments (the stack slots 1..n) to a computation that returns the
    list of its results. *)

Module Binding.
Local Open Scope lua_scope.

(** *** Calls into avro-c through a value handle *)

Definition child_value (p : ptr) (ch : Generic.child) : avro_value_t :=
  {| iface := Some (fst ch); self := Some (fst p, snd p ++ [snd ch]) |}.

Definition get_with {A : Type} (v : avro_value_t)
  (op : schema_env -> schema -> value -> result A) : lua (result A) :=
  '(s, p, x) <- load v ;;
  L <- get_state ;;
  ret (op (named L) s x).

Definition set_with (v : avro_value_t)
  (op : schema_env -> schema -> value -> result value) : lua (result unit) :=
  '(s, p, x) <- load v ;;
  L <- get_state ;;
  match op (named L) s x with
  | Ok y => store p y ;;; ret (Ok tt)
  | Err e => ret (Err e)
  end.

Definition child_with (v : avro_value_t)
  (op : schema_env -> schema -> value -> result (value * Generic.child))
  : lua (result avro_value_t) :=
  '(s, p, x) <- load v ;;
  L <- get_state ;;
  match op (named L) s x with
  | Ok (y, ch) => store p y ;;; ret (Ok (child_value p ch))
  | Err e => ret (Err e)
  end.

(** [avro_value_get_type] and [avro_value_get_schema] read the
    interface alone. *)
Definition avro_value_get_schema (v : avro_value_t) : lua schema :=
  match iface v with
  | Some s => L <- get_state ;; ret (resolve (named L) s)
  | None => crash
  end.

Definition avro_value_get_type (v : avro_value_t) : lua avro_type_t :=
  s <- avro_value_get_schema v ;;
  ret (avro_typeof s).

Definition avro_value_get_size (v : avro_value_t) : lua (result Z) :=
  get_with v (fun _ _ x => Generic.get_size x).

Definition avro_value_get_by_index (v : avro_value_t) (index : Z)
  : lua (result (avro_value_t * option string)) :=
  '(s, p, x) <- load v ;;
  L <- get_state ;;
  ret (match Generic.get_by_index (named L) s x index with
       | Ok (ch, key) => Ok (child_value p ch, key)
       | Err e => Err e
       end).

Definition avro_value_get_by_name (v : avro_value_t) (name : string)
  : lua (result (avro_value_t * Z)) :=
  '(s, p, x) <- load v ;;
  L <- get_state ;;
  ret (match Generic.get_by_name (named L) s x name with
       | Ok (ch, index) => Ok (child_value p ch, Z.of_nat index)
       | Err e => Err e
       end).

Definition avro_value_append (v : avro_value_t) : lua (result avro_value_t) :=
  child_with v Generic.append.

Definition avro_value_add (v : avro_value_t) (key : string)
  : lua (result avro_value_t) :=
  child_with v (fun env s x => Generic.add env s x key).

Definition avro_value_get_discriminant (v : avro_value_t) : lua (result Z) :=
  get_with v (fun _ _ x => Generic.get_discriminant x).

Definition avro_value_get_current_branch (v : avro_value_t)
  : lua (result avro_value_t) :=
  '(s, p, x) <- load v ;;
  L <- get_state ;;
  ret (match Generic.get_current_branch (named L) s x with
       | Ok ch => Ok (child_value p ch)
       | Err e => Err e
       end).

Definition avro_value_set_branch (v : avro_value_t) (discriminant : Z)
  : lua (result avro_value_t) :=
  child_with v (fun env s x => Generic.set_branch env s x discriminant).

Definition avro_value_reset (v : avro_value_t) : lua (result unit) :=
  set_with v (fun _ _ x => Generic.reset x).

Definition avro_value_copy (dest src : avro_value_t) : lua (result unit) :=
  '(ss, _, y) <- load src ;;
  set_with dest (fun env sd _ => Generic.copy (resolve env sd) (resolve env ss) y).

Definition avro_value_sizeof (v : avro_value_t) : lua (result Z) :=
  get_with v (fun _ _ x => Codec.avro_value_sizeof x).

Definition avro_value_write (buf : memory) (len : Z) (v : avro_value_t)
  : lua (result memory) :=
  get_with v (fun _ _ x => Codec.avro_value_write buf len x).

(** [avro_value_decref]: the count of the value's cell goes down by
    one; releasing a freed value is a double free. *)
Definition avro_value_decref (v : avro_value_t) : lua unit :=
  fun L =>
    match iface v, self v with
    | Some _, Some (c, _) =>
        match update_nth c
                (fun cl => match refcount cl with
                           | O => None
                           | S n => Some {| refcount := n; content := content cl |}
                           end) (heap L) with
        | Some h => Returns tt (with_heap L h)
        | None => Crashes
        end
    | _, _ => Crashes
    end.

(** The return code of an avro-c call: 0, or an [errno] value. *)
Definition rc {A : Type} (r : result A) : Z :=
  match r with
  | Ok _ => 0
  | Err _ => 22
  end.

(** The numbering of [avro_type_t] in [avro.h]. *)
Definition type_code (t : avro_type_t) : Z :=
  match t with
  | AVRO_STRING => 0 | AVRO_BYTES => 1 | AVRO_INT32 => 2 | AVRO_INT64 => 3
  | AVRO_FLOAT => 4 | AVRO_DOUBLE => 5 | AVRO_BOOLEAN => 6 | AVRO_NULL => 7
  | AVRO_RECORD => 8 | AVRO_ENUM => 9 | AVRO_FIXED => 10 | AVRO_MAP => 11
  | AVRO_ARRAY => 12 | AVRO_UNION => 13 | AVRO_LINK => 14
  end.

Definition format_d (z : Z) : string := NilZero.string_of_int (Z.to_int z).

(** *** Errors *)

Definition lua_return_avro_error (e : avro_error) : lua (list lua_value) :=
  ret [LNil; LStr (avro_strerror e)].

Definition lua_avro_error {A : Type} (e : avro_error) : lua A :=
  lua_error (LStr (avro_strerror e)).

Definition check {A : Type} (call : lua (result A)) : lua A :=
  r <- call ;;
  match r with
  | Ok a => ret a
  | Err e => lua_avro_error e
  end.

(** *** AvroValue *)

Definition lua_avro_push_value (value : avro_value_t) (should_decref : bool)
  : lua lua_value :=
  id <- lua_newuserdata
          (UdValue {| l_value := value; should_decref := should_decref |}) ;;
  ret (LUserdata id).

(** [luaL_checkudata (L, index, MT_AVRO_VALUE)]. *)
Definition checkudata_value (args : list lua_value) (index : nat)
  : lua (nat * LuaAvroValue) :=
  match lua_arg args index with
  | LUserdata id =>
      L <- get_state ;;
      match nth_error (udata L) id with
      | Some (UdValue lv) => ret (id, lv)
      | _ => luaL_argerror
      end
  | _ => luaL_argerror
  end.

Definition lua_avro_get_value (args : list lua_value) (index : nat)
  : lua avro_value_t :=
  '(_, lv) <- checkudata_value args index ;;
  ret (l_value lv).

Definition l_value_type (args : list lua_value) : lua (list lua_value) :=
  value <- lua_avro_get_value args 1 ;;
  t <- avro_value_get_type value ;;
  ret [lua_pushinteger (type_code t)].

Definition l_value_schema_name (args : list lua_value) : lua (list lua_value) :=
  value <- lua_avro_get_value args 1 ;;
  schema <- avro_value_get_schema value ;;
  ret [LStr (avro_schema_type_name schema)].

Definition l_value_size (args : list lua_value) : lua (list lua_value) :=
  value <- lua_avro_get_value args 1 ;;
  t <- avro_value_get_type value ;;
  match t with
  | AVRO_ARRAY | AVRO_MAP =>
      size <- check (avro_value_get_size value) ;;
      ret [lua_pushinteger size]
  | _ => lua_error (LStr "Can only get size of array or map")
  end.

Definition l_value_discriminant_index (args : list lua_value)
  : lua (list lua_value) :=
  value <- lua_avro_get_value args 1 ;;
  t <- avro_value_get_type value ;;
  match t with
  | AVRO_UNION =>
      discriminant <- check (avro_value_get_discriminant value) ;;
      ret [lua_pushinteger (discriminant + 1)]
  | _ => lua_error (LStr "Can't get discriminant of a non-union value")
  end.

Definition l_value_discriminant (args : list lua_value) : lua (list lua_value) :=
  value <- lua_avro_get_value args 1 ;;
  t <- avro_value_get_type value ;;
  match t with
  | AVRO_UNION =>
      discriminant <- check (avro_value_get_discriminant value) ;;
      union_schema <- avro_value_get_schema value ;;
      match union_schema with
      | SUnion brs =>
          match nth_error brs (Z.to_nat discriminant) with
          | Some branch => ret [LStr (avro_schema_type_name branch)]
          | None => crash
          end
      | _ => crash
      end
  | _ => lua_error (LStr "Can't get discriminant of a non-union value")
  end.

(** [lua_pushboolean (L, avro_value_copy (dest, src))]. *)
Definition l_value_copy_from (args : list lua_value) : lua (list lua_value) :=
  dest <- lua_avro_get_value args 1 ;;
  src <- lua_avro_get_value args 2 ;;
  r <- avro_value_copy dest src ;;
  ret [LBool (negb (rc r =? 0))].

Definition l_value_reset (args : list lua_value) : lua (list lua_value) :=
  value <- lua_avro_get_value args 1 ;;
  check (avro_value_reset value) ;;;
  ret [].

(** [select_union_branch (L, value, branch_index)]; [branch] is the
    stack slot at [branch_index]. *)
Definition select_union_branch (value : avro_value_t) (branch : lua_value)
  : lua (list lua_value) :=
  isnumber <- lua_isnumber branch ;;
  discriminant <-
    (if isnumber then
       n <- lua_tointeger branch ;;
       ret (CInt.to_int (n - 1))
     else if lua_isstring branch then
       name <- lua_tostring branch ;;
       union_schema <- avro_value_get_schema value ;;
       match name, union_schema with
       | Some branch_name, SUnion brs =>
           let branch_name := c_str branch_name in
           match Generic.branch_by_name branch_name O brs with
           | Some (d, _) => ret (Z.of_nat d)
           | None =>
               lua_error (LStr ("No " ++ branch_name ++ " branch in union"))
           end
       | _, _ => crash
       end
     else
       lua_error (LStr "Can only set string or integer index in union")) ;;
  branch <- check (avro_value_set_branch value discriminant) ;;
  u <- lua_avro_push_value branch false ;;
  ret [u].

Definition lua_pushlstring (buf : bytes) (size : Z) : lua_value :=
  LStr (string_of_bytes (firstn (Z.to_nat size) buf)).

Definition out_of_bounds (index size : Z) : bool :=
  (index <? 1) || (CInt.to_size_t index >? size).

Definition l_value_get (args : list lua_value) : lua (list lua_value) :=
  value <- lua_avro_get_value args 1 ;;
  t <- avro_value_get_type value ;;
  match t with
  | AVRO_STRING =>
      '(val, size) <- check (get_with value (fun _ _ x => Generic.get_string x)) ;;
      (* size contains the NUL terminator *)
      ret [lua_pushlstring val (size - 1)]
  | AVRO_BYTES =>
      '(val, size) <- check (get_with value (fun _ _ x => Generic.get_bytes x)) ;;
      ret [lua_pushlstring val size]
  | AVRO_INT32 =>
      val <- check (get_with value (fun _ _ x => Generic.get_int x)) ;;
      ret [LNum (LuaNumber.of_integer val)]
  | AVRO_INT64 =>
      val <- check (get_with value (fun _ _ x => Generic.get_long x)) ;;
      ret [LNum (LuaNumber.of_integer val)]
  | AVRO_FLOAT =>
      val <- check (get_with value (fun _ _ x => Generic.get_float x)) ;;
      ret [LNum (IEEE.double_of_float val)]
  | AVRO_DOUBLE =>
      val <- check (get_with value (fun _ _ x => Generic.get_double x)) ;;
      ret [LNum val]
  | AVRO_BOOLEAN =>
      val <- check (get_with value (fun _ _ x => Generic.get_boolean x)) ;;
      ret [LBool val]
  | AVRO_NULL =>
      check (get_with value (fun _ _ x => Generic.get_null x)) ;;;
      ret [LNil]
  | AVRO_ENUM =>
      val <- check (get_with value (fun _ _ x => Generic.get_enum x)) ;;
      enum_schema <- avro_value_get_schema value ;;
      match enum_schema with
      | SEnum _ syms =>
          match nth_error syms (Z.to_nat val) with
          | Some name => ret [LStr name]
          | None => crash
          end
      | _ => crash
      end
  | AVRO_FIXED =>
      '(val, size) <- check (get_with value (fun _ _ x => Generic.get_fixed x)) ;;
      ret [lua_pushlstring val size]
  | AVRO_ARRAY =>
      index <- luaL_checkinteger args 2 ;;
      array_size <- check (avro_value_get_size value) ;;
      if out_of_bounds index array_size then
        ret [LNil; LStr "Index out of bounds"]
      else
        '(element_value, _) <-
           check (avro_value_get_by_index value (CInt.to_size_t (index - 1))) ;;
        u <- lua_avro_push_value element_value false ;;
        ret [u]
  | AVRO_MAP =>
      if lua_gettop args <? 2 then
        lua_error (LStr "Missing index on MapValue:get()")
      else
        isnumber <- lua_isnumber (lua_arg args 2) ;;
        if isnumber then
          index <- lua_tointeger (lua_arg args 2) ;;
          map_size <- check (avro_value_get_size value) ;;
          if out_of_bounds index map_size then
            ret [LNil; LStr "Index out of bounds"]
          else
            '(element_value, key) <-
               check (avro_value_get_by_index value (CInt.to_size_t (index - 1))) ;;
            match self element_value with
            | None => ret [LNil; LStr "Map element doesn't exist"]
            | Some _ =>
                u <- lua_avro_push_value element_value false ;;
                ret [u; match key with Some k => LStr k | None => LNil end]
            end
        else if lua_isstring (lua_arg args 2) then
          key <- lua_tostring (lua_arg args 2) ;;
          match key with
          | Some key =>
              let key := c_str key in
              '(element_value, index) <- check (avro_value_get_by_name value key) ;;
              match self element_value with
              | None => ret [LNil; LStr "Map element doesn't exist"]
              | Some _ =>
                  u <- lua_avro_push_value element_value false ;;
                  ret [u; lua_pushinteger index]
              end
          | None => crash
          end
        else
          lua_error (LStr "Can only get string or integer index from map")
  | AVRO_RECORD =>
      if lua_gettop args <? 2 then
        lua_error (LStr "Missing index on RecordValue:get()")
      else
        isnumber <- lua_isnumber (lua_arg args 2) ;;
        if isnumber then
          index <- lua_tointeger (lua_arg args 2) ;;
          '(field_value, _) <-
             check (avro_value_get_by_index value (CInt.to_size_t (index - 1))) ;;
          match self field_value with
          | None => ret [LNil; LStr "Record field doesn't exist"]
          | Some _ =>
              u <- lua_avro_push_value field_value false ;;
              ret [u]
          end
        else if lua_isstring (lua_arg args 2) then
          key <- lua_tostring (lua_arg args 2) ;;
          match key with
          | Some key =>
              let key := c_str key in
              '(field_value, _) <- check (avro_value_get_by_name value key) ;;
              match self field_value with
              | None => ret [LNil; LStr "Record field doesn't exist"]
              | Some _ =>
                  u <- lua_avro_push_value field_value false ;;
                  ret [u]
              end
          | None => crash
          end
        else
          lua_error (LStr "Can only get string or integer index from record")
  | AVRO_UNION =>
      if (lua_gettop args <? 2) || lua_isnil (lua_arg args 2) then
        branch <- check (avro_value_get_current_branch value) ;;
        u <- lua_avro_push_value branch false ;;
        ret [u]
      else
        select_union_branch value (lua_arg args 2)
  | AVRO_LINK =>
      luaL_error ("Don't know how to get from value type "
                    ++ format_d (type_code t))
  end.

Definition l_value_set (args : list lua_value) : lua (list lua_value) :=
  value <- lua_avro_get_value args 1 ;;
  t <- avro_value_get_type value ;;
  match t with
  | AVRO_STRING =>
      str <- luaL_checklstring args 2 ;;
      let str_len := Z.of_nat (String.length str) in
      (* value length must include NUL terminator *)
      check (set_with value
               (fun _ _ x => Generic.set_string_len x
                               (bytes_of_string str ++ [NUL]) (str_len + 1))) ;;;
      ret []
  | AVRO_BYTES =>
      buf <- luaL_checklstring args 2 ;;
      check (set_with value
               (fun _ _ x => Generic.set_bytes x (bytes_of_string buf)
                               (Z.of_nat (String.length buf)))) ;;;
      ret []
  | AVRO_INT32 =>
      i <- luaL_checkinteger args 2 ;;
      check (set_with value (fun _ _ x => Generic.set_int x (CInt.to_int i))) ;;;
      ret []
  | AVRO_INT64 =>
      l <- luaL_checkinteger args 2 ;;
      check (set_with value (fun _ _ x => Generic.set_long x (CInt.to_int64 l))) ;;;
      ret []
  | AVRO_FLOAT =>
      n <- luaL_checknumber args 2 ;;
      check (set_with value
               (fun _ _ x => Generic.set_float x (IEEE.float_of_double n))) ;;;
      ret []
  | AVRO_DOUBLE =>
      n <- luaL_checknumber args 2 ;;
      check (set_with value (fun _ _ x => Generic.set_double x n)) ;;;
      ret []
  | AVRO_BOOLEAN =>
      let b := lua_toboolean (lua_arg args 2) in
      check (set_with value (fun _ _ x => Generic.set_boolean x b)) ;;;
      ret []
  | AVRO_NULL =>
      check (set_with value (fun _ _ x => Generic.set_null x)) ;;;
      ret []
  | AVRO_ENUM =>
      isnumber <- lua_isnumber (lua_arg args 2) ;;
      symbol_value <-
        (if isnumber then
           n <- lua_tointeger (lua_arg args 2) ;;
           ret (CInt.to_int (n - 1))
         else
           symbol <- luaL_checkstring args 2 ;;
           enum_schema <- avro_value_get_schema value ;;
           match enum_schema with
           | SEnum _ syms =>
               match index_of symbol syms with
               | Some i => ret (Z.of_nat i)
               | None => luaL_error ("No symbol named " ++ symbol)
               end
           | _ => crash
           end) ;;
      check (set_with value
               (fun env s x => Generic.set_enum env s x symbol_value)) ;;;
      ret []
  | AVRO_FIXED =>
      buf <- luaL_checklstring args 2 ;;
      check (set_with value
               (fun env s x => Generic.set_fixed env s x (bytes_of_string buf)
                                 (Z.of_nat (String.length buf)))) ;;;
      ret []
  | AVRO_MAP =>
      key <- luaL_checkstring args 2 ;;
      element_value <- check (avro_value_add value key) ;;
      u <- lua_avro_push_value element_value false ;;
      ret [u]
  | AVRO_UNION =>
      if lua_gettop args <? 2 then
        lua_error (LStr "Missing index on UnionValue:set()")
      else
        select_union_branch value (lua_arg args 2)
  | AVRO_ARRAY | AVRO_RECORD | AVRO_LINK =>
      luaL_error ("Don't know how to set in value type "
                    ++ format_d (type_code t))
  end.

(** [lua_rawget]: the value at a key of a table, nil when absent. *)
Definition lua_rawequal (a b : lua_value) : bool :=
  match a, b with
  | LNil, LNil => true
  | LBool x, LBool y => Bool.eqb x y
  | LNum x, LNum y => x =? y
  | LStr x, LStr y => String.eqb x y
  | LUserdata x, LUserdata y => (x =? y)%nat
  | _, _ => false
  end.

Fixpoint rawget (entries : list (lua_value * lua_value)) (k : lua_value)
  : lua_value :=
  match entries with
  | [] => LNil
  | (k', v) :: rest => if lua_rawequal k k' then v else rawget rest k
  end.

(** The limit Lua 5.1 puts on nested C calls ([luaconf.h]). *)
Definition LUAI_MAXCCALLS : nat := 200.

Section Loops.
Variable A : Type.
Variable body : A -> lua unit.

Fixpoint for_each (l : list A) : lua unit :=
  match l with
  | [] => ret tt
  | a :: rest => body a ;;; for_each rest
  end.
End Loops.

(** [l_value_set_from_ast]; [calls] is the number of nested C calls
    Lua still grants, each [lua_call] taking one. *)
Fixpoint set_from_ast (calls : nat) (args : list lua_value) {struct calls}
  : lua (list lua_value) :=
  match calls with
  | O => lua_error (LStr "C stack overflow")
  | S calls' =>
      value <- lua_avro_get_value args 1 ;;
      t <- avro_value_get_type value ;;
      match t with
      | AVRO_BOOLEAN | AVRO_NULL | AVRO_ENUM => l_value_set args
      | AVRO_BYTES | AVRO_STRING | AVRO_FIXED =>
          (* Force parameter 2 to be a string *)
          luaL_checklstring args 2 ;;;
          l_value_set args
      | AVRO_DOUBLE | AVRO_FLOAT | AVRO_INT32 | AVRO_INT64 =>
          n <- luaL_checknumber args 2 ;;
          l_value_set (args ++ [lua_arg args 1; LNum n])
      | AVRO_ARRAY =>
          let elements := lua_objlen (lua_arg args 2) in
          check (avro_value_reset value) ;;;
          match lua_arg args 2 with
          | LTable arr _ =>
              for_each
                (fun x =>
                   child <- check (avro_value_append value) ;;
                   u <- lua_avro_push_value child false ;;
                   lua_call (set_from_ast calls' [u; x]) ;;;
                   ret tt) arr ;;;
              ret []
          | _ =>
              if elements =? 0 then ret []
              else check (avro_value_append value) ;;; crash
          end
      | AVRO_MAP =>
          match last args LNil with
          | LTable arr hash =>
              for_each
                (fun kv =>
                   key <- lua_tostring (fst kv) ;;
                   match key with
                   | Some key =>
                       child <- check (avro_value_add value (c_str key)) ;;
                       u <- lua_avro_push_value child false ;;
                       lua_call
                         (set_from_ast calls'
                            [u; rawget (table_entries arr hash) (fst kv)]) ;;;
                       ret tt
                   | None => crash
                   end) (table_entries arr hash) ;;;
              ret []
          | _ => crash
          end
      | AVRO_RECORD =>
          match last args LNil with
          | LTable arr hash =>
              for_each
                (fun kv =>
                   r <- lua_call (l_value_get [lua_arg args 1; fst kv]) ;;
                   let field := hd LNil r in
                   lua_call (set_from_ast calls' [field; snd kv]) ;;;
                   ret tt) (table_entries arr hash) ;;;
              ret []
          | _ => crash
          end
      | AVRO_UNION =>
          if (2 <=? lua_gettop args) && lua_isnil (lua_arg args 2) then
            r <- select_union_branch value (LStr "null") ;;
            lua_call (set_from_ast calls' [hd LNil r; LNil]) ;;;
            ret []
          else
            match (if 2 <=? lua_gettop args then lua_arg args 2 else LNil) with
            | LTable arr hash =>
                match table_entries arr hash with
                | [] => lua_error (LStr "Union AST must have exactly one element")
                | (k, x) :: _ =>
                    r <- select_union_branch value k ;;
                    lua_call (set_from_ast calls' [hd LNil r; x]) ;;;
                    ret []
                end
            | _ => crash
            end
      | AVRO_LINK => lua_error (LStr "Unknown Avro value type")
      end
  end.

Definition l_value_set_from_ast (args : list lua_value) : lua (list lua_value) :=
  set_from_ast LUAI_MAXCCALLS args.

Definition l_value_add (args : list lua_value) : lua (list lua_value) :=
  let nargs := lua_gettop args in
  value <- lua_avro_get_value args 1 ;;
  key <- luaL_checkstring args 2 ;;
  t <- avro_value_get_type value ;;
  match t with
  | AVRO_MAP =>
      if nargs >? 3 then
        lua_error (LStr "Bad number of arguments to AvroValue:add")
      else
        element <- check (avro_value_add value key) ;;
        u <- lua_avro_push_value element false ;;
        ret [u]
  | _ => lua_error (LStr "Can only add to an map")
  end.

Definition l_value_append (args : list lua_value) : lua (list lua_value) :=
  value <- lua_avro_get_value args 1 ;;
  t <- avro_value_get_type value ;;
  match t with
  | AVRO_ARRAY =>
      element <- check (avro_value_append value) ;;
      u <- lua_avro_push_value element false ;;
      ret [u]
  | _ => lua_error (LStr "Can only append to an array")
  end.

(** *** Iterators *)

(** [create_iterator (L, value, no_scalar)]; [value] points into the
    wrapper at [wrapper]. *)
Definition create_iterator (wrapper : nat) (no_scalar : bool) : lua lua_value :=
  id <- lua_newuserdata
          (UdIterator {| no_scalar := no_scalar;
                         it_value := Some wrapper;
                         next_index := 0 |}) ;;
  ret (LUserdata id).

(** [luaL_checkudata (L, 1, MT_ITERATOR)]. *)
Definition checkudata_iterator (args : list lua_value) (index : nat)
  : lua (nat * Iterator) :=
  match lua_arg args index with
  | LUserdata id =>
      L <- get_state ;;
      match nth_error (udata L) id with
      | Some (UdIterator it) => ret (id, it)
      | _ => luaL_argerror
      end
  | _ => luaL_argerror
  end.

Definition iterator_gc (args : list lua_value) : lua (list lua_value) :=
  '(id, state) <- checkudata_iterator args 1 ;;
  set_udata id (UdIterator {| no_scalar := no_scalar state;
                              it_value := None;
                              next_index := next_index state |}) ;;;
  ret [].

(** [*state->value]. *)
Definition iterator_value (state : Iterator) : lua avro_value_t :=
  match it_value state with
  | Some w =>
      L <- get_state ;;
      match nth_error (udata L) w with
      | Some (UdValue lv) => ret (l_value lv)
      | _ => crash
      end
  | None => crash
  end.

Definition iterate_array (args : list lua_value) : lua (list lua_value) :=
  '(id, state) <- checkudata_iterator args 1 ;;
  value <- iterator_value state ;;
  length <- check (avro_value_get_size value) ;;
  (* next_index is the 0-based avro index, not the 1-based Lua index. *)
  if next_index state >=? length then ret []
  else
    '(element, _) <- check (avro_value_get_by_index value (next_index state)) ;;
    u <- lua_avro_push_value element false ;;
    set_udata id (UdIterator {| no_scalar := no_scalar state;
                                it_value := it_value state;
                                next_index := next_index state + 1 |}) ;;;
    ret [lua_pushinteger (next_index state + 1); u].

Definition iterate_map (args : list lua_value) : lua (list lua_value) :=
  '(id, state) <- checkudata_iterator args 1 ;;
  value <- iterator_value state ;;
  length <- check (avro_value_get_size value) ;;
  if next_index state >=? length then ret []
  else
    '(element, key) <- check (avro_value_get_by_index value (next_index state)) ;;
    u <- lua_avro_push_value element false ;;
    set_udata id (UdIterator {| no_scalar := no_scalar state;
                                it_value := it_value state;
                                next_index := next_index state + 1 |}) ;;;
    ret [match key with Some k => LStr k | None => LNil end; u].

Definition l_value_iterate (args : list lua_value) : lua (list lua_value) :=
  '(wrapper, lv) <- checkudata_value args 1 ;;
  value_type <- avro_value_get_type (l_value lv) ;;
  let no_scalar := lua_toboolean (lua_arg args 2) in
  match value_type with
  | AVRO_ARRAY =>
      it <- create_iterator wrapper no_scalar ;;
      ret [LCFunction iterate_array_fn; it; LNil]
  | AVRO_MAP =>
      it <- create_iterator wrapper no_scalar ;;
      ret [LCFunction iterate_map_fn; it; LNil]
  | _ => lua_error (LStr "Can only iterate through arrays and maps")
  end.

Definition call_cfunction (f : lua_CFunction) : list lua_value -> lua (list lua_value) :=
  match f with
  | iterate_array_fn => iterate_array
  | iterate_map_fn => iterate_map
  end.

(** *** Encoding *)

(** Fresh memory from [malloc]. *)
Definition malloc (size : Z) : memory := fun _ => NUL.

Definition set_static_buf (buf : memory) : lua unit :=
  fun L => Returns tt (with_static_buf L buf).

Definition l_value_encode (args : list lua_value) : lua (list lua_value) :=
  value <- lua_avro_get_value args 1 ;;
  size <- check (avro_value_sizeof value) ;;
  L <- get_state ;;
  if size <=? STATIC_BUF_SIZE then
    result <- avro_value_write (static_buf L) size value ;;
    match result with
    | Ok buf =>
        set_static_buf buf ;;;
        ret [lua_pushlstring (read_memory buf (Z.to_nat size)) size]
    | Err e => lua_return_avro_error e
    end
  else if size <=? malloc_limit L then
    result <- avro_value_write (malloc size) size value ;;
    match result with
    | Ok buf => ret [lua_pushlstring (read_memory buf (Z.to_nat size)) size]
    | Err e => lua_return_avro_error e
    end
  else
    ret [LNil; LStr "Out of memory"].

Definition l_value_encoded_size (args : list lua_value) : lua (list lua_value) :=
  value <- lua_avro_get_value args 1 ;;
  size <- check (avro_value_sizeof value) ;;
  ret [lua_pushinteger size].

Definition l_value_release (args : list lua_value) : lua (list lua_value) :=
  '(id, lv) <- checkudata_value args 1 ;;
  (if should_decref lv
      && match self (l_value lv) with Some _ => true | None => false end
   then avro_value_decref (l_value lv)
   else ret tt) ;;;
  set_udata id (UdValue {| l_value := {| iface := None; self := None |};
                           should_decref := false |}) ;;;
  ret [].

(** *** Resolved writers *)

(** Modelled from the spec: [avro_resolved_writer_new], NULL when the
    schemas do not resolve. *)
Definition avro_resolved_writer_new (env : schema_env) (w r : schema)
  : option (schema * schema) :=
  if Codec.resolvable env w r then Some (w, r) else None.

(** [lua_avro_push_resolved_writer]: the resolver with a value of its
    own, which has no destination yet. *)
Definition lua_avro_push_resolved_writer (resolver : schema * schema)
  : lua lua_value :=
  id <- lua_newuserdata
          (UdResolvedWriter {| resolver := Some resolver;
                               rw_value := Some {| iface := None; self := None |} |}) ;;
  ret (LUserdata id).

(** [luaL_checkudata (L, 1, MT_AVRO_RESOLVED_WRITER)]. *)
Definition checkudata_resolved_writer (args : list lua_value) (index : nat)
  : lua (nat * LuaAvroResolvedWriter) :=
  match lua_arg args index with
  | LUserdata id =>
      L <- get_state ;;
      match nth_error (udata L) id with
      | Some (UdResolvedWriter r) => ret (id, r)
      | _ => luaL_argerror
      end
  | _ => luaL_argerror
  end.

(** Modelled from the spec: [avro_value_read] through a resolved
    writer, into the destination bound to it.  The destination takes
    the decoded value; it is left as it was when decoding fails. *)
Definition avro_value_read (buf : bytes) (w r : schema) (dest : avro_value_t)
  : lua (result unit) :=
  '(s, p, _) <- load dest ;;
  L <- get_state ;;
  if Generic.schema_equal (resolve (named L) s) (resolve (named L) r) then
    match Codec.rdecode (c_stack L) (named L) w r buf with
    | Ok (y, _) => store p y ;;; ret (Ok tt)
    | Err TooDeep => crash
    | Err e => ret (Err e)
    end
  else ret (Err SchemaMismatch).

Definition l_resolved_writer_decode (args : list lua_value)
  : lua (list lua_value) :=
  '(id, l_resolver) <- checkudata_resolved_writer args 1 ;;
  buf <- luaL_checklstring args 2 ;;
  value <- lua_avro_get_value args 3 ;;
  match resolver l_resolver, rw_value l_resolver with
  | Some (w, r), Some _ =>
      (* avro_resolved_writer_set_dest *)
      set_udata id (UdResolvedWriter {| resolver := resolver l_resolver;
                                        rw_value := Some value |}) ;;;
      result <- avro_value_read (bytes_of_string buf) w r value ;;
      match result with
      | Ok _ => ret [LBool true]
      | Err e => lua_return_avro_error e
      end
  | _, _ => crash
  end.

Definition l_resolved_writer_gc (args : list lua_value) : lua (list lua_value) :=
  '(id, l_resolver) <- checkudata_resolved_writer args 1 ;;
  set_udata id (UdResolvedWriter {| resolver := None; rw_value := None |}) ;;;
  ret [].

(** *** The methods of an AvroValue ([value_methods]) *)

Definition value_methods (name : string)
  : option (list lua_value -> lua (list lua_value)) :=
  if String.eqb name "add" then Some l_value_add
  else if String.eqb name "append" then Some l_value_append
  else if String.eqb name "copy_from" then Some l_value_copy_from
  else if String.eqb name "discriminant" then Some l_value_discriminant
  else if String.eqb name "discriminant_index" then Some l_value_discriminant_index
  else if String.eqb name "encode" then Some l_value_encode
  else if String.eqb name "encoded_size" then Some l_value_encoded_size
  else if String.eqb name "get" then Some l_value_get
  else if String.eqb name "iterate" then Some l_value_iterate
  else if String.eqb name "release" then Some l_value_release
  else if String.eqb name "reset" then Some l_value_reset
  else if String.eqb name "schema_name" then Some l_value_schema_name
  else if String.eqb name "set" then Some l_value_set
  else if String.eqb name "set_from_ast" then Some l_value_set_from_ast
  else if String.eqb name "size" then Some l_value_size
  else if String.eqb name "type" then Some l_value_type
  else None.

End Binding.

(** ** Observing a state *)

(** The schema and the contents a value handle gives access to; [None]
    for a handle that is NULL or dangling. *)
Definition peek_value (L : lua_State) (v : avro_value_t) : option (schema * value) :=
  match load v L with
  | Returns (s, _, x) _ => Some (s, x)
  | _ => None
  end.

(** The same through the AvroValue userdata at [id]. *)
Definition peek (L : lua_State) (id : nat) : option (schema * value) :=
  match nth_error (udata L) id with
  | Some (UdValue lv) => peek_value L (l_value lv)
  | _ => None
  end.

(** The tag [avro_value_get_type] reports for the userdata at [id]. *)
Definition type_of (L : lua_State) (id : nat) : option avro_type_t :=
  match nth_error (udata L) id with
  | Some (UdValue lv) =>
      match iface (l_value lv) with
      | Some s => Some (avro_typeof (resolve (named L) s))
      | None => None
      end
  | _ => None
  end.

(** A recoverable error: a raised Lua error or the pair of nil and a
    message, either with the reason as a string. *)
Definition recoverable (o : outcome (list lua_value)) : Prop :=
  (exists msg L', o = Raises (LStr msg) L')
  \/ (exists msg L', o = Returns [LNil; LStr msg] L').

(** The wrapper a release leaves behind. *)
Definition released : LuaAvroValue :=
  {| l_value := {| iface := None; self := None |}; should_decref := false |}.

(** A Lua value that selects branch [i] of a union: the branch's 1-based
    position as a number that fits a C int, or a string that does not
    begin like a numeral and, up to its first NUL, is the name of the
    branch's type. *)
Definition selects_branch (brs : list schema) (key : lua_value) (i : nat) : Prop :=
  match key with
  | LNum n =>
      LuaNumber.to_integer n = Z.of_nat i + 1
      /\ CInt.in_int32 (Z.of_nat i) = true
  | LStr name =>
      LuaNumber.of_string name = Some None
      /\ exists br, Generic.branch_by_name (c_str name) O brs = Some (i, br)
  | _ => False
  end.

(** The wrapper [lua_avro_push_value] makes for the child at index [i],
    of schema [cs], of the value the wrapper at [id] refers to: a view
    that does not own the child. *)
Definition child_view (L : lua_State) (id : nat) (cs : schema) (i : nat)
  : option userdata :=
  match nth_error (udata L) id with
  | Some (UdValue lv) =>
      match self (l_value lv) with
      | Some p =>
          Some (UdValue {| l_value := Binding.child_value p (cs, i);
                           should_decref := false |})
      | None => None
      end
  | _ => None
  end.

(** ** Loops of the calling Lua code *)

Local Open Scope lua_scope.

(** The generic [for] of Lua 5.1 over a C function [f], its state [s]
    and a control variable: [f] is called with the state and the control
    variable, whose next value is the first result of the call, until
    that result is nil.  The results of the calls are collected. *)
Fixpoint for_in (fuel : nat) (f : lua_CFunction) (s ctrl : lua_value)
  : lua (list (list lua_value)) :=
  match fuel with
  | O => unmodelled
  | S fuel' =>
      r <- Binding.call_cfunction f [s; ctrl] ;;
      match hd LNil r with
      | LNil => ret []
      | var =>
          rest <- for_in fuel' f s var ;;
          ret (r :: rest)
      end
  end.

(** The first [n] turns of such a loop, which is then left. *)
Fixpoint for_in_first (n : nat) (f : lua_CFunction) (s ctrl : lua_value)
  : lua (list (list lua_value)) :=
  match n with
  | O => ret []
  | S n' =>
      r <- Binding.call_cfunction f [s; ctrl] ;;
      rest <- for_in_first n' f s (hd LNil r) ;;
      ret (r :: rest)
  end.

(** [n] calls of [append] on an array, collecting the views returned. *)
Fixpoint appends (n : nat) (arr : lua_value) : lua (list lua_value) :=
  match n with
  | O => ret []
  | S n' =>
      r <- Binding.l_value_append [arr] ;;
      rest <- appends n' arr ;;
      ret (hd LNil r :: rest)
  end.

(** The userdata at [u] is an AvroValue wrapper of the handle [h]. *)
Definition holds (L : lua_State) (u : nat) (h : avro_value_t) : Prop :=
  exists b, nth_error (udata L) u = Some (UdValue {| l_value := h; should_decref := b |}).

(** The results of one turn of an array iteration are the 1-based
    position [k+1] and a wrapper of the element that [view] wraps. *)
Definition visits (L : lua_State) (k : nat) (turn : list lua_value)
  (view : lua_value) : Prop :=
  exists u v h,
    turn = [lua_pushinteger (Z.of_nat k + 1); LUserdata u]
    /\ view = LUserdata v
    /\ holds L u h /\ holds L v h.

(** The turns visit the views one by one, in order, counting from [k]. *)
Fixpoint in_append_order (L : lua_State) (k : nat) (turns : list (list lua_value))
  (views : list lua_value) : Prop :=
  match turns, views with
  | [], [] => True
  | turn :: turns', view :: views' =>
      visits L k turn view /\ in_append_order L (S k) turns' views'
  | _, _ => False
  end.

(** The wrapper made for element [j] of the array at [p], whose items
    have schema [it]: a view that does not own the element. *)
Definition element_view (p : ptr) (it : schema) (j : nat) : userdata :=
  UdValue {| l_value := Binding.child_value p (it, j); should_decref := false |}.

(** The iterator at [itid] runs over the value wrapped at [id] and its
    cursor is at [k]. *)
Definition iterating (L : lua_State) (itid id : nat) (k : nat) : Prop :=
  exists b,
    nth_error (udata L) itid
    = Some (UdIterator {| no_scalar := b; it_value := Some id;
                          next_index := Z.of_nat k |}).

(** Every wrapper of [L] is still there in [L']. *)
Definition keeps (L L' : lua_State) : Prop :=
  forall u h, holds L u h -> holds L' u h.

(** The turns of an iteration over the array at [p] yield, from position
    [k] on, the 1-based positions and views of the elements in order. *)
Fixpoint yields (L : lua_State) (p : ptr) (it : schema) (k : nat)
  (turns : list (list lua_value)) : Prop :=
  match turns with
  | [] => True
  | turn :: rest =>
      (exists u, turn = [lua_pushinteger (Z.of_nat k + 1); LUserdata u]
                 /\ holds L u (Binding.child_value p (it, k)))
      /\ yields L p it (S k) rest
  end.

(** The same for the views that the appends returned. *)
Fixpoint views_from (L : lua_State) (p : ptr) (it : schema) (k : nat)
  (views : list lua_value) : Prop :=
  match views with
  | [] => True
  | view :: rest =>
      (exists v, view = LUserdata v /\ holds L v (Binding.child_value p (it, k)))
      /\ views_from L p it (S k) rest
  end.

(** ** States for concrete runs *)

(** Static storage starts out zeroed. *)
Definition fresh_static_buf : memory := fun _ => NUL.

(** A state with the given cells and userdata, no named schemas, room
    to allocate and to recurse, and a caller at line 1 of its chunk. *)
Definition state_of (cells : list cell) (uds : list userdata) : lua_State :=
  {| heap := cells; udata := uds; named := [];
     static_buf := fresh_static_buf; malloc_limit := 2 ^ 30; c_stack := 1000;
     call_site := "main.lua:1: " |}.

(** An owning wrapper of the root of cell [c], of schema [s]. *)
Definition owner (s : schema) (c : nat) : userdata :=
  UdValue {| l_value := {| iface := Some s; self := Some (c, []) |};
             should_decref := true |}.

Definition live (x : value) : cell := {| refcount := 1; content := x |}.

Definition num (z : Z) : lua_value := lua_pushinteger z.



(** An array of two ints. *)
Definition array_state : lua_State :=
  state_of [live (VArray [VInt 7; VInt 8])] [owner (SArray SInt) 0].

(** A string value holding some text. *)
Definition string_state : lua_State :=
  state_of [live (VString "old")] [owner SString 0].

(** Two int values: a destination holding 0 and a source holding 5. *)
Definition copy_state : lua_State :=
  state_of [live (VInt 0); live (VInt 5)] [owner SInt 0; owner SInt 1].

(** A union of int and string with the int branch active. *)
Definition int_or_string : schema := SUnion [SInt; SString].

Definition union2_state : lua_State :=
  state_of [live (VUnion 0 (VInt 0))] [owner int_or_string 0].

(** The same union with the string branch active. *)
Definition union_string_state : lua_State :=
  state_of [live (VUnion 1 (VString "x"))] [owner int_or_string 0].

(** An empty array of ints. *)
Definition empty_array_state : lua_State :=
  state_of [live (VArray [])] [owner (SArray SInt) 0].

(** A union whose second branch resolves against its first. *)
Definition long_or_int : schema := SUnion [SLong; SInt].

(** A resolved writer from a schema to itself, not yet bound to a
    destination. *)
Definition self_resolver (s : schema) : userdata :=
  UdResolvedWriter {| resolver := Some (s, s);
                      rw_value := Some {| iface := None; self := None |} |}.

(** A value of that union on its int branch, a resolver and a fresh
    destination. *)
Definition overlap_state : lua_State :=
  state_of [live (VUnion 1 (VInt 5)); live VUnset]
    [owner long_or_int 0; self_resolver long_or_int; owner long_or_int 1].

(** A record with an int and an optional string. *)
Definition record_schema : schema :=
  SRecord "point" [("x", SInt, None); ("tag", SUnion [SNull; SString], None)].

Definition record_state : lua_State :=
  state_of [live (VRecord [VInt 7; VUnion 1 (VString "a")]);
            live (VRecord [VInt 0; VUnset])]
    [owner record_schema 0; self_resolver record_schema; owner record_schema 1].




(** Scalars. *)
Definition int_state : lua_State := state_of [live (VInt 0)] [owner SInt 0].

Definition long_state : lua_State :=
  state_of [live (VLong 123456789012)] [owner SLong 0].

Definition double_state : lua_State :=
  state_of [live (VDouble 0)] [owner SDouble 0].

Definition boolean_state : lua_State :=
  state_of [live (VBoolean false)] [owner SBoolean 0].

Definition bytes_state : lua_State := state_of [live (VBytes "")] [owner SBytes 0].

(** An enum of two symbols, on the first. *)
Definition suit : schema := SEnum "suit" ["hearts"; "spades"].

Definition enum_state : lua_State := state_of [live (VEnum 0)] [owner suit 0].

(** A map of two ints. *)
Definition map_state : lua_State :=
  state_of [live (VMap [("a", VInt 1); ("b", VInt 2)])] [owner (SMap SInt) 0].

(** The int [set] stores for a Lua number: [lua_Integer] truncation,
    then the conversion to [int32_t]. *)
Definition int_of_number (n : Z) : value :=
  VInt (CInt.to_int (LuaNumber.to_integer n)).

(** The turns of an iteration over a map go over its entries in order:
    each yields the key of an entry and a wrapper of its value. *)
Fixpoint visits_entries (L : lua_State) (vs : schema)
  (turns : list (list lua_value)) (kvs : list (string * value)) : Prop :=
  match turns, kvs with
  | [], [] => True
  | turn :: turns', (key, e) :: kvs' =>
      (exists u, turn = [LStr key; LUserdata u] /\ peek L u = Some (vs, e))
      /\ visits_entries L vs turns' kvs'
  | _, _ => False
  end.

(** The array of two ints with, besides its owner, a view of its second
    element. *)
Definition view_state : lua_State :=
  state_of [live (VArray [VInt 7; VInt 8])]
    [owner (SArray SInt) 0; element_view (0%nat, []) SInt 1].

(** * Theorems *)

(** ** Bytes and the wire primitives *)

Lemma Z_of_byte_of_Z (z : Z) : Z_of_byte (byte_of_Z z) = z mod 256.
Proof.
  unfold Z_of_byte, byte_of_Z.
  assert (H : 0 <= z mod 256 < 256) by (apply Z.mod_pos_bound; lia).
  rewrite N_ascii_embedding by lia.
  apply Z2N.id; lia.
Qed.

Lemma Z_of_byte_small (z : Z) : 0 <= z < 256 -> Z_of_byte (byte_of_Z z) = z.
Proof.
  intros H. rewrite Z_of_byte_of_Z. apply Z.mod_small; lia.
Qed.

Lemma length_bytes_of_string (s : string) :
  List.length (bytes_of_string s) = String.length s.
Proof.
  unfold bytes_of_string. induction s as [|a s IH]; simpl; congruence.
Qed.

Lemma string_of_bytes_of_string (s : string) :
  string_of_bytes (bytes_of_string s) = s.
Proof. apply string_of_list_ascii_of_string. Qed.

Lemma bytes_of_string_of_bytes (b : bytes) :
  bytes_of_string (string_of_bytes b) = b.
Proof. apply list_ascii_of_string_of_list_ascii. Qed.

Lemma length_string_of_bytes (b : bytes) :
  String.length (string_of_bytes b) = List.length b.
Proof.
  rewrite <- length_bytes_of_string, bytes_of_string_of_bytes. reflexivity.
Qed.

Module WireFacts.
Import Wire.

Lemma unzigzag_zigzag (z : Z) : unzigzag (zigzag z) = z.
Proof.
  unfold zigzag, unzigzag.
  destruct (Z.ltb_spec z 0).
  - destruct (Z.even (- 2 * z - 1)) eqn:E.
    + apply Z.even_spec in E. destruct E as [k Hk]. lia.
    + replace (- 2 * z - 1 + 1) with ((- z) * 2) by lia.
      rewrite Z.div_mul by lia. lia.
  - destruct (Z.even (2 * z)) eqn:E.
    + replace (2 * z) with (z * 2) by lia. apply Z.div_mul; lia.
    + assert (E' : Z.even (2 * z) = true)
        by (apply Z.even_spec; exists z; lia).
      congruence.
Qed.

Lemma zigzag_range (z : Z) :
  CInt.in_int64 z = true -> 0 <= zigzag z < 2 ^ 64.
Proof.
  unfold CInt.in_int64, CInt.INT64_MIN, CInt.INT64_MAX, zigzag.
  intros H. apply andb_prop in H. destruct H as [H1 H2].
  apply Z.leb_le in H1. apply Z.leb_le in H2.
  destruct (Z.ltb_spec z 0); lia.
Qed.

Lemma unvarint_varint (fuel : nat) :
  forall (n : Z) (rest : bytes),
    0 <= n < 2 ^ (7 * Z.of_nat (S fuel)) ->
    unvarint (S fuel) (varint (S fuel) n ++ rest) = Ok (n, rest).
Proof.
  induction fuel as [|k IH]; intros n rest Hn.
  - change (2 ^ (7 * Z.of_nat 1)) with 128 in Hn.
    cbn [varint unvarint].
    destruct (Z.ltb_spec n 128) as [Hlt|Hge]; [|lia].
    cbn [app]. rewrite Z_of_byte_small by lia.
    destruct (Z.ltb_spec n 128); [reflexivity | lia].
  - remember (S k) as k' eqn:Hk'.
    cbn [varint unvarint].
    destruct (Z.ltb_spec n 128) as [Hlt|Hge].
    + cbn [app]. rewrite Z_of_byte_small by lia.
      destruct (Z.ltb_spec n 128); [reflexivity | lia].
    + cbn [app].
      assert (Hm : 0 <= n mod 128 < 128) by (apply Z.mod_pos_bound; lia).
      rewrite Z_of_byte_small by lia.
      destruct (Z.ltb_spec (n mod 128 + 128) 128); [lia|].
      assert (Hq : 0 <= n / 128 < 2 ^ (7 * Z.of_nat k')).
      { split; [apply Z.div_pos; lia|].
        apply Z.div_lt_upper_bound; [lia|].
        replace (7 * Z.of_nat (S k')) with (7 + 7 * Z.of_nat k') in Hn by lia.
        rewrite Z.pow_add_r in Hn by lia.
        change (2 ^ 7) with 128 in Hn. lia. }
      subst k'. rewrite (IH _ rest Hq). cbn [rbind].
      f_equal. f_equal.
      pose proof (Z.div_mod n 128). lia.
Qed.

Lemma read_long_write_long (z : Z) (rest : bytes) :
  CInt.in_int64 z = true ->
  read_long (write_long z ++ rest) = Ok (z, rest).
Proof.
  intros Hz. unfold read_long, write_long.
  pose proof (zigzag_range z Hz) as Hr.
  rewrite unvarint_varint.
  - cbn [rbind]. destruct (Z.ltb_spec (zigzag z) (2 ^ 64)); [|lia].
    rewrite unzigzag_zigzag. reflexivity.
  - change (7 * Z.of_nat 10) with 70.
    assert (2 ^ 64 < 2 ^ 70) by (apply Z.pow_lt_mono_r; lia). lia.
Qed.

Lemma in_int32_int64 (z : Z) :
  CInt.in_int32 z = true -> CInt.in_int64 z = true.
Proof.
  unfold CInt.in_int32, CInt.in_int64, CInt.INT32_MIN, CInt.INT32_MAX,
    CInt.INT64_MIN, CInt.INT64_MAX.
  intros H. apply andb_prop in H. destruct H as [H1 H2].
  apply Z.leb_le in H1. apply Z.leb_le in H2.
  apply andb_true_intro. split; apply Z.leb_le.
  - assert (- 2 ^ 63 <= - 2 ^ 31) by (apply -> Z.opp_le_mono; apply Z.pow_le_mono_r; lia). lia.
  - assert (2 ^ 31 <= 2 ^ 63) by (apply Z.pow_le_mono_r; lia). lia.
Qed.

Lemma read_int_write_long (z : Z) (rest : bytes) :
  CInt.in_int32 z = true ->
  read_int (write_long z ++ rest) = Ok (z, rest).
Proof.
  intros Hz. unfold read_int.
  rewrite read_long_write_long by (apply in_int32_int64; exact Hz).
  cbn [rbind]. rewrite Hz. reflexivity.
Qed.

Lemma fits_in_int64 (n : nat) :
  fits n = true -> CInt.in_int64 (Z.of_nat n) = true.
Proof.
  unfold fits, CInt.in_int64, CInt.INT64_MIN. intros H. rewrite H.
  rewrite andb_true_r. apply Z.leb_le.
  assert (0 < 2 ^ 63) by (apply Z.pow_pos_nonneg; lia). lia.
Qed.

Lemma read_count_write_long (n : nat) (rest : bytes) :
  fits n = true ->
  read_count (write_long (Z.of_nat n) ++ rest) = Ok (n, rest).
Proof.
  intros Hn. unfold read_count.
  rewrite read_long_write_long by (apply fits_in_int64; exact Hn).
  cbn [rbind]. destruct (Z.ltb_spec (Z.of_nat n) 0); [lia|].
  rewrite Nat2Z.id. reflexivity.
Qed.

Lemma read_count_zero (rest : bytes) :
  read_count (write_long 0 ++ rest) = Ok (O, rest).
Proof. exact (read_count_write_long O rest eq_refl). Qed.

Lemma write_long_not_nil (z : Z) : write_long z <> [].
Proof.
  unfold write_long. cbn [varint].
  destruct (zigzag z <? 128); discriminate.
Qed.

Lemma read_le_write_le (k : nat) :
  forall (z : Z) (rest : bytes),
    0 <= z < 256 ^ Z.of_nat k ->
    read_le k (write_le k z ++ rest) = Ok (z, rest).
Proof.
  induction k as [|k IH]; intros z rest Hz.
  - simpl in Hz. cbn. f_equal. f_equal. lia.
  - cbn [write_le read_le app].
    assert (Hq : 0 <= z / 256 < 256 ^ Z.of_nat k).
    { split; [apply Z.div_pos; lia|].
      apply Z.div_lt_upper_bound; [lia|].
      replace (Z.of_nat (S k)) with (1 + Z.of_nat k) in Hz by lia.
      rewrite Z.pow_add_r in Hz by lia.
      change (256 ^ 1) with 256 in Hz. lia. }
    rewrite (IH _ rest Hq). cbn [rbind].
    rewrite Z_of_byte_of_Z.
    f_equal. f_equal. pose proof (Z.div_mod z 256). lia.
Qed.

Lemma read_raw_string (s : string) (rest : bytes) :
  read_raw (String.length s) (bytes_of_string s ++ rest) = Ok (s, rest).
Proof.
  unfold read_raw.
  rewrite length_app, length_bytes_of_string.
  destruct (Nat.ltb_spec (String.length s + List.length rest) (String.length s));
    [lia|].
  rewrite <- (length_bytes_of_string s).
  rewrite firstn_app, Nat.sub_diag, firstn_all, firstn_O, app_nil_r.
  rewrite skipn_app, Nat.sub_diag, skipn_all, skipn_O.
  rewrite string_of_bytes_of_string. reflexivity.
Qed.

Lemma read_bytes_write_bytes (s : string) (rest : bytes) :
  fits (String.length s) = true ->
  read_bytes (write_bytes s ++ rest) = Ok (s, rest).
Proof.
  intros Hs. unfold read_bytes, write_bytes.
  rewrite <- app_assoc, read_count_write_long by exact Hs.
  cbn [rbind]. apply read_raw_string.
Qed.

Lemma read_boolean_write_boolean (b : bool) (rest : bytes) :
  read_boolean (write_boolean b ++ rest) = Ok (b, rest).
Proof. destruct b; reflexivity. Qed.

Section Items.
Variables (A : Type) (enc : A -> bytes).
Variable item : bytes -> result (A * bytes).

Lemma read_items_concat (xs : list A) :
  Forall (fun x => forall rest, item (enc x ++ rest) = Ok (x, rest)) xs ->
  forall rest,
    read_items item (List.length xs) (List.concat (map enc xs) ++ rest)
    = Ok (xs, rest).
Proof.
  induction 1 as [|x xs Hx _ IH]; intros rest.
  - reflexivity.
  - cbn [List.length map List.concat read_items].
    rewrite <- app_assoc, Hx. cbn [rbind].
    rewrite IH. reflexivity.
Qed.

Lemma read_blocks_loop_block (fuel : nat) (x : A) (xs : list A) (rest : bytes) :
  fits (List.length (x :: xs)) = true ->
  Forall (fun x => forall rest, item (enc x ++ rest) = Ok (x, rest)) (x :: xs) ->
  read_blocks_loop item (S (S fuel))
    (write_long (Z.of_nat (List.length (x :: xs)))
       ++ List.concat (map enc (x :: xs)) ++ write_long 0 ++ rest)
  = Ok (x :: xs, rest).
Proof.
  intros Hfit Hall.
  remember (S fuel) as k eqn:Hk.
  cbn [read_blocks_loop].
  rewrite read_count_write_long by exact Hfit.
  cbn [rbind].
  change (match List.length (x :: xs) with
          | O => ?a | S _ => ?b end) with b.
  rewrite (read_items_concat Hall). cbn [rbind].
  subst k. cbn [read_blocks_loop].
  rewrite read_count_zero. cbn [rbind].
  rewrite app_nil_r. reflexivity.
Qed.

Lemma read_blocks_write_blocks (xs : list A) (rest : bytes) :
  fits (List.length xs) = true ->
  Forall (fun x => forall rest, item (enc x ++ rest) = Ok (x, rest)) xs ->
  read_blocks item (write_blocks (map enc xs) ++ rest) = Ok (xs, rest).
Proof.
  intros Hfit Hall. unfold read_blocks.
  destruct xs as [|x xs].
  - cbn [map write_blocks read_blocks_loop].
    rewrite read_count_zero. reflexivity.
  - assert (Hw : write_blocks (map enc (x :: xs)) ++ rest
                 = write_long (Z.of_nat (List.length (x :: xs)))
                     ++ List.concat (map enc (x :: xs)) ++ write_long 0 ++ rest).
    { cbn [map write_blocks List.length]. rewrite length_map.
      rewrite <- !app_assoc. reflexivity. }
    rewrite Hw.
    destruct (List.length (write_long (Z.of_nat (List.length (x :: xs)))
                ++ List.concat (map enc (x :: xs)) ++ write_long 0 ++ rest))
      as [|k] eqn:Hl.
    + apply length_zero_iff_nil in Hl.
      apply app_eq_nil in Hl. destruct Hl as [Hl _].
      exfalso. exact (write_long_not_nil _ Hl).
    + apply read_blocks_loop_block; assumption.
Qed.
End Items.

End WireFacts.

(** ** The codec: size, and resolution of a schema against itself *)

Module CodecFacts.
Import Wire WireFacts Codec.

(** *** Keys *)

Lemma existsb_eqb_In (k : string) (l : list string) :
  existsb (String.eqb k) l = true <-> In k l.
Proof.
  rewrite existsb_exists. split.
  - intros [x [Hin Heq]]. apply String.eqb_eq in Heq. subst. exact Hin.
  - intros Hin. exists k. split; [exact Hin | apply String.eqb_refl].
Qed.

Lemma nodup_keys_NoDup (l : list string) :
  nodup_keys l = true <-> NoDup l.
Proof.
  induction l as [|k l IH]; cbn [nodup_keys].
  - split; [constructor | reflexivity].
  - rewrite andb_true_iff, negb_true_iff, IH. split.
    + intros [Hk Hl]. constructor; [|exact Hl].
      intros Hin. apply existsb_eqb_In in Hin. congruence.
    + intros Hnd. inversion Hnd as [|? ? Hk Hl]; subst. split; [|exact Hl].
      destruct (existsb (String.eqb k) l) eqn:E; [|reflexivity].
      apply existsb_eqb_In in E. contradiction.
Qed.

Lemma lookup_app_notin {A : Type} (k : string) (pre l : list (string * A)) :
  ~ In k (map fst pre) -> lookup k (pre ++ l) = lookup k l.
Proof.
  induction pre as [|[k' a] pre IH]; intros Hnot; cbn [app lookup].
  - reflexivity.
  - destruct (String.eqb_spec k k') as [->|Hne].
    + exfalso. apply Hnot. left. reflexivity.
    + apply IH. intros Hin. apply Hnot. right. exact Hin.
Qed.

Lemma lookup_In {A : Type} (k : string) (l : list (string * A)) (a : A) :
  lookup k l = Some a -> In a (map snd l).
Proof.
  induction l as [|[k' a'] l IH]; cbn [lookup map snd]; [discriminate|].
  destruct (String.eqb k k').
  - intros [= ->]. left. reflexivity.
  - intros H. right. apply IH. exact H.
Qed.

Lemma index_of_nth (l : list string) :
  NoDup l ->
  forall i k, nth_error l i = Some k -> index_of k l = Some i.
Proof.
  induction 1 as [|x l Hx Hnd IH]; intros i k Hi.
  - destruct i; discriminate.
  - destruct i as [|i]; cbn [nth_error index_of] in *.
    + injection Hi as ->. rewrite String.eqb_refl. reflexivity.
    + destruct (String.eqb_spec k x) as [->|Hne].
      * exfalso. apply Hx. eapply nth_error_In. exact Hi.
      * rewrite (IH _ _ Hi). reflexivity.
Qed.

(** *** Links *)

Lemma follow_links_not_link (n : nat) (env : schema_env) (s : schema) :
  is_link s = false -> follow_links n env s = s.
Proof. destruct n, s; cbn; intros H; try reflexivity; discriminate. Qed.

Lemma resolve_idem (env : schema_env) (s : schema) :
  is_link (resolve env s) = false ->
  resolve env (resolve env s) = resolve env s.
Proof. intros H. unfold resolve at 1. apply follow_links_not_link. exact H. Qed.

Lemma lookup_In_pair {A : Type} (k : string) (l : list (string * A)) (a : A) :
  lookup k l = Some a -> exists k', In (k', a) l.
Proof.
  induction l as [|[k' a'] l IH]; cbn [lookup]; [discriminate|].
  destruct (String.eqb k k').
  - intros [= ->]. exists k'. left. reflexivity.
  - intros H. destruct (IH H) as [k'' Hin]. exists k''. right. exact Hin.
Qed.

Section Env.
Variable env : schema_env.
Hypothesis Henv : forallb (fun e => unambiguous env (snd e)) env = true.

Lemma unambiguous_follow (n : nat) :
  forall s, unambiguous env s = true ->
            unambiguous env (follow_links n env s) = true.
Proof.
  induction n as [|n IH]; intros s Hs; cbn [follow_links].
  - destruct s; exact Hs.
  - destruct s; try exact Hs.
    destruct (lookup target env) as [s'|] eqn:Hl; [|exact Hs].
    apply IH.
    destruct (lookup_In_pair _ _ Hl) as [k' Hin].
    rewrite forallb_forall in Henv.
    exact (Henv _ Hin).
Qed.

Lemma unambiguous_resolve (s : schema) :
  unambiguous env s = true -> unambiguous env (resolve env s) = true.
Proof. apply unambiguous_follow. Qed.
End Env.

(** *** Maps *)

Lemma map_add_fresh (k : string) (v : value) (m : list (string * value)) :
  ~ In k (map fst m) -> map_add k v m = m ++ [(k, v)].
Proof.
  induction m as [|[k' v'] m IH]; intros Hnot; cbn [map_add app].
  - reflexivity.
  - destruct (String.eqb_spec k k') as [->|Hne].
    + exfalso. apply Hnot. left. reflexivity.
    + rewrite IH; [reflexivity|].
      intros Hin. apply Hnot. right. exact Hin.
Qed.

Lemma fold_map_add (kvs : list (string * value)) :
  forall acc,
    NoDup (map fst (acc ++ kvs)) ->
    fold_left (fun m kv => map_add (fst kv) (snd kv) m) kvs acc = acc ++ kvs.
Proof.
  induction kvs as [|[k v] kvs IH]; intros acc Hnd; cbn [fold_left].
  - rewrite app_nil_r. reflexivity.
  - cbn [fst snd].
    rewrite map_add_fresh.
    + rewrite IH; rewrite <- app_assoc; [reflexivity | exact Hnd].
    + rewrite map_app in Hnd. cbn [map fst] in Hnd.
      apply NoDup_remove_2 in Hnd.
      intros Hin. apply Hnd. apply in_or_app. left. exact Hin.
Qed.

Lemma map_of_entries_nodup (kvs : list (string * value)) :
  nodup_keys (map fst kvs) = true -> map_of_entries kvs = kvs.
Proof.
  intros H. apply nodup_keys_NoDup in H.
  unfold map_of_entries. rewrite fold_map_add; [reflexivity | exact H].
Qed.

(** *** Records *)

Lemma find_field_self (fs : list field) :
  NoDup (map fname fs) ->
  forall f, In f fs -> exists i, find_field (fname f) fs = Some (i, f).
Proof.
  induction fs as [|a fs IH]; intros Hnd f Hin; [contradiction|].
  cbn [map] in Hnd. inversion Hnd as [|? ? Ha Hnd']; subst.
  cbn [find_field]. destruct Hin as [->|Hin].
  - rewrite String.eqb_refl. exists O. reflexivity.
  - destruct (String.eqb_spec (fname f) (fname a)) as [Heq|Hne].
    + exfalso. apply Ha. rewrite <- Heq. apply in_map. exact Hin.
    + destruct (IH Hnd' f Hin) as [i Hi]. rewrite Hi.
      exists (S i). reflexivity.
Qed.

Lemma fill_fields_lookup (got : list (string * value)) :
  forall (vs : list value) (fs : list field),
    Forall2 (fun v f => lookup (fname f) got = Some v) vs fs ->
    fill_fields got fs = Ok vs.
Proof.
  induction 1 as [|v f vs fs Hv _ IH]; cbn [fill_fields].
  - reflexivity.
  - rewrite Hv. cbn [rbind]. rewrite IH. reflexivity.
Qed.

Lemma lookup_combine_fields (fs : list field) :
  forall (vs : list value) (pre : list (string * value)),
    NoDup (map fst pre ++ map fname fs) ->
    List.length vs = List.length fs ->
    Forall2 (fun v f => lookup (fname f) (pre ++ combine (map fname fs) vs) = Some v)
      vs fs.
Proof.
  induction fs as [|f fs IH]; intros vs pre Hnd Hlen.
  - destruct vs; [constructor | discriminate].
  - destruct vs as [|v vs]; [discriminate|].
    cbn [map combine]. constructor.
    + rewrite lookup_app_notin.
      * cbn [lookup]. rewrite String.eqb_refl. reflexivity.
      * cbn [map] in Hnd. apply NoDup_remove_2 in Hnd.
        intros Hin. apply Hnd. apply in_or_app. left. exact Hin.
    + replace (pre ++ (fname f, v) :: combine (map fname fs) vs)
        with ((pre ++ [(fname f, v)]) ++ combine (map fname fs) vs)
        by (rewrite <- app_assoc; reflexivity).
      apply IH.
      * rewrite map_app. cbn [map fst]. rewrite <- app_assoc. exact Hnd.
      * cbn [List.length] in Hlen. congruence.
Qed.

Section ResolvedFields.
Variable dec : schema -> bytes -> result (value * bytes).
Variable rdec : schema -> schema -> bytes -> result (value * bytes).
Variable rfs : list field.

Lemma read_resolved_fields_self :
  forall (vs : list value) (wfs : list field),
    Forall2 (fun v f =>
               (exists i, find_field (fname f) rfs = Some (i, f))
               /\ forall rest, rdec (ftype f) (ftype f) (encode v ++ rest)
                               = Ok (v, rest)) vs wfs ->
    forall rest,
      read_resolved_fields dec rdec rfs wfs (List.concat (map encode vs) ++ rest)
      = Ok (combine (map fname wfs) vs, rest).
Proof.
  induction 1 as [|v f vs wfs [[i Hi] Hv] _ IH]; intros rest.
  - reflexivity.
  - cbn [map List.concat read_resolved_fields combine].
    rewrite Hi, <- app_assoc, Hv. cbn [rbind].
    rewrite IH. reflexivity.
Qed.
End ResolvedFields.

Lemma forall2b_Forall2 {A B : Type} (p : A -> B -> bool) (l : list A) :
  forall m, forall2b p l m = true -> Forall2 (fun a b => p a b = true) l m.
Proof.
  induction l as [|a l IH]; intros [|b m] H; cbn [forall2b] in H;
    try discriminate.
  - constructor.
  - apply andb_prop in H. destruct H as [H1 H2].
    constructor; [exact H1 | apply IH; exact H2].
Qed.

Lemma Forall2_length' {A B : Type} (R : A -> B -> Prop) (l : list A) (m : list B) :
  Forall2 R l m -> List.length l = List.length m.
Proof. induction 1; cbn [List.length]; congruence. Qed.

(** *** Unions *)

Lemma first_branch_spec (p : schema -> bool) (brs : list schema) :
  forall i j rb,
    first_branch p i brs = Some (j, rb) ->
    (i <= j)%nat /\ nth_error brs (j - i) = Some rb.
Proof.
  induction brs as [|b brs IH]; intros i j rb H; cbn [first_branch] in H.
  - discriminate.
  - destruct (p b).
    + injection H as <- <-. rewrite Nat.sub_diag. split; [lia | reflexivity].
    + destruct (IH _ _ _ H) as [Hle Hn]. split; [lia|].
      replace (j - i)%nat with (S (j - S i)) by lia. exact Hn.
Qed.

Lemma own_branches_nth (env : schema_env) (all : list schema) (brs : list schema) :
  forall i k b,
    own_branches env all i brs = true ->
    nth_error brs k = Some b ->
    is_union (resolve env b) = false
    /\ exists rb, reader_branch env (resolve env b) all = Some ((i + k)%nat, rb).
Proof.
  induction brs as [|b0 brs IH]; intros i k b Hown Hn.
  - destruct k; discriminate.
  - cbn [own_branches] in Hown.
    apply andb_prop in Hown. destruct Hown as [Hown Hrest].
    apply andb_prop in Hown. destruct Hown as [Hnu Hfirst].
    destruct k as [|k]; cbn [nth_error] in Hn.
    + injection Hn as <-. split.
      * apply negb_true_iff. exact Hnu.
      * destruct (reader_branch env (resolve env b0) all) as [[j rb]|];
          [|discriminate].
        apply Nat.eqb_eq in Hfirst. subst j.
        exists rb. rewrite Nat.add_0_r. reflexivity.
    + destruct (IH _ _ _ Hrest Hn) as [H1 [rb H2]].
      split; [exact H1|]. exists rb.
      replace (i + S k)%nat with (S i + k)%nat by lia. exact H2.
Qed.

Lemma reader_branch_own (env : schema_env) (brs : list schema) (d : nat) (b : schema) :
  own_branches env brs O brs = true ->
  nth_error brs d = Some b ->
  is_union (resolve env b) = false
  /\ reader_branch env (resolve env b) brs = Some (d, b).
Proof.
  intros Hown Hn.
  destruct (own_branches_nth _ _ _ _ _ Hown Hn) as [H1 [rb H2]].
  split; [exact H1|].
  cbn [Nat.add] in H2. rewrite H2.
  apply first_branch_spec in H2. destruct H2 as [_ H2].
  rewrite Nat.sub_0_r, Hn in H2. congruence.
Qed.

(** *** Depth *)

Lemma depth_max_In (es : list value) (e : value) :
  In e es -> (depth e <= fold_right (fun e n => Nat.max (depth e) n) O es)%nat.
Proof.
  induction es as [|a es IH]; intros Hin; [contradiction|].
  cbn [fold_right]. destruct Hin as [->|Hin]; [lia|].
  specialize (IH Hin). lia.
Qed.

Lemma depth_max_In_snd (kvs : list (string * value)) (kv : string * value) :
  In kv kvs ->
  (depth (snd kv) <= fold_right (fun kv n => Nat.max (depth (snd kv)) n) O kvs)%nat.
Proof.
  induction kvs as [|a kvs IH]; intros Hin; [contradiction|].
  cbn [fold_right]. destruct Hin as [->|Hin]; [lia|].
  specialize (IH Hin). lia.
Qed.

(** *** A schema resolved against itself decodes what was encoded *)

Section Self.
Variable env : schema_env.
Hypothesis Henv : forallb (fun e => unambiguous env (snd e)) env = true.

Lemma has_type_not_link (v : value) (s : schema) :
  has_type env v s = true -> is_link (resolve env s) = false.
Proof.
  destruct v; cbn [has_type]; destruct (resolve env s); try discriminate;
    reflexivity.
Qed.

Lemma rdecode_self (fuel : nat) :
  forall (v : value) (w r : schema) (rest : bytes),
    resolve env w = resolve env r ->
    unambiguous env (resolve env r) = true ->
    has_type env v r = true ->
    (depth v <= fuel)%nat ->
    rdecode fuel env w r (encode v ++ rest) = Ok (v, rest).
Proof.
  induction fuel as [fuel IHf] using (well_founded_induction lt_wf).
  intros v w r rest Hwr Hun Ht Hd.
  destruct fuel as [|f].
  - destruct v; cbn [depth] in Hd; lia.
  - assert (IH : forall (v : value) (w r : schema) (rest : bytes),
               resolve env w = resolve env r ->
               unambiguous env (resolve env r) = true ->
               has_type env v r = true ->
               (depth v <= f)%nat ->
               rdecode f env w r (encode v ++ rest) = Ok (v, rest))
      by (apply IHf; lia).
    destruct v as [ | b | i | l | fb | db | bb | sb | xb | sym | es | kvs | vs | | d br ];
      cbn [has_type] in Ht;
      destruct (resolve env r)
        as [ | | | | | | | | fxn fxs | en syms | it | mv | rn rfs | brs | lt ] eqn:Hr;
      try discriminate Ht;
      cbn [rdecode]; rewrite Hwr, Hr; cbv beta iota; cbn [encode].
    + reflexivity.
    + rewrite read_boolean_write_boolean. reflexivity.
    + rewrite read_int_write_long by exact Ht. reflexivity.
    + rewrite read_long_write_long by exact Ht. reflexivity.
    + apply andb_prop in Ht. destruct Ht as [H1 H2].
      apply Z.leb_le in H1. apply Z.ltb_lt in H2.
      rewrite read_le_write_le; [reflexivity|].
      change (256 ^ Z.of_nat 4) with (2 ^ 32). lia.
    + apply andb_prop in Ht. destruct Ht as [H1 H2].
      apply Z.leb_le in H1. apply Z.ltb_lt in H2.
      rewrite read_le_write_le; [reflexivity|].
      change (256 ^ Z.of_nat 8) with (2 ^ 64). lia.
    + rewrite read_bytes_write_bytes by exact Ht. reflexivity.
    + rewrite read_bytes_write_bytes by exact Ht. reflexivity.
    + apply Nat.eqb_eq in Ht. subst fxs.
      rewrite String.eqb_refl, Nat.eqb_refl. cbn [andb].
      rewrite read_raw_string. reflexivity.
    + apply andb_prop in Ht. destruct Ht as [H1 H2].
      apply Nat.ltb_lt in H1.
      rewrite read_count_write_long by exact H2. cbn [rbind].
      destruct (nth_error syms sym) as [sy|] eqn:Hn.
      * cbn [unambiguous] in Hun. apply nodup_keys_NoDup in Hun.
        rewrite (index_of_nth Hun _ Hn). reflexivity.
      * apply nth_error_None in Hn. lia.
    + (* array *)
      apply andb_prop in Ht. destruct Ht as [Hfit Hall].
      rewrite forallb_forall in Hall.
      cbn [unambiguous] in Hun. cbn [depth] in Hd.
      rewrite (@read_blocks_write_blocks value encode (rdecode f env it it)).
      * reflexivity.
      * exact Hfit.
      * apply Forall_forall. intros e He rest'.
        apply IH.
        -- reflexivity.
        -- apply unambiguous_resolve; assumption.
        -- apply Hall. exact He.
        -- pose proof (depth_max_In _ _ He). lia.
    + (* map *)
      apply andb_prop in Ht. destruct Ht as [Ht Hall].
      apply andb_prop in Ht. destruct Ht as [Hfit Hnd].
      rewrite forallb_forall in Hall.
      cbn [unambiguous] in Hun. cbn [depth] in Hd.
      erewrite (@read_blocks_write_blocks (string * value)
                 (fun kv : string * value => write_bytes (fst kv) ++ encode (snd kv))).
      * cbn [rbind]. rewrite map_of_entries_nodup by exact Hnd. reflexivity.
      * exact Hfit.
      * apply Forall_forall. intros [k e] He rest'.
        specialize (Hall _ He). cbn [fst snd] in *.
        apply andb_prop in Hall. destruct Hall as [Hk Hte].
        rewrite <- app_assoc, read_bytes_write_bytes by exact Hk.
        cbn [rbind]. rewrite IH.
        -- reflexivity.
        -- reflexivity.
        -- apply unambiguous_resolve; assumption.
        -- exact Hte.
        -- pose proof (depth_max_In_snd _ _ He) as Hle.
           cbn [snd] in Hle. lia.
    + (* record *)
      cbn [unambiguous] in Hun. cbn [depth] in Hd.
      apply andb_prop in Hun. destruct Hun as [Hnd Hun].
      apply nodup_keys_NoDup in Hnd.
      rewrite forallb_forall in Hun.
      apply forall2b_Forall2 in Ht.
      pose proof (Forall2_length' Ht) as Hlen.
      assert (Hdp : forall e, In e vs -> (depth e <= f)%nat).
      { intros e He. pose proof (depth_max_In _ _ He). lia. }
      assert (Hgen : forall fs vs',
                 Forall2 (fun e fd => has_type env e (ftype fd) = true) vs' fs ->
                 (forall x, In x fs -> In x rfs) ->
                 (forall e, In e vs' -> (depth e <= f)%nat) ->
                 Forall2
                   (fun v fd =>
                      (exists i, find_field (fname fd) rfs = Some (i, fd))
                      /\ forall rest, rdecode f env (ftype fd) (ftype fd)
                                        (encode v ++ rest) = Ok (v, rest))
                   vs' fs).
      { induction 1 as [|e fd es fs Hx _ IHt]; intros Hin Hdp'; constructor.
        - split.
          + apply find_field_self; [exact Hnd|]. apply Hin. left. reflexivity.
          + intros rest'. apply IH.
            * reflexivity.
            * apply unambiguous_resolve; [assumption|].
              apply Hun. apply Hin. left. reflexivity.
            * exact Hx.
            * apply Hdp'. left. reflexivity.
        - apply IHt.
          + intros x Hx'. apply Hin. right. exact Hx'.
          + intros e' He'. apply Hdp'. right. exact He'. }
      pose proof (Hgen rfs vs Ht (fun x H => H) Hdp) as Hfs.
      rewrite (read_resolved_fields_self (decode f env) (rdecode f env) rfs Hfs).
      cbn [rbind].
      pose proof (fill_fields_lookup _ (lookup_combine_fields rfs vs [] Hnd Hlen)) as Hfill.
      cbn [app] in Hfill. rewrite Hfill.
      reflexivity.
    + (* union *)
      cbn [unambiguous] in Hun. cbn [depth] in Hd.
      apply andb_prop in Hun. destruct Hun as [Hown Hun].
      rewrite forallb_forall in Hun.
      apply andb_prop in Ht. destruct Ht as [Hfit Ht].
      destruct (nth_error brs d) as [b|] eqn:Hn; [|discriminate].
      rewrite <- app_assoc, read_count_write_long by exact Hfit.
      cbn [rbind]. rewrite Hn.
      destruct f as [|f']; [lia|].
      destruct (@reader_branch_own env brs d b Hown Hn) as [Hnu Hrb].
      pose proof (has_type_not_link _ _ Ht) as Hnl.
      cbn [rdecode]. rewrite Hr.
      destruct (resolve env b) eqn:Hb; try discriminate; cbv beta iota;
        rewrite Hrb; 

        (rewrite (IHf f');
         [ reflexivity
         | lia 
         | rewrite Hb; apply follow_links_not_link; reflexivity
         | apply unambiguous_resolve;
           [assumption | apply Hun; eapply nth_error_In; exact Hn]
         | exact Ht
         | lia ]).
Qed.
End Self.

End CodecFacts.

(** ** The encoded size is the length of the encoding *)

Module SizeFacts.
Import Wire WireFacts Codec CodecFacts.

Lemma size_varint_length (fuel : nat) :
  forall n, size_varint fuel n = Z.of_nat (List.length (varint fuel n)).
Proof.
  induction fuel as [|k IH]; intros n; cbn [size_varint varint].
  - reflexivity.
  - destruct (n <? 128); cbn [List.length]; [reflexivity|].
    rewrite IH. lia.
Qed.

Lemma size_long_length (z : Z) :
  size_long z = Z.of_nat (List.length (write_long z)).
Proof. apply size_varint_length. Qed.

Lemma size_bytes_length (s : string) :
  size_bytes s = Z.of_nat (List.length (write_bytes s)).
Proof.
  unfold size_bytes, write_bytes.
  rewrite length_app, length_bytes_of_string, size_long_length. lia.
Qed.

Lemma length_write_le (k : nat) : forall z, List.length (write_le k z) = k.
Proof. induction k as [|k IH]; intros z; cbn [write_le List.length]; congruence. Qed.

Section Blocks.
Variables (A : Type) (sz : A -> Z) (enc : A -> bytes).

Lemma sum_sizes_concat (xs : list A) :
  Forall (fun x => sz x = Z.of_nat (List.length (enc x))) xs ->
  fold_right Z.add 0 (map sz xs)
  = Z.of_nat (List.length (List.concat (map enc xs))).
Proof.
  induction 1 as [|x xs Hx _ IH]; cbn [map fold_right List.concat].
  - reflexivity.
  - rewrite length_app, Hx, IH. lia.
Qed.

Lemma size_blocks_length (xs : list A) :
  Forall (fun x => sz x = Z.of_nat (List.length (enc x))) xs ->
  size_blocks (map sz xs) = Z.of_nat (List.length (write_blocks (map enc xs))).
Proof.
  intros H. destruct xs as [|x xs].
  - apply size_long_length.
  - unfold size_blocks, write_blocks.
    rewrite (sum_sizes_concat H).
    cbn [map]. rewrite !length_app, !size_long_length.
    cbn [List.length]. rewrite !length_map. lia.
Qed.
End Blocks.

Lemma sizeof_length_depth (n : nat) :
  forall v, (depth v <= n)%nat -> sizeof v = Z.of_nat (List.length (encode v)).
Proof.
  induction n as [|n IH]; intros v Hd.
  - destruct v; cbn [depth] in Hd; lia.
  - destruct v; cbn [sizeof encode depth] in *;
      try reflexivity;
      try (rewrite length_write_le; reflexivity);
      try apply size_long_length;
      try apply size_bytes_length.
    + rewrite length_bytes_of_string. reflexivity.
    + apply size_blocks_length. apply Forall_forall. intros e He.
      apply IH. pose proof (depth_max_In _ _ He). lia.
    + apply (size_blocks_length
               (fun kv : string * value => size_bytes (fst kv) + sizeof (snd kv))
               (fun kv : string * value => write_bytes (fst kv) ++ encode (snd kv))).
      apply Forall_forall. intros kv He.
      rewrite length_app, size_bytes_length, IH; [lia|].
      pose proof (depth_max_In_snd _ _ He). lia.
    + apply sum_sizes_concat. apply Forall_forall. intros e He.
      apply IH. pose proof (depth_max_In _ _ He). lia.
    + rewrite length_app, size_long_length, IH by lia. lia.
Qed.

Lemma sizeof_length (v : value) : sizeof v = Z.of_nat (List.length (encode v)).
Proof. apply (sizeof_length_depth (n := depth v)). lia. Qed.

End SizeFacts.

(** ** The heap: loads and stores through value handles *)

Module HeapFacts.
Import Binding.
Local Open Scope lua_scope.

Lemma update_nth_same {A : Type} (l : list A) :
  forall i a, nth_error l i = Some a -> update_nth i (fun _ => Some a) l = Some l.
Proof.
  induction l as [|x l IH]; intros [|i] a H; cbn in *; try discriminate.
  - injection H as ->. reflexivity.
  - rewrite (IH _ _ H). reflexivity.
Qed.

Lemma nth_error_update_nth {A : Type} (l : list A) :
  forall i f l', update_nth i f l = Some l' ->
    exists a a', nth_error l i = Some a /\ f a = Some a' /\ nth_error l' i = Some a'.
Proof.
  induction l as [|x l IH]; intros [|i] f l' H; cbn in *; try discriminate.
  - destruct (f x) as [x'|] eqn:Hf; [|discriminate]. injection H as <-.
    exists x, x'. auto.
  - destruct (update_nth i f l) as [l0|] eqn:Hu; [|discriminate]. injection H as <-.
    destruct (IH _ _ _ Hu) as [a [a' [H1 [H2 H3]]]].
    exists a, a'. auto.
Qed.

Lemma update_nth_Some {A : Type} (l : list A) :
  forall i f a a', nth_error l i = Some a -> f a = Some a' ->
    exists l', update_nth i f l = Some l' /\ nth_error l' i = Some a'
               /\ List.length l' = List.length l
               /\ forall j, j <> i -> nth_error l' j = nth_error l j.
Proof.
  induction l as [|x l IH]; intros [|i] f a a' H Hf; cbn in *; try discriminate.
  - injection H as ->. rewrite Hf. eexists. split; [reflexivity|].
    split; [reflexivity|]. split; [reflexivity|].
    intros [|j] Hj; [congruence | reflexivity].
  - destruct (IH _ _ _ _ H Hf) as [l' [H1 [H2 [H3 H4]]]].
    rewrite H1. eexists. split; [reflexivity|].
    split; [exact H2|]. split; [cbn; congruence|].
    intros [|j] Hj; [reflexivity|]. cbn. apply H4. congruence.
Qed.

Lemma get_set_at (p : list nat) :
  forall x y x', set_at x p y = Some x' -> get_at x' p = Some y.
Proof.
  induction p as [|i q IH]; intros x y x' H; cbn [set_at get_at] in *.
  - congruence.
  - destruct x; try discriminate.
    + destruct (update_nth i (fun e => set_at e q y) elements) as [l'|] eqn:Hu;
        [|discriminate].
      injection H as <-.
      destruct (nth_error_update_nth _ _ _ Hu) as [a [a' [_ [Hs Hn]]]].
      rewrite Hn. eapply IH. exact Hs.
    + destruct (update_nth i _ entries) as [l'|] eqn:Hu; [|discriminate].
      injection H as <-.
      destruct (nth_error_update_nth _ _ _ Hu) as [a [a' [_ [Hs Hn]]]].
      rewrite Hn.
      destruct (set_at (snd a) q y) as [z|] eqn:Hz; [|discriminate].
      injection Hs as <-. cbn [snd]. eapply IH. exact Hz.
    + destruct (update_nth i (fun e => set_at e q y) fields) as [l'|] eqn:Hu;
        [|discriminate].
      injection H as <-.
      destruct (nth_error_update_nth _ _ _ Hu) as [a [a' [_ [Hs Hn]]]].
      rewrite Hn. eapply IH. exact Hs.
    + destruct (i =? discriminant)%nat eqn:E; [|discriminate].
      destruct (set_at x q y) as [z|] eqn:Hz; [|discriminate].
      injection H as <-. rewrite E. eapply IH. exact Hz.
Qed.

Lemma set_at_defined (p : list nat) :
  forall x z y, get_at x p = Some z -> exists x', set_at x p y = Some x'.
Proof.
  induction p as [|i q IH]; intros x z y H; cbn [set_at get_at] in *.
  - eexists. reflexivity.
  - destruct x; try discriminate.
    + destruct (nth_error elements i) as [e|] eqn:Hn; [|discriminate].
      destruct (IH _ _ y H) as [e' He'].
      destruct (update_nth_Some _ _ (fun e => set_at e q y) Hn He') as [l' [Hu _]].
      rewrite Hu. eexists. reflexivity.
    + destruct (nth_error entries i) as [kv|] eqn:Hn; [|discriminate].
      destruct (IH _ _ y H) as [e' He'].
      destruct (update_nth_Some _ _
                  (fun kv => option_map (pair (fst kv)) (set_at (snd kv) q y))
                  (a' := (fst kv, e')) Hn) as [l' [Hu _]].
      { rewrite He'. reflexivity. }
      rewrite Hu. eexists. reflexivity.
    + destruct (nth_error fields i) as [e|] eqn:Hn; [|discriminate].
      destruct (IH _ _ y H) as [e' He'].
      destruct (update_nth_Some _ _ (fun e => set_at e q y) Hn He') as [l' [Hu _]].
      rewrite Hu. eexists. reflexivity.
    + destruct (i =? discriminant)%nat; [|discriminate].
      destruct (IH _ _ y H) as [e' He']. rewrite He'. eexists. reflexivity.
Qed.

(** What [load] returns, and that it leaves the state as it was. *)
Lemma load_Returns (v : avro_value_t) (L L' : lua_State) s p x :
  load v L = Returns (s, p, x) L' ->
  L' = L /\ iface v = Some s /\ self v = Some p
  /\ exists cl, nth_error (heap L) (fst p) = Some cl
                /\ refcount cl <> O
                /\ get_at (content cl) (snd p) = Some x.
Proof.
  unfold load.
  destruct (iface v) as [s0|]; [|discriminate].
  destruct (self v) as [[c q]|]; [|discriminate].
  destruct (nth_error (heap L) c) as [cl|] eqn:Hc; [|discriminate].
  destruct (refcount cl =? 0)%nat eqn:Hr; [discriminate|].
  destruct (get_at (content cl) q) as [x0|] eqn:Hg; [|discriminate].
  intros H. injection H as <- <- <- <-.
  repeat split; try reflexivity.
  exists cl. cbn [fst snd]. repeat split; try assumption.
  apply Nat.eqb_neq. exact Hr.
Qed.

Lemma peek_value_load (L : lua_State) (v : avro_value_t) s x :
  peek_value L v = Some (s, x) ->
  exists p, load v L = Returns (s, p, x) L.
Proof.
  unfold peek_value.
  destruct (load v L) as [[[s0 p0] x0] L0| | |] eqn:Hl; try discriminate.
  intros H. injection H as <- <-.
  destruct (load_Returns _ _ Hl) as [-> _].
  exists p0. reflexivity.
Qed.

(** Storing where a load succeeded succeeds, and a load then finds what
    was stored. *)
Lemma store_after_load (v : avro_value_t) (L : lua_State) s p x (y : value) :
  load v L = Returns (s, p, x) L ->
  exists h, store p y L = Returns tt (with_heap L h)
            /\ load v (with_heap L h) = Returns (s, p, y) (with_heap L h)
            /\ List.length h = List.length (heap L).
Proof.
  intros Hl. destruct (load_Returns _ _ Hl) as [_ [Hi [Hs [cl [Hc [Hr Hg]]]]]].
  destruct (set_at_defined _ _ y Hg) as [x' Hx'].
  destruct (update_nth_Some (heap L) (fst p)
              (fun cl => option_map (fun x => {| refcount := refcount cl; content := x |})
                           (set_at (content cl) (snd p) y))
              (a' := {| refcount := refcount cl; content := x' |}) Hc)
    as [h [Hu [Hn [Hlen _]]]].
  { rewrite Hx'. reflexivity. }
  exists h. unfold store. rewrite Hu. split; [reflexivity|]. split; [|exact Hlen].
  unfold load. rewrite Hi, Hs. destruct p as [c q]. cbn [fst snd heap with_heap] in *.
  rewrite Hn. cbn [refcount content].
  destruct (refcount cl) eqn:E; [congruence|]. cbn [Nat.eqb].
  rewrite (get_set_at _ _ _ Hx'). reflexivity.
Qed.

(** A store at a path below [p] in terms of the part at [p]. *)
Lemma set_at_app (p : list nat) :
  forall x q y z z',
    get_at x p = Some z ->
    set_at z q y = Some z' ->
    exists x', set_at x (p ++ q) y = Some x' /\ get_at x' p = Some z'.
Proof.
  induction p as [|i p IH]; intros x q y z z' Hg Hs.
  - injection Hg as <-. exists z'. split; [exact Hs | reflexivity].
  - cbn [app]. destruct x; try discriminate Hg; cbn [get_at set_at] in *.
    + destruct (nth_error elements i) as [e|] eqn:He; [|discriminate].
      destruct (IH e q y z z' Hg Hs) as [e' [He' Hg']].
      destruct (@update_nth_Some _ elements i (fun e0 => set_at e0 (p ++ q) y) e e' He He')
        as [l' [Hup [Hn _]]].
      rewrite Hup. eexists. split; [reflexivity|].
      cbn [get_at]. rewrite Hn. exact Hg'.
    + destruct (nth_error entries i) as [kv|] eqn:He; [|discriminate].
      destruct (IH (snd kv) q y z z' Hg Hs) as [e' [He' Hg']].
      destruct (@update_nth_Some _ entries i
                  (fun kv0 => option_map (pair (fst kv0)) (set_at (snd kv0) (p ++ q) y))
                  kv (fst kv, e') He) as [l' [Hup [Hn _]]].
      { rewrite He'. reflexivity. }
      rewrite Hup. eexists. split; [reflexivity|].
      cbn [get_at]. rewrite Hn. exact Hg'.
    + destruct (nth_error fields i) as [e|] eqn:He; [|discriminate].
      destruct (IH e q y z z' Hg Hs) as [e' [He' Hg']].
      destruct (@update_nth_Some _ fields i (fun e0 => set_at e0 (p ++ q) y) e e' He He')
        as [l' [Hup [Hn _]]].
      rewrite Hup. eexists. split; [reflexivity|].
      cbn [get_at]. rewrite Hn. exact Hg'.
    + destruct (i =? discriminant)%nat eqn:Hd; [|discriminate].
      destruct (IH x q y z z' Hg Hs) as [e' [He' Hg']].
      rewrite He'. eexists. split; [reflexivity|].
      cbn [get_at]. rewrite Hd. exact Hg'.
Qed.

(** A store below a loaded value replaces that part of it. *)
Lemma store_below (v : avro_value_t) (L : lua_State) s p x (q : list nat) (y x' : value) :
  load v L = Returns (s, p, x) L ->
  set_at x q y = Some x' ->
  exists h, store (fst p, snd p ++ q) y L = Returns tt (with_heap L h)
            /\ load v (with_heap L h) = Returns (s, p, x') (with_heap L h)
            /\ List.length h = List.length (heap L).
Proof.
  intros Hl Hs.
  destruct (@load_Returns _ _ _ _ _ _ Hl) as [_ [Hi [Hp [cl [Hc [Hr Hg]]]]]].
  destruct (@set_at_app (snd p) (content cl) q y x x' Hg Hs) as [c' [Hc' Hg']].
  destruct (@update_nth_Some _ (heap L) (fst p)
              (fun cl0 => option_map (fun x0 => {| refcount := refcount cl0; content := x0 |})
                            (set_at (content cl0) (snd p ++ q) y))
              cl {| refcount := refcount cl; content := c' |} Hc)
    as [h [Hup [Hn [Hlen _]]]].
  { rewrite Hc'. reflexivity. }
  exists h. split; [|split; [|exact Hlen]].
  - unfold store. cbn [fst snd]. rewrite Hup. reflexivity.
  - unfold load. rewrite Hi, Hp. destruct p as [c pp]. cbn [fst snd heap with_heap] in *.
    rewrite Hn. cbn [refcount content].
    destruct (refcount cl =? 0)%nat eqn:E; [apply Nat.eqb_eq in E; contradiction|].
    rewrite Hg'. reflexivity.
Qed.

(** *** Calls of C functions by C functions *)

Lemma with_call_site_same (L : lua_State) : with_call_site L (call_site L) = L.
Proof. destruct L; reflexivity. Qed.

Lemma with_call_site_twice (L : lua_State) (w w' : string) :
  with_call_site (with_call_site L w) w' = with_call_site L w'.
Proof. reflexivity. Qed.

Lemma with_call_site_heap (L : lua_State) (w : string) (h : list cell) :
  with_call_site (with_heap L h) w = with_heap (with_call_site L w) h.
Proof. reflexivity. Qed.

Lemma with_call_site_udata (L : lua_State) (w : string) (us : list userdata) :
  with_call_site (with_udata L us) w = with_udata (with_call_site L w) us.
Proof. reflexivity. Qed.

Lemma with_call_site_static_buf (L : lua_State) (w : string) (buf : memory) :
  with_call_site (with_static_buf L buf) w = with_static_buf (with_call_site L w) buf.
Proof. reflexivity. Qed.

Lemma lua_call_Returns {A : Type} (f : lua A) (L L' : lua_State) (a : A) :
  f (with_call_site L "") = Returns a L' ->
  lua_call f L = Returns a (with_call_site L' (call_site L)).
Proof. intros H. unfold lua_call. rewrite H. reflexivity. Qed.

Lemma lua_call_Raises {A : Type} (f : lua A) (L L' : lua_State) (msg : lua_value) :
  f (with_call_site L "") = Raises msg L' ->
  lua_call f L = Raises msg (with_call_site L' (call_site L)).
Proof. intros H. unfold lua_call. rewrite H. reflexivity. Qed.

Lemma lua_call_Returns_heap {A : Type} (f : lua A) (L : lua_State) (a : A)
  (h : list cell) :
  f (with_call_site L "") = Returns a (with_heap (with_call_site L "") h) ->
  lua_call f L = Returns a (with_heap L h).
Proof.
  intros H. rewrite (lua_call_Returns f L H).
  rewrite with_call_site_heap, with_call_site_twice, with_call_site_same. reflexivity.
Qed.

Lemma lua_call_Returns_udata {A : Type} (f : lua A) (L : lua_State) (a : A)
  (us : list userdata) :
  f (with_call_site L "") = Returns a (with_udata (with_call_site L "") us) ->
  lua_call f L = Returns a (with_udata L us).
Proof.
  intros H. rewrite (lua_call_Returns f L H).
  rewrite with_call_site_udata, with_call_site_twice, with_call_site_same. reflexivity.
Qed.

End HeapFacts.

(** ** The binding: steps of a computation *)

Module BindingFacts.
Import Binding HeapFacts CodecFacts SizeFacts.
Local Open Scope lua_scope.

Lemma bind_Returns {A B : Type} (c : lua A) (k : A -> lua B) (L L' : lua_State) (a : A) :
  c L = Returns a L' -> bind c k L = k a L'.
Proof. unfold bind. intros ->. reflexivity. Qed.

Lemma bind_Raises {A B : Type} (c : lua A) (k : A -> lua B) (L L' : lua_State) msg :
  c L = Raises msg L' -> bind c k L = Raises msg L'.
Proof. unfold bind. intros ->. reflexivity. Qed.

Lemma check_Ok {A : Type} (c : lua (result A)) (L L' : lua_State) (a : A) :
  c L = Returns (Ok a) L' -> check c L = Returns a L'.
Proof. intros H. unfold check. rewrite (@bind_Returns _ _ _ _ _ _ _ H). reflexivity. Qed.

Lemma check_Err {A : Type} (c : lua (result A)) (L L' : lua_State) (e : avro_error) :
  c L = Returns (Err e) L' -> check c L = Raises (LStr (avro_strerror e)) L'.
Proof. intros H. unfold check. rewrite (@bind_Returns _ _ _ _ _ _ _ H). reflexivity. Qed.

Lemma peek_inv (L : lua_State) (id : nat) s x :
  peek L id = Some (s, x) ->
  exists lv p,
    nth_error (udata L) id = Some (UdValue lv)
    /\ iface (l_value lv) = Some s
    /\ self (l_value lv) = Some p
    /\ load (l_value lv) L = Returns (s, p, x) L.
Proof.
  unfold peek.
  destruct (nth_error (udata L) id) as [[lv| |]|]; try discriminate.
  intros H. destruct (@peek_value_load _ _ _ _ H) as [p Hl].
  destruct (@load_Returns _ _ _ _ _ _ Hl) as [_ [Hi [Hs _]]].
  exists lv, p. auto.
Qed.

Lemma checkudata_value_ok (args : list lua_value) (i id : nat) (L : lua_State) lv :
  lua_arg args i = LUserdata id ->
  nth_error (udata L) id = Some (UdValue lv) ->
  checkudata_value args i L = Returns (id, lv) L.
Proof.
  intros Ha Hu. unfold checkudata_value. rewrite Ha.
  unfold bind, get_state. rewrite Hu. reflexivity.
Qed.

Lemma lua_avro_get_value_ok (args : list lua_value) (i id : nat) (L : lua_State) lv :
  lua_arg args i = LUserdata id ->
  nth_error (udata L) id = Some (UdValue lv) ->
  lua_avro_get_value args i L = Returns (l_value lv) L.
Proof.
  intros Ha Hu. unfold lua_avro_get_value.
  rewrite (@bind_Returns _ _ _ _ _ _ _ (@checkudata_value_ok _ _ _ _ _ Ha Hu)). reflexivity.
Qed.

Lemma avro_value_get_schema_ok (v : avro_value_t) (L : lua_State) s :
  iface v = Some s ->
  avro_value_get_schema v L = Returns (resolve (named L) s) L.
Proof. intros H. unfold avro_value_get_schema. rewrite H. reflexivity. Qed.

Lemma avro_value_get_type_ok (v : avro_value_t) (L : lua_State) s :
  iface v = Some s ->
  avro_value_get_type v L = Returns (avro_typeof (resolve (named L) s)) L.
Proof.
  intros H. unfold avro_value_get_type.
  rewrite (@bind_Returns _ _ _ _ _ _ _ (@avro_value_get_schema_ok _ L _ H)). reflexivity.
Qed.

Lemma get_with_ok {A : Type} (v : avro_value_t) (L : lua_State) s p x
  (op : schema_env -> schema -> value -> result A) :
  load v L = Returns (s, p, x) L ->
  get_with v op L = Returns (op (named L) s x) L.
Proof. intros H. unfold get_with. rewrite (@bind_Returns _ _ _ _ _ _ _ H). reflexivity. Qed.

Ltac step H := rewrite (@bind_Returns _ _ _ _ _ _ _ H).

Lemma type_of_inv (L : lua_State) (id : nat) lv s t :
  nth_error (udata L) id = Some (UdValue lv) ->
  iface (l_value lv) = Some s ->
  type_of L id = Some t ->
  avro_typeof (resolve (named L) s) = t.
Proof. unfold type_of. intros -> ->. congruence. Qed.

Lemma trunc_in_int64 (c : IEEE.unpacked) : CInt.in_int64 (IEEE.trunc c) = true.
Proof.
  destruct c as [ | | | s m e]; cbn [IEEE.trunc]; try reflexivity.
  set (z := if s then _ else _).
  destruct (CInt.in_int64 z) eqn:E; [exact E | reflexivity].
Qed.

Lemma to_integer_range (n : Z) :
  CInt.INT64_MIN <= LuaNumber.to_integer n <= CInt.INT64_MAX.
Proof.
  pose proof (trunc_in_int64 (IEEE.unpack64 n)) as H.
  unfold CInt.in_int64 in H. apply andb_prop in H. destruct H as [H1 H2].
  apply Z.leb_le in H1. apply Z.leb_le in H2.
  unfold LuaNumber.to_integer. lia.
Qed.


Lemma set_with_ok (v : avro_value_t) (L : lua_State) s p x y
  (op : schema_env -> schema -> value -> result value) :
  load v L = Returns (s, p, x) L ->
  op (named L) s x = Ok y ->
  exists h, set_with v op L = Returns (Ok tt) (with_heap L h)
            /\ load v (with_heap L h) = Returns (s, p, y) (with_heap L h)
            /\ List.length h = List.length (heap L).
Proof.
  intros Hl Hop.
  destruct (@store_after_load v L s p x y Hl) as [h [Hst [Hl' Hlen]]].
  exists h. split; [|split; assumption].
  unfold set_with. step Hl. unfold bind at 1. unfold get_state.
  rewrite Hop. step Hst. reflexivity.
Qed.

Lemma set_with_Err (v : avro_value_t) (L : lua_State) s p x e
  (op : schema_env -> schema -> value -> result value) :
  load v L = Returns (s, p, x) L ->
  op (named L) s x = Err e ->
  set_with v op L = Returns (Err e) L.
Proof.
  intros Hl Hop. unfold set_with. step Hl. unfold bind at 1. unfold get_state.
  rewrite Hop. reflexivity.
Qed.

Lemma firstn_terminated (str : string) :
  string_of_bytes
    (firstn (Z.to_nat (Z.of_nat (String.length str) + 1 - 1))
       (bytes_of_string str ++ [NUL])) = str.
Proof.
  replace (Z.of_nat (String.length str) + 1 - 1) with (Z.of_nat (String.length str)) by lia.
  rewrite Nat2Z.id, <- (length_bytes_of_string str).
  rewrite firstn_app, Nat.sub_diag, firstn_all, firstn_O, app_nil_r.
  apply string_of_bytes_of_string.
Qed.

Lemma peek_with_heap (L : lua_State) (h : list cell) (id : nat) lv s p y :
  nth_error (udata L) id = Some (UdValue lv) ->
  load (l_value lv) (with_heap L h) = Returns (s, p, y) (with_heap L h) ->
  peek (with_heap L h) id = Some (s, y).
Proof.
  intros Hu Hl. unfold peek. cbn [udata with_heap]. rewrite Hu.
  unfold peek_value. rewrite Hl. reflexivity.
Qed.


Lemma checkudata_value_inv (args : list lua_value) (i : nat) (L L' : lua_State) r :
  checkudata_value args i L = Returns r L' ->
  L' = L /\ lua_arg args i = LUserdata (fst r)
  /\ nth_error (udata L) (fst r) = Some (UdValue (snd r)).
Proof.
  unfold checkudata_value.
  destruct (lua_arg args i) as [ | | | | | id | ]; try discriminate.
  unfold bind, get_state.
  destruct (nth_error (udata L) id) as [[lv| |]|] eqn:Hu; try discriminate.
  cbn [ret]. intros H. injection H as <- <-. cbn [fst snd]. auto.
Qed.

Lemma lua_avro_get_value_inv (args : list lua_value) (i : nat) (L L' : lua_State) v :
  lua_avro_get_value args i L = Returns v L' ->
  L' = L /\ exists id lv, lua_arg args i = LUserdata id
                          /\ nth_error (udata L) id = Some (UdValue lv)
                          /\ v = l_value lv.
Proof.
  unfold lua_avro_get_value. unfold bind.
  destruct (checkudata_value args i L) as [[id lv] L0| | |] eqn:Hc; try discriminate.
  cbn [ret]. intros H. injection H as <- <-.
  destruct (@checkudata_value_inv _ _ _ _ _ Hc) as [-> [Ha Hu]].
  split; [reflexivity|]. exists id, lv. auto.
Qed.

Lemma load_state (v : avro_value_t) (L L' : lua_State) r :
  load v L = Returns r L' -> L' = L.
Proof.
  destruct r as [[s p] x]. intros H.
  destruct (@load_Returns _ _ _ _ _ _ H) as [-> _]. reflexivity.
Qed.

Lemma get_with_inv {A : Type} (v : avro_value_t) (L L' : lua_State)
  (op : schema_env -> schema -> value -> result A) (r : result A) :
  get_with v op L = Returns r L' ->
  L' = L /\ exists s p x, load v L = Returns (s, p, x) L /\ op (named L) s x = r.
Proof.
  unfold get_with. unfold bind at 1.
  destruct (load v L) as [[[s p] x] L0| | |] eqn:Hl; try discriminate.
  pose proof (load_state _ _ Hl) as ->.
  unfold bind, get_state, ret. intros H. injection H as <- <-.
  split; [reflexivity|]. exists s, p, x. auto.
Qed.

Lemma check_inv {A : Type} (c : lua (result A)) (L L' : lua_State) (a : A) :
  check c L = Returns a L' -> c L = Returns (Ok a) L'.
Proof.
  unfold check, bind.
  destruct (c L) as [[a0|e] L0| | |]; try discriminate.
  cbn [ret]. intros H. injection H as <- <-. reflexivity.
Qed.

Lemma sizeof_nonneg (x : value) : 0 <= Codec.sizeof x.
Proof. rewrite sizeof_length. lia. Qed.

Lemma length_read_memory (m : memory) (n : nat) :
  List.length (read_memory m n) = n.
Proof. unfold read_memory. rewrite length_map, length_seq. reflexivity. Qed.

Lemma pushlstring_length (m : memory) (size : Z) (s : string) :
  0 <= size ->
  string_of_bytes (firstn (Z.to_nat size) (read_memory m (Z.to_nat size))) = s ->
  Z.of_nat (String.length s) = size.
Proof.
  intros H0 <-.
  rewrite length_string_of_bytes, length_firstn, length_read_memory. lia.
Qed.

Lemma l_value_encode_inv (L L1 : lua_State) (args : list lua_value) (buf : string) :
  l_value_encode args L = Returns [LStr buf] L1 ->
  exists v s p x,
    lua_avro_get_value args 1 L = Returns v L
    /\ load v L = Returns (s, p, x) L
    /\ Codec.complete x = true
    /\ Z.of_nat (String.length buf) = Codec.sizeof x.
Proof.
  unfold l_value_encode.
  unfold bind at 1.
  destruct (lua_avro_get_value args 1 L) as [v L0| | |] eqn:Hv; try discriminate.
  destruct (@lua_avro_get_value_inv _ _ _ _ _ Hv) as [-> _].
  unfold bind at 1.
  destruct (check (avro_value_sizeof v) L) as [size L0| | |] eqn:Hsz; try discriminate.
  pose proof (@check_inv _ _ _ _ _ Hsz) as Hsz'.
  destruct (@get_with_inv _ _ _ _ _ _ Hsz') as [-> [s [p [x [Hl Hop]]]]].
  unfold Codec.avro_value_sizeof in Hop.
  destruct (Codec.complete x) eqn:Hc; [|discriminate].
  injection Hop as <-.
  pose proof (sizeof_nonneg x) as Hnn.
  unfold bind at 1. unfold get_state at 1.
  intros H.
  exists v, s, p, x. split; [reflexivity|]. split; [exact Hl|]. split; [exact Hc|].
  destruct (Codec.sizeof x <=? STATIC_BUF_SIZE) eqn:Hsmall.
  - apply Z.leb_le in Hsmall.
    unfold avro_value_write in H.
    rewrite (@bind_Returns _ _ _ _ _ _ _
               (@get_with_ok _ _ L s p x
                  (fun _ _ x0 => Codec.avro_value_write (static_buf L) (Codec.sizeof x) x0) Hl))
      in H.
    unfold Codec.avro_value_write in H. rewrite Hc in H.
    destruct (Z.of_nat (List.length (Codec.encode x)) <=? Codec.sizeof x) eqn:Hfit;
      [|discriminate].
    unfold bind, set_static_buf, ret in H.
    injection H as H _.
    apply (@pushlstring_length _ _ _ Hnn) in H. exact H.
  - destruct (Codec.sizeof x <=? malloc_limit L) eqn:Hm; [|discriminate].
    unfold avro_value_write in H.
    rewrite (@bind_Returns _ _ _ _ _ _ _
               (@get_with_ok _ _ L s p x
                  (fun _ _ x0 => Codec.avro_value_write
                                   (malloc (Codec.sizeof x))
                                   (Codec.sizeof x) x0) Hl))
      in H.
    unfold Codec.avro_value_write in H. rewrite Hc in H.
    destruct (Z.of_nat (List.length (Codec.encode x)) <=? Codec.sizeof x) eqn:Hfit;
      [|discriminate].
    unfold ret in H. injection H as H _.
    apply (@pushlstring_length _ _ _ Hnn) in H. exact H.
Qed.


Lemma get_at_app (p : list nat) :
  forall x q, get_at x (p ++ q)
              = match get_at x p with
                | Some y => get_at y q
                | None => None
                end.
Proof.
  induction p as [|i p IH]; intros x q; cbn [app get_at].
  - reflexivity.
  - destruct x; try reflexivity.
    + destruct (nth_error elements i); [apply IH | reflexivity].
    + destruct (nth_error entries i); [apply IH | reflexivity].
    + destruct (nth_error fields i); [apply IH | reflexivity].
    + destruct (i =? discriminant)%nat; [apply IH | reflexivity].
Qed.

(** A load depends on the heap alone. *)
Lemma load_with_udata (v : avro_value_t) (L : lua_State) (us : list userdata) r :
  load v L = Returns r L ->
  load v (with_udata L us) = Returns r (with_udata L us).
Proof.
  unfold load. cbn [heap with_udata].
  destruct (iface v); [|discriminate].
  destruct (self v) as [[c p]|]; [|discriminate].
  destruct (nth_error (heap L) c) as [cl|]; [|discriminate].
  destruct (refcount cl =? 0)%nat; [discriminate|].
  destruct (get_at (content cl) p); [|discriminate].
  intros H. injection H as <-. reflexivity.
Qed.

Lemma load_with_static_buf (v : avro_value_t) (L : lua_State) (b : memory) r :
  load v L = Returns r L ->
  load v (with_static_buf L b) = Returns r (with_static_buf L b).
Proof.
  unfold load. cbn [heap with_static_buf].
  destruct (iface v); [|discriminate].
  destruct (self v) as [[c p]|]; [|discriminate].
  destruct (nth_error (heap L) c) as [cl|]; [|discriminate].
  destruct (refcount cl =? 0)%nat; [discriminate|].
  destruct (get_at (content cl) p); [|discriminate].
  intros H. injection H as <-. reflexivity.
Qed.

(** The part of a loaded value below one more index. *)
Lemma load_child (v : avro_value_t) (L : lua_State) s p y (cs : schema) (i : nat) z :
  load v L = Returns (s, p, y) L ->
  get_at y [i] = Some z ->
  load (child_value p (cs, i)) L = Returns (cs, (fst p, snd p ++ [i]), z) L.
Proof.
  intros Hl Hg.
  destruct (@load_Returns _ _ _ _ _ _ Hl) as [_ [_ [_ [cl [Hc [Hr Hx]]]]]].
  unfold load, child_value. cbn [iface self fst snd].
  rewrite Hc. destruct (refcount cl) eqn:E; [congruence|]. cbn [Nat.eqb].
  rewrite get_at_app, Hx, Hg. reflexivity.
Qed.

Lemma child_with_ok (v : avro_value_t) (L : lua_State) s p x y ch
  (op : schema_env -> schema -> value -> result (value * Generic.child)) :
  load v L = Returns (s, p, x) L ->
  op (named L) s x = Ok (y, ch) ->
  exists h, child_with v op L = Returns (Ok (child_value p ch)) (with_heap L h)
            /\ load v (with_heap L h) = Returns (s, p, y) (with_heap L h)
            /\ List.length h = List.length (heap L).
Proof.
  intros Hl Hop.
  destruct (@store_after_load v L s p x y Hl) as [h [Hst [Hl' Hlen]]].
  exists h. split; [|split; assumption].
  unfold child_with. step Hl. unfold bind at 1. unfold get_state.
  rewrite Hop. step Hst. reflexivity.
Qed.

Lemma child_with_Err (v : avro_value_t) (L : lua_State) s p x e
  (op : schema_env -> schema -> value -> result (value * Generic.child)) :
  load v L = Returns (s, p, x) L ->
  op (named L) s x = Err e ->
  child_with v op L = Returns (Err e) L.
Proof.
  intros Hl Hop. unfold child_with. step Hl. unfold bind at 1. unfold get_state.
  rewrite Hop. reflexivity.
Qed.

Lemma lua_avro_push_value_ok (v : avro_value_t) (b : bool) (L : lua_State) :
  lua_avro_push_value v b L
  = Returns (LUserdata (List.length (udata L)))
      (with_udata L (udata L ++ [UdValue {| l_value := v; should_decref := b |}])).
Proof. reflexivity. Qed.

Lemma peek_pushed (L : lua_State) (v : avro_value_t) (b : bool) s p x :
  load v L = Returns (s, p, x) L ->
  peek (with_udata L (udata L ++ [UdValue {| l_value := v; should_decref := b |}]))
    (List.length (udata L)) = Some (s, x).
Proof.
  intros Hl. unfold peek. cbn [udata with_udata].
  rewrite nth_error_app2, Nat.sub_diag by lia. cbn [nth_error l_value].
  unfold peek_value. rewrite (@load_with_udata _ _ _ _ Hl). reflexivity.
Qed.

Lemma peek_kept (L : lua_State) (us : list userdata) (id : nat) r :
  peek L id = Some r ->
  peek (with_udata L (udata L ++ us)) id = Some r.
Proof.
  destruct r as [s x]. intros Hp.
  destruct (@peek_inv _ _ _ _ Hp) as [lv [p [Hu [_ [_ Hl]]]]].
  unfold peek. cbn [udata with_udata].
  rewrite nth_error_app1 by (apply nth_error_Some; congruence).
  rewrite Hu. unfold peek_value.
  rewrite (@load_with_udata _ _ _ _ Hl). reflexivity.
Qed.

Lemma wrap_signed_small (z : Z) :
  CInt.in_int32 z = true -> CInt.to_int z = z.
Proof.
  unfold CInt.in_int32, CInt.INT32_MIN, CInt.INT32_MAX, CInt.to_int, CInt.wrap_signed.
  intros H. apply andb_prop in H. destruct H as [H1 H2].
  apply Z.leb_le in H1. apply Z.leb_le in H2.
  change (2 ^ (32 - 1)) with (2 ^ 31).
  assert (H31 : 2 ^ 32 = 2 * 2 ^ 31) by reflexivity.
  rewrite Z.mod_small; lia.
Qed.

Lemma bind_ret_l {A B : Type} (a : A) (k : A -> lua B) : bind (ret a) k = k a.
Proof. reflexivity. Qed.

Ltac lua_simpl := repeat (rewrite bind_ret_l; cbv beta iota).

Lemma type_of_with_heap L h id : type_of (with_heap L h) id = type_of L id.
Proof. reflexivity. Qed.



Lemma branch_by_name_nth (name : string) (brs : list schema) :
  forall k i br,
    Generic.branch_by_name name k brs = Some (i, br) ->
    (k <= i)%nat /\ nth_error brs (i - k) = Some br.
Proof.
  induction brs as [|b brs IH]; intros k i br H; cbn [Generic.branch_by_name] in H.
  - discriminate.
  - destruct (String.eqb name (avro_schema_type_name b)).
    + injection H as <- <-. rewrite Nat.sub_diag. split; [lia | reflexivity].
    + destruct (IH _ _ _ H) as [Hle Hn]. split; [lia|].
      replace (i - k)%nat with (S (i - S k)) by lia. exact Hn.
Qed.

(** The discriminant [select_union_branch] computes from a selecting key. *)
Lemma select_union_branch_ok (L : lua_State) (v : avro_value_t) s p x
  (brs : list schema) (key : lua_value) (i : nat) (br : schema) (e : value) :
  load v L = Returns (s, p, x) L ->
  resolve (named L) s = SUnion brs ->
  nth_error brs i = Some br ->
  avro_generic_value_new (named L) br = Ok e ->
  selects_branch brs key i ->
  exists h,
    select_union_branch v key L
    = Returns [LUserdata (List.length (udata L))]
        (with_udata (with_heap L h)
           (udata L ++ [UdValue {| l_value := child_value p (br, i);
                                   should_decref := false |}]))
    /\ load v (with_heap L h) = Returns (s, p, VUnion i e) (with_heap L h).
Proof.
  intros Hl Hr Hn Hnew Hsel.
  destruct (@load_Returns _ _ _ _ _ _ Hl) as [_ [Hi _]].
  assert (Hop : Generic.set_branch (named L) s x (Z.of_nat i) = Ok (VUnion i e, (br, i))).
  { unfold Generic.set_branch. rewrite Hr.
    destruct (Z.ltb_spec (Z.of_nat i) 0); [lia|].
    rewrite Nat2Z.id, Hn, Hnew. reflexivity. }
  destruct (@child_with_ok v L s p x (VUnion i e) (br, i)
              (fun env s x => Generic.set_branch env s x (Z.of_nat i)) Hl Hop)
    as [h [Hcw [Hl' _]]].
  exists h. split; [|exact Hl'].
  unfold select_union_branch.
  destruct key as [ | | n | name | | | ]; cbn [selects_branch] in Hsel; try contradiction.
  - destruct Hsel as [Hn1 Hn2].
    unfold lua_isnumber, lua_tointeger. cbn [lua_tonumber]. lua_simpl.
    rewrite Hn1.
    replace (Z.of_nat i + 1 - 1) with (Z.of_nat i) by lia.
    rewrite (wrap_signed_small _ Hn2).
    unfold avro_value_set_branch.
    step (@check_Ok _ _ _ _ _ Hcw).
    step (lua_avro_push_value_ok (child_value p (br, i)) false (with_heap L h)).
    reflexivity.
  - destruct Hsel as [Hnum [br' Hbn]].
    destruct (@branch_by_name_nth _ _ _ _ _ Hbn) as [_ Hn'].
    unfold lua_isnumber. cbn [lua_tonumber lua_isstring lua_tostring]. rewrite Hnum.
    lua_simpl.
    unfold bind at 1.
    rewrite (@bind_Returns _ _ _ _ _ _ _ (@avro_value_get_schema_ok v L s Hi)).
    rewrite Hr, Hbn. cbn [ret].
    unfold avro_value_set_branch.
    step (@check_Ok _ _ _ _ _ Hcw).
    step (lua_avro_push_value_ok (child_value p (br, i)) false (with_heap L h)).
    reflexivity.
Qed.


(** [avro_value_copy] once the source is loaded. *)
Lemma avro_value_copy_eq (dest src : avro_value_t) (L : lua_State) ss p' y :
  load src L = Returns (ss, p', y) L ->
  avro_value_copy dest src L
  = set_with dest (fun env sd _ => Generic.copy (resolve env sd) (resolve env ss) y) L.
Proof. intros Hl. unfold avro_value_copy. step Hl. reflexivity. Qed.

(** One call of [l_value_set_from_ast] on a union. *)
Lemma set_from_ast_union (calls : nat) (L : lua_State) (id : nat) lv s
  (rest : list lua_value) :
  nth_error (udata L) id = Some (UdValue lv) ->
  iface (l_value lv) = Some s ->
  avro_typeof (resolve (named L) s) = AVRO_UNION ->
  set_from_ast (S calls) (LUserdata id :: rest) L
  = (let args := LUserdata id :: rest in
     if (2 <=? lua_gettop args) && lua_isnil (lua_arg args 2) then
       r <- select_union_branch (l_value lv) (LStr "null") ;;
       lua_call (set_from_ast calls [hd LNil r; LNil]) ;;;
       ret []
     else
       match (if 2 <=? lua_gettop args then lua_arg args 2 else LNil) with
       | LTable arr hash =>
           match table_entries arr hash with
           | [] => lua_error (LStr "Union AST must have exactly one element")
           | (k, x) :: _ =>
               r <- select_union_branch (l_value lv) k ;;
               lua_call (set_from_ast calls [hd LNil r; x]) ;;;
               ret []
           end
       | _ => crash
       end) L.
Proof.
  intros Hu Hi Hty. cbn [set_from_ast].
  step (@lua_avro_get_value_ok (LUserdata id :: rest) 1 id L lv eq_refl Hu).
  step (@avro_value_get_type_ok _ L _ Hi).
  rewrite Hty. reflexivity.
Qed.

(** Handles below a loaded value. *)
Lemma load_below (v : avro_value_t) (L : lua_State) s p y (cs : schema) (q : list nat) z :
  load v L = Returns (s, p, y) L ->
  get_at y q = Some z ->
  load {| iface := Some cs; self := Some (fst p, snd p ++ q) |} L
  = Returns (cs, (fst p, snd p ++ q), z) L.
Proof.
  intros Hl Hg.
  destruct (@load_Returns _ _ _ _ _ _ Hl) as [_ [Hi [Hp [cl [Hc [Hr Hg0]]]]]].
  unfold load. cbn [iface self]. rewrite Hc.
  destruct (refcount cl =? 0)%nat eqn:E; [apply Nat.eqb_eq in E; contradiction|].
  rewrite get_at_app, Hg0, Hg. reflexivity.
Qed.

(** A [set_with] through a handle below a loaded value. *)
Lemma set_with_below (v : avro_value_t) (L : lua_State) s p x (cs : schema)
  (q : list nat) (z z' x' : value)
  (op : schema_env -> schema -> value -> result value) :
  load v L = Returns (s, p, x) L ->
  get_at x q = Some z ->
  op (named L) cs z = Ok z' ->
  set_at x q z' = Some x' ->
  exists h,
    set_with {| iface := Some cs; self := Some (fst p, snd p ++ q) |} op L
    = Returns (Ok tt) (with_heap L h)
    /\ load v (with_heap L h) = Returns (s, p, x') (with_heap L h)
    /\ List.length h = List.length (heap L).
Proof.
  intros Hl Hg Hop Hs.
  destruct (@store_below v L s p x q z' x' Hl Hs) as [h [Hst [Hl' Hlen]]].
  exists h. split; [|split; assumption].
  unfold set_with. step (@load_below v L s p x cs q z Hl Hg).
  unfold bind at 1. unfold get_state. rewrite Hop. step Hst. reflexivity.
Qed.

Lemma set_from_ast_union_nil (calls : nat) (L : lua_State) (id : nat) lv s :
  nth_error (udata L) id = Some (UdValue lv) ->
  iface (l_value lv) = Some s ->
  avro_typeof (resolve (named L) s) = AVRO_UNION ->
  set_from_ast (S calls) [LUserdata id; LNil] L
  = (r <- select_union_branch (l_value lv) (LStr "null") ;;
     lua_call (set_from_ast calls [hd LNil r; LNil]) ;;;
     ret []) L.
Proof.
  intros Hu Hi Hty. rewrite (@set_from_ast_union _ L id lv s _ Hu Hi Hty). reflexivity.
Qed.

Lemma set_from_ast_union_table (calls : nat) (L : lua_State) (id : nat) lv s k y rest :
  nth_error (udata L) id = Some (UdValue lv) ->
  iface (l_value lv) = Some s ->
  avro_typeof (resolve (named L) s) = AVRO_UNION ->
  set_from_ast (S calls) [LUserdata id; LTable [] ((k, y) :: rest)] L
  = (r <- select_union_branch (l_value lv) k ;;
     lua_call (set_from_ast calls [hd LNil r; y]) ;;;
     ret []) L.
Proof.
  intros Hu Hi Hty. rewrite (@set_from_ast_union _ L id lv s _ Hu Hi Hty). reflexivity.
Qed.

Lemma resolve_null (env : schema_env) : resolve env SNull = SNull.
Proof. unfold resolve. destruct (List.length env); reflexivity. Qed.

Lemma new_null (env : schema_env) : avro_generic_value_new env SNull = Ok VNull.
Proof.
  unfold avro_generic_value_new. cbn [new_value schema_size Nat.add].
  rewrite resolve_null. reflexivity.
Qed.

Lemma type_of_Some (L : lua_State) (id : nat) t :
  type_of L id = Some t ->
  exists lv s, nth_error (udata L) id = Some (UdValue lv)
               /\ iface (l_value lv) = Some s
               /\ avro_typeof (resolve (named L) s) = t.
Proof.
  unfold type_of.
  destruct (nth_error (udata L) id) as [[lv| |]|]; try discriminate.
  destruct (iface (l_value lv)) as [s|] eqn:Hi; [|discriminate].
  intros H. injection H as <-. exists lv, s. split; [|split]; [reflexivity | exact Hi | reflexivity].
Qed.

Lemma raises_recoverable (msg : string) (L : lua_State) :
  recoverable (Raises (LStr msg) L).
Proof. left. exists msg, L. reflexivity. Qed.

(** One call of [l_value_set_from_ast] on a null value. *)
Lemma set_from_ast_null (calls : nat) (L : lua_State) (id : nat) lv s
  (rest : list lua_value) :
  nth_error (udata L) id = Some (UdValue lv) ->
  iface (l_value lv) = Some s ->
  avro_typeof (resolve (named L) s) = AVRO_NULL ->
  set_from_ast (S calls) (LUserdata id :: rest) L
  = l_value_set (LUserdata id :: rest) L.
Proof.
  intros Hu Hi Hty. cbn [set_from_ast].
  step (@lua_avro_get_value_ok (LUserdata id :: rest) 1 id L lv eq_refl Hu).
  step (@avro_value_get_type_ok _ L _ Hi).
  rewrite Hty. reflexivity.
Qed.

(** *** Appending to an array and iterating over it *)

Lemma load_same_heap (v : avro_value_t) (L L' : lua_State) r :
  heap L' = heap L ->
  load v L = Returns r L ->
  load v L' = Returns r L'.
Proof.
  intros Hh. unfold load. rewrite Hh.
  destruct (iface v); [|discriminate].
  destruct (self v) as [[c p]|]; [|discriminate].
  destruct (nth_error (heap L) c) as [cl|]; [|discriminate].
  destruct (refcount cl =? 0)%nat; [discriminate|].
  destruct (get_at (content cl) p); [|discriminate].
  intros H. injection H as <-. reflexivity.
Qed.

Lemma resolve_array_type (env : schema_env) (s it : schema) :
  resolve env s = SArray it -> avro_typeof (resolve env s) = AVRO_ARRAY.
Proof. intros ->. reflexivity. Qed.

(** One [append]. *)
Lemma l_value_append_ok (L : lua_State) (id : nat) lv s p es it e :
  nth_error (udata L) id = Some (UdValue lv) ->
  load (l_value lv) L = Returns (s, p, VArray es) L ->
  resolve (named L) s = SArray it ->
  avro_generic_value_new (named L) it = Ok e ->
  exists h,
    l_value_append [LUserdata id] L
    = Returns [LUserdata (List.length (udata L))]
        (with_udata (with_heap L h)
           (udata L ++ [UdValue {| l_value := child_value p (it, List.length es);
                                   should_decref := false |}]))
    /\ load (l_value lv) (with_heap L h)
       = Returns (s, p, VArray (es ++ [e])) (with_heap L h).
Proof.
  intros Hu Hl Hr Hnew.
  destruct (@load_Returns _ _ _ _ _ _ Hl) as [_ [Hi _]].
  assert (Hop : Generic.append (named L) s (VArray es)
                = Ok (VArray (es ++ [e]), (it, List.length es))).
  { unfold Generic.append. rewrite Hr, Hnew. reflexivity. }
  destruct (@child_with_ok (l_value lv) L s p (VArray es) (VArray (es ++ [e]))
              (it, List.length es) Generic.append Hl Hop) as [h [Hcw [Hl' _]]].
  exists h. split; [|exact Hl'].
  unfold l_value_append.
  step (@lua_avro_get_value_ok [LUserdata id] 1 id L lv eq_refl Hu).
  step (@avro_value_get_type_ok _ L _ Hi).
  rewrite (resolve_array_type _ _ Hr).
  unfold avro_value_append.
  step (@check_Ok _ _ _ _ _ Hcw).
  step (lua_avro_push_value_ok (child_value p (it, List.length es)) false (with_heap L h)).
  reflexivity.
Qed.

Section Appends.
Variables (id : nat) (lv : LuaAvroValue) (s : schema) (p : ptr) (it : schema) (e : value).

Lemma appends_ok (n : nat) :
  forall (L : lua_State) (es : list value),
    nth_error (udata L) id = Some (UdValue lv) ->
    load (l_value lv) L = Returns (s, p, VArray es) L ->
    resolve (named L) s = SArray it ->
    avro_generic_value_new (named L) it = Ok e ->
    exists L1,
      appends n (LUserdata id) L
      = Returns (map LUserdata (seq (List.length (udata L)) n)) L1
      /\ load (l_value lv) L1 = Returns (s, p, VArray (es ++ repeat e n)) L1
      /\ named L1 = named L
      /\ udata L1 = udata L ++ map (element_view p it) (seq (List.length es) n).
Proof.
  induction n as [|n IH]; intros L es Hu Hl Hr Hnew.
  - exists L. cbn [appends seq map repeat]. rewrite !app_nil_r.
    repeat split; try reflexivity. exact Hl.
  - destruct (@l_value_append_ok L id lv s p es it e Hu Hl Hr Hnew) as [h [Happ Hl']].
    set (L' := with_udata (with_heap L h) (udata L ++ [element_view p it (List.length es)])).
    assert (Hu' : nth_error (udata L') id = Some (UdValue lv)).
    { unfold L'. cbn [udata with_udata].
      rewrite nth_error_app1; [exact Hu|]. apply nth_error_Some. rewrite Hu. discriminate. }
    assert (HlL' : load (l_value lv) L' = Returns (s, p, VArray (es ++ [e])) L').
    { apply (@load_with_udata (l_value lv) (with_heap L h)). exact Hl'. }
    destruct (IH L' (es ++ [e]) Hu' HlL' Hr Hnew) as [L1 [Hrun [Hl1 [Hn1 Hu1]]]].
    exists L1. split; [|split; [|split]].
    + cbn [appends]. step Happ. fold L'. step Hrun.
      unfold L'. cbn [udata with_udata hd ret seq map].
      rewrite length_app. cbn [List.length]. rewrite Nat.add_1_r. reflexivity.
    + rewrite Hl1. rewrite <- app_assoc. reflexivity.
    + exact Hn1.
    + rewrite Hu1. unfold L'. cbn [udata with_udata].
      rewrite <- app_assoc, length_app. cbn [List.length]. rewrite Nat.add_1_r. reflexivity.
Qed.
End Appends.

Lemma keeps_refl (L : lua_State) : keeps L L.
Proof. intros u h H. exact H. Qed.

Lemma keeps_trans (L1 L2 L3 : lua_State) : keeps L1 L2 -> keeps L2 L3 -> keeps L1 L3.
Proof. intros H1 H2 u h H. apply H2, H1, H. Qed.

Lemma keeps_with_heap (L : lua_State) (h : list cell) : keeps L (with_heap L h).
Proof. intros u x H. exact H. Qed.

Lemma keeps_push (L : lua_State) (us : list userdata) :
  keeps L (with_udata L (udata L ++ us)).
Proof.
  intros u h [b H]. exists b. cbn [udata with_udata].
  rewrite nth_error_app1; [exact H|]. apply nth_error_Some. rewrite H. discriminate.
Qed.

Lemma yields_keeps (L L' : lua_State) (p : ptr) (it : schema) (turns : list (list lua_value)) :
  keeps L L' -> forall k, yields L p it k turns -> yields L' p it k turns.
Proof.
  intros Hk. induction turns as [|t r IH]; intros k; cbn [yields]; [trivial|].
  intros [[u [Ht Hu]] Hr]. split; [exists u; split; [exact Ht | apply Hk, Hu] | apply IH, Hr].
Qed.

Lemma views_from_keeps (L L' : lua_State) (p : ptr) (it : schema) (views : list lua_value) :
  keeps L L' -> forall k, views_from L p it k views -> views_from L' p it k views.
Proof.
  intros Hk. induction views as [|t r IH]; intros k; cbn [views_from]; [trivial|].
  intros [[u [Ht Hu]] Hr]. split; [exists u; split; [exact Ht | apply Hk, Hu] | apply IH, Hr].
Qed.

Lemma yields_app (L : lua_State) (p : ptr) (it : schema) (a b : list (list lua_value)) :
  forall k, yields L p it k a -> yields L p it (k + List.length a) b ->
            yields L p it k (a ++ b).
Proof.
  induction a as [|t r IH]; intros k Ha Hb.
  - cbn [List.length] in Hb. rewrite Nat.add_0_r in Hb. exact Hb.
  - cbn [yields app] in *. destruct Ha as [Ht Hr]. split; [exact Ht|].
    apply IH; [exact Hr|]. cbn [List.length] in Hb. rewrite Nat.add_succ_r in Hb. exact Hb.
Qed.

Lemma views_from_app (L : lua_State) (p : ptr) (it : schema) (a b : list lua_value) :
  forall k, views_from L p it k a -> views_from L p it (k + List.length a) b ->
            views_from L p it k (a ++ b).
Proof.
  induction a as [|t r IH]; intros k Ha Hb.
  - cbn [List.length] in Hb. rewrite Nat.add_0_r in Hb. exact Hb.
  - cbn [views_from app] in *. destruct Ha as [Ht Hr]. split; [exact Ht|].
    apply IH; [exact Hr|]. cbn [List.length] in Hb. rewrite Nat.add_succ_r in Hb. exact Hb.
Qed.

(** Turns and views that go over the same elements match one by one. *)
Lemma yields_in_append_order (L : lua_State) (p : ptr) (it : schema)
  (turns : list (list lua_value)) :
  forall (views : list lua_value) k,
    yields L p it k turns -> views_from L p it k views ->
    List.length turns = List.length views ->
    in_append_order L k turns views.
Proof.
  induction turns as [|t r IH]; intros [|v vs] k Hy Hv Hlen; try discriminate Hlen.
  - exact I.
  - cbn [yields views_from in_append_order] in *.
    destruct Hy as [[u [Ht Hu]] Hy]. destruct Hv as [[w [Hw Hhw]] Hv].
    split.
    + exists u, w, (child_value p (it, k)). repeat split; assumption.
    + apply IH; [exact Hy | exact Hv | ]. injection Hlen as Hlen. exact Hlen.
Qed.

Section Iteration.
Variables (id itid : nat) (h0 : avro_value_t) (s : schema) (p : ptr) (it : schema).

Lemma l_value_iterate_ok (L : lua_State) (es : list value) :
  holds L id h0 ->
  load h0 L = Returns (s, p, VArray es) L ->
  resolve (named L) s = SArray it ->
  l_value_iterate [LUserdata id] L
  = Returns [LCFunction iterate_array_fn; LUserdata (List.length (udata L)); LNil]
      (with_udata L
         (udata L ++ [UdIterator {| no_scalar := false; it_value := Some id;
                                    next_index := 0 |}])).
Proof.
  intros [b Hu] Hl Hr.
  destruct (@load_Returns _ _ _ _ _ _ Hl) as [_ [Hi _]].
  unfold l_value_iterate.
  step (@checkudata_value_ok [LUserdata id] 1 id L _ eq_refl Hu).
  cbn [l_value].
  step (@avro_value_get_type_ok _ L _ Hi).
  rewrite (resolve_array_type _ _ Hr).
  reflexivity.
Qed.

Lemma iterate_array_end (L : lua_State) (es : list value) (ctrl : lua_value) :
  iterating L itid id (List.length es) ->
  holds L id h0 ->
  load h0 L = Returns (s, p, VArray es) L ->
  iterate_array [LUserdata itid; ctrl] L = Returns [] L.
Proof.
  intros [b Hit] [b' Hu] Hl.
  unfold iterate_array, checkudata_iterator.
  cbn [lua_arg Nat.sub nth]. unfold bind at 1 2. unfold get_state at 1.
  rewrite Hit. cbn [ret].
  unfold iterator_value. cbn [it_value no_scalar next_index].
  unfold bind at 1 2. unfold get_state at 1. rewrite Hu. cbn [ret l_value].
  unfold avro_value_get_size.
  step (@check_Ok _ _ _ _ _
          (@get_with_ok _ _ _ _ _ _ (fun _ _ x => Generic.get_size x) Hl)).
  cbn [Generic.get_size].
  destruct (Z.geb_spec (Z.of_nat (List.length es)) (Z.of_nat (List.length es))); [|lia].
  reflexivity.
Qed.

Lemma iterate_array_step (L : lua_State) (es : list value) (k : nat) (e : value)
  (ctrl : lua_value) :
  iterating L itid id k ->
  holds L id h0 ->
  load h0 L = Returns (s, p, VArray es) L ->
  resolve (named L) s = SArray it ->
  nth_error es k = Some e ->
  exists L',
    iterate_array [LUserdata itid; ctrl] L
    = Returns [lua_pushinteger (Z.of_nat k + 1); LUserdata (List.length (udata L))] L'
    /\ iterating L' itid id (S k)
    /\ keeps L L'
    /\ holds L' (List.length (udata L)) (child_value p (it, k))
    /\ heap L' = heap L
    /\ named L' = named L.
Proof.
  intros [b Hit] [b' Hu] Hl Hr He.
  assert (Hk : (k < List.length es)%nat).
  { apply nth_error_Some. rewrite He. discriminate. }
  set (view := UdValue {| l_value := child_value p (it, k); should_decref := false |}).
  set (state' := UdIterator {| no_scalar := b; it_value := Some id;
                               next_index := Z.of_nat k + 1 |}).
  assert (Hit' : nth_error (udata L ++ [view]) itid
                 = Some (UdIterator {| no_scalar := b; it_value := Some id;
                                       next_index := Z.of_nat k |})).
  { rewrite nth_error_app1; [exact Hit|]. apply nth_error_Some. rewrite Hit. discriminate. }
  destruct (@update_nth_Some _ (udata L ++ [view]) itid (fun _ => Some state') _ state'
              Hit' eq_refl) as [us [Hup [Hn [Hlen Hother]]]].
  exists (with_udata L us).
  assert (Hne : itid <> List.length (udata L)).
  { intros ->. assert (nth_error (udata L) (List.length (udata L)) <> None) as H
        by (rewrite Hit; discriminate).
    apply nth_error_Some in H. lia. }
  split; [|split; [|split; [|split; [|split]]]].
  - unfold iterate_array, checkudata_iterator.
    cbn [lua_arg Nat.sub nth]. unfold bind at 1 2. unfold get_state at 1.
    rewrite Hit. cbn [ret].
    unfold iterator_value. cbn [it_value no_scalar next_index].
    unfold bind at 1 2. unfold get_state at 1. rewrite Hu. cbn [ret l_value].
    unfold avro_value_get_size.
    step (@check_Ok _ _ _ _ _
            (@get_with_ok _ _ _ _ _ _ (fun _ _ x => Generic.get_size x) Hl)).
    cbn [Generic.get_size].
    destruct (Z.geb_spec (Z.of_nat k) (Z.of_nat (List.length es))); [lia|].
    assert (Hget : avro_value_get_by_index h0 (Z.of_nat k) L
                   = Returns (Ok (child_value p (it, k), None)) L).
    { unfold avro_value_get_by_index. step Hl. unfold bind, get_state. cbn [ret].
      unfold Generic.get_by_index. rewrite Hr. unfold Generic.nth_Z.
      destruct (Z.leb_spec 0 (Z.of_nat k)); [|lia].
      destruct (Z.ltb_spec (Z.of_nat k) (Z.of_nat (List.length es))); [|lia].
      cbn [andb]. rewrite Nat2Z.id, He. reflexivity. }
    step (@check_Ok _ _ _ _ _ Hget).
    step (lua_avro_push_value_ok (child_value p (it, k)) false L).
    unfold bind, set_udata. cbn [udata with_udata]. fold view. fold state'.
    rewrite Hup. reflexivity.
  - exists b. cbn [udata with_udata]. rewrite Hn. unfold state'.
    rewrite Nat2Z.inj_succ. unfold Z.succ. reflexivity.
  - intros u h [bb Hh]. exists bb. cbn [udata with_udata].
    assert (u <> itid) by (intros ->; rewrite Hit in Hh; discriminate).
    rewrite (Hother u H).
    rewrite nth_error_app1; [exact Hh|]. apply nth_error_Some. rewrite Hh. discriminate.
  - exists false. cbn [udata with_udata].
    rewrite (Hother (List.length (udata L)) (not_eq_sym Hne)).
    rewrite nth_error_app2, Nat.sub_diag by lia. reflexivity.
  - reflexivity.
  - reflexivity.
Qed.
End Iteration.

Section Loop.
Variables (id itid : nat) (h0 : avro_value_t) (s : schema) (p : ptr) (it : schema).
Variable es : list value.

(** The first [n] turns, from the cursor at [k]. *)
Lemma for_in_first_ok (n : nat) :
  forall (L : lua_State) (k : nat) (ctrl : lua_value),
    (k + n <= List.length es)%nat ->
    iterating L itid id k ->
    holds L id h0 ->
    load h0 L = Returns (s, p, VArray es) L ->
    resolve (named L) s = SArray it ->
    exists turns L',
      for_in_first n iterate_array_fn (LUserdata itid) ctrl L = Returns turns L'
      /\ List.length turns = n
      /\ yields L' p it k turns
      /\ iterating L' itid id (k + n)
      /\ keeps L L'
      /\ heap L' = heap L
      /\ named L' = named L.
Proof.
  induction n as [|n IH]; intros L k ctrl Hk Hit Hu Hl Hr.
  - exists [], L. rewrite Nat.add_0_r.
    repeat split; try reflexivity; try assumption. apply keeps_refl.
  - destruct (nth_error es k) as [e|] eqn:He.
    2:{ apply nth_error_None in He. lia. }
    destruct (@iterate_array_step id itid h0 s p it L es k e ctrl Hit Hu Hl Hr He)
      as [L' [Hrun [Hit' [Hkeep [Hview [Hheap Hnamed]]]]]].
    assert (Hl' : load h0 L' = Returns (s, p, VArray es) L')
      by exact (@load_same_heap h0 L L' _ Hheap Hl).
    assert (Hr' : resolve (named L') s = SArray it) by (rewrite Hnamed; exact Hr).
    destruct (IH L' (S k) (lua_pushinteger (Z.of_nat k + 1)) ltac:(lia) Hit'
                (Hkeep _ _ Hu) Hl' Hr')
      as [turns [L2 [Hrest [Hlen [Hy [Hit2 [Hkeep2 [Hheap2 Hnamed2]]]]]]]].
    exists ([lua_pushinteger (Z.of_nat k + 1); LUserdata (List.length (udata L))] :: turns), L2.
    split; [|split; [|split; [|split; [|split; [|split]]]]].
    + cbn [for_in_first call_cfunction]. step Hrun. cbn [hd]. step Hrest. reflexivity.
    + cbn [List.length]. rewrite Hlen. reflexivity.
    + cbn [yields]. split; [|exact Hy].
      eexists. split; [reflexivity|]. apply Hkeep2, Hview.
    + rewrite Nat.add_succ_r. exact Hit2.
    + exact (keeps_trans Hkeep Hkeep2).
    + rewrite Hheap2. exact Hheap.
    + rewrite Hnamed2. exact Hnamed.
Qed.

(** The loop run to its end, from the cursor at [k]. *)
Lemma for_in_ok (n : nat) :
  forall (L : lua_State) (k : nat) (ctrl : lua_value) (fuel : nat),
    (k + n = List.length es)%nat ->
    (n < fuel)%nat ->
    iterating L itid id k ->
    holds L id h0 ->
    load h0 L = Returns (s, p, VArray es) L ->
    resolve (named L) s = SArray it ->
    exists turns L',
      for_in fuel iterate_array_fn (LUserdata itid) ctrl L = Returns turns L'
      /\ List.length turns = n
      /\ yields L' p it k turns
      /\ keeps L L'
      /\ heap L' = heap L.
Proof.
  induction n as [|n IH]; intros L k ctrl fuel Hk Hfuel Hit Hu Hl Hr.
  - destruct fuel as [|fuel]; [lia|].
    exists [], L. rewrite Nat.add_0_r in Hk. subst k.
    split; [|split; [|split; [|split]]]; try reflexivity; [|apply keeps_refl].
    cbn [for_in call_cfunction].
    step (@iterate_array_end id itid h0 s p L es ctrl Hit Hu Hl). reflexivity.
  - destruct fuel as [|fuel]; [lia|].
    destruct (nth_error es k) as [e|] eqn:He.
    2:{ apply nth_error_None in He. lia. }
    destruct (@iterate_array_step id itid h0 s p it L es k e ctrl Hit Hu Hl Hr He)
      as [L' [Hrun [Hit' [Hkeep [Hview [Hheap Hnamed]]]]]].
    assert (Hl' : load h0 L' = Returns (s, p, VArray es) L')
      by exact (@load_same_heap h0 L L' _ Hheap Hl).
    assert (Hr' : resolve (named L') s = SArray it) by (rewrite Hnamed; exact Hr).
    destruct (IH L' (S k) (lua_pushinteger (Z.of_nat k + 1)) fuel ltac:(lia) ltac:(lia)
                Hit' (Hkeep _ _ Hu) Hl' Hr')
      as [turns [L2 [Hrest [Hlen [Hy [Hkeep2 Hheap2]]]]]].
    exists ([lua_pushinteger (Z.of_nat k + 1); LUserdata (List.length (udata L))] :: turns), L2.
    split; [|split; [|split; [|split]]].
    + cbn [for_in call_cfunction]. step Hrun. cbn [hd lua_pushinteger].
      fold (lua_pushinteger (Z.of_nat k + 1)). step Hrest. reflexivity.
    + cbn [List.length]. rewrite Hlen. reflexivity.
    + cbn [yields]. split; [|exact Hy].
      eexists. split; [reflexivity|]. apply Hkeep2, Hview.
    + exact (keeps_trans Hkeep Hkeep2).
    + rewrite Hheap2. exact Hheap.
Qed.
End Loop.

Lemma peek_holds (L : lua_State) (id : nat) (h : avro_value_t) s p x :
  holds L id h ->
  load h L = Returns (s, p, x) L ->
  peek L id = Some (s, x).
Proof.
  intros [b Hu] Hl. unfold peek. rewrite Hu. cbn [l_value].
  unfold peek_value. rewrite Hl. reflexivity.
Qed.

Lemma holds_wrapper (L : lua_State) (id : nat) (lv : LuaAvroValue) :
  nth_error (udata L) id = Some (UdValue lv) -> holds L id (l_value lv).
Proof. intros H. exists (should_decref lv). rewrite H. destruct lv; reflexivity. Qed.

Lemma views_from_seq (L : lua_State) (p : ptr) (it : schema) (n : nat) :
  forall k base,
    (forall j, (j < n)%nat ->
               nth_error (udata L) (base + j) = Some (element_view p it (k + j))) ->
    views_from L p it k (map LUserdata (seq base n)).
Proof.
  induction n as [|n IH]; intros k base H; cbn [seq map views_from]; [trivial|].
  split.
  - exists base. split; [reflexivity|]. exists false.
    specialize (H O ltac:(lia)). rewrite !Nat.add_0_r in H. exact H.
  - apply IH. intros j Hj. specialize (H (S j) ltac:(lia)).
    rewrite !Nat.add_succ_r in H. exact H.
Qed.

Lemma in_append_order_length (L : lua_State) (turns : list (list lua_value)) :
  forall views k, in_append_order L k turns views -> List.length turns = List.length views.
Proof.
  induction turns as [|t r IH]; intros [|v vs] k H; cbn [in_append_order] in H;
    try contradiction; [reflexivity|].
  destruct H as [_ H]. cbn [List.length]. f_equal. exact (IH _ _ H).
Qed.

(** *** Encoding a complete value *)

Lemma Forall2_In_l {A B : Type} (R : A -> B -> Prop) (l : list A) (m : list B) (a : A) :
  Forall2 R l m -> In a l -> exists b, In b m /\ R a b.
Proof.
  induction 1 as [|x y l m Hxy _ IH]; intros Hin; [contradiction|].
  destruct Hin as [->|Hin].
  - exists y. split; [left; reflexivity | exact Hxy].
  - destruct (IH Hin) as [b [Hb Hr]]. exists b. split; [right; exact Hb | exact Hr].
Qed.

Lemma has_type_complete_depth (env : schema_env) (n : nat) :
  forall v s, (Codec.depth v <= n)%nat -> has_type env v s = true ->
              Codec.complete v = true.
Proof.
  induction n as [|n IH]; intros v s Hd H.
  - destruct v; cbn [Codec.depth] in Hd; lia.
  - destruct v; cbn [Codec.complete]; try reflexivity;
      cbn [has_type Codec.depth] in *.
    + destruct (resolve env s); try discriminate H.
      apply andb_prop in H. destruct H as [_ H].
      apply forallb_forall. intros e He.
      rewrite forallb_forall in H. apply (IH e s0); [|exact (H e He)].
      pose proof (depth_max_In _ _ He). lia.
    + destruct (resolve env s); try discriminate H.
      apply andb_prop in H. destruct H as [_ H].
      apply forallb_forall. intros kv He.
      rewrite forallb_forall in H. specialize (H kv He).
      apply andb_prop in H. destruct H as [_ H].
      apply (IH (snd kv) s0); [|exact H].
      pose proof (depth_max_In_snd _ _ He). lia.
    + destruct (resolve env s); try discriminate H.
      apply forall2b_Forall2 in H.
      apply forallb_forall. intros e He.
      destruct (@Forall2_In_l _ _ _ _ _ _ H He) as [f [_ Hf]].
      apply (IH e (ftype f)); [|exact Hf].
      pose proof (depth_max_In _ _ He). lia.
    + destruct (resolve env s); discriminate H.
    + destruct (resolve env s); try discriminate H.
      apply andb_prop in H. destruct H as [_ H].
      destruct (nth_error branches discriminant) as [s'|]; [|discriminate].
      apply (IH v s'); [lia | exact H].
Qed.

Lemma has_type_complete (env : schema_env) (v : value) (s : schema) :
  has_type env v s = true -> Codec.complete v = true.
Proof. apply (@has_type_complete_depth env (Codec.depth v)). lia. Qed.

Lemma read_write_memory (out : bytes) (m : memory) :
  read_memory (write_memory out m) (List.length out) = out.
Proof.
  unfold read_memory, write_memory.
  apply nth_error_ext. intros i.
  rewrite nth_error_map, nth_error_seq.
  destruct (Nat.ltb_spec i (List.length out)) as [Hi|Hi]; cbn [option_map Nat.add].
  - symmetry. rewrite (nth_error_nth' out (m i) Hi). reflexivity.
  - symmetry. apply nth_error_None. exact Hi.
Qed.

Lemma with_static_buf_same (L : lua_State) : with_static_buf L (static_buf L) = L.
Proof. destruct L; reflexivity. Qed.

Lemma l_value_encode_ok (L : lua_State) (id : nat) lv s p x :
  nth_error (udata L) id = Some (UdValue lv) ->
  load (l_value lv) L = Returns (s, p, x) L ->
  Codec.complete x = true ->
  Codec.sizeof x <= STATIC_BUF_SIZE \/ Codec.sizeof x <= malloc_limit L ->
  exists m,
    l_value_encode [LUserdata id] L
    = Returns [LStr (string_of_bytes (Codec.encode x))] (with_static_buf L m).
Proof.
  intros Hu Hl Hc Hsize.
  assert (Hs : avro_value_sizeof (l_value lv) L = Returns (Ok (Codec.sizeof x)) L).
  { unfold avro_value_sizeof.
    rewrite (@get_with_ok _ _ L s p x (fun _ _ x => Codec.avro_value_sizeof x) Hl).
    unfold Codec.avro_value_sizeof. rewrite Hc. reflexivity. }
  assert (Hpush : forall m,
             lua_pushlstring
               (read_memory (write_memory (Codec.encode x) m) (Z.to_nat (Codec.sizeof x)))
               (Codec.sizeof x)
             = LStr (string_of_bytes (Codec.encode x))).
  { intros m. unfold lua_pushlstring. rewrite sizeof_length, Nat2Z.id.
    rewrite read_write_memory, firstn_all. reflexivity. }
  assert (Hw : forall m,
             avro_value_write m (Codec.sizeof x) (l_value lv) L
             = Returns (Ok (write_memory (Codec.encode x) m)) L).
  { intros m. unfold avro_value_write.
    rewrite (@get_with_ok _ _ L s p x
               (fun _ _ x0 => Codec.avro_value_write m (Codec.sizeof x) x0) Hl).
    unfold Codec.avro_value_write. rewrite Hc.
    rewrite <- sizeof_length. rewrite Z.leb_refl. reflexivity. }
  unfold l_value_encode.
  step (@lua_avro_get_value_ok [LUserdata id] 1 id L lv eq_refl Hu).
  step (@check_Ok _ _ _ _ _ Hs).
  unfold bind at 1. unfold get_state at 1.
  destruct (Codec.sizeof x <=? STATIC_BUF_SIZE) eqn:Hsmall.
  - exists (write_memory (Codec.encode x) (static_buf L)).
    step (Hw (static_buf L)).
    unfold bind, set_static_buf, ret. rewrite Hpush. reflexivity.
  - destruct Hsize as [Hsize|Hsize]; [apply Z.leb_le in Hsize; congruence|].
    apply Z.leb_le in Hsize. rewrite Hsize.
    exists (static_buf L). rewrite with_static_buf_same.
    step (Hw (malloc (Codec.sizeof x))).
    unfold ret. rewrite Hpush. reflexivity.
Qed.

End BindingFacts.

(** * The claims *)

Import Binding HeapFacts CodecFacts SizeFacts BindingFacts.
Local Open Scope lua_scope.

(** ** Arrays: an index out of bounds *)

(** C2.  For an array-typed value of size S, [get] with a number whose
    integer value is 0 or S+1 returns nil and the message "Index out of
    bounds" as a result, not as a raised error, and leaves the state, the
    array included, as it was. *)
Theorem l_value_get_index_out_of_bounds (L : lua_State) (id : nat) (s : schema)
  (es : list value) (n : Z) :
  peek L id = Some (s, VArray es) ->
  type_of L id = Some AVRO_ARRAY ->
  LuaNumber.to_integer n = 0
  \/ LuaNumber.to_integer n = Z.of_nat (List.length es) + 1 ->
  l_value_get [LUserdata id; LNum n] L
  = Returns [LNil; LStr "Index out of bounds"] L.
Proof.
  intros Hp Ht Hn.
  destruct (@peek_inv _ _ _ _ Hp) as [lv [p [Hu [Hi [Hs Hl]]]]].
  pose proof (@type_of_inv _ _ _ _ _ Hu Hi Ht) as Hty.
  unfold l_value_get.
  step (@lua_avro_get_value_ok [LUserdata id; LNum n] 1 id L lv eq_refl Hu).
  step (@avro_value_get_type_ok _ L _ Hi).
  rewrite Hty.
  unfold luaL_checkinteger. cbn [lua_arg Nat.sub nth lua_tonumber].
  unfold bind at 1 2. cbn [ret].
  step (@check_Ok _ _ _ _ _ (@get_with_ok _ _ _ _ _ _ (fun _ _ x => Generic.get_size x) Hl)).
  cbn [Generic.get_size].
  assert (Hoob : out_of_bounds (LuaNumber.to_integer n) (Z.of_nat (List.length es)) = true).
  { unfold out_of_bounds. destruct Hn as [-> | Hn]; [reflexivity|].
    apply orb_true_iff. right. apply Z.gtb_lt.
    pose proof (to_integer_range n) as Hr.
    unfold CInt.to_size_t, CInt.wrap_unsigned.
    rewrite Z.mod_small; [lia|].
    unfold CInt.INT64_MAX in Hr.
    assert (2 ^ 63 < 2 ^ 64) by (apply Z.pow_lt_mono_r; lia). lia. }
  rewrite Hoob. reflexivity.
Qed.

Lemma l_value_get_index_out_of_bounds_witness :
  l_value_get [LUserdata 0; num 3] array_state
  = Returns [LNil; LStr "Index out of bounds"] array_state.
Proof.
  apply (@l_value_get_index_out_of_bounds array_state 0 (SArray SInt)
           [VInt 7; VInt 8] (LuaNumber.of_integer 3)).
  - vm_compute; reflexivity.
  - vm_compute; reflexivity.
  - right. vm_compute; reflexivity.
Defined.

(** ** Strings: what is set is what is got *)

(** C6.  Setting a string-typed value to a Lua string and getting it back
    returns that string: the size handed to avro-c on set counts a NUL
    terminator (len+1), the size handed back on get counts it too and
    len+1-1 bytes are pushed.  The state holds the text alone and its
    encoding is the length and the bytes of the text, with no
    terminator. *)
Theorem string_set_then_get (L : lua_State) (id : nat) (s : schema)
  (old str : string) :
  peek L id = Some (s, VString old) ->
  type_of L id = Some AVRO_STRING ->
  exists L1,
    l_value_set [LUserdata id; LStr str] L = Returns [] L1
    /\ l_value_get [LUserdata id] L1 = Returns [LStr str] L1
    /\ peek L1 id = Some (s, VString str)
    /\ Codec.encode (VString str)
       = Wire.write_long (Z.of_nat (String.length str)) ++ bytes_of_string str.
Proof.
  intros Hp Ht.
  destruct (@peek_inv _ _ _ _ Hp) as [lv [p [Hu [Hi [Hs Hl]]]]].
  pose proof (@type_of_inv _ _ _ _ _ Hu Hi Ht) as Hty.
  destruct (@set_with_ok (l_value lv) L s p (VString old) (VString str)
              (fun _ _ x => Generic.set_string_len x
                              (bytes_of_string str ++ [NUL])
                              (Z.of_nat (String.length str) + 1)) Hl)
    as [h [Hset [Hl' Hlen]]].
  { cbn [Generic.set_string_len].
    destruct (Z.ltb_spec (Z.of_nat (String.length str) + 1) 1); [lia|].
    rewrite firstn_terminated. reflexivity. }
  exists (with_heap L h). split; [|split; [|split]].
  - unfold l_value_set.
    step (@lua_avro_get_value_ok [LUserdata id; LStr str] 1 id L lv eq_refl Hu).
    step (@avro_value_get_type_ok _ L _ Hi).
    rewrite Hty.
    unfold luaL_checklstring. cbn [lua_arg Nat.sub nth lua_tostring].
    unfold bind at 1 2. cbn [ret].
    step (@check_Ok _ _ _ _ _ Hset). reflexivity.
  - unfold l_value_get.
    step (@lua_avro_get_value_ok [LUserdata id] 1 id (with_heap L h) lv eq_refl Hu).
    step (@avro_value_get_type_ok _ (with_heap L h) _ Hi).
    cbn [named with_heap]. rewrite Hty.
    step (@check_Ok _ _ _ _ _
            (@get_with_ok _ _ _ _ _ _ (fun _ _ x => Generic.get_string x) Hl')).
    cbn [Generic.get_string]. unfold lua_pushlstring.
    rewrite firstn_terminated. reflexivity.
  - exact (@peek_with_heap L h id lv s p (VString str) Hu Hl').
  - reflexivity.
Qed.

Lemma string_set_then_get_witness :
  exists L1,
    l_value_set [LUserdata 0; LStr "new text"] string_state = Returns [] L1
    /\ l_value_get [LUserdata 0] L1 = Returns [LStr "new text"] L1.
Proof.
  destruct (@string_set_then_get string_state 0 SString "old" "new text"
              ltac:(vm_compute; reflexivity) ltac:(vm_compute; reflexivity))
    as [L1 [H1 [H2 _]]].
  exists L1. split; assumption.
Defined.

(** ** Releasing a wrapper twice *)

(** C10.  After a release that returns, the wrapper's interface and state
    pointers are cleared and its ownership flag is false; releasing it
    again returns and leaves the whole state, every reference count
    included, as the first release left it. *)
Theorem l_value_release_idempotent (args : list lua_value) (L L1 : lua_State)
  (r1 : list lua_value) :
  l_value_release args L = Returns r1 L1 ->
  (exists id, lua_arg args 1 = LUserdata id
              /\ nth_error (udata L1) id = Some (UdValue released))
  /\ l_value_release args L1 = Returns [] L1.
Proof.
  unfold l_value_release, checkudata_value.
  destruct (lua_arg args 1) as [ | | | | | id | ] eqn:Harg; try discriminate.
  unfold bind at 1 2. unfold get_state at 1.
  destruct (nth_error (udata L) id) as [[lv| |]|] eqn:Hud; try discriminate.
  cbn [ret].
  intros H.
  assert (Hset : exists L0, set_udata id (UdValue released) L0 = Returns tt L1).
  { unfold bind in H.
    destruct ((if should_decref lv
                  && match self (l_value lv) with Some _ => true | None => false end
               then avro_value_decref (l_value lv) else ret tt) L)
      as [[] L0| | |] eqn:H0; try discriminate.
    exists L0.
    unfold released.
    destruct (set_udata id _ L0) as [[] L2| | |]; try discriminate.
    cbn [ret] in H. injection H as _ <-. reflexivity. }
  destruct Hset as [L0 Hset].
  unfold set_udata in Hset.
  destruct (update_nth id (fun _ => Some (UdValue released)) (udata L0)) as [us|] eqn:Hup;
    [|discriminate].
  injection Hset as <-.
  cbn [udata with_udata] in *.
  destruct (@nth_error_update_nth _ _ _ _ _ Hup) as [a [a' [_ [Ha' Hn]]]].
  injection Ha' as <-.
  cbn [udata with_udata].
  split.
  - exists id. split; [reflexivity | exact Hn].
  - unfold bind, get_state. cbn [udata with_udata]. rewrite Hn. cbn [ret released should_decref andb].
    unfold set_udata. cbn [udata with_udata]. 
    pose proof (@update_nth_same _ _ _ _ Hn) as Hsame. unfold released in Hsame.
    rewrite Hsame. unfold with_udata. cbn. reflexivity.
Qed.

Lemma l_value_release_idempotent_witness :
  exists L1,
    l_value_release [LUserdata 0] string_state = Returns [] L1
    /\ nth_error (heap L1) 0 = Some {| refcount := 0; content := VString "old" |}
    /\ l_value_release [LUserdata 0] L1 = Returns [] L1.
Proof.
  eexists. split; [vm_compute; reflexivity|]. split; [vm_compute; reflexivity|].
  apply (@l_value_release_idempotent [LUserdata 0] string_state _ []).
  vm_compute; reflexivity.
Defined.

(** ** The length of an encoding *)

(** C8.  Whenever [encode] returns a byte string, through the static
    buffer of 65536 bytes or through a buffer from [malloc],
    [encoded_size] on the same value returns the length of that string. *)
Theorem encode_length_is_encoded_size (L L1 : lua_State) (args : list lua_value)
  (buf : string) :
  l_value_encode args L = Returns [LStr buf] L1 ->
  l_value_encoded_size args L
  = Returns [lua_pushinteger (Z.of_nat (String.length buf))] L.
Proof.
  intros H.
  destruct (@l_value_encode_inv _ _ _ _ H) as [v [s [p [x [Hv [Hl [Hc Hlen]]]]]]].
  unfold l_value_encoded_size.
  step Hv.
  assert (Hs : avro_value_sizeof v L = Returns (Ok (Codec.sizeof x)) L).
  { unfold avro_value_sizeof.
    rewrite (@get_with_ok _ _ L s p x (fun _ _ x => Codec.avro_value_sizeof x) Hl).
    unfold Codec.avro_value_sizeof. rewrite Hc. reflexivity. }
  step (@check_Ok _ _ _ _ _ Hs).
  rewrite Hlen. reflexivity.
Qed.

Lemma encode_length_is_encoded_size_witness :
  l_value_encoded_size [LUserdata 0] array_state = Returns [num 4] array_state.
Proof.
  apply (@encode_length_is_encoded_size array_state
           (with_static_buf array_state
              (write_memory (Codec.encode (VArray [VInt 7; VInt 8])) fresh_static_buf))
           [LUserdata 0]
           (string_of_bytes (Codec.encode (VArray [VInt 7; VInt 8])))).
  vm_compute; reflexivity.
Defined.

(** ** Unions: the discriminant and the selection of a branch *)




(** ** Copying one value into another *)

(** C5.  What [copy_from] does for a destination and a source that are
    both live: when their schemas agree structurally the source's
    contents are copied into the destination and the boolean pushed is
    false; when they disagree nothing changes and the boolean pushed is
    true.  The boolean is avro-c's return code, 0 on success, so the
    result reads as a failure exactly when the copy succeeded. *)
Theorem l_value_copy_from_pushes_return_code (L : lua_State) (d c : nat)
  (sd ss : schema) (x y : value) :
  peek L d = Some (sd, x) ->
  peek L c = Some (ss, y) ->
  (Generic.schema_equal (resolve (named L) sd) (resolve (named L) ss) = true ->
   exists L1,
     l_value_copy_from [LUserdata d; LUserdata c] L = Returns [LBool false] L1
     /\ peek L1 d = Some (sd, y))
  /\ (Generic.schema_equal (resolve (named L) sd) (resolve (named L) ss) = false ->
      l_value_copy_from [LUserdata d; LUserdata c] L = Returns [LBool true] L).
Proof.
  intros Hd Hc.
  destruct (@peek_inv _ _ _ _ Hd) as [lv [p [Hu [Hi [Hs Hl]]]]].
  destruct (@peek_inv _ _ _ _ Hc) as [lv' [p' [Hu' [Hi' [Hs' Hl']]]]].
  split; intros He.
  - destruct (@set_with_ok (l_value lv) L sd p x y
                (fun env sd0 _ => Generic.copy (resolve env sd0) (resolve env ss) y) Hl)
      as [h [Hset [Hld _]]].
    { unfold Generic.copy. rewrite He. reflexivity. }
    exists (with_heap L h). split.
    + unfold l_value_copy_from.
      step (@lua_avro_get_value_ok [LUserdata d; LUserdata c] 1 d L lv eq_refl Hu).
      step (@lua_avro_get_value_ok [LUserdata d; LUserdata c] 2 c L lv' eq_refl Hu').
      assert (Hcp := @avro_value_copy_eq (l_value lv) _ _ _ _ _ Hl').
      rewrite Hset in Hcp. step Hcp. reflexivity.
    + exact (@peek_with_heap L h d lv sd p y Hu Hld).
  - unfold l_value_copy_from.
    step (@lua_avro_get_value_ok [LUserdata d; LUserdata c] 1 d L lv eq_refl Hu).
    step (@lua_avro_get_value_ok [LUserdata d; LUserdata c] 2 c L lv' eq_refl Hu').
    assert (Hcp := @avro_value_copy_eq (l_value lv) _ _ _ _ _ Hl').
    rewrite (@set_with_Err (l_value lv) L sd p x SchemaMismatch) in Hcp.
    + step Hcp. reflexivity.
    + exact Hl.
    + unfold Generic.copy. rewrite He. reflexivity.
Qed.

Lemma l_value_copy_from_pushes_return_code_witness :
  exists L1,
    l_value_copy_from [LUserdata 0; LUserdata 1] copy_state = Returns [LBool false] L1
    /\ peek L1 0 = Some (SInt, VInt 5).
Proof.
  destruct (@l_value_copy_from_pushes_return_code copy_state 0 1 SInt SInt
              (VInt 0) (VInt 5)
              ltac:(vm_compute; reflexivity) ltac:(vm_compute; reflexivity))
    as [H _].
  exact (H eq_refl).
Defined.

(** ** Unions from an AST literal *)

(** A nil literal on a union with no null branch is an error. *)
Lemma union_ast_nil_without_null_branch (L : lua_State) (id : nat) (s : schema)
  (x : value) (brs : list schema) :
  type_of L id = Some AVRO_UNION ->
  peek L id = Some (s, x) ->
  resolve (named L) s = SUnion brs ->
  Generic.branch_by_name "null" O brs = None ->
  l_value_set_from_ast [LUserdata id; LNil] L
  = Raises (LStr "No null branch in union") L.
Proof.
  intros Ht Hp Hr Hb.
  destruct (@peek_inv _ _ _ _ Hp) as [lv [p [Hu [Hi [Hs Hl]]]]].
  pose proof (@type_of_inv _ _ _ _ _ Hu Hi Ht) as Hty.
  unfold l_value_set_from_ast, LUAI_MAXCCALLS.
  rewrite (@set_from_ast_union_nil _ L id lv s Hu Hi Hty).
  unfold select_union_branch, lua_isnumber.
  cbn [lua_tonumber lua_isstring lua_tostring].
  change (LuaNumber.of_string "null") with (Some (@None Z)). lua_simpl.
  unfold bind at 1 2 3 4.
  rewrite (@avro_value_get_schema_ok (l_value lv) L s Hi).
  rewrite Hr. cbv zeta. change (c_str "null") with "null".
  rewrite Hb. reflexivity.
Qed.

(** A nil literal selects the null branch. *)
Lemma union_ast_nil_selects_null_branch (L : lua_State) (id : nat) (s : schema)
  (x : value) (brs : list schema) (i : nat) :
  type_of L id = Some AVRO_UNION ->
  peek L id = Some (s, x) ->
  resolve (named L) s = SUnion brs ->
  Generic.branch_by_name "null" O brs = Some (i, SNull) ->
  exists L1,
    l_value_set_from_ast [LUserdata id; LNil] L = Returns [] L1
    /\ peek L1 id = Some (s, VUnion i VNull).
Proof.
  intros Ht Hp Hr Hb.
  destruct (@peek_inv _ _ _ _ Hp) as [lv [p [Hu [Hi [Hs Hl]]]]].
  pose proof (@type_of_inv _ _ _ _ _ Hu Hi Ht) as Hty.
  destruct (@branch_by_name_nth _ _ _ _ _ Hb) as [_ Hn]. rewrite Nat.sub_0_r in Hn.
  destruct (@select_union_branch_ok L (l_value lv) s p x brs (LStr "null") i SNull VNull
              Hl Hr Hn (new_null _)) as [h [Hsel Hl']].
  { split; [reflexivity | exists SNull; exact Hb]. }
  set (ch := child_value p (SNull, i)) in *.
  set (L' := with_udata (with_heap L h)
               (udata L ++ [UdValue {| l_value := ch; should_decref := false |}])) in *.
  assert (Hu' : nth_error (udata L') (List.length (udata L))
                = Some (UdValue {| l_value := ch; should_decref := false |})).
  { unfold L'. cbn [udata with_udata with_heap].
    rewrite nth_error_app2, Nat.sub_diag by lia. reflexivity. }
  assert (HlL' : load (l_value lv) L' = Returns (s, p, VUnion i VNull) L').
  { apply (@load_with_udata (l_value lv) (with_heap L h)). exact Hl'. }
  set (L0 := with_call_site L' "").
  assert (HlL0 : load (l_value lv) L0 = Returns (s, p, VUnion i VNull) L0).
  { apply (@load_same_heap (l_value lv) L' L0); [reflexivity | exact HlL']. }
  destruct (@set_with_below (l_value lv) L0 s p (VUnion i VNull) SNull [i] VNull VNull
              (VUnion i VNull) (fun _ _ x0 => Generic.set_null x0) HlL0)
    as [h2 [Hset [Hl2 _]]].
  { cbn [get_at]. rewrite Nat.eqb_refl. reflexivity. }
  { reflexivity. }
  { cbn [set_at]. rewrite Nat.eqb_refl. reflexivity. }
  exists (with_heap L' h2). split.
  - unfold l_value_set_from_ast, LUAI_MAXCCALLS.
    rewrite (@set_from_ast_union_nil _ L id lv s Hu Hi Hty).
    step Hsel. cbn [hd].
    assert (Hnested : set_from_ast 199 [LUserdata (List.length (udata L)); LNil] L0
                      = Returns [] (with_heap L0 h2)).
    { rewrite (@set_from_ast_null _ L0 _ _ SNull [LNil] Hu' eq_refl)
        by (rewrite resolve_null; reflexivity).
      unfold l_value_set.
      step (@lua_avro_get_value_ok [LUserdata (List.length (udata L)); LNil] 1 _ L0 _
              eq_refl Hu').
      cbn [l_value].
      step (@avro_value_get_type_ok ch L0 SNull eq_refl).
      rewrite resolve_null. cbn [avro_typeof].
      step (@check_Ok _ _ _ _ _ Hset). reflexivity. }
    step (@lua_call_Returns_heap _ _ L' _ h2 Hnested). reflexivity.
  - apply (@peek_with_heap L' h2 id lv s p (VUnion i VNull));
      [|exact (@load_same_heap (l_value lv) (with_heap L0 h2) (with_heap L' h2) _
                 eq_refl Hl2)].
    unfold L'. cbn [udata with_udata with_heap].
    rewrite nth_error_app1; [exact Hu|]. apply nth_error_Some. rewrite Hu. discriminate.
Qed.

(** A table literal selects the branch its first key names, and the
    value at that key is then set into the branch. *)
Lemma union_ast_selects_then_populates (L : lua_State) (id : nat) (s : schema)
  (x : value) (brs : list schema) (i : nat) (br : schema) (e : value)
  (k y : lua_value) :
  type_of L id = Some AVRO_UNION ->
  peek L id = Some (s, x) ->
  resolve (named L) s = SUnion brs ->
  nth_error brs i = Some br ->
  avro_generic_value_new (named L) br = Ok e ->
  selects_branch brs k i ->
  exists L' u,
    peek L' id = Some (s, VUnion i e)
    /\ peek L' u = Some (br, e)
    /\ forall rest,
        l_value_set_from_ast [LUserdata id; LTable [] ((k, y) :: rest)] L
        = (lua_call (set_from_ast (Nat.pred LUAI_MAXCCALLS) [LUserdata u; y]) ;;; ret []) L'.
Proof.
  intros Ht Hp Hr Hn Hnew Hsel.
  destruct (@peek_inv _ _ _ _ Hp) as [lv [p [Hu [Hi [Hs Hl]]]]].
  pose proof (@type_of_inv _ _ _ _ _ Hu Hi Ht) as Hty.
  destruct (@select_union_branch_ok L (l_value lv) s p x brs k i br e
              Hl Hr Hn Hnew Hsel) as [h [Hsel' Hl']].
  eexists. exists (List.length (udata L)). split; [|split].
  - apply (@peek_kept (with_heap L h)).
    exact (@peek_with_heap L h id lv s p (VUnion i e) Hu Hl').
  - apply (@peek_pushed (with_heap L h) (child_value p (br, i)) false br
             (fst p, snd p ++ [i]) e).
    apply (@load_child (l_value lv) (with_heap L h) s p (VUnion i e) br i e Hl').
    cbn [get_at]. rewrite Nat.eqb_refl. reflexivity.
  - intros rest. unfold l_value_set_from_ast, LUAI_MAXCCALLS.
    rewrite (@set_from_ast_union_table _ L id lv s k y rest Hu Hi Hty).
    step Hsel'. reflexivity.
Qed.

(** C3.  What [set_from_ast] does with a table literal on a union: a
    table with no key raises "Union AST must have exactly one element";
    a table with more than one key is not an error, the first key that
    [lua_next] yields is taken and the others are ignored, so the call
    does what it does on the table holding that first key alone. *)
Theorem union_ast_takes_first_key (L : lua_State) (id : nat) (s : schema) (x : value) :
  type_of L id = Some AVRO_UNION ->
  peek L id = Some (s, x) ->
  l_value_set_from_ast [LUserdata id; LTable [] []] L
  = Raises (LStr "Union AST must have exactly one element") L
  /\ forall k y rest,
      l_value_set_from_ast [LUserdata id; LTable [] ((k, y) :: rest)] L
      = l_value_set_from_ast [LUserdata id; LTable [] [(k, y)]] L.
Proof.
  intros Ht Hp.
  destruct (@peek_inv _ _ _ _ Hp) as [lv [p [Hu [Hi [Hs Hl]]]]].
  pose proof (@type_of_inv _ _ _ _ _ Hu Hi Ht) as Hty.
  unfold l_value_set_from_ast, LUAI_MAXCCALLS. split.
  - rewrite (@set_from_ast_union _ L id lv s _ Hu Hi Hty). reflexivity.
  - intros k y rest.
    rewrite !(@set_from_ast_union _ L id lv s _ Hu Hi Hty). reflexivity.
Qed.

Lemma union_ast_takes_first_key_witness :
  exists L1,
    l_value_set_from_ast
      [LUserdata 0; LTable [] [(LStr "string", LStr "x"); (LStr "int", num 1)]]
      union2_state = Returns [] L1
    /\ peek L1 0 = Some (int_or_string, VUnion 1 (VString "x")).
Proof.
  destruct (@union_ast_takes_first_key union2_state 0 int_or_string (VUnion 0 (VInt 0))
              ltac:(vm_compute; reflexivity) ltac:(vm_compute; reflexivity))
    as [_ H].
  rewrite H. eexists. split; vm_compute; reflexivity.
Defined.

(** ** Arrays: appending and iterating *)

(** C7.  [N] appends to an empty array return the views of [N] new
    elements.  A loop over [iterate] on that array then makes [N] turns
    and no more; turn [k] yields the position [k], counted from 1, and a
    view of the element that the [k]-th append made, and the array is as
    it was.  When the loop is left after any number of turns, one more
    element is appended and the loop goes on with the same iterator, the
    turns before and after together go over the [N+1] elements in append
    order: the size is read at every turn, so the new element is
    visited before the loop ends. *)
Theorem iteration_follows_appends (L0 : lua_State) (id : nat) (s it : schema)
  (e : value) (N : nat) :
  peek L0 id = Some (s, VArray []) ->
  resolve (named L0) s = SArray it ->
  avro_generic_value_new (named L0) it = Ok e ->
  exists views L1 itv L2,
    appends N (LUserdata id) L0 = Returns views L1
    /\ List.length views = N
    /\ peek L1 id = Some (s, VArray (repeat e N))
    /\ l_value_iterate [LUserdata id] L1
       = Returns [LCFunction iterate_array_fn; itv; LNil] L2
    /\ (exists turns L3,
           for_in (S N) iterate_array_fn itv LNil L2 = Returns turns L3
           /\ List.length turns = N
           /\ in_append_order L3 0 turns views
           /\ peek L3 id = Some (s, VArray (repeat e N)))
    /\ (forall k ctrl, (k <= N)%nat ->
        exists first La view Lb rest Lc,
          for_in_first k iterate_array_fn itv LNil L2 = Returns first La
          /\ List.length first = k
          /\ l_value_append [LUserdata id] La = Returns [view] Lb
          /\ for_in (S (S N - k)) iterate_array_fn itv ctrl Lb = Returns rest Lc
          /\ in_append_order Lc 0 (first ++ rest) (views ++ [view])).
Proof.
  intros Hp Hr Hnew.
  destruct (@peek_inv _ _ _ _ Hp) as [lv [p [Hu [Hi [Hs Hl]]]]].
  set (h0 := l_value lv) in *.
  destruct (@appends_ok id lv s p it e N L0 [] Hu Hl Hr Hnew)
    as [L1 [Happ [Hl1 [Hn1 Hu1]]]].
  cbn [app List.length] in Hl1, Hu1.
  assert (Hh0 : holds L0 id h0) by exact (holds_wrapper _ _ Hu).
  assert (Hk01 : keeps L0 L1).
  { intros u h [b H]. exists b. rewrite Hu1.
    rewrite nth_error_app1; [exact H|]. apply nth_error_Some. rewrite H. discriminate. }
  assert (Hh1 : holds L1 id h0) by exact (Hk01 _ _ Hh0).
  assert (Hr1 : resolve (named L1) s = SArray it) by (rewrite Hn1; exact Hr).
  assert (Hv1 : views_from L1 p it 0 (map LUserdata (seq (List.length (udata L0)) N))).
  { apply views_from_seq. intros j Hj. rewrite Hu1.
    rewrite nth_error_app2 by lia.
    replace (List.length (udata L0) + j - List.length (udata L0))%nat with j by lia.
    rewrite nth_error_map, nth_error_seq.
    destruct (Nat.ltb_spec j N); [reflexivity | lia]. }
  set (views := map LUserdata (seq (List.length (udata L0)) N)) in *.
  assert (Hlv : List.length views = N).
  { unfold views. rewrite length_map, length_seq. reflexivity. }
  set (itid := List.length (udata L1)).
  set (L2 := with_udata L1
               (udata L1 ++ [UdIterator {| no_scalar := false; it_value := Some id;
                                           next_index := 0 |}])).
  assert (Hk12 : keeps L1 L2) by apply keeps_push.
  assert (Hit2 : iterating L2 itid id 0).
  { exists false. unfold L2, itid. cbn [udata with_udata].
    rewrite nth_error_app2, Nat.sub_diag by lia. reflexivity. }
  assert (Hl2 : load h0 L2 = Returns (s, p, VArray (repeat e N)) L2).
  { apply (@load_with_udata h0 L1). exact Hl1. }
  assert (Hr2 : resolve (named L2) s = SArray it) by exact Hr1.
  assert (Hnew2 : avro_generic_value_new (named L2) it = Ok e).
  { unfold L2. cbn [named with_udata]. rewrite Hn1. exact Hnew. }
  exists views, L1, (LUserdata itid), L2.
  split; [exact Happ|]. split; [exact Hlv|].
  split; [exact (peek_holds Hh1 Hl1)|].
  split; [exact (@l_value_iterate_ok id h0 s p it L1 _ Hh1 Hl1 Hr1)|].
  split.
  - destruct (@for_in_ok id itid h0 s p it (repeat e N) N L2 O LNil (S N))
      as [turns [L3 [Hrun [Hlen [Hy [Hk23 Hheap]]]]]]; try assumption.
    { rewrite repeat_length. reflexivity. }
    { lia. }
    { exact (Hk12 _ _ Hh1). }
    exists turns, L3. split; [exact Hrun|]. split; [exact Hlen|]. split.
    + apply (@yields_in_append_order L3 p it); [exact Hy | | lia].
      apply (@views_from_keeps L2 L3 p it views Hk23),
        (@views_from_keeps L1 L2 p it views Hk12), Hv1.
    + apply (@peek_holds L3 id h0 s p).
      * apply Hk23, Hk12, Hh1.
      * exact (@load_same_heap h0 L2 L3 _ Hheap Hl2).
  - intros k ctrl Hk.
    destruct (@for_in_first_ok id itid h0 s p it (repeat e N) k L2 O LNil)
      as [first [La [Hfirst [Hlf [Hyf [Hita [Hk2a [Hheapa Hnameda]]]]]]]]; try assumption.
    { rewrite repeat_length. lia. }
    { exact (Hk12 _ _ Hh1). }
    cbn [Nat.add] in Hita.
    assert (Hha : holds La id h0) by (apply Hk2a, Hk12, Hh1).
    assert (Hla : load h0 La = Returns (s, p, VArray (repeat e N)) La)
      by exact (@load_same_heap h0 L2 La _ Hheapa Hl2).
    destruct Hha as [b Hua].
    destruct (@l_value_append_ok La id _ s p (repeat e N) it e Hua Hla)
      as [h [Happa Hlb]].
    { rewrite Hnameda. exact Hr2. }
    { rewrite Hnameda. exact Hnew2. }
    cbn [l_value] in Hlb. rewrite repeat_length in Happa.
    set (Lb := with_udata (with_heap La h)
                 (udata La ++ [UdValue {| l_value := child_value p (it, N);
                                          should_decref := false |}])) in *.
    assert (Hkab : keeps La Lb).
    { apply (@keeps_trans La (with_heap La h) Lb);
        [apply keeps_with_heap | apply (@keeps_push (with_heap La h) _)]. }
    assert (Hitb : iterating Lb itid id k).
    { destruct Hita as [bb Hita]. exists bb. unfold Lb. cbn [udata with_udata with_heap].
      rewrite nth_error_app1; [exact Hita|]. apply nth_error_Some. rewrite Hita. discriminate. }
    assert (Hhb : holds Lb id h0) by (apply Hkab; exists b; exact Hua).
    assert (Hlb' : load h0 Lb = Returns (s, p, VArray (repeat e N ++ [e])) Lb).
    { apply (@load_with_udata h0 (with_heap La h)). exact Hlb. }
    destruct (@for_in_ok id itid h0 s p it (repeat e N ++ [e]) (S N - k) Lb k ctrl
                (S (S N - k)))
      as [rest [Lc [Hrest [Hlr [Hyr [Hkbc _]]]]]]; try assumption.
    { rewrite length_app, repeat_length. cbn [List.length]. lia. }
    { lia. }
    { unfold Lb. cbn [named with_udata with_heap]. rewrite Hnameda. exact Hr2. }
    exists first, La, (LUserdata (List.length (udata La))), Lb, rest, Lc.
    split; [exact Hfirst|]. split; [exact Hlf|]. split; [exact Happa|].
    split; [exact Hrest|].
    apply (@yields_in_append_order Lc p it).
    + apply yields_app.
      * apply (@yields_keeps Lb Lc p it first Hkbc),
          (@yields_keeps La Lb p it first Hkab), Hyf.
      * rewrite Hlf. exact Hyr.
    + apply views_from_app.
      * apply (@views_from_keeps Lb Lc p it views Hkbc),
          (@views_from_keeps La Lb p it views Hkab),
          (@views_from_keeps L2 La p it views Hk2a),
          (@views_from_keeps L1 L2 p it views Hk12), Hv1.
      * rewrite Hlv. cbn [views_from Nat.add]. split; [|exact I].
        eexists. split; [reflexivity|]. apply Hkbc.
        exists false. unfold Lb. cbn [udata with_udata with_heap].
        rewrite nth_error_app2, Nat.sub_diag by lia. reflexivity.
    + rewrite !length_app, Hlf, Hlr, Hlv. cbn [List.length]. lia.
Qed.

Lemma iteration_follows_appends_witness :
  exists views L1 itv L2,
    appends 2 (LUserdata 0) empty_array_state = Returns views L1
    /\ l_value_iterate [LUserdata 0] L1
       = Returns [LCFunction iterate_array_fn; itv; LNil] L2
    /\ exists turns L3,
         for_in 3 iterate_array_fn itv LNil L2 = Returns turns L3
         /\ List.length turns = 2%nat
         /\ in_append_order L3 0 turns views.
Proof.
  destruct (@iteration_follows_appends empty_array_state 0 (SArray SInt) SInt
              (VInt 0) 2 ltac:(vm_compute; reflexivity) eq_refl eq_refl)
    as [views [L1 [itv [L2 [H1 [_ [_ [H4 [[turns [L3 [H5 [H6 [H7 _]]]]] _]]]]]]]]].
  exists views, L1, itv, L2. split; [exact H1|]. split; [exact H4|].
  exists turns, L3. split; [exact H5|]. split; [exact H6 | exact H7].
Defined.

(** ** Malformed accesses *)

(** An operation on a value of another type than it is for raises an
    error. *)
Lemma wrong_type_is_recoverable (L : lua_State) (id : nat) (t : avro_type_t)
  (key : string) :
  type_of L id = Some t ->
  (t <> AVRO_ARRAY -> t <> AVRO_MAP -> recoverable (l_value_size [LUserdata id] L))
  /\ (t <> AVRO_UNION -> recoverable (l_value_discriminant_index [LUserdata id] L))
  /\ (t <> AVRO_UNION -> recoverable (l_value_discriminant [LUserdata id] L))
  /\ (t <> AVRO_MAP -> recoverable (l_value_add [LUserdata id; LStr key] L))
  /\ (t <> AVRO_ARRAY -> recoverable (l_value_append [LUserdata id] L)).
Proof.
  intros Ht. destruct (@type_of_Some _ _ _ Ht) as [lv [s [Hu [Hi Hty]]]].
  repeat split.
  - intros H1 H2. unfold l_value_size.
    step (@lua_avro_get_value_ok [LUserdata id] 1 id L lv eq_refl Hu).
    step (@avro_value_get_type_ok _ L _ Hi). rewrite Hty.
    destruct t; try contradiction; apply raises_recoverable.
  - intros H1. unfold l_value_discriminant_index.
    step (@lua_avro_get_value_ok [LUserdata id] 1 id L lv eq_refl Hu).
    step (@avro_value_get_type_ok _ L _ Hi). rewrite Hty.
    destruct t; try contradiction; apply raises_recoverable.
  - intros H1. unfold l_value_discriminant.
    step (@lua_avro_get_value_ok [LUserdata id] 1 id L lv eq_refl Hu).
    step (@avro_value_get_type_ok _ L _ Hi). rewrite Hty.
    destruct t; try contradiction; apply raises_recoverable.
  - intros H1. unfold l_value_add.
    step (@lua_avro_get_value_ok [LUserdata id; LStr key] 1 id L lv eq_refl Hu).
    unfold luaL_checkstring, luaL_checklstring. cbn [lua_arg Nat.sub nth lua_tostring]. lua_simpl.
    step (@avro_value_get_type_ok _ L _ Hi). rewrite Hty.
    destruct t; try contradiction; apply raises_recoverable.
  - intros H1. unfold l_value_append.
    step (@lua_avro_get_value_ok [LUserdata id] 1 id L lv eq_refl Hu).
    step (@avro_value_get_type_ok _ L _ Hi). rewrite Hty.
    destruct t; try contradiction; apply raises_recoverable.
Qed.

(** A name that is no branch of the union raises an error; the name
    counts up to its first NUL. *)
Lemma unknown_branch_is_recoverable (L : lua_State) (id : nat) (s : schema)
  (x : value) (brs : list schema) (name : string) :
  type_of L id = Some AVRO_UNION ->
  peek L id = Some (s, x) ->
  resolve (named L) s = SUnion brs ->
  LuaNumber.of_string name = Some None ->
  Generic.branch_by_name (c_str name) O brs = None ->
  l_value_set [LUserdata id; LStr name] L
  = Raises (LStr ("No " ++ c_str name ++ " branch in union")) L.
Proof.
  intros Ht Hp Hr Hnum Hb.
  destruct (@peek_inv _ _ _ _ Hp) as [lv [p [Hu [Hi [Hs Hl]]]]].
  pose proof (@type_of_inv _ _ _ _ _ Hu Hi Ht) as Hty.
  unfold l_value_set.
  step (@lua_avro_get_value_ok [LUserdata id; LStr name] 1 id L lv eq_refl Hu).
  step (@avro_value_get_type_ok _ L _ Hi). rewrite Hty.
  cbn [lua_gettop List.length Z.of_nat Pos.of_succ_nat Pos.succ Z.ltb Z.compare
         Pos.compare Pos.compare_cont lua_arg Nat.sub nth].
  unfold select_union_branch, lua_isnumber.
  cbn [lua_tonumber lua_isstring lua_tostring]. rewrite Hnum. lua_simpl.
  unfold bind at 1 2 3 4.
  rewrite (@avro_value_get_schema_ok (l_value lv) L s Hi).
  rewrite Hr. cbv zeta. rewrite Hb. reflexivity.
Qed.

(** A position that, as a C int, is below 1 or beyond the last branch
    raises an error. *)
Lemma branch_out_of_range_is_recoverable (L : lua_State) (id : nat) (s : schema)
  (x : value) (brs : list schema) (n : Z) :
  type_of L id = Some AVRO_UNION ->
  peek L id = Some (s, x) ->
  resolve (named L) s = SUnion brs ->
  CInt.to_int (LuaNumber.to_integer n - 1) < 0
  \/ Z.of_nat (List.length brs) <= CInt.to_int (LuaNumber.to_integer n - 1) ->
  l_value_set [LUserdata id; LNum n] L
  = Raises (LStr (avro_strerror NoSuchBranch)) L.
Proof.
  intros Ht Hp Hr Hd.
  destruct (@peek_inv _ _ _ _ Hp) as [lv [p [Hu [Hi [Hs Hl]]]]].
  pose proof (@type_of_inv _ _ _ _ _ Hu Hi Ht) as Hty.
  unfold l_value_set.
  step (@lua_avro_get_value_ok [LUserdata id; LNum n] 1 id L lv eq_refl Hu).
  step (@avro_value_get_type_ok _ L _ Hi). rewrite Hty.
  cbn [lua_gettop List.length Z.of_nat Pos.of_succ_nat Pos.succ Z.ltb Z.compare
         Pos.compare Pos.compare_cont lua_arg Nat.sub nth].
  unfold select_union_branch, lua_isnumber, lua_tointeger.
  cbn [lua_tonumber]. lua_simpl.
  unfold avro_value_set_branch.
  set (d := CInt.to_int (LuaNumber.to_integer n - 1)) in *.
  assert (Hop : Generic.set_branch (named L) s x d = Err NoSuchBranch).
  { unfold Generic.set_branch. rewrite Hr.
    destruct (Z.ltb_spec d 0) as [|Hd0]; [reflexivity|].
    destruct Hd as [Hd|Hd]; [lia|].
    destruct (nth_error brs (Z.to_nat d)) eqn:E; [|reflexivity].
    assert (nth_error brs (Z.to_nat d) <> None) as Hne by (rewrite E; discriminate).
    apply nth_error_Some in Hne. lia. }
  rewrite (@bind_Raises _ _ _ _ L L (LStr (avro_strerror NoSuchBranch))); [reflexivity|].
  apply check_Err.
  exact (@child_with_Err (l_value lv) L s p x NoSuchBranch
           (fun env s0 x0 => Generic.set_branch env s0 x0 d) Hl Hop).
Qed.

(** C9.  One malformed access is not an error: the position handed to a
    union is cut down to a C int before it is used, so a number that is
    out of range but equal, modulo 2^32, to the position of a branch
    selects that branch and returns it.  The outcome is neither a raised
    error nor nil with a message. *)
Theorem union_index_wraps_around (L : lua_State) (id : nat) (s : schema)
  (x : value) (brs : list schema) (i : nat) (br : schema) (e : value) (n : Z) :
  type_of L id = Some AVRO_UNION ->
  peek L id = Some (s, x) ->
  resolve (named L) s = SUnion brs ->
  nth_error brs i = Some br ->
  avro_generic_value_new (named L) br = Ok e ->
  CInt.to_int (LuaNumber.to_integer n - 1) = Z.of_nat i ->
  (exists L1 u,
      l_value_set [LUserdata id; LNum n] L = Returns [LUserdata u] L1
      /\ peek L1 id = Some (s, VUnion i e))
  /\ ~ recoverable (l_value_set [LUserdata id; LNum n] L).
Proof.
  intros Ht Hp Hr Hn Hnew Hwrap.
  destruct (@peek_inv _ _ _ _ Hp) as [lv [p [Hu [Hi [Hs Hl]]]]].
  pose proof (@type_of_inv _ _ _ _ _ Hu Hi Ht) as Hty.
  assert (Hop : Generic.set_branch (named L) s x (Z.of_nat i) = Ok (VUnion i e, (br, i))).
  { unfold Generic.set_branch. rewrite Hr.
    destruct (Z.ltb_spec (Z.of_nat i) 0); [lia|].
    rewrite Nat2Z.id, Hn, Hnew. reflexivity. }
  destruct (@child_with_ok (l_value lv) L s p x (VUnion i e) (br, i)
              (fun env s x => Generic.set_branch env s x (Z.of_nat i)) Hl Hop)
    as [h [Hcw [Hl' _]]].
  assert (Hrun : l_value_set [LUserdata id; LNum n] L
                 = Returns [LUserdata (List.length (udata L))]
                     (with_udata (with_heap L h)
                        (udata L ++ [UdValue {| l_value := child_value p (br, i);
                                                should_decref := false |}]))).
  { unfold l_value_set.
    step (@lua_avro_get_value_ok [LUserdata id; LNum n] 1 id L lv eq_refl Hu).
    step (@avro_value_get_type_ok _ L _ Hi). rewrite Hty.
    cbn [lua_gettop List.length Z.of_nat Pos.of_succ_nat Pos.succ Z.ltb Z.compare
           Pos.compare Pos.compare_cont lua_arg Nat.sub nth].
    unfold select_union_branch, lua_isnumber, lua_tointeger.
    cbn [lua_tonumber]. lua_simpl.
    rewrite Hwrap. unfold avro_value_set_branch.
    step (@check_Ok _ _ _ _ _ Hcw).
    step (lua_avro_push_value_ok (child_value p (br, i)) false (with_heap L h)).
    reflexivity. }
  split.
  - eexists. eexists. split; [exact Hrun|].
    apply (@peek_kept (with_heap L h)).
    exact (@peek_with_heap L h id lv s p (VUnion i e) Hu Hl').
  - rewrite Hrun. intros [[msg [L' H]] | [msg [L' H]]]; discriminate H.
Qed.

Lemma union_index_wraps_around_witness :
  exists L1 u,
    l_value_set [LUserdata 0; num 4294967297] union_string_state
    = Returns [LUserdata u] L1
    /\ peek L1 0 = Some (int_or_string, VUnion 0 (VInt 0)).
Proof.
  destruct (@union_index_wraps_around union_string_state 0 int_or_string
              (VUnion 1 (VString "x")) [SInt; SString] 0 SInt (VInt 0)
              (LuaNumber.of_integer 4294967297)
              ltac:(vm_compute; reflexivity) ltac:(vm_compute; reflexivity)
              eq_refl eq_refl eq_refl ltac:(vm_compute; reflexivity))
    as [H _].
  exact H.
Defined.

(** ** Encoding and decoding again *)

(** C1, as the claim states it, fails.  In the union of long and int a
    value on the int branch is a value of the schema, and the schema
    resolves against itself; its encoding, decoded by that resolver,
    comes back on the long branch, the first branch that int resolves
    against. *)
Lemma round_trip_fails_on_overlapping_branches :
  has_type [] (VUnion 1 (VInt 5)) long_or_int = true
  /\ avro_resolved_writer_new [] long_or_int long_or_int = Some (long_or_int, long_or_int)
  /\ exists buf L1 L2,
      l_value_encode [LUserdata 0] overlap_state = Returns [LStr buf] L1
      /\ l_resolved_writer_decode [LUserdata 1; LStr buf; LUserdata 2] L1
         = Returns [LBool true] L2
      /\ peek L2 0 = Some (long_or_int, VUnion 1 (VInt 5))
      /\ peek L2 2 = Some (long_or_int, VUnion 0 (VLong 5)).
Proof.
  split; [vm_compute; reflexivity|]. split; [vm_compute; reflexivity|].
  eexists. eexists. eexists.
  split; [vm_compute; reflexivity|].
  split; [vm_compute; reflexivity|].
  split; vm_compute; reflexivity.
Qed.

(** C1, amended.  Let a value be a complete value of its schema, in
    which every branch of a union is the first branch it resolves
    against and record fields and enum symbols are told apart by name;
    let its encoding fit the static buffer or the memory [malloc] can
    give, and its nesting the C stack.  Then [encode] returns a string,
    and decoding that string with a resolver whose writer and reader
    schemas are both the value's schema, into a destination of a schema
    equal to it, returns true and leaves the value in the destination. *)
Theorem encode_then_decode_round_trip (L : lua_State) (vid rid did : nat)
  (s sd : schema) (x d0 : value) (rv : avro_value_t) :
  peek L vid = Some (s, x) ->
  has_type (named L) x s = true ->
  Codec.well_formed (named L) s = true ->
  Codec.sizeof x <= STATIC_BUF_SIZE \/ Codec.sizeof x <= malloc_limit L ->
  (Codec.depth x <= c_stack L)%nat ->
  nth_error (udata L) rid
  = Some (UdResolvedWriter {| resolver := Some (s, s); rw_value := Some rv |}) ->
  peek L did = Some (sd, d0) ->
  Generic.schema_equal (resolve (named L) sd) (resolve (named L) s) = true ->
  exists buf L1 L2,
    l_value_encode [LUserdata vid] L = Returns [LStr buf] L1
    /\ l_resolved_writer_decode [LUserdata rid; LStr buf; LUserdata did] L1
       = Returns [LBool true] L2
    /\ peek L2 did = Some (sd, x).
Proof.
  intros Hp Ht Hwf Hsize Hdepth Hrw Hpd Heq.
  destruct (@peek_inv _ _ _ _ Hp) as [lv [p [Hu [Hi [Hs Hl]]]]].
  destruct (@peek_inv _ _ _ _ Hpd) as [lvd [pd [Hud [Hid [Hsd Hld]]]]].
  apply andb_prop in Hwf. destruct Hwf as [Hun Henv].
  destruct (@l_value_encode_ok L vid lv s p x Hu Hl (has_type_complete _ _ _ Ht) Hsize)
    as [m Henc].
  set (L1 := with_static_buf L m) in *.
  set (rw := {| resolver := Some (s, s); rw_value := Some (l_value lvd) |}).
  destruct (@update_nth_Some _ (udata L1) rid (fun _ => Some (UdResolvedWriter rw)) _
              (UdResolvedWriter rw) Hrw eq_refl) as [us [Hup [_ [_ Hother]]]].
  set (L1' := with_udata L1 us).
  assert (Hld' : load (l_value lvd) L1' = Returns (sd, pd, d0) L1').
  { apply (@load_same_heap (l_value lvd) L L1'); [reflexivity | exact Hld]. }
  destruct (@store_after_load (l_value lvd) L1' sd pd d0 x Hld') as [h [Hst [Hlx _]]].
  assert (Hne : did <> rid).
  { intros ->. rewrite Hrw in Hud. discriminate. }
  assert (Hud' : nth_error (udata (with_heap L1' h)) did = Some (UdValue lvd)).
  { cbn [udata with_heap with_udata L1']. rewrite (Hother did Hne). exact Hud. }
  exists (string_of_bytes (Codec.encode x)), L1, (with_heap L1' h).
  split; [exact Henc|]. split.
  - unfold l_resolved_writer_decode, checkudata_resolved_writer.
    cbn [lua_arg Nat.sub nth]. unfold bind at 1 2. unfold get_state at 1.
    change (udata L1) with (udata L). rewrite Hrw. cbn [ret].
    unfold luaL_checklstring. cbn [lua_arg Nat.sub nth lua_tostring]. lua_simpl.
    step (@lua_avro_get_value_ok
            [LUserdata rid; LStr (string_of_bytes (Codec.encode x)); LUserdata did]
            3 did L1 lvd eq_refl Hud).
    cbn [resolver rw_value].
    unfold bind at 1. unfold set_udata at 1. fold rw. rewrite Hup. fold L1'.
    assert (Hread : avro_value_read
                      (bytes_of_string (string_of_bytes (Codec.encode x))) s s
                      (l_value lvd) L1'
                    = Returns (Ok tt) (with_heap L1' h)).
    { unfold avro_value_read. step Hld'. unfold bind at 1. unfold get_state at 1.
      change (named L1') with (named L). change (c_stack L1') with (c_stack L).
      rewrite Heq, bytes_of_string_of_bytes.
      rewrite <- (app_nil_r (Codec.encode x)).
      rewrite (@rdecode_self (named L) Henv (c_stack L) x s s [] eq_refl
                 (@unambiguous_resolve (named L) Henv s Hun) Ht Hdepth).
      step Hst. reflexivity. }
    step Hread. reflexivity.
  - unfold peek. rewrite Hud'. unfold peek_value. rewrite Hlx. reflexivity.
Qed.

Lemma encode_then_decode_round_trip_witness :
  exists buf L1 L2,
    l_value_encode [LUserdata 0] record_state = Returns [LStr buf] L1
    /\ l_resolved_writer_decode [LUserdata 1; LStr buf; LUserdata 2] L1
       = Returns [LBool true] L2
    /\ peek L2 2 = Some (record_schema, VRecord [VInt 7; VUnion 1 (VString "a")]).
Proof.
  apply (@encode_then_decode_round_trip record_state 0 1 2 record_schema record_schema
           (VRecord [VInt 7; VUnion 1 (VString "a")]) (VRecord [VInt 0; VUnset])
           {| iface := None; self := None |}).
  - vm_compute; reflexivity.
  - vm_compute; reflexivity.
  - vm_compute; reflexivity.
  - left. vm_compute. discriminate.
  - vm_compute. lia.
  - reflexivity.
  - vm_compute; reflexivity.
  - vm_compute; reflexivity.
Defined.

(** * Further properties of the binding *)

(** ** Lua numbers and C integers *)

Module NumberFacts.

(** A normal double, from its fields. *)
Lemma unpack64_normal (s : bool) (ef f : Z) :
  1 <= ef < 2047 -> 0 <= f < 2 ^ 52 ->
  IEEE.unpack64 (IEEE.sign_bit 52 11 s + Z.shiftl ef 52 + f)
  = IEEE.FFinite s (f + 2 ^ 52) (ef - 1023 - 52).
Proof.
  intros Hef Hf.
  unfold IEEE.unpack64, IEEE.unpack, IEEE.sign_bit.
  rewrite Z.shiftl_mul_pow2 by lia.
  change (52 + 11) with 63. change (2 ^ 11 - 1) with (Z.ones 11).
  change (2 ^ 52 - 1) with (Z.ones 52).
  rewrite !Z.land_ones by lia.
  rewrite Z.shiftr_div_pow2 by lia.
  rewrite Z.testbit_odd, Z.shiftr_div_pow2 by lia.
  set (sb := if s then 2 ^ 63 else 0).
  assert (Hsb : sb = (if s then 1 else 0) * 2 ^ 11 * 2 ^ 52).
  { unfold sb. destruct s; reflexivity. }
  assert (Hdiv : (sb + ef * 2 ^ 52 + f) / 2 ^ 52 = (if s then 1 else 0) * 2 ^ 11 + ef).
  { rewrite Hsb.
    replace ((if s then 1 else 0) * 2 ^ 11 * 2 ^ 52 + ef * 2 ^ 52 + f)
      with (f + ((if s then 1 else 0) * 2 ^ 11 + ef) * 2 ^ 52) by ring.
    rewrite Z.div_add by lia. rewrite Z.div_small by lia. lia. }
  assert (Hmod : (sb + ef * 2 ^ 52 + f) mod 2 ^ 52 = f).
  { rewrite Hsb.
    replace ((if s then 1 else 0) * 2 ^ 11 * 2 ^ 52 + ef * 2 ^ 52 + f)
      with (f + ((if s then 1 else 0) * 2 ^ 11 + ef) * 2 ^ 52) by ring.
    rewrite Z.mod_add by lia. apply Z.mod_small. lia. }
  assert (Hef' : ((if s then 1 else 0) * 2 ^ 11 + ef) mod 2 ^ 11 = ef).
  { rewrite Z.add_comm, Z.mod_add by lia. apply Z.mod_small. lia. }
  assert (Hs : Z.odd ((sb + ef * 2 ^ 52 + f) / 2 ^ 63) = s).
  { replace (sb + ef * 2 ^ 52 + f)
      with ((ef * 2 ^ 52 + f) + (if s then 1 else 0) * 2 ^ 63)
      by (unfold sb; destruct s; ring).
    rewrite Z.div_add by lia.
    rewrite Z.div_small.
    - destruct s; reflexivity.
    - change (2 ^ 63) with (2048 * 2 ^ 52). lia. }
  rewrite Hs, Hdiv, Hmod, Hef'. change (IEEE.bias 11) with 1023.
  change (Z.ones 11) with 2047.
  destruct (Z.eqb_spec ef 2047); [lia|].
  destruct (Z.eqb_spec ef 0); [lia|].
  reflexivity.
Qed.

Lemma to_integer_of_integer (z : Z) :
  - 2 ^ 53 < z < 2 ^ 53 ->
  LuaNumber.to_integer (LuaNumber.of_integer z) = z.
Proof.
  intros Hz.
  unfold LuaNumber.to_integer, LuaNumber.of_integer, IEEE.double_of_Z, IEEE.of_Z.
  destruct (Z.eqb_spec z 0) as [->|Hnz]; [reflexivity|].
  set (m := Z.abs z). set (s := z <? 0).
  assert (Hm : 0 < m < 2 ^ 53) by (unfold m; lia).
  pose proof (Z.log2_spec m ltac:(lia)) as Hlog.
  pose proof (Z.log2_nonneg m) as Hl0.
  assert (Hl52 : Z.log2 m <= 52).
  { destruct (Z.le_gt_cases (Z.log2 m) 52) as [H|H]; [exact H|].
    assert (2 ^ 53 <= 2 ^ Z.log2 m) by (apply Z.pow_le_mono_r; lia). lia. }
  set (k := 52 - Z.log2 m).
  assert (Hk : 0 <= k <= 52) by (unfold k; lia).
  assert (Hsig : 2 ^ 52 <= m * 2 ^ k < 2 ^ 53).
  { replace (2 ^ 52) with (2 ^ Z.log2 m * 2 ^ k)
      by (rewrite <- Z.pow_add_r by lia; f_equal; unfold k; lia).
    replace (2 ^ 53) with (2 ^ Z.succ (Z.log2 m) * 2 ^ k)
      by (rewrite <- Z.pow_add_r by lia; f_equal; unfold k; lia).
    assert (0 < 2 ^ k) by (apply Z.pow_pos_nonneg; lia).
    split; [apply Z.mul_le_mono_nonneg_r; lia | apply Z.mul_lt_mono_pos_r; lia]. }
  unfold IEEE.pack64, IEEE.pack.
  change (IEEE.emin_lsb 52 11) with (-1074). change (IEEE.bias 11) with 1023.
  replace (Z.max (0 + (Z.log2 m + 1) - (52 + 1)) (-1074)) with (- k) by (unfold k; lia).
  destruct (Z.leb_spec (- k) 0) as [_|]; [|lia].
  replace (0 - - k) with k by lia.
  rewrite Z.shiftl_mul_pow2 by lia.
  change (2 ^ (52 + 1)) with (2 ^ 53).
  destruct (Z.eqb_spec (m * 2 ^ k) (2 ^ 53)); [lia|].
  destruct (Z.ltb_spec (m * 2 ^ k) (2 ^ 52)); [lia|].
  change (2 ^ 11 - 1) with 2047.
  destruct (Z.geb_spec (- k + 1023 + 52) 2047); [lia|].
  rewrite <- Z.add_assoc.
  rewrite Z.add_assoc.
  rewrite (@unpack64_normal s (- k + 1023 + 52) (m * 2 ^ k - 2 ^ 52)) by lia.
  replace (m * 2 ^ k - 2 ^ 52 + 2 ^ 52) with (m * 2 ^ k) by lia.
  replace (- k + 1023 + 52 - 1023 - 52) with (- k) by lia.
  unfold IEEE.trunc.
  assert (Ha : (if - k >=? 0 then Z.shiftl (m * 2 ^ k) (- k)
                else Z.shiftr (m * 2 ^ k) (- - k)) = m).
  { destruct (Z.geb_spec (- k) 0).
    - assert (k = 0) by lia. subst k. replace (52 - Z.log2 m) with 0 by lia.
      cbn. lia.
    - rewrite Z.opp_involutive, Z.shiftr_div_pow2 by lia.
      apply Z.div_mul. assert (0 < 2 ^ k) by (apply Z.pow_pos_nonneg; lia). lia. }
  rewrite Ha.
  assert (Hzz : (if s then - m else m) = z).
  { unfold s, m. destruct (Z.ltb_spec z 0); lia. }
  rewrite Hzz.
  assert (Hin : CInt.in_int64 z = true).
  { unfold CInt.in_int64, CInt.INT64_MIN, CInt.INT64_MAX.
    apply andb_true_intro. split; [apply Z.leb_le | apply Z.leb_le].
    - change (- 2 ^ 63) with (- (1024 * 2 ^ 53)). lia.
    - change (2 ^ 63 - 1) with (1024 * 2 ^ 53 - 1). lia. }
  rewrite Hin. reflexivity.
Qed.

Lemma in_int32_small (z : Z) : CInt.in_int32 z = true -> - 2 ^ 53 < z < 2 ^ 53.
Proof.
  unfold CInt.in_int32, CInt.INT32_MIN, CInt.INT32_MAX. intros H.
  apply andb_prop in H. destruct H as [H1 H2].
  apply Z.leb_le in H1. apply Z.leb_le in H2.
  change (2 ^ 53) with (4194304 * 2 ^ 31). lia.
Qed.

Lemma to_int64_small (z : Z) : - 2 ^ 63 <= z < 2 ^ 63 -> CInt.to_int64 z = z.
Proof.
  intros H. unfold CInt.to_int64, CInt.wrap_signed.
  change (2 ^ (64 - 1)) with (2 ^ 63). change (2 ^ 64) with (2 * 2 ^ 63).
  rewrite Z.mod_small by lia. lia.
Qed.

Lemma to_size_t_small (z : Z) : 0 <= z <= CInt.INT64_MAX -> CInt.to_size_t z = z.
Proof.
  intros H. unfold CInt.to_size_t, CInt.wrap_unsigned. unfold CInt.INT64_MAX in H.
  apply Z.mod_small. change (2 ^ 64) with (2 * 2 ^ 63). lia.
Qed.

Lemma in_bounds (index size : Z) :
  1 <= index <= size -> index <= CInt.INT64_MAX -> out_of_bounds index size = false.
Proof.
  intros H Hmax. unfold out_of_bounds.
  destruct (Z.ltb_spec index 1); [lia|].
  rewrite to_size_t_small by lia.
  destruct (Z.gtb_spec index size); [lia | reflexivity].
Qed.

End NumberFacts.

(** ** Access to the parts of a value *)

Module AccessFacts.
Import NumberFacts.

(** *** C strings *)



Lemma firstn_bytes_of_string (b : string) :
  firstn (Z.to_nat (Z.of_nat (String.length b))) (bytes_of_string b) = bytes_of_string b.
Proof.
  rewrite Nat2Z.id, <- (length_bytes_of_string b). apply firstn_all.
Qed.

Lemma index_of_nth_error (name : string) (syms : list string) :
  forall i, index_of name syms = Some i -> nth_error syms i = Some name.
Proof.
  induction syms as [|x l IH]; intros i H; cbn [index_of] in H; [discriminate|].
  destruct (String.eqb_spec name x) as [->|Hne].
  - injection H as <-. reflexivity.
  - destruct (index_of name l) as [j|]; [|discriminate].
    injection H as <-. cbn [nth_error]. apply IH. reflexivity.
Qed.

Lemma index_of_bound (name : string) (syms : list string) (i : nat) :
  index_of name syms = Some i -> (i < List.length syms)%nat.
Proof.
  intros H. apply nth_error_Some. rewrite (index_of_nth_error _ _ H). discriminate.
Qed.

(** [avro_value_get_by_index] on an array, at an index in range. *)
Lemma get_by_index_array (h0 : avro_value_t) (L : lua_State) s p es it k e :
  load h0 L = Returns (s, p, VArray es) L ->
  resolve (named L) s = SArray it ->
  nth_error es k = Some e ->
  avro_value_get_by_index h0 (Z.of_nat k) L
  = Returns (Ok (child_value p (it, k), None)) L.
Proof.
  intros Hl Hr He.
  assert (Hk : (k < List.length es)%nat) by (apply nth_error_Some; rewrite He; discriminate).
  unfold avro_value_get_by_index. step Hl. unfold bind, get_state. cbn [ret].
  unfold Generic.get_by_index. rewrite Hr. unfold Generic.nth_Z.
  destruct (Z.leb_spec 0 (Z.of_nat k)); [|lia].
  destruct (Z.ltb_spec (Z.of_nat k) (Z.of_nat (List.length es))); [|lia].
  cbn [andb]. rewrite Nat2Z.id, He. reflexivity.
Qed.

Lemma iface_of_load (h0 : avro_value_t) (L : lua_State) s p x :
  load h0 L = Returns (s, p, x) L -> iface h0 = Some s /\ self h0 = Some p.
Proof.
  intros Hl. destruct (@load_Returns _ _ _ _ _ _ Hl) as [_ [Hi [Hs _]]]. split; assumption.
Qed.

Lemma l_value_get_array_ok (L : lua_State) (id : nat) (h0 : avro_value_t) s p es it k e n
  (rest : list lua_value) :
  holds L id h0 ->
  load h0 L = Returns (s, p, VArray es) L ->
  resolve (named L) s = SArray it ->
  nth_error es k = Some e ->
  LuaNumber.to_integer n = Z.of_nat k + 1 ->
  l_value_get (LUserdata id :: LNum n :: rest) L
  = Returns [LUserdata (List.length (udata L))]
      (with_udata L (udata L ++ [element_view p it k])).
Proof.
  intros [b Hu] Hl Hr He Hn.
  destruct (@iface_of_load _ _ _ _ _ Hl) as [Hi _].
  assert (Hk : (k < List.length es)%nat) by (apply nth_error_Some; rewrite He; discriminate).
  pose proof (to_integer_range n) as Hrange.
  unfold l_value_get.
  step (@lua_avro_get_value_ok (LUserdata id :: LNum n :: rest) 1 id L _ eq_refl Hu).
  cbn [l_value].
  step (@avro_value_get_type_ok _ L _ Hi).
  rewrite (@resolve_array_type _ _ _ Hr).
  unfold luaL_checkinteger. cbn [lua_arg Nat.sub nth lua_tonumber]. lua_simpl.
  step (@check_Ok _ _ _ _ _
          (@get_with_ok _ _ _ _ _ _ (fun _ _ x => Generic.get_size x) Hl)).
  cbn [Generic.get_size]. rewrite Hn.
  rewrite in_bounds by lia.
  replace (Z.of_nat k + 1 - 1) with (Z.of_nat k) by lia.
  rewrite to_size_t_small by lia.
  step (@check_Ok _ _ _ _ _ (@get_by_index_array _ L s p es it k e Hl Hr He)).
  step (lua_avro_push_value_ok (child_value p (it, k)) false L).
  reflexivity.
Qed.

Lemma l_value_size_ok (L : lua_State) (id : nat) (h0 : avro_value_t) s p x (n : Z) :
  holds L id h0 ->
  load h0 L = Returns (s, p, x) L ->
  avro_typeof (resolve (named L) s) = AVRO_ARRAY
  \/ avro_typeof (resolve (named L) s) = AVRO_MAP ->
  Generic.get_size x = Ok n ->
  l_value_size [LUserdata id] L = Returns [lua_pushinteger n] L.
Proof.
  intros [b Hu] Hl Hty Hsz.
  destruct (@iface_of_load _ _ _ _ _ Hl) as [Hi _].
  unfold l_value_size.
  step (@lua_avro_get_value_ok [LUserdata id] 1 id L _ eq_refl Hu). cbn [l_value].
  step (@avro_value_get_type_ok _ L _ Hi).
  assert (Hget : check (avro_value_get_size h0) L = Returns n L).
  { apply check_Ok. unfold avro_value_get_size.
    rewrite (@get_with_ok _ _ _ _ _ _ (fun _ _ x => Generic.get_size x) Hl), Hsz.
    reflexivity. }
  destruct Hty as [-> | ->]; step Hget; reflexivity.
Qed.

Lemma resolve_map_type (env : schema_env) (s vs : schema) :
  resolve env s = SMap vs -> avro_typeof (resolve env s) = AVRO_MAP.
Proof. intros ->. reflexivity. Qed.

Lemma map_index_nth_error (key : string) (kvs : list (string * value)) :
  forall k, map_index key kvs = Some k -> exists e, nth_error kvs k = Some (key, e).
Proof.
  induction kvs as [|[k' v'] l IH]; intros k H; cbn [map_index] in H; [discriminate|].
  destruct (String.eqb_spec key k') as [->|Hne].
  - injection H as <-. exists v'. reflexivity.
  - destruct (map_index key l) as [j|]; [|discriminate].
    injection H as <-. cbn [nth_error]. apply IH. reflexivity.
Qed.

Lemma map_index_None (key : string) (kvs : list (string * value)) :
  map_index key kvs = None -> ~ In key (map fst kvs).
Proof.
  induction kvs as [|[k' v'] l IH]; intros H; cbn [map_index] in H; [intros []|].
  destruct (String.eqb_spec key k') as [->|Hne]; [discriminate|].
  destruct (map_index key l) as [j|] eqn:E; [discriminate|].
  cbn [map fst]. intros [Heq|Hin]; [congruence | exact (IH eq_refl Hin)].
Qed.

Lemma map_index_app_fresh (key : string) (e : value) (kvs : list (string * value)) :
  map_index key kvs = None ->
  map_index key (kvs ++ [(key, e)]) = Some (List.length kvs).
Proof.
  induction kvs as [|[k' v'] l IH]; intros H; cbn [map_index app List.length] in *.
  - rewrite String.eqb_refl. reflexivity.
  - destruct (String.eqb_spec key k') as [->|Hne]; [discriminate|].
    destruct (map_index key l) as [j|] eqn:E; [discriminate|].
    rewrite (IH eq_refl). reflexivity.
Qed.

Section MapGet.
Variables (L : lua_State) (id : nat) (h0 : avro_value_t) (s : schema) (p : ptr).
Variables (kvs : list (string * value)) (vs : schema).
Hypothesis Hh : holds L id h0.
Hypothesis Hl : load h0 L = Returns (s, p, VMap kvs) L.
Hypothesis Hr : resolve (named L) s = SMap vs.

Lemma l_value_get_map_position_ok (k : nat) (key : string) (e : value) (n : Z) :
  nth_error kvs k = Some (key, e) ->
  LuaNumber.to_integer n = Z.of_nat k + 1 ->
  l_value_get [LUserdata id; LNum n] L
  = Returns [LUserdata (List.length (udata L)); LStr key]
      (with_udata L (udata L ++ [element_view p vs k])).
Proof.
  intros He Hn. destruct Hh as [b Hu].
  destruct (@iface_of_load _ _ _ _ _ Hl) as [Hi _].
  assert (Hk : (k < List.length kvs)%nat) by (apply nth_error_Some; rewrite He; discriminate).
  pose proof (to_integer_range n) as Hrange.
  unfold l_value_get.
  step (@lua_avro_get_value_ok [LUserdata id; LNum n] 1 id L _ eq_refl Hu).
  cbn [l_value].
  step (@avro_value_get_type_ok _ L _ Hi).
  rewrite (@resolve_map_type _ _ _ Hr).
  cbn [lua_gettop List.length Z.of_nat Pos.of_succ_nat Pos.succ Z.ltb Z.compare
         Pos.compare Pos.compare_cont lua_arg Nat.sub nth].
  unfold lua_isnumber, lua_tointeger. cbn [lua_tonumber]. lua_simpl.
  step (@check_Ok _ _ _ _ _
          (@get_with_ok _ _ _ _ _ _ (fun _ _ x => Generic.get_size x) Hl)).
  cbn [Generic.get_size]. rewrite Hn.
  rewrite in_bounds by lia.
  replace (Z.of_nat k + 1 - 1) with (Z.of_nat k) by lia.
  rewrite to_size_t_small by lia.
  assert (Hget : avro_value_get_by_index h0 (Z.of_nat k) L
                 = Returns (Ok (child_value p (vs, k), Some key)) L).
  { unfold avro_value_get_by_index. step Hl. unfold bind, get_state. cbn [ret].
    unfold Generic.get_by_index. rewrite Hr. unfold Generic.nth_Z.
    destruct (Z.leb_spec 0 (Z.of_nat k)); [|lia].
    destruct (Z.ltb_spec (Z.of_nat k) (Z.of_nat (List.length kvs))); [|lia].
    cbn [andb]. rewrite Nat2Z.id, He. reflexivity. }
  step (@check_Ok _ _ _ _ _ Hget). cbn [child_value self].
  step (lua_avro_push_value_ok (child_value p (vs, k)) false L).
  reflexivity.
Qed.

Lemma l_value_get_map_key_ok (k : nat) (key : string) :
  LuaNumber.of_string key = Some None ->
  map_index (c_str key) kvs = Some k ->
  l_value_get [LUserdata id; LStr key] L
  = Returns [LUserdata (List.length (udata L)); lua_pushinteger (Z.of_nat k)]
      (with_udata L (udata L ++ [element_view p vs k])).
Proof.
  intros Hnum Hidx. destruct Hh as [b Hu].
  destruct (@iface_of_load _ _ _ _ _ Hl) as [Hi _].
  unfold l_value_get.
  step (@lua_avro_get_value_ok [LUserdata id; LStr key] 1 id L _ eq_refl Hu).
  cbn [l_value].
  step (@avro_value_get_type_ok _ L _ Hi).
  rewrite (@resolve_map_type _ _ _ Hr).
  cbn [lua_gettop List.length Z.of_nat Pos.of_succ_nat Pos.succ Z.ltb Z.compare
         Pos.compare Pos.compare_cont lua_arg Nat.sub nth].
  unfold lua_isnumber. cbn [lua_tonumber lua_isstring lua_tostring]. rewrite Hnum.
  lua_simpl. cbv zeta.
  assert (Hget : avro_value_get_by_name h0 (c_str key) L
                 = Returns (Ok (child_value p (vs, k), Z.of_nat k)) L).
  { unfold avro_value_get_by_name. step Hl. unfold bind, get_state. cbn [ret].
    unfold Generic.get_by_name. rewrite Hr, Hidx. reflexivity. }
  step (@check_Ok _ _ _ _ _ Hget). cbn [child_value self].
  step (lua_avro_push_value_ok (child_value p (vs, k)) false L).
  reflexivity.
Qed.

Lemma l_value_get_map_out_of_bounds (n : Z) :
  LuaNumber.to_integer n < 1
  \/ Z.of_nat (List.length kvs) < LuaNumber.to_integer n ->
  l_value_get [LUserdata id; LNum n] L
  = Returns [LNil; LStr "Index out of bounds"] L.
Proof.
  intros Hn. destruct Hh as [b Hu].
  destruct (@iface_of_load _ _ _ _ _ Hl) as [Hi _].
  pose proof (to_integer_range n) as Hrange.
  unfold l_value_get.
  step (@lua_avro_get_value_ok [LUserdata id; LNum n] 1 id L _ eq_refl Hu).
  cbn [l_value].
  step (@avro_value_get_type_ok _ L _ Hi).
  rewrite (@resolve_map_type _ _ _ Hr).
  cbn [lua_gettop List.length Z.of_nat Pos.of_succ_nat Pos.succ Z.ltb Z.compare
         Pos.compare Pos.compare_cont lua_arg Nat.sub nth].
  unfold lua_isnumber, lua_tointeger. cbn [lua_tonumber]. lua_simpl.
  step (@check_Ok _ _ _ _ _
          (@get_with_ok _ _ _ _ _ _ (fun _ _ x => Generic.get_size x) Hl)).
  cbn [Generic.get_size].
  assert (Hoob : out_of_bounds (LuaNumber.to_integer n) (Z.of_nat (List.length kvs)) = true).
  { unfold out_of_bounds. apply orb_true_iff.
    destruct Hn as [Hn|Hn]; [left; apply Z.ltb_lt; exact Hn|].
    right. apply Z.gtb_lt. rewrite to_size_t_small by lia. exact Hn. }
  rewrite Hoob. reflexivity.
Qed.
End MapGet.

Lemma l_value_add_ok (L : lua_State) (id : nat) lv s p kvs vs e key :
  nth_error (udata L) id = Some (UdValue lv) ->
  load (l_value lv) L = Returns (s, p, VMap kvs) L ->
  resolve (named L) s = SMap vs ->
  avro_generic_value_new (named L) vs = Ok e ->
  map_index (c_str key) kvs = None ->
  exists h,
    l_value_add [LUserdata id; LStr key] L
    = Returns [LUserdata (List.length (udata L))]
        (with_udata (with_heap L h)
           (udata L ++ [element_view p vs (List.length kvs)]))
    /\ l_value_set [LUserdata id; LStr key] L
       = l_value_add [LUserdata id; LStr key] L
    /\ load (l_value lv) (with_heap L h)
       = Returns (s, p, VMap (kvs ++ [(c_str key, e)])) (with_heap L h).
Proof.
  intros Hu Hl Hr Hnew Hidx.
  destruct (@iface_of_load _ _ _ _ _ Hl) as [Hi _].
  assert (Hop : Generic.add (named L) s (VMap kvs) (c_str key)
                = Ok (VMap (kvs ++ [(c_str key, e)]), (vs, List.length kvs))).
  { unfold Generic.add. rewrite Hr, Hnew. cbn [rbind].
    rewrite (@map_add_fresh (c_str key) e kvs (@map_index_None (c_str key) kvs Hidx)).
    rewrite (@map_index_app_fresh (c_str key) e kvs Hidx). reflexivity. }
  destruct (@child_with_ok (l_value lv) L s p (VMap kvs)
              (VMap (kvs ++ [(c_str key, e)]))
              (vs, List.length kvs) (fun env s x => Generic.add env s x (c_str key))
              Hl Hop)
    as [h [Hcw [Hl' _]]].
  assert (Hadd : l_value_add [LUserdata id; LStr key] L
                 = Returns [LUserdata (List.length (udata L))]
                     (with_udata (with_heap L h)
                        (udata L ++ [element_view p vs (List.length kvs)]))).
  { unfold l_value_add.
    step (@lua_avro_get_value_ok [LUserdata id; LStr key] 1 id L lv eq_refl Hu).
    unfold luaL_checkstring, luaL_checklstring.
    cbn [lua_arg Nat.sub nth lua_tostring]. lua_simpl.
    step (@avro_value_get_type_ok _ L _ Hi).
    rewrite (@resolve_map_type _ _ _ Hr).
    cbn [lua_gettop List.length Z.of_nat Pos.of_succ_nat Pos.succ Z.gtb Z.compare
           Pos.compare Pos.compare_cont].
    unfold avro_value_add.
    step (@check_Ok _ _ _ _ _ Hcw).
    step (lua_avro_push_value_ok (child_value p (vs, List.length kvs)) false (with_heap L h)).
    reflexivity. }
  exists h. split; [exact Hadd|]. split; [|exact Hl'].
  rewrite Hadd. unfold l_value_set.
  step (@lua_avro_get_value_ok [LUserdata id; LStr key] 1 id L lv eq_refl Hu).
  step (@avro_value_get_type_ok _ L _ Hi).
  rewrite (@resolve_map_type _ _ _ Hr).
  unfold luaL_checkstring, luaL_checklstring.
  cbn [lua_arg Nat.sub nth lua_tostring]. lua_simpl.
  unfold avro_value_add.
  step (@check_Ok _ _ _ _ _ Hcw).
  step (lua_avro_push_value_ok (child_value p (vs, List.length kvs)) false (with_heap L h)).
  reflexivity.
Qed.

Lemma resolve_record_type (env : schema_env) (s : schema) nm fs :
  resolve env s = SRecord nm fs -> avro_typeof (resolve env s) = AVRO_RECORD.
Proof. intros ->. reflexivity. Qed.

Lemma bind_Crashes {A B : Type} (c : lua A) (k : A -> lua B) (L : lua_State) :
  c L = Crashes -> bind c k L = Crashes.
Proof. intros H. unfold bind. rewrite H. reflexivity. Qed.

Lemma set_udata_ok (L : lua_State) (id : nat) (old new : userdata) :
  nth_error (udata L) id = Some old ->
  exists us,
    set_udata id new L = Returns tt (with_udata L us)
    /\ nth_error us id = Some new
    /\ forall j, j <> id -> nth_error us j = nth_error (udata L) j.
Proof.
  intros H.
  destruct (@update_nth_Some _ (udata L) id (fun _ => Some new) old new H eq_refl)
    as [us [Hup [Hn [_ Hother]]]].
  exists us. split; [|split; assumption].
  unfold set_udata. rewrite Hup. reflexivity.
Qed.

(** *** Filling an array from a table *)

Lemma update_nth_last {A : Type} (l : list A) (a b : A) :
  update_nth (List.length l) (fun _ => Some b) (l ++ [a]) = Some (l ++ [b]).
Proof.
  induction l as [|x l IH]; cbn [List.length app update_nth option_map].
  - reflexivity.
  - rewrite IH. reflexivity.
Qed.

Lemma new_int (env : schema_env) (it : schema) :
  resolve env it = SInt -> avro_generic_value_new env it = Ok (VInt 0).
Proof.
  intros H. unfold avro_generic_value_new.
  cbn [new_value]. rewrite H. reflexivity.
Qed.

(** One call of [l_value_set_from_ast] on an int: the number is
    converted as [set] converts it. *)
Lemma set_from_ast_int (calls : nat) (L : lua_State) (u : nat) (hc : avro_value_t)
  (sp : schema) (p : ptr) (x x' : value) (it : schema) (q : list nat) (old n : Z)
  (h0 : avro_value_t) :
  holds L u hc ->
  hc = {| iface := Some it; self := Some (fst p, snd p ++ q) |} ->
  resolve (named L) it = SInt ->
  load h0 L = Returns (sp, p, x) L ->
  get_at x q = Some (VInt old) ->
  set_at x q (VInt (CInt.to_int (LuaNumber.to_integer n))) = Some x' ->
  exists h,
    set_from_ast (S calls) [LUserdata u; LNum n] L = Returns [] (with_heap L h)
    /\ load h0 (with_heap L h) = Returns (sp, p, x') (with_heap L h).
Proof.
  intros [b Hu] Hc Hit Hl Hg Hs.
  destruct (@set_with_below h0 L sp p x it q (VInt old)
              (VInt (CInt.to_int (LuaNumber.to_integer n))) x'
              (fun _ _ y => Generic.set_int y (CInt.to_int (LuaNumber.to_integer n)))
              Hl Hg eq_refl Hs) as [h [Hset [Hl' _]]].
  exists h. split; [|exact Hl'].
  assert (Hty : avro_typeof (resolve (named L) it) = AVRO_INT32) by (rewrite Hit; reflexivity).
  assert (Hi : iface hc = Some it) by (rewrite Hc; reflexivity).
  cbn [set_from_ast].
  step (@lua_avro_get_value_ok [LUserdata u; LNum n] 1 u L _ eq_refl Hu). cbn [l_value].
  step (@avro_value_get_type_ok _ L _ Hi). rewrite Hty.
  unfold luaL_checknumber. cbn [lua_arg Nat.sub nth lua_tonumber]. lua_simpl.
  cbn [app]. unfold l_value_set.
  step (@lua_avro_get_value_ok [LUserdata u; LNum n; LUserdata u; LNum n] 1 u L _
          eq_refl Hu). cbn [l_value].
  step (@avro_value_get_type_ok _ L _ Hi). rewrite Hty.
  unfold luaL_checkinteger. cbn [lua_arg Nat.sub nth lua_tonumber]. lua_simpl.
  rewrite Hc. step (@check_Ok _ _ _ _ _ Hset). reflexivity.
Qed.

(** The same call made through [lua_call]. *)
Lemma call_set_from_ast_int (calls : nat) (L : lua_State) (u : nat) (hc : avro_value_t)
  (sp : schema) (p : ptr) (x x' : value) (it : schema) (q : list nat) (old n : Z)
  (h0 : avro_value_t) :
  holds L u hc ->
  hc = {| iface := Some it; self := Some (fst p, snd p ++ q) |} ->
  resolve (named L) it = SInt ->
  load h0 L = Returns (sp, p, x) L ->
  get_at x q = Some (VInt old) ->
  set_at x q (VInt (CInt.to_int (LuaNumber.to_integer n))) = Some x' ->
  exists h,
    lua_call (set_from_ast (S calls) [LUserdata u; LNum n]) L = Returns [] (with_heap L h)
    /\ load h0 (with_heap L h) = Returns (sp, p, x') (with_heap L h).
Proof.
  intros Hh Hc Hit Hl Hg Hs.
  destruct (@set_from_ast_int calls (with_call_site L "") u hc sp p x x' it q old n h0
              Hh Hc Hit (@load_same_heap h0 L (with_call_site L "") _ eq_refl Hl) Hg Hs)
    as [h [Hset Hl']].
  exists h. split.
  - exact (@lua_call_Returns_heap _ _ L _ h Hset).
  - exact (@load_same_heap h0 (with_heap (with_call_site L "") h) (with_heap L h) _
             eq_refl Hl').
Qed.

Section FillArray.
Variables (id : nat) (h0 : avro_value_t) (s : schema) (p : ptr) (it : schema).
Variable calls : nat.

Lemma fill_int_array (ns : list Z) :
  forall (L : lua_State) (es : list value),
    holds L id h0 ->
    load h0 L = Returns (s, p, VArray es) L ->
    resolve (named L) s = SArray it ->
    resolve (named L) it = SInt ->
    exists L',
      for_each
        (fun x =>
           child <- check (avro_value_append h0) ;;
           u <- lua_avro_push_value child false ;;
           lua_call (set_from_ast (S calls) [u; x]) ;;;
           ret tt) (map LNum ns) L
      = Returns tt L'
      /\ load h0 L' = Returns (s, p, VArray (es ++ map int_of_number ns)) L'
      /\ keeps L L'
      /\ named L' = named L.
Proof.
  induction ns as [|n ns IH]; intros L es Hh Hl Hr Hit.
  - exists L. cbn [map for_each]. rewrite app_nil_r.
    split; [reflexivity|]. split; [exact Hl|]. split; [apply keeps_refl | reflexivity].
  - assert (Hop : Generic.append (named L) s (VArray es)
                  = Ok (VArray (es ++ [VInt 0]), (it, List.length es))).
    { unfold Generic.append. rewrite Hr, (new_int _ _ Hit). reflexivity. }
    destruct (@child_with_ok h0 L s p (VArray es) (VArray (es ++ [VInt 0]))
                (it, List.length es) Generic.append Hl Hop) as [h [Hcw [Hl1 _]]].
    set (L2 := with_udata (with_heap L h)
                 (udata L ++ [element_view p it (List.length es)])).
    assert (Hl2 : load h0 L2 = Returns (s, p, VArray (es ++ [VInt 0])) L2).
    { apply (@load_with_udata h0 (with_heap L h)). exact Hl1. }
    assert (Hview : holds L2 (List.length (udata L)) (child_value p (it, List.length es))).
    { exists false. unfold L2. cbn [udata with_udata with_heap].
      rewrite nth_error_app2, Nat.sub_diag by lia. reflexivity. }
    destruct (@call_set_from_ast_int calls L2 (List.length (udata L))
                (child_value p (it, List.length es)) s p
                (VArray (es ++ [VInt 0])) (VArray (es ++ [int_of_number n]))
                it [List.length es] 0 n h0 Hview eq_refl Hit Hl2)
      as [h2 [Hset Hl3]].
    { cbn [get_at]. rewrite nth_error_app2, Nat.sub_diag by lia. reflexivity. }
    { cbn [set_at]. rewrite update_nth_last. reflexivity. }
    assert (Hk : keeps L (with_heap L2 h2)).
    { apply (@keeps_trans L L2); [|apply keeps_with_heap].
      apply (@keeps_trans L (with_heap L h)); [apply keeps_with_heap|].
      apply (@keeps_push (with_heap L h) _). }
    destruct (IH (with_heap L2 h2) (es ++ [int_of_number n]) (Hk _ _ Hh) Hl3 Hr Hit)
      as [L' [Hrun [Hl' [Hk' Hn']]]].
    exists L'. split; [|split; [|split]].
    + cbn [map for_each].
      assert (Hbody : (child <- check (avro_value_append h0) ;;
                       u <- lua_avro_push_value child false ;;
                       lua_call (set_from_ast (S calls) [u; LNum n]) ;;;
                       ret tt) L = Returns tt (with_heap L2 h2)).
      { unfold avro_value_append.
        step (@check_Ok _ _ _ _ _ Hcw).
        step (lua_avro_push_value_ok (child_value p (it, List.length es)) false
                (with_heap L h)).
        fold L2. step Hset. reflexivity. }
      step Hbody. exact Hrun.
    + rewrite Hl'. rewrite <- app_assoc. reflexivity.
    + exact (@keeps_trans _ _ _ Hk Hk').
    + rewrite Hn'. reflexivity.
Qed.
End FillArray.

(** One call of [l_value_set_from_ast] on an array. *)
Lemma set_from_ast_array (calls : nat) (L : lua_State) (id : nat) (h0 : avro_value_t)
  (s it : schema) (arr : list lua_value) (hash : list (lua_value * lua_value)) :
  holds L id h0 ->
  iface h0 = Some s ->
  resolve (named L) s = SArray it ->
  set_from_ast (S calls) [LUserdata id; LTable arr hash] L
  = (check (avro_value_reset h0) ;;;
     for_each
       (fun x =>
          child <- check (avro_value_append h0) ;;
          u <- lua_avro_push_value child false ;;
          lua_call (set_from_ast calls [u; x]) ;;;
          ret tt) arr ;;;
     ret []) L.
Proof.
  intros [b Hu] Hi Hr. cbn [set_from_ast].
  step (@lua_avro_get_value_ok [LUserdata id; LTable arr hash] 1 id L _ eq_refl Hu).
  cbn [l_value].
  step (@avro_value_get_type_ok _ L _ Hi).
  rewrite (@resolve_array_type _ _ _ Hr). reflexivity.
Qed.

Lemma map_int_of_number (zs : list Z) :
  Forall (fun z => CInt.in_int32 z = true) zs ->
  map int_of_number (map LuaNumber.of_integer zs) = map VInt zs.
Proof.
  induction 1 as [|z zs Hz _ IH]; cbn [map]; [reflexivity|].
  rewrite IH. unfold int_of_number.
  rewrite (to_integer_of_integer (in_int32_small _ Hz)), (wrap_signed_small _ Hz).
  reflexivity.
Qed.

(** *** Iterating over a map *)

Lemma skipn_nth_error {A : Type} (l : list A) :
  forall k a, nth_error l k = Some a -> skipn k l = a :: skipn (S k) l.
Proof.
  induction l as [|x l IH]; intros [|k] a H; cbn [nth_error] in H; try discriminate.
  - injection H as ->. reflexivity.
  - cbn [skipn]. rewrite (IH k a H). reflexivity.
Qed.

Lemma peek_preserved (L L' : lua_State) (u : nat) r :
  keeps L L' -> heap L' = heap L ->
  peek L u = Some r -> peek L' u = Some r.
Proof.
  intros Hk Hh Hp. destruct r as [s x].
  destruct (@peek_inv _ _ _ _ Hp) as [lv [p [Hu [Hi [Hs Hl]]]]].
  apply (@peek_holds L' u (l_value lv) s p).
  - apply Hk. exact (@holds_wrapper _ _ _ Hu).
  - exact (@load_same_heap (l_value lv) L L' _ Hh Hl).
Qed.

Lemma visits_entries_preserved (L L' : lua_State) (vs : schema)
  (turns : list (list lua_value)) :
  keeps L L' -> heap L' = heap L ->
  forall kvs, visits_entries L vs turns kvs -> visits_entries L' vs turns kvs.
Proof.
  intros Hk Hh. induction turns as [|t ts IH]; intros [|[key e] kvs] H;
    cbn [visits_entries] in *; try contradiction; [exact I|].
  destruct H as [[u [Ht Hp]] Hrest].
  split; [|apply IH; exact Hrest].
  exists u. split; [exact Ht|]. exact (@peek_preserved L L' u _ Hk Hh Hp).
Qed.

Section MapIteration.
Variables (id itid : nat) (h0 : avro_value_t) (s : schema) (p : ptr) (vs : schema).
Variable kvs : list (string * value).

Lemma iterate_map_end (L : lua_State) (ctrl : lua_value) :
  iterating L itid id (List.length kvs) ->
  holds L id h0 ->
  load h0 L = Returns (s, p, VMap kvs) L ->
  iterate_map [LUserdata itid; ctrl] L = Returns [] L.
Proof.
  intros [b Hit] [b' Hu] Hl.
  unfold iterate_map, checkudata_iterator.
  cbn [lua_arg Nat.sub nth]. unfold bind at 1 2. unfold get_state at 1.
  rewrite Hit. cbn [ret].
  unfold iterator_value. cbn [it_value no_scalar next_index].
  unfold bind at 1 2. unfold get_state at 1. rewrite Hu. cbn [ret l_value].
  unfold avro_value_get_size.
  step (@check_Ok _ _ _ _ _
          (@get_with_ok _ _ _ _ _ _ (fun _ _ x => Generic.get_size x) Hl)).
  cbn [Generic.get_size].
  destruct (Z.geb_spec (Z.of_nat (List.length kvs)) (Z.of_nat (List.length kvs))); [|lia].
  reflexivity.
Qed.

Lemma iterate_map_step (L : lua_State) (k : nat) (key : string) (e : value)
  (ctrl : lua_value) :
  iterating L itid id k ->
  holds L id h0 ->
  load h0 L = Returns (s, p, VMap kvs) L ->
  resolve (named L) s = SMap vs ->
  nth_error kvs k = Some (key, e) ->
  exists L',
    iterate_map [LUserdata itid; ctrl] L
    = Returns [LStr key; LUserdata (List.length (udata L))] L'
    /\ iterating L' itid id (S k)
    /\ keeps L L'
    /\ peek L' (List.length (udata L)) = Some (vs, e)
    /\ heap L' = heap L
    /\ named L' = named L.
Proof.
  intros [b Hit] [b' Hu] Hl Hr He.
  assert (Hk : (k < List.length kvs)%nat).
  { apply nth_error_Some. rewrite He. discriminate. }
  set (view := element_view p vs k).
  set (state' := UdIterator {| no_scalar := b; it_value := Some id;
                               next_index := Z.of_nat k + 1 |}).
  assert (Hit' : nth_error (udata L ++ [view]) itid
                 = Some (UdIterator {| no_scalar := b; it_value := Some id;
                                       next_index := Z.of_nat k |})).
  { rewrite nth_error_app1; [exact Hit|]. apply nth_error_Some. rewrite Hit. discriminate. }
  destruct (@update_nth_Some _ (udata L ++ [view]) itid (fun _ => Some state') _ state'
              Hit' eq_refl) as [us [Hup [Hn [Hlen Hother]]]].
  exists (with_udata L us).
  assert (Hne : itid <> List.length (udata L)).
  { intros ->. assert (nth_error (udata L) (List.length (udata L)) <> None) as H
        by (rewrite Hit; discriminate).
    apply nth_error_Some in H. lia. }
  assert (Hkeep : keeps L (with_udata L us)).
  { intros u h [bb Hh]. exists bb. cbn [udata with_udata].
    assert (u <> itid) by (intros ->; rewrite Hit in Hh; discriminate).
    rewrite (Hother u H).
    rewrite nth_error_app1; [exact Hh|]. apply nth_error_Some. rewrite Hh. discriminate. }
  split; [|split; [|split; [|split; [|split]]]].
  - unfold iterate_map, checkudata_iterator.
    cbn [lua_arg Nat.sub nth]. unfold bind at 1 2. unfold get_state at 1.
    rewrite Hit. cbn [ret].
    unfold iterator_value. cbn [it_value no_scalar next_index].
    unfold bind at 1 2. unfold get_state at 1. rewrite Hu. cbn [ret l_value].
    unfold avro_value_get_size.
    step (@check_Ok _ _ _ _ _
            (@get_with_ok _ _ _ _ _ _ (fun _ _ x => Generic.get_size x) Hl)).
    cbn [Generic.get_size].
    destruct (Z.geb_spec (Z.of_nat k) (Z.of_nat (List.length kvs))); [lia|].
    assert (Hget : avro_value_get_by_index h0 (Z.of_nat k) L
                   = Returns (Ok (child_value p (vs, k), Some key)) L).
    { unfold avro_value_get_by_index. step Hl. unfold bind, get_state. cbn [ret].
      unfold Generic.get_by_index. rewrite Hr. unfold Generic.nth_Z.
      destruct (Z.leb_spec 0 (Z.of_nat k)); [|lia].
      destruct (Z.ltb_spec (Z.of_nat k) (Z.of_nat (List.length kvs))); [|lia].
      cbn [andb]. rewrite Nat2Z.id, He. reflexivity. }
    step (@check_Ok _ _ _ _ _ Hget).
    step (lua_avro_push_value_ok (child_value p (vs, k)) false L).
    unfold bind, set_udata. cbn [udata with_udata]. fold (element_view p vs k).
    fold view. fold state'. rewrite Hup. reflexivity.
  - exists b. cbn [udata with_udata]. rewrite Hn. unfold state'.
    rewrite Nat2Z.inj_succ. unfold Z.succ. reflexivity.
  - exact Hkeep.
  - apply (@peek_holds (with_udata L us) _ (child_value p (vs, k)) vs
             (fst p, snd p ++ [k]) e).
    + exists false. cbn [udata with_udata].
      rewrite (Hother (List.length (udata L)) (not_eq_sym Hne)).
      rewrite nth_error_app2, Nat.sub_diag by lia. reflexivity.
    + apply (@load_same_heap _ L (with_udata L us) _ eq_refl).
      apply (@load_child h0 L s p (VMap kvs) vs k e Hl).
      cbn [get_at]. rewrite He. reflexivity.
  - reflexivity.
  - reflexivity.
Qed.

Lemma for_in_map_ok (n : nat) :
  forall (L : lua_State) (k : nat) (ctrl : lua_value) (fuel : nat),
    (k + n = List.length kvs)%nat ->
    (n < fuel)%nat ->
    iterating L itid id k ->
    holds L id h0 ->
    load h0 L = Returns (s, p, VMap kvs) L ->
    resolve (named L) s = SMap vs ->
    exists turns L',
      for_in fuel iterate_map_fn (LUserdata itid) ctrl L = Returns turns L'
      /\ visits_entries L' vs turns (skipn k kvs)
      /\ keeps L L'
      /\ heap L' = heap L.
Proof.
  induction n as [|n IH]; intros L k ctrl fuel Hk Hfuel Hit Hu Hl Hr.
  - destruct fuel as [|fuel]; [lia|].
    exists [], L. rewrite Nat.add_0_r in Hk. subst k.
    split; [|split; [|split]]; try reflexivity; [| |apply keeps_refl].
    + cbn [for_in call_cfunction].
      step (@iterate_map_end L ctrl Hit Hu Hl). reflexivity.
    + rewrite skipn_all. exact I.
  - destruct fuel as [|fuel]; [lia|].
    destruct (nth_error kvs k) as [[key e]|] eqn:He.
    2:{ apply nth_error_None in He. lia. }
    destruct (@iterate_map_step L k key e ctrl Hit Hu Hl Hr He)
      as [L' [Hrun [Hit' [Hkeep [Hview [Hheap Hnamed]]]]]].
    assert (Hl' : load h0 L' = Returns (s, p, VMap kvs) L')
      by exact (@load_same_heap h0 L L' _ Hheap Hl).
    assert (Hr' : resolve (named L') s = SMap vs) by (rewrite Hnamed; exact Hr).
    destruct (IH L' (S k) (LStr key) fuel ltac:(lia) ltac:(lia)
                Hit' (Hkeep _ _ Hu) Hl' Hr')
      as [turns [L2 [Hrest [Hy [Hkeep2 Hheap2]]]]].
    exists ([LStr key; LUserdata (List.length (udata L))] :: turns), L2.
    split; [|split; [|split]].
    + cbn [for_in call_cfunction]. step Hrun. cbn [hd]. step Hrest. reflexivity.
    + rewrite (skipn_nth_error _ _ He). cbn [visits_entries]. split; [|exact Hy].
      eexists. split; [reflexivity|].
      exact (@peek_preserved L' L2 _ _ Hkeep2 Hheap2 Hview).
    + exact (@keeps_trans _ _ _ Hkeep Hkeep2).
    + rewrite Hheap2. exact Hheap.
Qed.
End MapIteration.

(** [get] on a record by the name of a field. *)
Lemma l_value_get_record_name_ok (L : lua_State) (id : nat) (h0 : avro_value_t)
  (s : schema) (p : ptr) (nm : string) (fs : list field) (vs : list value)
  (k : nat) (f : field) (ks : string) :
  holds L id h0 ->
  load h0 L = Returns (s, p, VRecord vs) L ->
  resolve (named L) s = SRecord nm fs ->
  find_field (c_str ks) fs = Some (k, f) ->
  LuaNumber.of_string ks = Some None ->
  l_value_get [LUserdata id; LStr ks] L
  = Returns [LUserdata (List.length (udata L))]
      (with_udata L (udata L ++ [element_view p (ftype f) k])).
Proof.
  intros [b Hu] Hl Hr Hfind Hnum.
  destruct (@iface_of_load _ _ _ _ _ Hl) as [Hi _].
  unfold l_value_get.
  step (@lua_avro_get_value_ok [LUserdata id; LStr ks] 1 id L _ eq_refl Hu).
  cbn [l_value].
  step (@avro_value_get_type_ok _ L _ Hi).
  rewrite (@resolve_record_type _ _ _ _ Hr).
  cbn [lua_gettop List.length Z.of_nat Pos.of_succ_nat Pos.succ Z.ltb Z.compare
         Pos.compare Pos.compare_cont lua_arg Nat.sub nth].
  unfold lua_isnumber. cbn [lua_tonumber lua_isstring lua_tostring]. rewrite Hnum.
  lua_simpl. cbv zeta.
  assert (Hg : avro_value_get_by_name h0 (c_str ks) L
               = Returns (Ok (child_value p (ftype f, k), Z.of_nat k)) L).
  { unfold avro_value_get_by_name. step Hl. unfold bind, get_state. cbn [ret].
    unfold Generic.get_by_name. rewrite Hr, Hfind. reflexivity. }
  step (@check_Ok _ _ _ _ _ Hg). cbn [child_value self].
  step (lua_avro_push_value_ok (child_value p (ftype f, k)) false L).
  reflexivity.
Qed.

(** One call of [l_value_set_from_ast] on a record. *)
Lemma set_from_ast_record (calls : nat) (L : lua_State) (id : nat) (h0 : avro_value_t)
  (s : schema) nm fs (arr : list lua_value) (hash : list (lua_value * lua_value)) :
  holds L id h0 ->
  iface h0 = Some s ->
  resolve (named L) s = SRecord nm fs ->
  set_from_ast (S calls) [LUserdata id; LTable arr hash] L
  = (for_each
       (fun kv =>
          r <- lua_call (l_value_get [LUserdata id; fst kv]) ;;
          lua_call (set_from_ast calls [hd LNil r; snd kv]) ;;;
          ret tt) (table_entries arr hash) ;;;
     ret []) L.
Proof.
  intros [b Hu] Hi Hr. cbn [set_from_ast].
  step (@lua_avro_get_value_ok [LUserdata id; LTable arr hash] 1 id L _ eq_refl Hu).
  cbn [l_value].
  step (@avro_value_get_type_ok _ L _ Hi).
  rewrite (@resolve_record_type _ _ _ _ Hr). reflexivity.
Qed.

Lemma update_nth_defined {A : Type} (l : list A) :
  forall k a b, nth_error l k = Some a ->
    exists l', update_nth k (fun _ => Some b) l = Some l'
               /\ nth_error l' k = Some b
               /\ List.length l' = List.length l
               /\ forall j, j <> k -> nth_error l' j = nth_error l j.
Proof.
  intros k a b H. exact (@update_nth_Some _ l k (fun _ => Some b) a b H eq_refl).
Qed.

(** One call of [l_value_set_from_ast] on a map. *)
Lemma set_from_ast_map (calls : nat) (L : lua_State) (id : nat) (h0 : avro_value_t)
  (s vs : schema) (arr : list lua_value) (hash : list (lua_value * lua_value)) :
  holds L id h0 ->
  iface h0 = Some s ->
  resolve (named L) s = SMap vs ->
  set_from_ast (S calls) [LUserdata id; LTable arr hash] L
  = (for_each
       (fun kv =>
          key <- lua_tostring (fst kv) ;;
          match key with
          | Some key =>
              child <- check (avro_value_add h0 (c_str key)) ;;
              u <- lua_avro_push_value child false ;;
              lua_call (set_from_ast calls [u; rawget (table_entries arr hash) (fst kv)]) ;;;
              ret tt
          | None => crash
          end) (table_entries arr hash) ;;;
     ret []) L.
Proof.
  intros [b Hu] Hi Hr.
  cbn [set_from_ast].
  step (@lua_avro_get_value_ok [LUserdata id; LTable arr hash] 1 id L _ eq_refl Hu).
  cbn [l_value].
  step (@avro_value_get_type_ok _ L _ Hi). rewrite (@resolve_map_type _ _ _ Hr).
  reflexivity.
Qed.

Lemma update_nth_last_with {A : Type} (f : A -> option A) (l : list A) (a b : A) :
  f a = Some b ->
  update_nth (List.length l) f (l ++ [a]) = Some (l ++ [b]).
Proof.
  intros H. induction l as [|x l IH]; cbn [List.length app update_nth option_map].
  - rewrite H. reflexivity.
  - rewrite IH. reflexivity.
Qed.

(** ** Decoding through a resolver *)

(** A store changes one cell. *)
Lemma store_frame (v : avro_value_t) (L : lua_State) s p x (y : value) :
  load v L = Returns (s, p, x) L ->
  exists h, store p y L = Returns tt (with_heap L h)
            /\ load v (with_heap L h) = Returns (s, p, y) (with_heap L h)
            /\ forall j, j <> fst p -> nth_error h j = nth_error (heap L) j.
Proof.
  intros Hl.
  destruct (@load_Returns _ _ _ _ _ _ Hl) as [_ [Hi [Hp [cl [Hc [Hr Hg]]]]]].
  destruct (@set_at_defined (snd p) (content cl) x y Hg) as [c' Hc'].
  destruct (@update_nth_Some _ (heap L) (fst p)
              (fun cl0 => option_map (fun x0 => {| refcount := refcount cl0; content := x0 |})
                            (set_at (content cl0) (snd p) y))
              cl {| refcount := refcount cl; content := c' |} Hc)
    as [h [Hup [Hn [_ Hother]]]].
  { rewrite Hc'. reflexivity. }
  exists h. split; [|split; [|exact Hother]].
  - unfold store. rewrite Hup. reflexivity.
  - unfold load. rewrite Hi, Hp. destruct p as [c pp]. cbn [fst snd heap with_heap] in *.
    rewrite Hn. cbn [refcount content].
    destruct (refcount cl =? 0)%nat eqn:E; [apply Nat.eqb_eq in E; contradiction|].
    rewrite (@get_set_at pp _ _ _ Hc'). reflexivity.
Qed.

Lemma load_other_cell (v : avro_value_t) (L : lua_State) (h : list cell) s p x :
  load v L = Returns (s, p, x) L ->
  nth_error h (fst p) = nth_error (heap L) (fst p) ->
  load v (with_heap L h) = Returns (s, p, x) (with_heap L h).
Proof.
  intros Hl Hsame.
  destruct (@load_Returns _ _ _ _ _ _ Hl) as [_ [Hi [Hp [cl [Hc [Hr Hg]]]]]].
  unfold load. rewrite Hi, Hp. destruct p as [c pp]. cbn [fst snd heap with_heap] in *.
  rewrite Hsame, Hc.
  destruct (refcount cl =? 0)%nat eqn:E; [apply Nat.eqb_eq in E; contradiction|].
  rewrite Hg. reflexivity.
Qed.

Section Decode.
Variables (rid did : nat) (s sd : schema) (x : value).

Lemma l_resolved_writer_decode_ok (L : lua_State) (rv : avro_value_t)
  (lvd : LuaAvroValue) (pd : ptr) (d0 : value) :
  nth_error (udata L) rid
  = Some (UdResolvedWriter {| resolver := Some (s, s); rw_value := Some rv |}) ->
  nth_error (udata L) did = Some (UdValue lvd) ->
  load (l_value lvd) L = Returns (sd, pd, d0) L ->
  Generic.schema_equal (resolve (named L) sd) (resolve (named L) s) = true ->
  has_type (named L) x s = true ->
  Codec.well_formed (named L) s = true ->
  (Codec.depth x <= c_stack L)%nat ->
  exists us h,
    l_resolved_writer_decode
      [LUserdata rid; LStr (string_of_bytes (Codec.encode x)); LUserdata did] L
    = Returns [LBool true] (with_heap (with_udata L us) h)
    /\ nth_error us rid
       = Some (UdResolvedWriter {| resolver := Some (s, s);
                                   rw_value := Some (l_value lvd) |})
    /\ (forall j, j <> rid -> nth_error us j = nth_error (udata L) j)
    /\ load (l_value lvd) (with_heap (with_udata L us) h)
       = Returns (sd, pd, x) (with_heap (with_udata L us) h)
    /\ (forall j, j <> fst pd -> nth_error h j = nth_error (heap L) j).
Proof.
  intros Hrw Hud Hld Heq Ht Hwf Hdepth.
  apply andb_prop in Hwf. destruct Hwf as [Hun Henv].
  set (rw := {| resolver := Some (s, s); rw_value := Some (l_value lvd) |}).
  destruct (@update_nth_Some _ (udata L) rid (fun _ => Some (UdResolvedWriter rw)) _
              (UdResolvedWriter rw) Hrw eq_refl) as [us [Hup [Hn [_ Hother]]]].
  set (L1 := with_udata L us).
  assert (Hld' : load (l_value lvd) L1 = Returns (sd, pd, d0) L1).
  { apply (@load_same_heap (l_value lvd) L L1); [reflexivity | exact Hld]. }
  destruct (@store_frame (l_value lvd) L1 sd pd d0 x Hld') as [h [Hst [Hlx Hframe]]].
  exists us, h. split; [|split; [exact Hn|split; [exact Hother|split; [exact Hlx|exact Hframe]]]].
  unfold l_resolved_writer_decode, checkudata_resolved_writer.
  cbn [lua_arg Nat.sub nth]. unfold bind at 1 2. unfold get_state at 1.
  rewrite Hrw. cbn [ret].
  unfold luaL_checklstring. cbn [lua_arg Nat.sub nth lua_tostring]. lua_simpl.
  step (@lua_avro_get_value_ok
          [LUserdata rid; LStr (string_of_bytes (Codec.encode x)); LUserdata did]
          3 did L lvd eq_refl Hud).
  cbn [resolver rw_value].
  unfold bind at 1. unfold set_udata at 1. fold rw. rewrite Hup. fold L1.
  assert (Hread : avro_value_read
                    (bytes_of_string (string_of_bytes (Codec.encode x))) s s
                    (l_value lvd) L1
                  = Returns (Ok tt) (with_heap L1 h)).
  { unfold avro_value_read. step Hld'. unfold bind at 1. unfold get_state at 1.
    change (named L1) with (named L). change (c_stack L1) with (c_stack L).
    rewrite Heq, bytes_of_string_of_bytes.
    rewrite <- (app_nil_r (Codec.encode x)).
    rewrite (@rdecode_self (named L) Henv (c_stack L) x s s [] eq_refl
               (@unambiguous_resolve (named L) Henv s Hun) Ht Hdepth).
    step Hst. reflexivity. }
  step Hread. reflexivity.
Qed.
End Decode.

End AccessFacts.

(** * Further theorems *)

Import NumberFacts AccessFacts.

(** ** Scalars *)

(** An int value set to an integer that fits 32 bits holds that integer,
    and [get] returns it. *)
Theorem int_set_then_get (L : lua_State) (id : nat) (s : schema) (old z : Z) :
  peek L id = Some (s, VInt old) ->
  type_of L id = Some AVRO_INT32 ->
  CInt.in_int32 z = true ->
  exists L1,
    l_value_set [LUserdata id; lua_pushinteger z] L = Returns [] L1
    /\ l_value_get [LUserdata id] L1 = Returns [lua_pushinteger z] L1
    /\ peek L1 id = Some (s, VInt z).
Proof.
  intros Hp Ht Hz.
  destruct (@peek_inv _ _ _ _ Hp) as [lv [p [Hu [Hi [Hs Hl]]]]].
  pose proof (@type_of_inv _ _ _ _ _ Hu Hi Ht) as Hty.
  destruct (@set_with_ok (l_value lv) L s p (VInt old) (VInt z)
              (fun _ _ x => Generic.set_int x z) Hl eq_refl)
    as [h [Hset [Hl' _]]].
  exists (with_heap L h). split; [|split].
  - unfold l_value_set.
    step (@lua_avro_get_value_ok [LUserdata id; lua_pushinteger z] 1 id L lv eq_refl Hu).
    step (@avro_value_get_type_ok _ L _ Hi). rewrite Hty.
    unfold luaL_checkinteger, lua_pushinteger. cbn [lua_arg Nat.sub nth lua_tonumber].
    lua_simpl.
    rewrite (to_integer_of_integer (in_int32_small _ Hz)), (wrap_signed_small _ Hz).
    step (@check_Ok _ _ _ _ _ Hset). reflexivity.
  - unfold l_value_get.
    step (@lua_avro_get_value_ok [LUserdata id] 1 id (with_heap L h) lv eq_refl Hu).
    step (@avro_value_get_type_ok _ (with_heap L h) _ Hi).
    cbn [named with_heap]. rewrite Hty.
    step (@check_Ok _ _ _ _ _
            (@get_with_ok _ _ _ _ _ _ (fun _ _ x => Generic.get_int x) Hl')).
    reflexivity.
  - exact (@peek_with_heap L h id lv s p (VInt z) Hu Hl').
Qed.

Lemma int_set_then_get_witness :
  exists L1,
    l_value_set [LUserdata 0; num (-42)] int_state = Returns [] L1
    /\ l_value_get [LUserdata 0] L1 = Returns [num (-42)] L1.
Proof.
  destruct (@int_set_then_get int_state 0 SInt 0 (-42)
              ltac:(vm_compute; reflexivity) ltac:(vm_compute; reflexivity) eq_refl)
    as [L1 [H1 [H2 _]]].
  exists L1. split; assumption.
Defined.

(** A long value below 2^53 in magnitude comes out of [get] as a number
    that, set back, leaves the value as it was: no precision is lost on
    the way through a Lua number. *)
Theorem long_get_then_set_back (L : lua_State) (id : nat) (s : schema) (l : Z) :
  peek L id = Some (s, VLong l) ->
  type_of L id = Some AVRO_INT64 ->
  - 2 ^ 53 < l < 2 ^ 53 ->
  exists v L1,
    l_value_get [LUserdata id] L = Returns [v] L
    /\ l_value_set [LUserdata id; v] L = Returns [] L1
    /\ peek L1 id = Some (s, VLong l).
Proof.
  intros Hp Ht Hz.
  destruct (@peek_inv _ _ _ _ Hp) as [lv [p [Hu [Hi [Hs Hl]]]]].
  pose proof (@type_of_inv _ _ _ _ _ Hu Hi Ht) as Hty.
  destruct (@set_with_ok (l_value lv) L s p (VLong l) (VLong l)
              (fun _ _ x => Generic.set_long x l) Hl eq_refl)
    as [h [Hset [Hl' _]]].
  exists (lua_pushinteger l), (with_heap L h). split; [|split].
  - unfold l_value_get.
    step (@lua_avro_get_value_ok [LUserdata id] 1 id L lv eq_refl Hu).
    step (@avro_value_get_type_ok _ L _ Hi). rewrite Hty.
    step (@check_Ok _ _ _ _ _
            (@get_with_ok _ _ _ _ _ _ (fun _ _ x => Generic.get_long x) Hl)).
    reflexivity.
  - unfold l_value_set.
    step (@lua_avro_get_value_ok [LUserdata id; lua_pushinteger l] 1 id L lv eq_refl Hu).
    step (@avro_value_get_type_ok _ L _ Hi). rewrite Hty.
    unfold luaL_checkinteger, lua_pushinteger. cbn [lua_arg Nat.sub nth lua_tonumber].
    lua_simpl.
    rewrite (to_integer_of_integer Hz).
    rewrite to_int64_small by (change (2 ^ 63) with (1024 * 2 ^ 53); lia).
    step (@check_Ok _ _ _ _ _ Hset). reflexivity.
  - exact (@peek_with_heap L h id lv s p (VLong l) Hu Hl').
Qed.

Lemma long_get_then_set_back_witness :
  exists v L1,
    l_value_get [LUserdata 0] long_state = Returns [v] long_state
    /\ l_value_set [LUserdata 0; v] long_state = Returns [] L1
    /\ peek L1 0 = Some (SLong, VLong 123456789012).
Proof.
  apply (@long_get_then_set_back long_state 0 SLong 123456789012).
  - vm_compute; reflexivity.
  - vm_compute; reflexivity.
  - vm_compute. split; reflexivity.
Defined.

(** A boolean value is set to the truth value Lua gives the argument:
    the number 0 and the empty string set it to true. *)
Theorem boolean_set_is_truthiness (L : lua_State) (id : nat) (s : schema)
  (old : bool) (v : lua_value) :
  peek L id = Some (s, VBoolean old) ->
  type_of L id = Some AVRO_BOOLEAN ->
  exists L1,
    l_value_set [LUserdata id; v] L = Returns [] L1
    /\ l_value_get [LUserdata id] L1 = Returns [LBool (lua_toboolean v)] L1
    /\ (v = LNum (LuaNumber.of_integer 0) \/ v = LStr "" -> lua_toboolean v = true).
Proof.
  intros Hp Ht.
  destruct (@peek_inv _ _ _ _ Hp) as [lv [p [Hu [Hi [Hs Hl]]]]].
  pose proof (@type_of_inv _ _ _ _ _ Hu Hi Ht) as Hty.
  destruct (@set_with_ok (l_value lv) L s p (VBoolean old) (VBoolean (lua_toboolean v))
              (fun _ _ x => Generic.set_boolean x (lua_toboolean v)) Hl eq_refl)
    as [h [Hset [Hl' _]]].
  exists (with_heap L h). split; [|split].
  - unfold l_value_set.
    step (@lua_avro_get_value_ok [LUserdata id; v] 1 id L lv eq_refl Hu).
    step (@avro_value_get_type_ok _ L _ Hi). rewrite Hty.
    cbn [lua_arg Nat.sub nth].
    step (@check_Ok _ _ _ _ _ Hset). reflexivity.
  - unfold l_value_get.
    step (@lua_avro_get_value_ok [LUserdata id] 1 id (with_heap L h) lv eq_refl Hu).
    step (@avro_value_get_type_ok _ (with_heap L h) _ Hi).
    cbn [named with_heap]. rewrite Hty.
    step (@check_Ok _ _ _ _ _
            (@get_with_ok _ _ _ _ _ _ (fun _ _ x => Generic.get_boolean x) Hl')).
    reflexivity.
  - intros [-> | ->]; reflexivity.
Qed.

Lemma boolean_set_is_truthiness_witness :
  exists L1,
    l_value_set [LUserdata 0; num 0] boolean_state = Returns [] L1
    /\ l_value_get [LUserdata 0] L1 = Returns [LBool true] L1.
Proof.
  destruct (@boolean_set_is_truthiness boolean_state 0 SBoolean false (num 0)
              ltac:(vm_compute; reflexivity) ltac:(vm_compute; reflexivity))
    as [L1 [H1 [H2 _]]].
  exists L1. split; assumption.
Defined.

(** A bytes value set to a Lua string gives that string back, and its
    encoding is as long as the length prefix and the bytes: unlike a
    string, it goes in and out with no terminator counted. *)
Theorem bytes_set_then_get (L : lua_State) (id : nat) (s : schema) (old b : string) :
  peek L id = Some (s, VBytes old) ->
  type_of L id = Some AVRO_BYTES ->
  exists L1,
    l_value_set [LUserdata id; LStr b] L = Returns [] L1
    /\ l_value_get [LUserdata id] L1 = Returns [LStr b] L1
    /\ l_value_encoded_size [LUserdata id] L1
       = Returns [lua_pushinteger
                    (Codec.size_long (Z.of_nat (String.length b))
                     + Z.of_nat (String.length b))] L1.
Proof.
  intros Hp Ht.
  destruct (@peek_inv _ _ _ _ Hp) as [lv [p [Hu [Hi [Hs Hl]]]]].
  pose proof (@type_of_inv _ _ _ _ _ Hu Hi Ht) as Hty.
  destruct (@set_with_ok (l_value lv) L s p (VBytes old) (VBytes b)
              (fun _ _ x => Generic.set_bytes x (bytes_of_string b)
                              (Z.of_nat (String.length b))) Hl)
    as [h [Hset [Hl' _]]].
  { cbn [Generic.set_bytes]. rewrite firstn_bytes_of_string, string_of_bytes_of_string.
    reflexivity. }
  exists (with_heap L h). split; [|split].
  - unfold l_value_set.
    step (@lua_avro_get_value_ok [LUserdata id; LStr b] 1 id L lv eq_refl Hu).
    step (@avro_value_get_type_ok _ L _ Hi). rewrite Hty.
    unfold luaL_checklstring. cbn [lua_arg Nat.sub nth lua_tostring]. lua_simpl.
    step (@check_Ok _ _ _ _ _ Hset). reflexivity.
  - unfold l_value_get.
    step (@lua_avro_get_value_ok [LUserdata id] 1 id (with_heap L h) lv eq_refl Hu).
    step (@avro_value_get_type_ok _ (with_heap L h) _ Hi).
    cbn [named with_heap]. rewrite Hty.
    step (@check_Ok _ _ _ _ _
            (@get_with_ok _ _ _ _ _ _ (fun _ _ x => Generic.get_bytes x) Hl')).
    cbn [Generic.get_bytes]. unfold lua_pushlstring.
    rewrite firstn_bytes_of_string, string_of_bytes_of_string. reflexivity.
  - unfold l_value_encoded_size.
    step (@lua_avro_get_value_ok [LUserdata id] 1 id (with_heap L h) lv eq_refl Hu).
    assert (Hsz : avro_value_sizeof (l_value lv) (with_heap L h)
                  = Returns (Ok (Codec.sizeof (VBytes b))) (with_heap L h)).
    { unfold avro_value_sizeof.
      rewrite (@get_with_ok _ _ _ s p (VBytes b)
                 (fun _ _ x => Codec.avro_value_sizeof x) Hl'). reflexivity. }
    step (@check_Ok _ _ _ _ _ Hsz). reflexivity.
Qed.

Lemma bytes_set_then_get_witness :
  exists L1,
    l_value_set [LUserdata 0; LStr "abc"] bytes_state = Returns [] L1
    /\ l_value_get [LUserdata 0] L1 = Returns [LStr "abc"] L1.
Proof.
  destruct (@bytes_set_then_get bytes_state 0 SBytes "" "abc"
              ltac:(vm_compute; reflexivity) ltac:(vm_compute; reflexivity))
    as [L1 [H1 [H2 _]]].
  exists L1. split; assumption.
Defined.

(** An enum value is set by the name of a symbol or by its position
    counted from 1, a number that fits 32 bits, and [get] returns the
    name of the symbol.  The name is a string that does not begin like
    a numeral, and it counts up to its first NUL; one that is no symbol
    raises an error, whose message starts with the position of the
    caller, and changes nothing. *)
Theorem enum_set_then_get (L : lua_State) (id : nat) (s : schema) (nm : string)
  (syms : list string) (old : nat) :
  peek L id = Some (s, VEnum old) ->
  type_of L id = Some AVRO_ENUM ->
  resolve (named L) s = SEnum nm syms ->
  (forall name i,
      LuaNumber.of_string name = Some None ->
      index_of (c_str name) syms = Some i ->
      exists L1,
        l_value_set [LUserdata id; LStr name] L = Returns [] L1
        /\ l_value_get [LUserdata id] L1 = Returns [LStr (c_str name)] L1
        /\ peek L1 id = Some (s, VEnum i))
  /\ (forall name i,
         nth_error syms i = Some name ->
         CInt.in_int32 (Z.of_nat i + 1) = true ->
         exists L1,
           l_value_set [LUserdata id; lua_pushinteger (Z.of_nat i + 1)] L = Returns [] L1
           /\ l_value_get [LUserdata id] L1 = Returns [LStr name] L1
           /\ peek L1 id = Some (s, VEnum i))
  /\ (forall name,
         LuaNumber.of_string name = Some None ->
         index_of (c_str name) syms = None ->
         l_value_set [LUserdata id; LStr name] L
         = Raises (LStr (call_site L ++ "No symbol named " ++ c_str name)) L).
Proof.
  intros Hp Ht Hr.
  destruct (@peek_inv _ _ _ _ Hp) as [lv [p [Hu [Hi [Hs Hl]]]]].
  pose proof (@type_of_inv _ _ _ _ _ Hu Hi Ht) as Hty.
  assert (Hstore : forall i name, nth_error syms i = Some name ->
             exists h,
               set_with (l_value lv)
                 (fun env s0 x => Generic.set_enum env s0 x (Z.of_nat i)) L
               = Returns (Ok tt) (with_heap L h)
               /\ l_value_get [LUserdata id] (with_heap L h)
                  = Returns [LStr name] (with_heap L h)
               /\ peek (with_heap L h) id = Some (s, VEnum i)).
  { intros i name Hn.
    assert (Hi' : (i < List.length syms)%nat)
      by (apply nth_error_Some; rewrite Hn; discriminate).
    destruct (@set_with_ok (l_value lv) L s p (VEnum old) (VEnum i)
                (fun env s0 x => Generic.set_enum env s0 x (Z.of_nat i)) Hl)
      as [h [Hset [Hl' _]]].
    { unfold Generic.set_enum. rewrite Hr.
      destruct (Z.leb_spec 0 (Z.of_nat i)); [|lia].
      destruct (Z.ltb_spec (Z.of_nat i) (Z.of_nat (List.length syms))); [|lia].
      cbn [andb]. rewrite Nat2Z.id. reflexivity. }
    exists h. split; [exact Hset|]. split.
    - unfold l_value_get.
      step (@lua_avro_get_value_ok [LUserdata id] 1 id (with_heap L h) lv eq_refl Hu).
      step (@avro_value_get_type_ok _ (with_heap L h) _ Hi).
      cbn [named with_heap]. rewrite Hty.
      step (@check_Ok _ _ _ _ _
              (@get_with_ok _ _ _ _ _ _ (fun _ _ x => Generic.get_enum x) Hl')).
      cbn [Generic.get_enum].
      step (@avro_value_get_schema_ok (l_value lv) (with_heap L h) s Hi).
      cbn [named with_heap]. rewrite Hr, Nat2Z.id, Hn. reflexivity.
    - exact (@peek_with_heap L h id lv s p (VEnum i) Hu Hl'). }
  split; [|split].
  - intros name i Hnum Hidx.
    destruct (Hstore i (c_str name) (index_of_nth_error _ _ Hidx))
      as [h [Hset [Hget Hpk]]].
    exists (with_heap L h). split; [|split; assumption].
    unfold l_value_set.
    step (@lua_avro_get_value_ok [LUserdata id; LStr name] 1 id L lv eq_refl Hu).
    step (@avro_value_get_type_ok _ L _ Hi). rewrite Hty.
    unfold lua_isnumber, luaL_checkstring, luaL_checklstring.
    cbn [lua_arg Nat.sub nth lua_tonumber lua_tostring]. rewrite Hnum. lua_simpl.
    unfold bind at 1 2.
    rewrite (@avro_value_get_schema_ok (l_value lv) L s Hi). rewrite Hr, Hidx. cbn [ret].
    step (@check_Ok _ _ _ _ _ Hset). reflexivity.
  - intros name i Hn Hrange.
    destruct (Hstore i name Hn) as [h [Hset [Hget Hpk]]].
    exists (with_heap L h). split; [|split; assumption].
    unfold l_value_set.
    step (@lua_avro_get_value_ok [LUserdata id; lua_pushinteger (Z.of_nat i + 1)]
            1 id L lv eq_refl Hu).
    step (@avro_value_get_type_ok _ L _ Hi). rewrite Hty.
    unfold lua_isnumber, lua_tointeger, lua_pushinteger.
    cbn [lua_arg Nat.sub nth lua_tonumber]. lua_simpl.
    rewrite (to_integer_of_integer (in_int32_small _ Hrange)).
    replace (Z.of_nat i + 1 - 1) with (Z.of_nat i) by lia.
    rewrite wrap_signed_small.
    + step (@check_Ok _ _ _ _ _ Hset). reflexivity.
    + unfold CInt.in_int32, CInt.INT32_MIN, CInt.INT32_MAX in *.
      apply andb_prop in Hrange. destruct Hrange as [H1 H2].
      apply Z.leb_le in H1. apply Z.leb_le in H2.
      apply andb_true_intro. split; apply Z.leb_le; lia.
  - intros name Hnum Hidx.
    unfold l_value_set.
    step (@lua_avro_get_value_ok [LUserdata id; LStr name] 1 id L lv eq_refl Hu).
    step (@avro_value_get_type_ok _ L _ Hi). rewrite Hty.
    unfold lua_isnumber, luaL_checkstring, luaL_checklstring.
    cbn [lua_arg Nat.sub nth lua_tonumber lua_tostring]. rewrite Hnum. lua_simpl.
    unfold bind at 1 2.
    rewrite (@avro_value_get_schema_ok (l_value lv) L s Hi). rewrite Hr, Hidx.
    reflexivity.
Qed.

Lemma enum_set_then_get_witness :
  exists L1,
    l_value_set [LUserdata 0; LStr "spades"] enum_state = Returns [] L1
    /\ l_value_get [LUserdata 0] L1 = Returns [LStr "spades"] L1
    /\ peek L1 0 = Some (suit, VEnum 1).
Proof.
  destruct (@enum_set_then_get enum_state 0 suit "suit" ["hearts"; "spades"] 0
              ltac:(vm_compute; reflexivity) ltac:(vm_compute; reflexivity) eq_refl)
    as [H _].
  exact (H "spades" 1%nat ltac:(vm_compute; reflexivity) eq_refl).
Defined.

(** ** Arrays and maps *)

(** [get] on an array with a position from 1 to the size returns a view
    of the element at that position less one; the view does not own the
    element and the array is as it was. *)
Theorem array_get_in_range (L : lua_State) (id : nat) (s it : schema)
  (es : list value) (k : nat) (e : value) (n : Z) :
  peek L id = Some (s, VArray es) ->
  resolve (named L) s = SArray it ->
  nth_error es k = Some e ->
  LuaNumber.to_integer n = Z.of_nat k + 1 ->
  exists u L1,
    l_value_get [LUserdata id; LNum n] L = Returns [LUserdata u] L1
    /\ nth_error (udata L1) u = child_view L id it k
    /\ peek L1 u = Some (it, e)
    /\ peek L1 id = Some (s, VArray es)
    /\ heap L1 = heap L.
Proof.
  intros Hp Hr He Hn.
  destruct (@peek_inv _ _ _ _ Hp) as [lv [p [Hu [Hi [Hs Hl]]]]].
  exists (List.length (udata L)).
  exists (with_udata L (udata L ++ [element_view p it k])).
  split; [|split; [|split; [|split]]].
  - exact (@l_value_get_array_ok L id (l_value lv) s p es it k e n []
             (@holds_wrapper _ _ _ Hu) Hl Hr He Hn).
  - cbn [udata with_udata]. rewrite nth_error_app2, Nat.sub_diag by lia.
    unfold child_view. rewrite Hu, Hs. reflexivity.
  - apply (@peek_pushed L (child_value p (it, k)) false it (fst p, snd p ++ [k]) e).
    apply (@load_child (l_value lv) L s p (VArray es) it k e Hl).
    cbn [get_at]. rewrite He. reflexivity.
  - apply peek_kept. exact Hp.
  - reflexivity.
Qed.

Lemma array_get_in_range_witness :
  exists u L1,
    l_value_get [LUserdata 0; num 2] array_state = Returns [LUserdata u] L1
    /\ peek L1 u = Some (SInt, VInt 8).
Proof.
  destruct (@array_get_in_range array_state 0 (SArray SInt) SInt [VInt 7; VInt 8] 1
              (VInt 8) (LuaNumber.of_integer 2)
              ltac:(vm_compute; reflexivity) eq_refl eq_refl
              ltac:(vm_compute; reflexivity))
    as [u [L1 [H1 [_ [H3 _]]]]].
  exists u, L1. split; assumption.
Defined.

(** After an [append] the size is one more, and [get] at the new size
    returns a view of the element the append made, in its fresh state. *)
Theorem append_then_get (L : lua_State) (id : nat) (s it : schema)
  (es : list value) (e : value) :
  peek L id = Some (s, VArray es) ->
  resolve (named L) s = SArray it ->
  avro_generic_value_new (named L) it = Ok e ->
  Z.of_nat (List.length es) + 1 < 2 ^ 53 ->
  exists v L1 u L2,
    l_value_append [LUserdata id] L = Returns [LUserdata v] L1
    /\ l_value_size [LUserdata id] L1
       = Returns [lua_pushinteger (Z.of_nat (List.length es) + 1)] L1
    /\ l_value_get [LUserdata id; lua_pushinteger (Z.of_nat (List.length es) + 1)] L1
       = Returns [LUserdata u] L2
    /\ (exists h, holds L2 v h /\ holds L2 u h)
    /\ peek L2 u = Some (it, e)
    /\ peek L2 id = Some (s, VArray (es ++ [e])).
Proof.
  intros Hp Hr Hnew Hlen.
  destruct (@peek_inv _ _ _ _ Hp) as [lv [p [Hu [Hi [Hs Hl]]]]].
  destruct (@l_value_append_ok L id lv s p es it e Hu Hl Hr Hnew) as [h [Happ Hl']].
  set (n := List.length es) in *.
  set (L1 := with_udata (with_heap L h) (udata L ++ [element_view p it n])).
  assert (Hh1 : holds L1 id (l_value lv)).
  { apply (@keeps_push (with_heap L h) _). exact (@holds_wrapper _ _ _ Hu). }
  assert (Hl1 : load (l_value lv) L1 = Returns (s, p, VArray (es ++ [e])) L1).
  { apply (@load_with_udata (l_value lv) (with_heap L h)). exact Hl'. }
  assert (He : nth_error (es ++ [e]) n = Some e).
  { unfold n. rewrite nth_error_app2, Nat.sub_diag by lia. reflexivity. }
  assert (Hn : LuaNumber.to_integer (LuaNumber.of_integer (Z.of_nat n + 1)) = Z.of_nat n + 1).
  { apply to_integer_of_integer. lia. }
  set (L2 := with_udata L1 (udata L1 ++ [element_view p it n])).
  exists (List.length (udata L)), L1, (List.length (udata L1)), L2.
  split; [exact Happ|]. split; [|split; [|split; [|split]]].
  - apply (@l_value_size_ok L1 id (l_value lv) s p (VArray (es ++ [e]))); try assumption.
    + left. apply (@resolve_array_type _ _ _ Hr).
    + cbn [Generic.get_size]. rewrite length_app. cbn [List.length]. fold n.
      rewrite Nat2Z.inj_add. reflexivity.
  - exact (@l_value_get_array_ok L1 id (l_value lv) s p (es ++ [e]) it n e _ []
             Hh1 Hl1 Hr He Hn).
  - exists (child_value p (it, n)). split.
    + apply (@keeps_push L1 _). exists false. unfold L1. cbn [udata with_udata with_heap].
      rewrite nth_error_app2, Nat.sub_diag by lia. reflexivity.
    + exists false. unfold L2. cbn [udata with_udata].
      rewrite nth_error_app2, Nat.sub_diag by lia. reflexivity.
  - apply (@peek_pushed L1 (child_value p (it, n)) false it (fst p, snd p ++ [n]) e).
    apply (@load_child (l_value lv) L1 s p (VArray (es ++ [e])) it n e Hl1).
    cbn [get_at]. rewrite He. reflexivity.
  - apply (@peek_holds L2 id (l_value lv) s p).
    + apply (@keeps_push L1 _). exact Hh1.
    + apply (@load_with_udata (l_value lv) L1). exact Hl1.
Qed.

Lemma append_then_get_witness :
  exists v L1 u L2,
    l_value_append [LUserdata 0] array_state = Returns [LUserdata v] L1
    /\ l_value_size [LUserdata 0] L1 = Returns [num 3] L1
    /\ l_value_get [LUserdata 0; num 3] L1 = Returns [LUserdata u] L2
    /\ peek L2 u = Some (SInt, VInt 0).
Proof.
  destruct (@append_then_get array_state 0 (SArray SInt) SInt [VInt 7; VInt 8] (VInt 0)
              ltac:(vm_compute; reflexivity) eq_refl eq_refl
              ltac:(vm_compute; reflexivity))
    as [v [L1 [u [L2 [H1 [H2 [H3 [_ [H5 _]]]]]]]]].
  exists v, L1, u, L2. repeat split; assumption.
Defined.

(** An entry of a map is reached by its position, counted from 1, which
    returns the element and the key, and by a string that does not
    begin like a numeral and is the key up to its first NUL, which
    returns the element and the position counted from 0.  A position
    below 1 or beyond the size returns nil and "Index out of bounds",
    and a string that is a numeral is taken as its number, a position,
    not as a key. *)
Theorem map_get_by_position_and_key (L : lua_State) (id : nat) (s vs : schema)
  (kvs : list (string * value)) :
  peek L id = Some (s, VMap kvs) ->
  resolve (named L) s = SMap vs ->
  (forall k key e,
      nth_error kvs k = Some (key, e) ->
      Z.of_nat k + 1 < 2 ^ 53 ->
      exists u L1,
        l_value_get [LUserdata id; lua_pushinteger (Z.of_nat k + 1)] L
        = Returns [LUserdata u; LStr key] L1
        /\ nth_error (udata L1) u = child_view L id vs k
        /\ peek L1 u = Some (vs, e))
  /\ (forall ks k,
         LuaNumber.of_string ks = Some None ->
         map_index (c_str ks) kvs = Some k ->
         exists e u L1,
           nth_error kvs k = Some (c_str ks, e)
           /\ l_value_get [LUserdata id; LStr ks] L
              = Returns [LUserdata u; lua_pushinteger (Z.of_nat k)] L1
           /\ nth_error (udata L1) u = child_view L id vs k
           /\ peek L1 u = Some (vs, e))
  /\ (forall n,
         LuaNumber.to_integer n < 1
         \/ Z.of_nat (List.length kvs) < LuaNumber.to_integer n ->
         l_value_get [LUserdata id; LNum n] L
         = Returns [LNil; LStr "Index out of bounds"] L)
  /\ (forall t n,
         LuaNumber.of_string t = Some (Some n) ->
         l_value_get [LUserdata id; LStr t] L = l_value_get [LUserdata id; LNum n] L).
Proof.
  intros Hp Hr.
  destruct (@peek_inv _ _ _ _ Hp) as [lv [p [Hu [Hi [Hs Hl]]]]].
  pose proof (@holds_wrapper _ _ _ Hu) as Hh.
  assert (Hview : forall k,
             nth_error (udata (with_udata L (udata L ++ [element_view p vs k])))
               (List.length (udata L)) = child_view L id vs k).
  { intros k. cbn [udata with_udata]. rewrite nth_error_app2, Nat.sub_diag by lia.
    unfold child_view. rewrite Hu, Hs. reflexivity. }
  assert (Hpeek : forall k key e, nth_error kvs k = Some (key, e) ->
             peek (with_udata L (udata L ++ [element_view p vs k]))
               (List.length (udata L)) = Some (vs, e)).
  { intros k key e He.
    apply (@peek_pushed L (child_value p (vs, k)) false vs (fst p, snd p ++ [k]) e).
    apply (@load_child (l_value lv) L s p (VMap kvs) vs k e Hl).
    cbn [get_at]. rewrite He. reflexivity. }
  split; [|split; [|split]].
  - intros k key e He Hk.
    eexists. eexists. split; [|split; [exact (Hview k) | exact (Hpeek k key e He)]].
    apply (@l_value_get_map_position_ok L id (l_value lv) s p kvs vs Hh Hl Hr k key e);
      [exact He|].
    apply to_integer_of_integer. lia.
  - intros ks k Hnum Hidx.
    destruct (@map_index_nth_error (c_str ks) kvs k Hidx) as [e He].
    exists e. eexists. eexists.
    split; [exact He|]. split; [|split; [exact (Hview k) | exact (Hpeek k _ e He)]].
    exact (@l_value_get_map_key_ok L id (l_value lv) s p kvs vs Hh Hl Hr k ks Hnum Hidx).
  - intros n Hn.
    exact (@l_value_get_map_out_of_bounds L id (l_value lv) s p kvs vs Hh Hl Hr n Hn).
  - intros t n Ht.
    unfold l_value_get.
    do 2 step (@lua_avro_get_value_ok [LUserdata id; LStr t] 1 id L lv eq_refl Hu).
    do 2 step (@avro_value_get_type_ok _ L _ Hi).
    rewrite (@resolve_map_type _ _ _ Hr).
    cbn [lua_gettop List.length Z.of_nat Pos.of_succ_nat Pos.succ Z.ltb Z.compare
           Pos.compare Pos.compare_cont lua_arg Nat.sub nth].
    unfold lua_isnumber, lua_tointeger. cbn [lua_tonumber]. rewrite Ht. reflexivity.
Qed.

Lemma map_get_by_position_and_key_witness :
  (exists u L1,
      l_value_get [LUserdata 0; num 2] map_state = Returns [LUserdata u; LStr "b"] L1
      /\ peek L1 u = Some (SInt, VInt 2))
  /\ (exists u L1,
         l_value_get [LUserdata 0; LStr "b"] map_state = Returns [LUserdata u; num 1] L1
         /\ peek L1 u = Some (SInt, VInt 2))
  /\ l_value_get [LUserdata 0; LStr "2"] map_state
     = l_value_get [LUserdata 0; num 2] map_state.
Proof.
  destruct (@map_get_by_position_and_key map_state 0 (SMap SInt) SInt
              [("a", VInt 1); ("b", VInt 2)]
              ltac:(vm_compute; reflexivity) eq_refl)
    as [Hpos [Hkey [_ Hnum]]].
  split; [|split].
  - destruct (Hpos 1%nat "b" (VInt 2) eq_refl ltac:(vm_compute; reflexivity))
      as [u [L1 [H1 [_ H2]]]].
    exists u, L1. split; assumption.
  - destruct (Hkey "b" 1%nat ltac:(vm_compute; reflexivity) eq_refl)
      as [e [u [L1 [He [H1 [_ H2]]]]]].
    exists u, L1. split; [exact H1|].
    vm_compute in He. injection He as <-. exact H2.
  - exact (Hnum "2" (LuaNumber.of_integer 2) ltac:(vm_compute; reflexivity)).
Defined.

(** [add] takes its key up to the first NUL.  With a key that does not
    begin like a numeral and that the map does not hold, it puts a
    fresh element last and returns a view of it, as [set] with the key
    does; the size is one more, and [get] with the same string returns
    that element. *)
Theorem add_then_get (L : lua_State) (id : nat) (s vs : schema)
  (kvs : list (string * value)) (key : string) (e : value) :
  peek L id = Some (s, VMap kvs) ->
  resolve (named L) s = SMap vs ->
  avro_generic_value_new (named L) vs = Ok e ->
  map_index (c_str key) kvs = None ->
  LuaNumber.of_string key = Some None ->
  Z.of_nat (List.length kvs) + 1 < 2 ^ 53 ->
  exists v L1 u L2,
    l_value_add [LUserdata id; LStr key] L = Returns [LUserdata v] L1
    /\ l_value_set [LUserdata id; LStr key] L = Returns [LUserdata v] L1
    /\ peek L1 id = Some (s, VMap (kvs ++ [(c_str key, e)]))
    /\ l_value_size [LUserdata id] L1
       = Returns [lua_pushinteger (Z.of_nat (List.length kvs) + 1)] L1
    /\ l_value_get [LUserdata id; LStr key] L1
       = Returns [LUserdata u; lua_pushinteger (Z.of_nat (List.length kvs))] L2
    /\ (exists h, holds L2 v h /\ holds L2 u h)
    /\ peek L2 u = Some (vs, e).
Proof.
  intros Hp Hr Hnew Hidx Hnum Hlen.
  destruct (@peek_inv _ _ _ _ Hp) as [lv [p [Hu [Hi [Hs Hl]]]]].
  destruct (@l_value_add_ok L id lv s p kvs vs e key Hu Hl Hr Hnew Hidx)
    as [h [Hadd [Hset Hl']]].
  set (n := List.length kvs) in *.
  set (L1 := with_udata (with_heap L h) (udata L ++ [element_view p vs n])) in *.
  assert (Hh1 : holds L1 id (l_value lv)).
  { apply (@keeps_push (with_heap L h) _). exact (@holds_wrapper _ _ _ Hu). }
  assert (Hl1 : load (l_value lv) L1 = Returns (s, p, VMap (kvs ++ [(c_str key, e)])) L1).
  { apply (@load_with_udata (l_value lv) (with_heap L h)). exact Hl'. }
  assert (He : nth_error (kvs ++ [(c_str key, e)]) n = Some (c_str key, e)).
  { unfold n. rewrite nth_error_app2, Nat.sub_diag by lia. reflexivity. }
  set (L2 := with_udata L1 (udata L1 ++ [element_view p vs n])).
  exists (List.length (udata L)), L1, (List.length (udata L1)), L2.
  split; [exact Hadd|]. split; [rewrite Hset; exact Hadd|].
  split; [exact (@peek_holds _ _ _ _ _ _ Hh1 Hl1)|].
  split; [|split; [|split]].
  - apply (@l_value_size_ok L1 id (l_value lv) s p (VMap (kvs ++ [(c_str key, e)]))); try assumption.
    + right. apply (@resolve_map_type _ _ _ Hr).
    + cbn [Generic.get_size]. rewrite length_app. cbn [List.length]. fold n.
      rewrite Nat2Z.inj_add. reflexivity.
  - apply (@l_value_get_map_key_ok L1 id (l_value lv) s p (kvs ++ [(c_str key, e)]) vs Hh1 Hl1 Hr
             n key Hnum).
    exact (@map_index_app_fresh (c_str key) e kvs Hidx).
  - exists (child_value p (vs, n)). split.
    + apply (@keeps_push L1 _). exists false. unfold L1. cbn [udata with_udata with_heap].
      rewrite nth_error_app2, Nat.sub_diag by lia. reflexivity.
    + exists false. unfold L2. cbn [udata with_udata].
      rewrite nth_error_app2, Nat.sub_diag by lia. reflexivity.
  - apply (@peek_pushed L1 (child_value p (vs, n)) false vs (fst p, snd p ++ [n]) e).
    apply (@load_child (l_value lv) L1 s p (VMap (kvs ++ [(c_str key, e)])) vs n e Hl1).
    cbn [get_at]. rewrite He. reflexivity.
Qed.

Lemma add_then_get_witness :
  exists v L1 u L2,
    l_value_add [LUserdata 0; LStr "c"] map_state = Returns [LUserdata v] L1
    /\ l_value_size [LUserdata 0] L1 = Returns [num 3] L1
    /\ l_value_get [LUserdata 0; LStr "c"] L1 = Returns [LUserdata u; num 2] L2
    /\ peek L2 u = Some (SInt, VInt 0).
Proof.
  destruct (@add_then_get map_state 0 (SMap SInt) SInt [("a", VInt 1); ("b", VInt 2)]
              "c" (VInt 0)
              ltac:(vm_compute; reflexivity) eq_refl eq_refl eq_refl
              ltac:(vm_compute; reflexivity) ltac:(vm_compute; reflexivity))
    as [v [L1 [u [L2 [H1 [_ [_ [H4 [H5 [_ H7]]]]]]]]]].
  exists v, L1, u, L2. repeat split; assumption.
Defined.

(** ** Records and unions *)

(** A field of a record is reached by its position, counted from 1, and
    by a string that does not begin like a numeral and is the field's
    name up to its first NUL: both return a view of the same field,
    which does not own it.  A string that is a numeral is taken as its
    number, a position, not as a name. *)
Theorem record_get_by_position_and_name (L : lua_State) (id : nat) (s : schema)
  (nm : string) (fs : list field) (vs : list value) :
  peek L id = Some (s, VRecord vs) ->
  resolve (named L) s = SRecord nm fs ->
  (forall k f e,
      nth_error fs k = Some f ->
      nth_error vs k = Some e ->
      Z.of_nat k + 1 < 2 ^ 53 ->
      exists u L1,
        l_value_get [LUserdata id; lua_pushinteger (Z.of_nat k + 1)] L
        = Returns [LUserdata u] L1
        /\ nth_error (udata L1) u = child_view L id (ftype f) k
        /\ peek L1 u = Some (ftype f, e)
        /\ peek L1 id = Some (s, VRecord vs)
        /\ forall ks,
             LuaNumber.of_string ks = Some None ->
             find_field (c_str ks) fs = Some (k, f) ->
             l_value_get [LUserdata id; LStr ks] L = Returns [LUserdata u] L1)
  /\ (forall ks k f e,
         LuaNumber.of_string ks = Some None ->
         find_field (c_str ks) fs = Some (k, f) ->
         nth_error vs k = Some e ->
         exists u L1,
           l_value_get [LUserdata id; LStr ks] L = Returns [LUserdata u] L1
           /\ nth_error (udata L1) u = child_view L id (ftype f) k
           /\ peek L1 u = Some (ftype f, e)
           /\ peek L1 id = Some (s, VRecord vs))
  /\ (forall t n,
         LuaNumber.of_string t = Some (Some n) ->
         l_value_get [LUserdata id; LStr t] L = l_value_get [LUserdata id; LNum n] L).
Proof.
  intros Hp Hr.
  destruct (@peek_inv _ _ _ _ Hp) as [lv [p [Hu [Hi [Hs Hl]]]]].
  pose proof (@holds_wrapper _ _ _ Hu) as Hh.
  assert (Hview : forall (f : field) k,
             nth_error (udata (with_udata L (udata L ++ [element_view p (ftype f) k])))
               (List.length (udata L)) = child_view L id (ftype f) k).
  { intros f k. cbn [udata with_udata]. rewrite nth_error_app2, Nat.sub_diag by lia.
    unfold child_view. rewrite Hu, Hs. reflexivity. }
  assert (Hpeek : forall (f : field) k e, nth_error vs k = Some e ->
             peek (with_udata L (udata L ++ [element_view p (ftype f) k]))
               (List.length (udata L)) = Some (ftype f, e)).
  { intros f k e He.
    apply (@peek_pushed L (child_value p (ftype f, k)) false (ftype f)
             (fst p, snd p ++ [k]) e).
    apply (@load_child (l_value lv) L s p (VRecord vs) (ftype f) k e Hl).
    cbn [get_at]. rewrite He. reflexivity. }
  assert (Hname : forall ks k f,
             LuaNumber.of_string ks = Some None ->
             find_field (c_str ks) fs = Some (k, f) ->
             l_value_get [LUserdata id; LStr ks] L
             = Returns [LUserdata (List.length (udata L))]
                 (with_udata L (udata L ++ [element_view p (ftype f) k]))).
  { intros ks k f Hnum Hfind.
    exact (@l_value_get_record_name_ok L id (l_value lv) s p nm fs vs k f ks
             Hh Hl Hr Hfind Hnum). }
  split; [|split].
  - intros k f e Hf He Hk.
    assert (Hkl : (k < List.length fs)%nat)
      by (apply nth_error_Some; rewrite Hf; discriminate).
    exists (List.length (udata L)).
    exists (with_udata L (udata L ++ [element_view p (ftype f) k])).
    split; [|split; [exact (Hview f k)|split; [exact (Hpeek f k e He)|split]]].
    + unfold l_value_get.
      step (@lua_avro_get_value_ok [LUserdata id; lua_pushinteger (Z.of_nat k + 1)]
              1 id L lv eq_refl Hu).
      step (@avro_value_get_type_ok _ L _ Hi).
      rewrite (@resolve_record_type _ _ _ _ Hr).
      cbn [lua_gettop List.length Z.of_nat Pos.of_succ_nat Pos.succ Z.ltb Z.compare
             Pos.compare Pos.compare_cont lua_arg Nat.sub nth].
      unfold lua_isnumber, lua_tointeger, lua_pushinteger. cbn [lua_tonumber]. lua_simpl.
      rewrite to_integer_of_integer by lia.
      replace (Z.of_nat k + 1 - 1) with (Z.of_nat k) by lia.
      rewrite to_size_t_small
        by (unfold CInt.INT64_MAX; change (2 ^ 63) with (1024 * 2 ^ 53); lia).
      assert (Hget : avro_value_get_by_index (l_value lv) (Z.of_nat k) L
                     = Returns (Ok (child_value p (ftype f, k), None)) L).
      { unfold avro_value_get_by_index. step Hl. unfold bind, get_state. cbn [ret].
        unfold Generic.get_by_index. rewrite Hr. unfold Generic.nth_Z. unfold field in *.
        destruct (Z.leb_spec 0 (Z.of_nat k)); [|lia].
        destruct (Z.ltb_spec (Z.of_nat k) (Z.of_nat (List.length fs))); [|lia].
        cbn [andb]. rewrite Nat2Z.id, Hf. reflexivity. }
      step (@check_Ok _ _ _ _ _ Hget). cbn [child_value self].
      step (lua_avro_push_value_ok (child_value p (ftype f, k)) false L).
      reflexivity.
    + apply peek_kept. exact Hp.
    + intros ks Hnum Hfind. exact (Hname ks k f Hnum Hfind).
  - intros ks k f e Hnum Hfind He.
    exists (List.length (udata L)).
    exists (with_udata L (udata L ++ [element_view p (ftype f) k])).
    split; [exact (Hname ks k f Hnum Hfind)|].
    split; [exact (Hview f k)|]. split; [exact (Hpeek f k e He)|].
    apply peek_kept. exact Hp.
  - intros t n Ht.
    unfold l_value_get.
    do 2 step (@lua_avro_get_value_ok [LUserdata id; LStr t] 1 id L lv eq_refl Hu).
    do 2 step (@avro_value_get_type_ok _ L _ Hi).
    rewrite (@resolve_record_type _ _ _ _ Hr).
    cbn [lua_gettop List.length Z.of_nat Pos.of_succ_nat Pos.succ Z.ltb Z.compare
           Pos.compare Pos.compare_cont lua_arg Nat.sub nth].
    unfold lua_isnumber, lua_tointeger. cbn [lua_tonumber]. rewrite Ht. reflexivity.
Qed.

Lemma record_get_by_position_and_name_witness :
  exists u L1,
    l_value_get [LUserdata 0; num 2] record_state = Returns [LUserdata u] L1
    /\ l_value_get [LUserdata 0; LStr "tag"] record_state = Returns [LUserdata u] L1
    /\ peek L1 u = Some (SUnion [SNull; SString], VUnion 1 (VString "a")).
Proof.
  destruct (@record_get_by_position_and_name record_state 0 record_schema "point"
              [("x", SInt, None); ("tag", SUnion [SNull; SString], None)]
              [VInt 7; VUnion 1 (VString "a")]
              ltac:(vm_compute; reflexivity) eq_refl)
    as [Hpos _].
  destruct (Hpos 1%nat ("tag", SUnion [SNull; SString], None) (VUnion 1 (VString "a"))
              eq_refl eq_refl ltac:(vm_compute; reflexivity))
    as [u [L1 [H1 [_ [H3 [_ H5]]]]]].
  exists u, L1. split; [exact H1|]. split; [|exact H3].
  exact (H5 "tag" ltac:(vm_compute; reflexivity) eq_refl).
Defined.

(** [get] on a union with no argument, or with nil, returns a view of
    the active branch and changes nothing.  With any other argument it
    does what [set] does: an argument that selects another branch leaves
    the union on that branch, in the branch's fresh state. *)
Theorem union_get_reads_or_selects (L : lua_State) (id : nat) (s : schema)
  (brs : list schema) (d : nat) (b : value) (br : schema) :
  peek L id = Some (s, VUnion d b) ->
  resolve (named L) s = SUnion brs ->
  nth_error brs d = Some br ->
  (exists u L1,
      l_value_get [LUserdata id] L = Returns [LUserdata u] L1
      /\ l_value_get [LUserdata id; LNil] L = Returns [LUserdata u] L1
      /\ nth_error (udata L1) u = child_view L id br d
      /\ peek L1 u = Some (br, b)
      /\ peek L1 id = Some (s, VUnion d b))
  /\ (forall key, key <> LNil ->
                  l_value_get [LUserdata id; key] L = l_value_set [LUserdata id; key] L)
  /\ (forall key d' br' e,
         nth_error brs d' = Some br' ->
         d' <> d ->
         selects_branch brs key d' ->
         avro_generic_value_new (named L) br' = Ok e ->
         exists u L1,
           l_value_get [LUserdata id; key] L = Returns [LUserdata u] L1
           /\ peek L1 id = Some (s, VUnion d' e)).
Proof.
  intros Hp Hr Hn.
  destruct (@peek_inv _ _ _ _ Hp) as [lv [p [Hu [Hi [Hs Hl]]]]].
  assert (Hty : avro_typeof (resolve (named L) s) = AVRO_UNION) by (rewrite Hr; reflexivity).
  assert (Hcur : avro_value_get_current_branch (l_value lv) L
                 = Returns (Ok (child_value p (br, d))) L).
  { unfold avro_value_get_current_branch. step Hl. unfold bind, get_state. cbn [ret].
    unfold Generic.get_current_branch. rewrite Hr, Hn. reflexivity. }
  split; [|split].
  - exists (List.length (udata L)).
    exists (with_udata L (udata L ++ [element_view p br d])).
    split; [|split; [|split; [|split]]].
    + unfold l_value_get.
      step (@lua_avro_get_value_ok [LUserdata id] 1 id L lv eq_refl Hu).
      step (@avro_value_get_type_ok _ L _ Hi). rewrite Hty.
      cbn [lua_gettop List.length Z.of_nat Pos.of_succ_nat Z.ltb Z.compare
             Pos.compare Pos.compare_cont orb].
      step (@check_Ok _ _ _ _ _ Hcur).
      step (lua_avro_push_value_ok (child_value p (br, d)) false L).
      reflexivity.
    + unfold l_value_get.
      step (@lua_avro_get_value_ok [LUserdata id; LNil] 1 id L lv eq_refl Hu).
      step (@avro_value_get_type_ok _ L _ Hi). rewrite Hty.
      cbn [lua_gettop List.length Z.of_nat Pos.of_succ_nat Pos.succ Z.ltb Z.compare
             Pos.compare Pos.compare_cont lua_arg Nat.sub nth lua_isnil orb].
      step (@check_Ok _ _ _ _ _ Hcur).
      step (lua_avro_push_value_ok (child_value p (br, d)) false L).
      reflexivity.
    + cbn [udata with_udata]. rewrite nth_error_app2, Nat.sub_diag by lia.
      unfold child_view. rewrite Hu, Hs. reflexivity.
    + apply (@peek_pushed L (child_value p (br, d)) false br (fst p, snd p ++ [d]) b).
      apply (@load_child (l_value lv) L s p (VUnion d b) br d b Hl).
      cbn [get_at]. rewrite Nat.eqb_refl. reflexivity.
    + apply peek_kept. exact Hp.
  - intros key Hkey.
    unfold l_value_get, l_value_set.
    do 2 step (@lua_avro_get_value_ok [LUserdata id; key] 1 id L lv eq_refl Hu).
    do 2 step (@avro_value_get_type_ok _ L _ Hi). rewrite Hty.
    cbn [lua_gettop List.length Z.of_nat Pos.of_succ_nat Pos.succ Z.ltb Z.compare
           Pos.compare Pos.compare_cont lua_arg Nat.sub nth orb].
    destruct key; try reflexivity. exfalso; apply Hkey; reflexivity.
  - intros key d' br' e Hn' _ Hsel Hnew.
    destruct (@select_union_branch_ok L (l_value lv) s p (VUnion d b) brs key d' br' e
                Hl Hr Hn' Hnew Hsel) as [h [Hsel' Hl']].
    eexists. eexists. split.
    + unfold l_value_get.
      step (@lua_avro_get_value_ok [LUserdata id; key] 1 id L lv eq_refl Hu).
      step (@avro_value_get_type_ok _ L _ Hi). rewrite Hty.
      cbn [lua_gettop List.length Z.of_nat Pos.of_succ_nat Pos.succ Z.ltb Z.compare
             Pos.compare Pos.compare_cont lua_arg Nat.sub nth orb].
      assert (Hnil : lua_isnil key = false).
      { destruct key; try reflexivity. cbn [selects_branch] in Hsel. contradiction. }
      rewrite Hnil. exact Hsel'.
    + apply (@peek_kept (with_heap L h)).
      exact (@peek_with_heap L h id lv s p (VUnion d' e) Hu Hl').
Qed.

Lemma union_get_reads_or_selects_witness :
  (exists u L1,
      l_value_get [LUserdata 0] union_string_state = Returns [LUserdata u] L1
      /\ peek L1 u = Some (SString, VString "x"))
  /\ (exists u L1,
         l_value_get [LUserdata 0; LStr "int"] union_string_state
         = Returns [LUserdata u] L1
         /\ peek L1 0 = Some (int_or_string, VUnion 0 (VInt 0))).
Proof.
  destruct (@union_get_reads_or_selects union_string_state 0 int_or_string
              [SInt; SString] 1 (VString "x") SString
              ltac:(vm_compute; reflexivity) eq_refl eq_refl)
    as [[u [L1 [H1 [_ [_ [H4 _]]]]]] [_ H]].
  split; [exists u, L1; split; assumption|].
  apply (H (LStr "int") 0%nat SInt (VInt 0)).
  - reflexivity.
  - lia.
  - split; [vm_compute; reflexivity | exists SInt; reflexivity].
  - reflexivity.
Defined.



(** ** Ownership *)

(** [release] on a wrapper that does not own its value, as every view
    that [get], [append], [add] and the iterators return, leaves the
    heap as it was; on an owner it takes one reference off the cell of
    its value and touches no other cell.  Either way the wrapper is
    cleared and the other wrappers are as they were. *)
Theorem release_drops_one_reference (L : lua_State) (id : nat) (lv : LuaAvroValue) :
  nth_error (udata L) id = Some (UdValue lv) ->
  (should_decref lv = false ->
   exists L1,
     l_value_release [LUserdata id] L = Returns [] L1
     /\ heap L1 = heap L
     /\ nth_error (udata L1) id = Some (UdValue released)
     /\ forall j, j <> id -> nth_error (udata L1) j = nth_error (udata L) j)
  /\ (forall s c q n x,
         should_decref lv = true ->
         l_value lv = {| iface := Some s; self := Some (c, q) |} ->
         nth_error (heap L) c = Some {| refcount := S n; content := x |} ->
         exists L1,
           l_value_release [LUserdata id] L = Returns [] L1
           /\ nth_error (heap L1) c = Some {| refcount := n; content := x |}
           /\ (forall j, j <> c -> nth_error (heap L1) j = nth_error (heap L) j)
           /\ nth_error (udata L1) id = Some (UdValue released)
           /\ forall j, j <> id -> nth_error (udata L1) j = nth_error (udata L) j).
Proof.
  intros Hu. split.
  - intros Hd.
    destruct (@set_udata_ok L id (UdValue lv) (UdValue released) Hu)
      as [us [Hset [Hn Hother]]].
    exists (with_udata L us). split; [|split; [reflexivity|split; assumption]].
    unfold l_value_release.
    step (@checkudata_value_ok [LUserdata id] 1 id L lv eq_refl Hu).
    rewrite Hd. cbn [andb]. lua_simpl.
    unfold released in Hset. step Hset. reflexivity.
  - intros s c q n x Hd Hv Hc.
    destruct (@update_nth_Some _ (heap L) c
                (fun cl => match refcount cl with
                           | O => None
                           | S n => Some {| refcount := n; content := content cl |}
                           end)
                _ {| refcount := n; content := x |} Hc eq_refl)
      as [h [Hup [Hn [_ Hother]]]].
    assert (Hu' : nth_error (udata (with_heap L h)) id = Some (UdValue lv)) by exact Hu.
    destruct (@set_udata_ok (with_heap L h) id (UdValue lv) (UdValue released) Hu')
      as [us [Hset [Hnu Hou]]].
    exists (with_udata (with_heap L h) us).
    split; [|split; [exact Hn|split; [exact Hother|split; [exact Hnu|exact Hou]]]].
    unfold l_value_release.
    step (@checkudata_value_ok [LUserdata id] 1 id L lv eq_refl Hu).
    rewrite Hd, Hv. cbn [andb self].
    assert (Hdec : avro_value_decref {| iface := Some s; self := Some (c, q) |} L
                   = Returns tt (with_heap L h)).
    { unfold avro_value_decref. cbn [iface self]. rewrite Hup. reflexivity. }
    step Hdec.
    unfold released in Hset. step Hset. reflexivity.
Qed.

Lemma release_drops_one_reference_witness :
  exists L1,
    l_value_release [LUserdata 1] view_state = Returns [] L1
    /\ heap L1 = heap view_state.
Proof.
  destruct (@release_drops_one_reference view_state 1 _ eq_refl) as [H _].
  destruct (H eq_refl) as [L1 [H1 [H2 _]]].
  exists L1. split; assumption.
Defined.

(** A view does not keep its value alive: once the owner has released
    the last reference, the view is still a wrapper of the freed value,
    and [encode] and [encoded_size] through it are undefined behaviour,
    as is [type] on the cleared owner. *)
Theorem view_dangles_after_release (L : lua_State) (id u c : nat) (s : schema)
  (x : value) (hv : avro_value_t) (sv : schema) (q : list nat) :
  nth_error (udata L) id = Some (owner s c) ->
  nth_error (heap L) c = Some (live x) ->
  holds L u hv ->
  hv = {| iface := Some sv; self := Some (c, q) |} ->
  u <> id ->
  exists L1,
    l_value_release [LUserdata id] L = Returns [] L1
    /\ holds L1 u hv
    /\ l_value_encoded_size [LUserdata u] L1 = Crashes
    /\ l_value_encode [LUserdata u] L1 = Crashes
    /\ l_value_type [LUserdata id] L1 = Crashes.
Proof.
  intros Hu Hc [b Hh] Hv Hne.
  destruct (@release_drops_one_reference L id _ Hu) as [_ H].
  destruct (H s c [] O x eq_refl eq_refl Hc) as [L1 [Hrel [Hcell [_ [Hid Hother]]]]].
  exists L1. split; [exact Hrel|].
  assert (Hh1 : nth_error (udata L1) u
                = Some (UdValue {| l_value := hv; should_decref := b |})).
  { rewrite (Hother u Hne). exact Hh. }
  assert (Hload : load hv L1 = Crashes).
  { unfold load. rewrite Hv. cbn [iface self]. rewrite Hcell. reflexivity. }
  split; [exists b; exact Hh1|]. split; [|split].
  - unfold l_value_encoded_size.
    step (@lua_avro_get_value_ok [LUserdata u] 1 u L1 _ eq_refl Hh1). cbn [l_value].
    apply bind_Crashes. unfold check. apply bind_Crashes.
    unfold avro_value_sizeof, get_with. apply bind_Crashes. exact Hload.
  - unfold l_value_encode.
    step (@lua_avro_get_value_ok [LUserdata u] 1 u L1 _ eq_refl Hh1). cbn [l_value].
    apply bind_Crashes. unfold check. apply bind_Crashes.
    unfold avro_value_sizeof, get_with. apply bind_Crashes. exact Hload.
  - unfold l_value_type.
    step (@lua_avro_get_value_ok [LUserdata id] 1 id L1 _ eq_refl Hid).
    apply bind_Crashes. unfold avro_value_get_type. apply bind_Crashes.
    reflexivity.
Qed.

Lemma view_dangles_after_release_witness :
  exists L1,
    l_value_release [LUserdata 0] view_state = Returns [] L1
    /\ l_value_encode [LUserdata 1] L1 = Crashes.
Proof.
  destruct (@view_dangles_after_release view_state 0 1 0 (SArray SInt)
              (VArray [VInt 7; VInt 8])
              {| iface := Some SInt; self := Some (0%nat, [1%nat]) |} SInt [1%nat]
              eq_refl eq_refl ltac:(exists false; reflexivity) eq_refl
              ltac:(discriminate))
    as [L1 [H1 [_ [_ [H4 _]]]]].
  exists L1. split; assumption.
Defined.

(** ** Filling, iterating, encoding, resetting *)

(** [set_from_ast] on an array of ints with a table of integers that
    fit 32 bits drops what the array held and leaves it holding those
    integers, in the order of the table. *)
Theorem set_from_ast_fills_int_array (L : lua_State) (id : nat) (s it : schema)
  (es : list value) (zs : list Z) :
  peek L id = Some (s, VArray es) ->
  resolve (named L) s = SArray it ->
  resolve (named L) it = SInt ->
  Forall (fun z => CInt.in_int32 z = true) zs ->
  exists L1,
    l_value_set_from_ast [LUserdata id; LTable (map lua_pushinteger zs) []] L
    = Returns [] L1
    /\ peek L1 id = Some (s, VArray (map VInt zs)).
Proof.
  intros Hp Hr Hit Hzs.
  destruct (@peek_inv _ _ _ _ Hp) as [lv [p [Hu [Hi [Hs Hl]]]]].
  pose proof (@holds_wrapper _ _ _ Hu) as Hh.
  destruct (@set_with_ok (l_value lv) L s p (VArray es) (VArray [])
              (fun _ _ x => Generic.reset x) Hl eq_refl) as [h [Hreset [Hl0 _]]].
  destruct (@fill_int_array id (l_value lv) s p it 198 (map LuaNumber.of_integer zs)
              (with_heap L h) [] (@keeps_with_heap L h _ _ Hh) Hl0 Hr Hit)
    as [L1 [Hloop [Hl1 [Hk _]]]].
  exists L1. split.
  - unfold l_value_set_from_ast, LUAI_MAXCCALLS.
    rewrite (@set_from_ast_array 199 L id (l_value lv) s it _ [] Hh Hi Hr).
    unfold avro_value_reset. step (@check_Ok _ _ _ _ _ Hreset).
    replace (map lua_pushinteger zs) with (map LNum (map LuaNumber.of_integer zs))
      by (rewrite map_map; reflexivity).
    step Hloop. reflexivity.
  - apply (@peek_holds L1 id (l_value lv) s p).
    + apply Hk. apply keeps_with_heap. exact Hh.
    + rewrite Hl1. cbn [app]. rewrite (map_int_of_number Hzs). reflexivity.
Qed.

Lemma set_from_ast_fills_int_array_witness :
  exists L1,
    l_value_set_from_ast [LUserdata 0; LTable [num 1; num 2; num 3] []] array_state
    = Returns [] L1
    /\ peek L1 0 = Some (SArray SInt, VArray [VInt 1; VInt 2; VInt 3]).
Proof.
  apply (@set_from_ast_fills_int_array array_state 0 (SArray SInt) SInt
           [VInt 7; VInt 8] [1; 2; 3]).
  - vm_compute; reflexivity.
  - reflexivity.
  - reflexivity.
  - repeat constructor.
Defined.

(** A loop over [iterate] on a map makes one turn for each entry, in
    the order of the entries; a turn yields the key and a wrapper of the
    value of its entry, and the map is as it was. *)
Theorem map_iteration_in_order (L : lua_State) (id : nat) (s vs : schema)
  (kvs : list (string * value)) :
  peek L id = Some (s, VMap kvs) ->
  resolve (named L) s = SMap vs ->
  exists itv L1 turns L2,
    l_value_iterate [LUserdata id] L
    = Returns [LCFunction iterate_map_fn; itv; LNil] L1
    /\ for_in (S (List.length kvs)) iterate_map_fn itv LNil L1 = Returns turns L2
    /\ visits_entries L2 vs turns kvs
    /\ peek L2 id = Some (s, VMap kvs).
Proof.
  intros Hp Hr.
  destruct (@peek_inv _ _ _ _ Hp) as [lv [p [Hu [Hi [Hs Hl]]]]].
  pose proof (@holds_wrapper _ _ _ Hu) as Hh.
  set (L1 := with_udata L
               (udata L ++ [UdIterator {| no_scalar := false; it_value := Some id;
                                          next_index := 0 |}])).
  assert (Hk1 : keeps L L1) by apply keeps_push.
  assert (Hit : iterating L1 (List.length (udata L)) id 0).
  { exists false. unfold L1. cbn [udata with_udata].
    rewrite nth_error_app2, Nat.sub_diag by lia. reflexivity. }
  assert (Hl1 : load (l_value lv) L1 = Returns (s, p, VMap kvs) L1).
  { apply (@load_with_udata (l_value lv) L). exact Hl. }
  destruct (@for_in_map_ok id (List.length (udata L)) (l_value lv) s p vs kvs
              (List.length kvs) L1 O LNil (S (List.length kvs)) eq_refl ltac:(lia)
              Hit (Hk1 _ _ Hh) Hl1 Hr)
    as [turns [L2 [Hrun [Hy [Hk2 Hheap]]]]].
  exists (LUserdata (List.length (udata L))), L1, turns, L2.
  split; [|split; [exact Hrun|split; [exact Hy|]]].
  - unfold l_value_iterate.
    step (@checkudata_value_ok [LUserdata id] 1 id L _ eq_refl Hu).
    step (@avro_value_get_type_ok _ L _ Hi).
    rewrite (@resolve_map_type _ _ _ Hr). reflexivity.
  - apply (@peek_holds L2 id (l_value lv) s p).
    + apply Hk2, Hk1, Hh.
    + exact (@load_same_heap (l_value lv) L1 L2 _ Hheap Hl1).
Qed.

Lemma map_iteration_in_order_witness :
  exists itv L1 turns L2,
    l_value_iterate [LUserdata 0] map_state
    = Returns [LCFunction iterate_map_fn; itv; LNil] L1
    /\ for_in 3 iterate_map_fn itv LNil L1 = Returns turns L2
    /\ visits_entries L2 SInt turns [("a", VInt 1); ("b", VInt 2)].
Proof.
  destruct (@map_iteration_in_order map_state 0 (SMap SInt) SInt
              [("a", VInt 1); ("b", VInt 2)] ltac:(vm_compute; reflexivity) eq_refl)
    as [itv [L1 [turns [L2 [H1 [H2 [H3 _]]]]]]].
  exists itv, L1, turns, L2. repeat split; assumption.
Defined.

(** Whatever [encode] returns, a string or nil and a message, it leaves
    every value, every wrapper and every named schema as it was: only
    the static buffer can differ. *)
Theorem encode_keeps_every_value (args : list lua_value) (L L1 : lua_State)
  (r : list lua_value) :
  l_value_encode args L = Returns r L1 ->
  heap L1 = heap L /\ udata L1 = udata L /\ named L1 = named L
  /\ ((exists buf, r = [LStr buf]) \/ (exists msg, r = [LNil; LStr msg])).
Proof.
  unfold l_value_encode.
  unfold bind at 1.
  destruct (lua_avro_get_value args 1 L) as [v L0| | |] eqn:Hv; try discriminate.
  destruct (@lua_avro_get_value_inv _ _ _ _ _ Hv) as [-> _].
  unfold bind at 1.
  destruct (check (avro_value_sizeof v) L) as [size L0| | |] eqn:Hsz; try discriminate.
  pose proof (@check_inv _ _ _ _ _ Hsz) as Hsz'.
  destruct (@get_with_inv _ _ _ _ _ _ Hsz') as [-> [s [p [x [Hl Hop]]]]].
  unfold bind at 1. unfold get_state at 1.
  destruct (size <=? STATIC_BUF_SIZE).
  - unfold avro_value_write.
    rewrite (@bind_Returns _ _ _ _ _ _ _
               (@get_with_ok _ _ L s p x
                  (fun _ _ x0 => Codec.avro_value_write (static_buf L) size x0) Hl)).
    destruct (Codec.avro_value_write (static_buf L) size x) as [buf|e].
    + unfold bind, set_static_buf, ret. intros H. injection H as <- <-.
      repeat split. left. eexists. reflexivity.
    + unfold lua_return_avro_error, ret. intros H. injection H as <- <-.
      repeat split. right. eexists. reflexivity.
  - destruct (size <=? malloc_limit L).
    + unfold avro_value_write.
      rewrite (@bind_Returns _ _ _ _ _ _ _
                 (@get_with_ok _ _ L s p x
                    (fun _ _ x0 => Codec.avro_value_write (malloc size) size x0) Hl)).
      destruct (Codec.avro_value_write (malloc size) size x) as [buf|e].
      * unfold ret. intros H. injection H as <- <-.
        repeat split. left. eexists. reflexivity.
      * unfold lua_return_avro_error, ret. intros H. injection H as <- <-.
        repeat split. right. eexists. reflexivity.
    + unfold ret. intros H. injection H as <- <-.
      repeat split. right. eexists. reflexivity.
Qed.

Lemma encode_keeps_every_value_witness :
  exists r L1,
    l_value_encode [LUserdata 0] array_state = Returns r L1
    /\ heap L1 = heap array_state.
Proof.
  eexists. eexists. split; [vm_compute; reflexivity|].
  apply (@encode_keeps_every_value [LUserdata 0] array_state _
           [LStr (string_of_bytes (Codec.encode (VArray [VInt 7; VInt 8])))]).
  vm_compute; reflexivity.
Defined.

(** [reset] empties an array: its size is 0, [get] at any position
    returns nil and "Index out of bounds", and a loop over [iterate]
    makes no turn. *)
Theorem reset_empties_array (L : lua_State) (id : nat) (s it : schema)
  (es : list value) :
  peek L id = Some (s, VArray es) ->
  resolve (named L) s = SArray it ->
  exists L1,
    l_value_reset [LUserdata id] L = Returns [] L1
    /\ peek L1 id = Some (s, VArray [])
    /\ l_value_size [LUserdata id] L1 = Returns [lua_pushinteger 0] L1
    /\ (forall n, l_value_get [LUserdata id; LNum n] L1
                  = Returns [LNil; LStr "Index out of bounds"] L1)
    /\ exists itv L2 L3,
         l_value_iterate [LUserdata id] L1
         = Returns [LCFunction iterate_array_fn; itv; LNil] L2
         /\ for_in 1 iterate_array_fn itv LNil L2 = Returns [] L3.
Proof.
  intros Hp Hr.
  destruct (@peek_inv _ _ _ _ Hp) as [lv [p [Hu [Hi [Hs Hl]]]]].
  pose proof (@holds_wrapper _ _ _ Hu) as Hh.
  destruct (@set_with_ok (l_value lv) L s p (VArray es) (VArray [])
              (fun _ _ x => Generic.reset x) Hl eq_refl) as [h [Hreset [Hl1 _]]].
  set (L1 := with_heap L h) in *.
  assert (Hh1 : holds L1 id (l_value lv)) by exact Hh.
  exists L1. split; [|split; [|split; [|split]]].
  - unfold l_value_reset.
    step (@lua_avro_get_value_ok [LUserdata id] 1 id L lv eq_refl Hu).
    unfold avro_value_reset. step (@check_Ok _ _ _ _ _ Hreset). reflexivity.
  - exact (@peek_holds _ _ _ _ _ _ Hh1 Hl1).
  - apply (@l_value_size_ok L1 id (l_value lv) s p (VArray [])); try assumption.
    + left. exact (@resolve_array_type _ _ _ Hr).
    + reflexivity.
  - intros n. pose proof (to_integer_range n) as Hrange.
    unfold l_value_get.
    step (@lua_avro_get_value_ok [LUserdata id; LNum n] 1 id L1 lv eq_refl Hu).
    step (@avro_value_get_type_ok _ L1 _ Hi).
    change (named L1) with (named L). rewrite (@resolve_array_type _ _ _ Hr).
    unfold luaL_checkinteger. cbn [lua_arg Nat.sub nth lua_tonumber]. lua_simpl.
    step (@check_Ok _ _ _ _ _
            (@get_with_ok _ _ _ _ _ _ (fun _ _ x => Generic.get_size x) Hl1)).
    cbn [Generic.get_size List.length Z.of_nat].
    assert (Hoob : out_of_bounds (LuaNumber.to_integer n) 0 = true).
    { unfold out_of_bounds. apply orb_true_iff.
      destruct (Z.ltb_spec (LuaNumber.to_integer n) 1) as [|H1]; [left; reflexivity|].
      right. apply Z.gtb_lt. rewrite to_size_t_small by lia. lia. }
    rewrite Hoob. reflexivity.
  - set (L2 := with_udata L1
                 (udata L1 ++ [UdIterator {| no_scalar := false; it_value := Some id;
                                             next_index := 0 |}])).
    exists (LUserdata (List.length (udata L1))), L2, L2.
    split.
    + exact (@l_value_iterate_ok id (l_value lv) s p it L1 [] Hh1 Hl1 Hr).
    + cbn [for_in call_cfunction].
      assert (Hend : iterate_array [LUserdata (List.length (udata L1)); LNil] L2
                     = Returns [] L2).
      { apply (@iterate_array_end id (List.length (udata L1)) (l_value lv) s p L2 []).
        - exists false. unfold L2. cbn [udata with_udata List.length Z.of_nat].
          rewrite nth_error_app2, Nat.sub_diag by lia. reflexivity.
        - apply (@keeps_push L1 _). exact Hh1.
        - apply (@load_with_udata (l_value lv) L1). exact Hl1. }
      step Hend. reflexivity.
Qed.

Lemma reset_empties_array_witness :
  exists L1,
    l_value_reset [LUserdata 0] array_state = Returns [] L1
    /\ l_value_size [LUserdata 0] L1 = Returns [num 0] L1.
Proof.
  destruct (@reset_empties_array array_state 0 (SArray SInt) SInt [VInt 7; VInt 8]
              ltac:(vm_compute; reflexivity) eq_refl)
    as [L1 [H1 [_ [H3 _]]]].
  exists L1. split; assumption.
Defined.

(** ** Populating a record *)

(** [set_from_ast] with a table of one entry, whose key is a string that
    does not begin like a numeral and is a field's name up to its first
    NUL, and whose value is an integer that fits 32 bits, sets that int
    field and leaves every other field of the record as it was. *)
Theorem set_from_ast_sets_named_field (L : lua_State) (id : nat) (s : schema)
  (nm : string) (fs : list field) (vs : list value) (k : nat) (f : field)
  (ks : string) (old z : Z) :
  peek L id = Some (s, VRecord vs) ->
  resolve (named L) s = SRecord nm fs ->
  find_field (c_str ks) fs = Some (k, f) ->
  LuaNumber.of_string ks = Some None ->
  resolve (named L) (ftype f) = SInt ->
  nth_error vs k = Some (VInt old) ->
  CInt.in_int32 z = true ->
  exists L1 vs',
    l_value_set_from_ast
      [LUserdata id; LTable [] [(LStr ks, lua_pushinteger z)]] L
    = Returns [] L1
    /\ peek L1 id = Some (s, VRecord vs')
    /\ nth_error vs' k = Some (VInt z)
    /\ List.length vs' = List.length vs
    /\ forall j, j <> k -> nth_error vs' j = nth_error vs j.
Proof.
  intros Hp Hr Hfind Hnum Hit He Hz.
  destruct (@peek_inv _ _ _ _ Hp) as [lv [p [Hu [Hi [Hs Hl]]]]].
  pose proof (@holds_wrapper _ _ _ Hu) as Hh.
  destruct (@update_nth_defined _ vs k (VInt old) (VInt z) He)
    as [vs' [Hup [Hn [Hlen Hother]]]].
  set (L2 := with_udata L (udata L ++ [element_view p (ftype f) k])).
  assert (Hget : lua_call (l_value_get [LUserdata id; LStr ks]) L
                 = Returns [LUserdata (List.length (udata L))] L2).
  { apply (@lua_call_Returns_udata _ _ L).
    apply (@l_value_get_record_name_ok (with_call_site L "") id (l_value lv) s p nm fs vs
             k f ks Hh (@load_same_heap _ L (with_call_site L "") _ eq_refl Hl)
             Hr Hfind Hnum). }
  assert (Hl2 : load (l_value lv) L2 = Returns (s, p, VRecord vs) L2).
  { apply (@load_with_udata (l_value lv) L). exact Hl. }
  assert (Hview : holds L2 (List.length (udata L)) (child_value p (ftype f, k))).
  { exists false. unfold L2. cbn [udata with_udata].
    rewrite nth_error_app2, Nat.sub_diag by lia. reflexivity. }
  destruct (@call_set_from_ast_int 198 L2 (List.length (udata L))
              (child_value p (ftype f, k)) s p (VRecord vs) (VRecord vs')
              (ftype f) [k] old (LuaNumber.of_integer z) (l_value lv)
              Hview eq_refl Hit Hl2)
    as [h2 [Hset Hl3]].
  { cbn [get_at]. rewrite He. reflexivity. }
  { cbn [set_at].
    rewrite (to_integer_of_integer (in_int32_small _ Hz)), (wrap_signed_small _ Hz).
    rewrite Hup. reflexivity. }
  exists (with_heap L2 h2), vs'.
  split; [|split; [|split; [exact Hn|split; [exact Hlen|exact Hother]]]].
  - unfold l_value_set_from_ast, LUAI_MAXCCALLS.
    rewrite (@set_from_ast_record 199 L id (l_value lv) s nm fs [] _ Hh Hi Hr).
    cbn [table_entries List.length seq map combine app for_each fst snd].
    unfold bind at 1 2. step Hget. cbn [hd].
    unfold lua_pushinteger. step Hset. reflexivity.
  - apply (@peek_holds (with_heap L2 h2) id (l_value lv) s p).
    + apply keeps_with_heap. apply (@keeps_push L _). exact Hh.
    + exact Hl3.
Qed.

Lemma set_from_ast_sets_named_field_witness :
  exists L1 vs',
    l_value_set_from_ast [LUserdata 0; LTable [] [(LStr "x", num 5)]] record_state
    = Returns [] L1
    /\ peek L1 0 = Some (record_schema, VRecord vs')
    /\ nth_error vs' 0 = Some (VInt 5).
Proof.
  destruct (@set_from_ast_sets_named_field record_state 0 record_schema "point"
              [("x", SInt, None); ("tag", SUnion [SNull; SString], None)]
              [VInt 7; VUnion 1 (VString "a")] 0 ("x", SInt, None) "x" 7 5
              ltac:(vm_compute; reflexivity) eq_refl eq_refl
              ltac:(vm_compute; reflexivity) eq_refl eq_refl eq_refl)
    as [L1 [vs' [H1 [H2 [H3 _]]]]].
  exists L1, vs'. split; [exact H1|]. split; assumption.
Defined.

(** ** Populating a map *)

(** [set_from_ast] does not empty a map first, as it empties an array:
    with a table of one entry, a string key that up to its first NUL is
    no key of the map and an integer, it adds that entry, under the key
    cut there, after the ones the map holds. *)
Theorem set_from_ast_adds_map_entry (L : lua_State) (id : nat) (s vs : schema)
  (kvs : list (string * value)) (key : string) (z : Z) :
  peek L id = Some (s, VMap kvs) ->
  resolve (named L) s = SMap vs ->
  resolve (named L) vs = SInt ->
  map_index (c_str key) kvs = None ->
  CInt.in_int32 z = true ->
  exists L1,
    l_value_set_from_ast [LUserdata id; LTable [] [(LStr key, lua_pushinteger z)]] L
    = Returns [] L1
    /\ peek L1 id = Some (s, VMap (kvs ++ [(c_str key, VInt z)])).
Proof.
  intros Hp Hr Hit Hidx Hz.
  destruct (@peek_inv _ _ _ _ Hp) as [lv [p [Hu [Hi [Hs Hl]]]]].
  pose proof (@holds_wrapper _ _ _ Hu) as Hh.
  pose proof (@new_int _ _ Hit) as Hnew.
  assert (Hop : Generic.add (named L) s (VMap kvs) (c_str key)
                = Ok (VMap (kvs ++ [(c_str key, VInt 0)]), (vs, List.length kvs))).
  { unfold Generic.add. rewrite Hr, Hnew. cbn [rbind].
    rewrite (@map_add_fresh (c_str key) (VInt 0) kvs (@map_index_None (c_str key) kvs Hidx)).
    rewrite (@map_index_app_fresh (c_str key) (VInt 0) kvs Hidx). reflexivity. }
  destruct (@child_with_ok (l_value lv) L s p (VMap kvs) (VMap (kvs ++ [(c_str key, VInt 0)]))
              (vs, List.length kvs) (fun env s x => Generic.add env s x (c_str key)) Hl Hop)
    as [h [Hcw [Hl' _]]].
  set (L1 := with_heap L h) in *.
  set (L2 := with_udata L1 (udata L1 ++ [element_view p vs (List.length kvs)])).
  assert (Hl2 : load (l_value lv) L2 = Returns (s, p, VMap (kvs ++ [(c_str key, VInt 0)])) L2).
  { apply (@load_with_udata (l_value lv) L1). exact Hl'. }
  assert (Hview : holds L2 (List.length (udata L1))
                    (child_value p (vs, List.length kvs))).
  { exists false. unfold L2. cbn [udata with_udata].
    rewrite nth_error_app2, Nat.sub_diag by lia. reflexivity. }
  destruct (@call_set_from_ast_int 198 L2 (List.length (udata L1))
              (child_value p (vs, List.length kvs)) s p
              (VMap (kvs ++ [(c_str key, VInt 0)])) (VMap (kvs ++ [(c_str key, VInt z)]))
              vs [List.length kvs] 0 (LuaNumber.of_integer z) (l_value lv)
              Hview eq_refl Hit Hl2)
    as [h2 [Hset Hl3]].
  { cbn [get_at]. rewrite nth_error_app2, Nat.sub_diag by lia. reflexivity. }
  { cbn [set_at].
    rewrite (to_integer_of_integer (in_int32_small _ Hz)), (wrap_signed_small _ Hz).
    rewrite (@update_nth_last_with _ _ kvs (c_str key, VInt 0) (c_str key, VInt z) eq_refl).
    reflexivity. }
  exists (with_heap L2 h2). split.
  - unfold l_value_set_from_ast, LUAI_MAXCCALLS.
    rewrite (@set_from_ast_map 199 L id (l_value lv) s vs [] _ Hh Hi Hr).
    cbn [table_entries List.length seq map combine app for_each fst snd lua_tostring].
    lua_simpl. unfold avro_value_add.
    unfold bind at 1 2.
    rewrite (@bind_Returns _ _ _ _ _ _ _ (@check_Ok _ _ _ _ _ Hcw)).
    fold L1.
    step (lua_avro_push_value_ok (child_value p (vs, List.length kvs)) false L1).
    fold L2.
    cbn [rawget lua_rawequal]. rewrite String.eqb_refl.
    unfold lua_pushinteger in *. step Hset. reflexivity.
  - apply (@peek_holds (with_heap L2 h2) id (l_value lv) s p).
    + apply keeps_with_heap. unfold L2. apply (@keeps_push L1 _). exact Hh.
    + exact Hl3.
Qed.

Lemma set_from_ast_adds_map_entry_witness :
  exists L1,
    l_value_set_from_ast [LUserdata 0; LTable [] [(LStr "c", num 3)]] map_state
    = Returns [] L1
    /\ peek L1 0 = Some (SMap SInt, VMap [("a", VInt 1); ("b", VInt 2); ("c", VInt 3)]).
Proof.
  apply (@set_from_ast_adds_map_entry map_state 0 (SMap SInt) SInt
           [("a", VInt 1); ("b", VInt 2)] "c" 3);
    vm_compute; reflexivity.
Defined.

(** ** Doubles *)

(** A double value set to a Lua number holds that number, bit for bit,
    and [get] returns it. *)
Theorem double_set_then_get (L : lua_State) (id : nat) (s : schema) (old n : Z) :
  peek L id = Some (s, VDouble old) ->
  type_of L id = Some AVRO_DOUBLE ->
  exists L1,
    l_value_set [LUserdata id; LNum n] L = Returns [] L1
    /\ l_value_get [LUserdata id] L1 = Returns [LNum n] L1
    /\ peek L1 id = Some (s, VDouble n).
Proof.
  intros Hp Ht.
  destruct (@peek_inv _ _ _ _ Hp) as [lv [p [Hu [Hi [Hs Hl]]]]].
  pose proof (@type_of_inv _ _ _ _ _ Hu Hi Ht) as Hty.
  destruct (@set_with_ok (l_value lv) L s p (VDouble old) (VDouble n)
              (fun _ _ x => Generic.set_double x n) Hl eq_refl)
    as [h [Hset [Hl' _]]].
  exists (with_heap L h). split; [|split].
  - unfold l_value_set.
    step (@lua_avro_get_value_ok [LUserdata id; LNum n] 1 id L lv eq_refl Hu).
    step (@avro_value_get_type_ok _ L _ Hi). rewrite Hty.
    unfold luaL_checknumber. cbn [lua_arg Nat.sub nth lua_tonumber].
    lua_simpl.
    step (@check_Ok _ _ _ _ _ Hset). reflexivity.
  - unfold l_value_get.
    step (@lua_avro_get_value_ok [LUserdata id] 1 id (with_heap L h) lv eq_refl Hu).
    step (@avro_value_get_type_ok _ (with_heap L h) _ Hi).
    cbn [named with_heap]. rewrite Hty.
    step (@check_Ok _ _ _ _ _
            (@get_with_ok _ _ _ _ _ _ (fun _ _ x => Generic.get_double x) Hl')).
    reflexivity.
  - exact (@peek_with_heap L h id lv s p (VDouble n) Hu Hl').
Qed.

Lemma double_set_then_get_witness :
  exists L1,
    l_value_set [LUserdata 0; num 5] double_state = Returns [] L1
    /\ l_value_get [LUserdata 0] L1 = Returns [num 5] L1.
Proof.
  destruct (@double_set_then_get double_state 0 SDouble 0 (LuaNumber.of_integer 5)
              ltac:(vm_compute; reflexivity) ltac:(vm_compute; reflexivity))
    as [L1 [H1 [H2 _]]].
  exists L1. split; assumption.
Defined.

(** ** Resolvers *)

(** A resolver of a schema to itself serves one destination after
    another: decoding the encoding of a value into a first and then into
    a second destination, held in different cells, leaves both holding
    the value. *)
Theorem resolver_is_reusable (L : lua_State) (rid d1 d2 c1 c2 : nat)
  (s s1 s2 : schema) (x a1 a2 : value) (rv : avro_value_t) :
  nth_error (udata L) rid
  = Some (UdResolvedWriter {| resolver := Some (s, s); rw_value := Some rv |}) ->
  nth_error (udata L) d1 = Some (owner s1 c1) ->
  nth_error (udata L) d2 = Some (owner s2 c2) ->
  nth_error (heap L) c1 = Some (live a1) ->
  nth_error (heap L) c2 = Some (live a2) ->
  c1 <> c2 ->
  Generic.schema_equal (resolve (named L) s1) (resolve (named L) s) = true ->
  Generic.schema_equal (resolve (named L) s2) (resolve (named L) s) = true ->
  has_type (named L) x s = true ->
  Codec.well_formed (named L) s = true ->
  (Codec.depth x <= c_stack L)%nat ->
  exists L1 L2,
    l_resolved_writer_decode
      [LUserdata rid; LStr (string_of_bytes (Codec.encode x)); LUserdata d1] L
    = Returns [LBool true] L1
    /\ l_resolved_writer_decode
         [LUserdata rid; LStr (string_of_bytes (Codec.encode x)); LUserdata d2] L1
       = Returns [LBool true] L2
    /\ peek L2 d1 = Some (s1, x)
    /\ peek L2 d2 = Some (s2, x).
Proof.
  intros Hrw Hd1 Hd2 Hc1 Hc2 Hne Heq1 Heq2 Ht Hwf Hdepth.
  assert (Hl1 : load {| iface := Some s1; self := Some (c1, []) |} L
                = Returns (s1, (c1, []), a1) L).
  { unfold load. cbn [iface self]. rewrite Hc1. reflexivity. }
  assert (Hl2 : load {| iface := Some s2; self := Some (c2, []) |} L
                = Returns (s2, (c2, []), a2) L).
  { unfold load. cbn [iface self]. rewrite Hc2. reflexivity. }
  assert (Hr1 : d1 <> rid) by (intros ->; rewrite Hrw in Hd1; discriminate).
  assert (Hr2 : d2 <> rid) by (intros ->; rewrite Hrw in Hd2; discriminate).
  destruct (@l_resolved_writer_decode_ok rid d1 s s1 x L rv _ (c1, []) a1
              Hrw Hd1 Hl1 Heq1 Ht Hwf Hdepth)
    as [us [h [Hdec1 [Hn1 [Hou1 [Hlx1 Hfr1]]]]]].
  set (L1 := with_heap (with_udata L us) h) in *.
  assert (Hd2' : nth_error (udata L1) d2 = Some (owner s2 c2)).
  { unfold L1. cbn [udata with_heap with_udata]. rewrite (Hou1 d2 Hr2). exact Hd2. }
  assert (Hl2' : load {| iface := Some s2; self := Some (c2, []) |} L1
                 = Returns (s2, (c2, []), a2) L1).
  { apply (@load_other_cell _ (with_udata L us) h).
    - apply (@load_with_udata _ L). exact Hl2.
    - cbn [fst]. apply Hfr1. cbn [fst]. congruence. }
  destruct (@l_resolved_writer_decode_ok rid d2 s s2 x L1 _ _ (c2, []) a2
              Hn1 Hd2' Hl2' Heq2 Ht Hwf Hdepth)
    as [us2 [h2 [Hdec2 [Hn2 [Hou2 [Hlx2 Hfr2]]]]]].
  exists L1, (with_heap (with_udata L1 us2) h2).
  split; [exact Hdec1|]. split; [exact Hdec2|]. split.
  - apply (@peek_holds _ d1 {| iface := Some s1; self := Some (c1, []) |} s1 (c1, [])).
    + exists true. cbn [udata with_heap with_udata]. rewrite (Hou2 d1 Hr1).
      unfold L1. cbn [udata with_heap with_udata]. rewrite (Hou1 d1 Hr1). exact Hd1.
    + apply (@load_other_cell _ (with_udata L1 us2) h2).
      * apply (@load_with_udata _ L1). exact Hlx1.
      * cbn [fst]. apply Hfr2. cbn [fst]. congruence.
  - apply (@peek_holds _ d2 {| iface := Some s2; self := Some (c2, []) |} s2 (c2, [])).
    + exists true. cbn [udata with_heap with_udata]. rewrite (Hou2 d2 Hr2). exact Hd2'.
    + exact Hlx2.
Qed.

Lemma resolver_is_reusable_witness :
  exists L1 L2,
    l_resolved_writer_decode
      [LUserdata 1;
       LStr (string_of_bytes (Codec.encode (VRecord [VInt 3; VUnion 0 VNull])));
       LUserdata 0] record_state
    = Returns [LBool true] L1
    /\ l_resolved_writer_decode
         [LUserdata 1;
          LStr (string_of_bytes (Codec.encode (VRecord [VInt 3; VUnion 0 VNull])));
          LUserdata 2] L1
       = Returns [LBool true] L2
    /\ peek L2 0 = Some (record_schema, VRecord [VInt 3; VUnion 0 VNull])
    /\ peek L2 2 = Some (record_schema, VRecord [VInt 3; VUnion 0 VNull]).
Proof.
  apply (@resolver_is_reusable record_state 1 0 2 0 1 record_schema
           record_schema record_schema (VRecord [VInt 3; VUnion 0 VNull])
           (VRecord [VInt 7; VUnion 1 (VString "a")]) (VRecord [VInt 0; VUnset])
           {| iface := None; self := None |});
    try reflexivity; try (vm_compute; lia); vm_compute; reflexivity.
Defined.

(** When the bytes cannot be read, [decode] of a resolver raises
    nothing: it returns nil and the text of the error. *)
Theorem failed_decode_returns_message (L : lua_State) (rid did : nat)
  (w r sd : schema) (d0 : value) (rv : avro_value_t) (buf : string) (e : avro_error) :
  nth_error (udata L) rid
  = Some (UdResolvedWriter {| resolver := Some (w, r); rw_value := Some rv |}) ->
  peek L did = Some (sd, d0) ->
  Generic.schema_equal (resolve (named L) sd) (resolve (named L) r) = true ->
  Codec.rdecode (c_stack L) (named L) w r (bytes_of_string buf) = Err e ->
  e <> TooDeep ->
  exists L1,
    l_resolved_writer_decode [LUserdata rid; LStr buf; LUserdata did] L
    = Returns [LNil; LStr (avro_strerror e)] L1.
Proof.
  intros Hrw Hp Heq Hdec Hne.
  destruct (@peek_inv _ _ _ _ Hp) as [lv [p [Hu [Hi [Hs Hl]]]]].
  set (rw := {| resolver := Some (w, r); rw_value := Some (l_value lv) |}).
  destruct (@update_nth_Some _ (udata L) rid (fun _ => Some (UdResolvedWriter rw)) _
              (UdResolvedWriter rw) Hrw eq_refl) as [us [Hup [Hn [_ Hother]]]].
  set (L1 := with_udata L us).
  assert (Hl1 : load (l_value lv) L1 = Returns (sd, p, d0) L1).
  { apply (@load_same_heap (l_value lv) L L1); [reflexivity | exact Hl]. }
  exists L1.
  unfold l_resolved_writer_decode, checkudata_resolved_writer.
  cbn [lua_arg Nat.sub nth]. unfold bind at 1 2. unfold get_state at 1.
  rewrite Hrw. cbn [ret].
  unfold luaL_checklstring. cbn [lua_arg Nat.sub nth lua_tostring]. lua_simpl.
  step (@lua_avro_get_value_ok [LUserdata rid; LStr buf; LUserdata did]
          3 did L lv eq_refl Hu).
  cbn [resolver rw_value].
  unfold bind at 1. unfold set_udata at 1. fold rw. rewrite Hup. fold L1.
  assert (Hread : avro_value_read (bytes_of_string buf) w r (l_value lv) L1
                  = Returns (Err e) L1).
  { unfold avro_value_read. step Hl1. unfold bind at 1. unfold get_state at 1.
    change (named L1) with (named L). change (c_stack L1) with (c_stack L).
    rewrite Heq, Hdec. destruct e; try reflexivity. contradiction. }
  step Hread. reflexivity.
Qed.

Lemma failed_decode_returns_message_witness :
  exists L1 msg,
    l_resolved_writer_decode [LUserdata 1; LStr ""; LUserdata 2] record_state
    = Returns [LNil; LStr msg] L1.
Proof.
  destruct (@failed_decode_returns_message record_state 1 2 record_schema
              record_schema record_schema (VRecord [VInt 0; VUnset])
              {| iface := None; self := None |} "" Truncated
              eq_refl ltac:(vm_compute; reflexivity) ltac:(vm_compute; reflexivity)
              ltac:(vm_compute; reflexivity) ltac:(discriminate))
    as [L1 H1].
  exists L1, (avro_strerror Truncated). exact H1.
Defined.

(** ** Calls a record does not take *)


